(** * MongoDB Mini Toolz: the streaming batch-transfer engine

    A shallow embedding of the server part of the repository (the three
    job routes [/api/backup], [/api/transfer], [/api/upload], the helper
    [emitProgress], the deferred deletion [scheduleCleanup] and the line
    counter [countLinesStream]) together with the properties its
    specification states about them, followed by further properties of
    the routes, of the download route and of the script of the page (its
    forms and the listeners of its socket).

    Conventions of the embedding.
    - JavaScript numbers that hold counts are integers ([Z]); the three
      expressions that leave the integers (a quotient, a product, an
      elapsed time in seconds) are rationals ([Q]) passed through [rn],
      the rounding of a real result to a representable number
      ([Binary64.round] for the doubles of JavaScript).
    - [null] / [undefined] are [None].
    - Asynchronous calls are sequenced as the [await]s sequence them: a
      computation is a function from the process state to an outcome,
      which is a normal return, a thrown error, or the state reached when
      the given number of loop iterations is used up.
    - Everything the handlers do to the outside (driver calls, file
      system calls, socket emissions, the HTTP response) is appended to a
      trace, in order.
    - Driver calls can reject, as the environment of a job says. Calls
      into the file system, the archiver and the unzipper are taken to
      succeed, except the counting of the lines of an import file: the
      embedding describes the runs in which the directories of a job can
      be made, its streams work and its archive is written and read.
      What a route does when one of these calls fails is outside it. *)

From Stdlib Require Import ZArith QArith Qround Qpower String Ascii List Lia.
From stdpp Require Import base option list strings pretty gmap.

Local Open Scope string_scope.
Local Open Scope Z_scope.

(** ** JavaScript values and built-ins used by the server *)

Module Js.

(** Truthiness of a string-valued request field: [undefined] and the empty
    string are falsy. *)
Definition truthy_str (v : option string) : bool :=
  match v with
  | None => false
  | Some s => negb (String.eqb s "")
  end.

(** Truthiness of a number-or-null: [null], [0] (and [NaN], which does not
    occur for the counts handled here) are falsy. *)
Definition truthy_num (v : option Z) : bool :=
  match v with
  | None => false
  | Some n => negb (n =? 0)
  end.

(** White space in the sense of [String.prototype.trim] and of the prefix
    skipped by [parseInt], restricted to the one-byte code units that
    [ascii] can hold: TAB, LF, VT, FF, CR, SPACE and NBSP. *)
Definition is_white (c : ascii) : bool :=
  let n := nat_of_ascii c in
  ((9 <=? n)%nat && (n <=? 13)%nat) || (n =? 32)%nat || (n =? 160)%nat.

Fixpoint trimStart (s : string) : string :=
  match s with
  | EmptyString => EmptyString
  | String c r => if is_white c then trimStart r else s
  end.

Fixpoint rev_string (acc s : string) : string :=
  match s with
  | EmptyString => acc
  | String c r => rev_string (String c acc) r
  end.

Definition trimEnd (s : string) : string :=
  rev_string "" (trimStart (rev_string "" s)).

Definition trim (s : string) : string := trimEnd (trimStart s).

(** Value of a decimal digit, if the code unit is one. *)
Definition digit (c : ascii) : option Z :=
  let n := nat_of_ascii c in
  if ((48 <=? n)%nat && (n <=? 57)%nat)%bool then Some (Z.of_nat n - 48) else None.

(** The longest prefix of decimal digits, read most significant first;
    [None] when the prefix is empty. *)
Fixpoint digits (acc : option Z) (s : string) : option Z :=
  match s with
  | EmptyString => acc
  | String c r =>
      match digit c with
      | Some d => digits (Some (10 * default 0 acc + d)) r
      | None => acc
      end
  end.

(** [parseInt(s, 10)]: skip leading white space, read an optional sign,
    read the longest run of digits; [NaN] ([None]) if that run is empty.
    A negative zero is the integer zero. The result here is the integer
    that the digits denote. The result in the source is the number
    nearest to that integer, which is the same for every integer of at
    most 2^53 in absolute value; beyond that the source rounds (and reads
    digits that denote more than the largest number, about 1.8e308, as
    [Infinity]) where the embedding keeps the integer, so a batch size is
    followed faithfully up to 2^53. *)
Definition parseInt (s : string) : option Z :=
  match trimStart s with
  | String "-" r => Z.opp <$> digits None r
  | String "+" r => digits None r
  | t => digits None t
  end.

(** [parseInt] applied to a request field: the argument is first converted
    with ToString, and ToString(undefined) is the text [undefined]. *)
Definition parseInt_field (v : option string) : option Z :=
  parseInt (default "undefined" v).

(** [Math.round]: the nearest integer, ties towards plus infinity. *)
Definition Math_round (x : Q) : Z := Qfloor (x + (1 # 2)).

(** [s.endsWith(suffix)] *)
Fixpoint startsWith_rev (p s : string) : bool :=
  match p, s with
  | EmptyString, _ => true
  | String a p', String b s' => Ascii.eqb a b && startsWith_rev p' s'
  | String _ _, EmptyString => false
  end.

Definition endsWith (s suffix : string) : bool :=
  startsWith_rev (rev_string "" suffix) (rev_string "" s).

Fixpoint drop_str (n : nat) (s : string) : string :=
  match n, s with
  | O, _ => s
  | S n', String _ r => drop_str n' r
  | S _, EmptyString => EmptyString
  end.

Fixpoint take_str (n : nat) (s : string) : string :=
  match n, s with
  | O, _ => EmptyString
  | S n', String c r => String c (take_str n' r)
  | S _, EmptyString => EmptyString
  end.

(** [s.indexOf("\n")], with [None] for the result [-1]. *)
Fixpoint indexOf_nl (s : string) : option nat :=
  match s with
  | EmptyString => None
  | String c r => if Ascii.eqb c "010" then Some O else S <$> indexOf_nl r
  end.

(** Removal of a suffix known to be present. *)
Definition chop (s suffix : string) : string :=
  take_str (String.length s - String.length suffix) s.

(** [f.replace(/\.(ndjson|json)$/, "")] *)
Definition strip_ext (f : string) : string :=
  if endsWith f ".ndjson" then chop f ".ndjson"
  else if endsWith f ".json" then chop f ".json"
  else f.

End Js.

(** ** The effective batch size: [parseInt(req.body.batchSize, 10) || 1000] *)

Definition BATCH_SIZE (batchSize : option string) : Z :=
  match Js.parseInt_field batchSize with
  | None => 1000
  | Some n => if n =? 0 then 1000 else n
  end.


(** ** What the embedding takes from outside the repository

    The document type of the driver with its JSON codec, the rounding of
    real results to numbers, and two constants computed at start-up. *)

Class Platform := {
  Doc : Type;
  JSON_stringify : Doc -> string;
  JSON_parse : string -> option Doc;
  rn : Q -> Q;
  UPLOAD_DIR : string;
  CLEANUP_TTL_MIN : Z
}.

(** Rounding to the nearest representable number is monotone. *)
Class RoundingMonotone (P : Platform) : Prop :=
  rn_mono : forall x y : Q, (x <= y)%Q -> (rn x <= rn y)%Q.

(** ** Round to nearest, ties to even, on 53 bits

    The rounding that JavaScript numbers apply to the real result of
    [/] and [*], for results inside the exponent range of a double (the
    counts, totals and millisecond clocks of a job stay far inside). *)

Module Binary64.

(** The binade of a positive rational: the [e] with [2^e <= x < 2^(e+1)]. *)
Definition binade (x : Q) : Z :=
  let k := Z.log2 (Qnum x) - Z.log2 (Zpos (Qden x)) in
  if Qle_bool (2 ^ k) x then k else k - 1.

(** The nearest integer, a tie going to the even one. *)
Definition nearest_even (x : Q) : Z :=
  let d := Qfloor x in
  match (x - inject_Z d ?= 1 # 2)%Q with
  | Lt => d
  | Gt => d + 1
  | Eq => if Z.even d then d else d + 1
  end.

(** A positive number keeps 53 significant bits. *)
Definition round_pos (x : Q) : Q :=
  let s := binade x - 52 in
  (inject_Z (nearest_even (x / 2 ^ s)) * 2 ^ s)%Q.

Definition round (x : Q) : Q :=
  match Qnum x with
  | 0 => 0%Q
  | Zpos _ => round_pos x
  | Zneg _ => (- round_pos (- x))%Q
  end.

End Binary64.

(** ** Progress metrics

    The same four expressions are written out in the batch loop of each
    route (and once more for the trailing batch of an import). *)

Section Metrics.
Context {P : Platform}.

(** [Math.max(1, (Date.now() - start) / 1000)] *)
Definition elapsedSec (now start : Z) : Q :=
  let x := rn (inject_Z (now - start) / inject_Z 1000) in
  if Qle_bool 1 x then x else 1%Q.

(** [Math.round(done / elapsedSec)] *)
Definition speed_of (done : Z) (elapsed : Q) : Z :=
  Js.Math_round (rn (inject_Z done / elapsed)).

(** The argument of the rounding in [percent]: [(done / totalDocs) * 100] *)
Definition ratio100 (done total : Z) : Q :=
  rn (rn (inject_Z done / inject_Z total) * inject_Z 100).

(** [totalDocs ? Math.min(100, Math.round((done / totalDocs) * 100)) : null] *)
Definition percent_of (totalDocs : option Z) (done : Z) : option Z :=
  if Js.truthy_num totalDocs
  then Some (Z.min 100 (Js.Math_round (ratio100 done (default 0 totalDocs))))
  else None.

(** [totalDocs && speed ? Math.max(0, Math.round((totalDocs - done) / speed)) : null] *)
Definition etaSec_of (totalDocs : option Z) (speed done : Z) : option Z :=
  if Js.truthy_num totalDocs && negb (speed =? 0)
  then Some (Z.max 0 (Js.Math_round
                        (rn (inject_Z (default 0 totalDocs - done) / inject_Z speed))))
  else None.

End Metrics.

(** ** The cleanup registry: [scheduledCleanups] and [scheduleCleanup]

    [setTimeout] hands the callback to the event loop; the registry state
    therefore holds, besides the map, the timers that are armed and the
    callbacks that have started and are suspended at [await fs.remove]. *)

Module Cleanup.

Record Timer := { timer_path : string; timer_ttl : Z }.

Record Registry := {
  scheduledCleanups : gmap string nat;   (* path to timer handle *)
  timers : gmap nat Timer;               (* armed, not yet fired *)
  removing : gmap nat string;            (* fired, [fs.remove] not settled *)
  next_timer : nat;                      (* handles are never reused *)
  fired : list nat;                      (* handles in the order they fired *)
  warnings : list string                 (* [console.warn] *)
}.

Definition empty : Registry :=
  {| scheduledCleanups := ∅; timers := ∅; removing := ∅;
     next_timer := 0; fired := []; warnings := [] |}.

(** [scheduleCleanup(absPath, ttlMs)] *)
Definition scheduleCleanup (absPath : string) (ttlMs : Z) (r : Registry) : Registry :=
  match scheduledCleanups r !! absPath with
  | Some _ => r
  | None =>
      let t := next_timer r in
      {| scheduledCleanups := <[absPath := t]> (scheduledCleanups r);
         timers := <[t := {| timer_path := absPath; timer_ttl := ttlMs |}]> (timers r);
         removing := removing r;
         next_timer := S t;
         fired := fired r;
         warnings := warnings r |}
  end.

(** The timer [t] fires: its callback starts and reaches [await fs.remove]. *)
Definition fire (t : nat) (r : Registry) : Registry :=
  match timers r !! t with
  | None => r
  | Some tm =>
      {| scheduledCleanups := scheduledCleanups r;
         timers := delete t (timers r);
         removing := <[t := timer_path tm]> (removing r);
         next_timer := next_timer r;
         fired := fired r ++ [t];
         warnings := warnings r |}
  end.

(** [fs.remove] of the callback of [t] settles ([ok] or rejected); the
    callback warns on rejection and then deletes the key. *)
Definition settle (t : nat) (ok : bool) (r : Registry) : Registry :=
  match removing r !! t with
  | None => r
  | Some absPath =>
      {| scheduledCleanups := delete absPath (scheduledCleanups r);
         timers := timers r;
         removing := delete t (removing r);
         next_timer := next_timer r;
         fired := fired r;
         warnings := if ok then warnings r
                     else warnings r ++ ["cleanup remove failed " +:+ absPath] |}
  end.

(** What can happen to the registry, one event-loop turn at a time. *)
Inductive Action :=
| Schedule (absPath : string) (ttlMs : Z)
| Fire (t : nat)
| Settle (t : nat) (ok : bool).

Definition act (a : Action) (r : Registry) : Registry :=
  match a with
  | Schedule p ttl => scheduleCleanup p ttl r
  | Fire t => fire t r
  | Settle t ok => settle t ok r
  end.

Definition run (l : list Action) (r : Registry) : Registry :=
  fold_left (fun r a => act a r) l r.

(** The armed timers whose callback deletes [absPath]. *)
Definition pending (absPath : string) (r : Registry) : list (nat * Timer) :=
  filter (fun x => timer_path (snd x) = absPath) (map_to_list (timers r)).

End Cleanup.

(** ** The trace of a job *)

Section Server.
Context {P : Platform}.

(** Calls into the MongoDB driver. Each of them can reject. *)
Inductive StoreOp :=
| NewMongoClient (uri : option string)
| Connect (uri : option string)
| Close (uri : option string)
| ListCollections (db : option string)
| CountDocuments (coll : string)
| DeleteMany (coll : string)
| HasNext (coll : string)
| Next (coll : string)
| InsertMany (coll : string) (docs : list Doc).

(** Calls into the file system, the archiver and the unzipper. *)
Inductive FsOp :=
| EnsureDir (path : string)
| CreateWriteStream (path : string)
| WsWrite (path data : string)
| WsEnd (path : string)
| Archive (dir zip : string)
| Extract (file dir : string)
| Readdir (dir : string)
| CreateReadStream (path : string)
| CountLines (path : string)
| Remove (path : string).

(** Payloads of the socket events. The counter of a collection event is
    [index], [migratedCollections] or [importedCollections] /
    [importedCount], and [done] is [docsDone], [transferred] or
    [importedCount], according to the route. *)
Inductive Payload :=
| P_start (total : nat) (collections : option (list string)) (batchSize : option Z)
| P_collection_start (collection : string) (counter : Z) (totalDocs : option Z)
| P_progress (collection : string) (done : Z) (totalDocs percent : option Z)
             (speed : Z) (etaSec : option Z)
| P_collection_done (collection : string) (counter : Z)
| P_done_zip (zip : string)
| P_done_count (n : Z)
| P_error (message : string).

Inductive Body :=
| B_error (error : string)
| B_ok_zip (zip : string)
| B_ok_count (n : Z).

Inductive Call :=
| Store (op : StoreOp) (rejected : option string)
| Fs (op : FsOp)
| EmitProgress (event : string) (payload : Payload)
| IoEmit (socketId event : string) (payload : Payload)
| ScheduleCleanup (absPath : string)
| Respond (status : Z) (body : Body).

(** ** Process state and the environment of a job *)

Record State := {
  registry : Cleanup.Registry;
  trace : list Call;
  ops : nat;      (* driver calls made so far *)
  ticks : nat     (* readings of [Date.now()] so far *)
}.

Record Collection := {
  coll_name : string;
  coll_docs : list Doc;      (* what the cursor of [find()] yields *)
  coll_count : N             (* what [countDocuments()] resolves to *)
}.

Record File := {
  file_name : string;
  file_chunks : list string; (* what the read stream yields *)
  count_rejects : bool       (* [countLinesStream] rejects *)
}.

Record Env := {
  store_fail : nat -> option string;  (* message, if the k-th driver call rejects *)
  Date_now : nat -> Z;                (* the k-th reading of the clock *)
  collections_of : list Collection;   (* [listCollections()] of the source, in listing order *)
  files_of : list File                (* [readdir(extractDir)] after extraction *)
}.

Record Request := {
  uri : option string;
  dbName : option string;
  srcUri : option string;
  srcDb : option string;
  dstUri : option string;
  dstDb : option string;
  socketId : option string;
  batchSize : option string;
  file : option string        (* [req.file.path] *)
}.

(** ** Computations *)

Inductive Outcome (A : Type) :=
| Ret (a : A) (s : State)
| Throw (message : string) (s : State)
| Diverge (s : State).   (* the loop budget ran out in state [s] *)
Arguments Ret {A}.
Arguments Throw {A}.
Arguments Diverge {A}.

Definition M (A : Type) : Type := State -> Outcome A.

Definition ret {A} (a : A) : M A := fun s => Ret a s.

Definition bind {A B} (m : M A) (k : A -> M B) : M B :=
  fun s => match m s with
           | Ret a s' => k a s'
           | Throw e s' => Throw e s'
           | Diverge s' => Diverge s'
           end.

Definition diverge {A} : M A := fun s => Diverge s.

(** [try { body } catch (err) { handler }] *)
Definition try_catch {A} (body : M A) (handler : string -> M A) : M A :=
  fun s => match body s with
           | Throw e s' => handler e s'
           | o => o
           end.

(** [try { body } finally { fin }] *)
Definition try_finally {A} (body : M A) (fin : M unit) : M A :=
  fun s => match body s with
           | Ret a s' => bind fin (fun _ => ret a) s'
           | Throw e s' => bind fin (fun _ s'' => Throw e s'') s'
           | Diverge s' => Diverge s'
           end.

End Server.

Arguments Ret {P A}.
Arguments Throw {P A}.
Arguments Diverge {P A}.

Declare Scope job_scope.
Delimit Scope job_scope with job.
Notation "x <- m ;; k" := (bind m (fun x => k))
  (at level 100, m at next level, right associativity) : job_scope.
Notation "m ;;; k" := (bind m (fun _ => k))
  (at level 100, right associativity) : job_scope.

(** ** Primitive effects *)

Section Handlers.
Context {P : Platform} (env : Env).
Local Open Scope job_scope.

Definition log (c : Call) : M unit :=
  fun s => Ret tt {| registry := registry s; trace := trace s ++ [c];
                     ops := ops s; ticks := ticks s |}.

(** An awaited driver call: it is recorded with its outcome, and rejects
    when the environment says so. *)
Definition store (op : StoreOp) : M unit :=
  fun s =>
    let r := store_fail env (ops s) in
    let s' := {| registry := registry s; trace := trace s ++ [Store op r];
                 ops := S (ops s); ticks := ticks s |} in
    match r with
    | Some e => Throw e s'
    | None => Ret tt s'
    end.

(** A call into the file system, the archiver or the unzipper. It is
    recorded, and it is taken to succeed: the embedding describes the
    runs of the routes in which the file system does what it is asked. *)
Definition fs (op : FsOp) : M unit := log (Fs op).

Definition now : M Z :=
  fun s => Ret (Date_now env (ticks s))
               {| registry := registry s; trace := trace s;
                  ops := ops s; ticks := S (ticks s) |}.

(** [emitProgress(socketId, event, payload)]: nothing reaches the socket
    server when [socketId] is falsy. *)
Definition emitProgress (socketId : option string) (event : string) (payload : Payload)
  : M unit :=
  log (EmitProgress event payload);;;
  if Js.truthy_str socketId
  then log (IoEmit (default "" socketId) event payload)
  else ret tt.

(** [scheduleCleanup(absPath)] with the default [ttlMs]. *)
Definition scheduleCleanup (absPath : string) : M unit :=
  log (ScheduleCleanup absPath);;;
  fun s => Ret tt {| registry := Cleanup.scheduleCleanup absPath
                                   (CLEANUP_TTL_MIN * 60 * 1000) (registry s);
                     trace := trace s; ops := ops s; ticks := ticks s |}.

Definition path_join (dir name : string) : string := dir +:+ "/" +:+ name.

(** [path.basename]: what follows the last slash. *)
Fixpoint basename_from (acc s : string) : string :=
  match s with
  | EmptyString => acc
  | String c r => if Ascii.eqb c "/" then basename_from r r else basename_from acc r
  end.
Definition basename (s : string) : string := basename_from s s.

(** [countLinesStream]: the number of line feeds, chunk by chunk. *)
Fixpoint count_nl (count : Z) (chunk : string) : Z :=
  match chunk with
  | EmptyString => count
  | String c r => count_nl (if Ascii.eqb c "010" then count + 1 else count) r
  end.

Definition countLinesStream (chunks : list string) : Z :=
  fold_left count_nl chunks 0.

(** The progress event after a batch, as each loop builds it. *)
Definition progress (socketId : option string) (event collection : string)
    (done : Z) (totalDocs : option Z) (start : Z) : M unit :=
  t <- now;;
  let elapsed := elapsedSec t start in
  let speed := speed_of done elapsed in
  let percent := percent_of totalDocs done in
  let etaSec := etaSec_of totalDocs speed done in
  emitProgress socketId event
    (P_progress collection done totalDocs percent speed etaSec).

(** [let totalDocs = 0; try { totalDocs = await coll.countDocuments(); }
     catch (e) { totalDocs = 0; }] *)
Definition count_or_zero (c : Collection) : M (option Z) :=
  try_catch (store (CountDocuments (coll_name c));;; ret (Some (Z.of_N (coll_count c))))
            (fun _ => ret (Some 0)).

(** ** The batch pull shared by export and copy

    [for (let i = 0; i < BATCH_SIZE && (await cursor.hasNext()); i++)
       batch.push(await cursor.next());]
    The cursor is the list of documents it has not yet yielded. *)
Fixpoint pull (name : string) (BATCH : Z) (i : Z) (cursor batch : list Doc)
  : M (list Doc * list Doc) :=
  if i <? BATCH then
    store (HasNext name);;;
    match cursor with
    | [] => ret (batch, [])
    | doc :: rest =>
        store (Next name);;;
        pull name BATCH (i + 1) rest (batch ++ [doc])
    end
  else ret (batch, cursor).

(** [for (const d of batch) ws.write(JSON.stringify(d) + "\n");] *)
Fixpoint write_batch (outFile : string) (batch : list Doc) : M unit :=
  match batch with
  | [] => ret tt
  | d :: rest =>
      fs (WsWrite outFile (JSON_stringify d +:+ "
"));;; write_batch outFile rest
  end.

(** ** Export: [POST /api/backup] *)

(** [while (await cursor.hasNext()) { ... }] of the export route. *)
Fixpoint backup_loop (fuel : nat) (socketId : option string) (name outFile : string)
    (BATCH : Z) (totalDocs : option Z) (start : Z) (cursor : list Doc) (docsDone : Z)
  : M Z :=
  match fuel with
  | O => diverge
  | S fuel' =>
      store (HasNext name);;;
      match cursor with
      | [] => ret docsDone
      | _ :: _ =>
          r <- pull name BATCH 0 cursor [];;
          let '(batch, cursor') := r in
          write_batch outFile batch;;;
          let docsDone := docsDone + Z.of_nat (List.length batch) in
          progress socketId "backup-progress" name docsDone totalDocs start;;;
          backup_loop fuel' socketId name outFile BATCH totalDocs start cursor' docsDone
      end
  end.

(** One turn of [for (const collInfo of collections)], from the line that
    follows the count. *)
Definition backup_task (fuel : nat) (socketId : option string) (outDir : string)
    (BATCH : Z) (collIndex : Z) (c : Collection) (totalDocs : option Z) : M Z :=
  let name := coll_name c in
  let outFile := path_join outDir (name +:+ ".ndjson") in
  fs (CreateWriteStream outFile);;;
  emitProgress socketId "backup-collection-start"
    (P_collection_start name collIndex totalDocs);;;
  start <- now;;
  backup_loop fuel socketId name outFile BATCH totalDocs start (coll_docs c) 0;;;
  fs (WsEnd outFile);;;
  let collIndex := collIndex + 1 in
  emitProgress socketId "backup-collection-done" (P_collection_done name collIndex);;;
  ret collIndex.

Definition backup_collection (fuel : nat) (socketId : option string) (outDir : string)
    (BATCH : Z) (collIndex : Z) (c : Collection) : M Z :=
  totalDocs <- count_or_zero c;;
  backup_task fuel socketId outDir BATCH collIndex c totalDocs.

(** [for (const x of xs) { ... }] threading one counter. *)
Fixpoint for_of {A} (body : Z -> A -> M Z) (counter : Z) (xs : list A) : M Z :=
  match xs with
  | [] => ret counter
  | x :: rest => counter' <- body counter x;; for_of body counter' rest
  end.

(** The [try] block of the export route, after [client = new MongoClient(uri)]. *)
Definition backup_job (fuel : nat) (req : Request) (timestamp : Z) (outDir : string)
  : M unit :=
  store (Connect (uri req));;;
  store (ListCollections (dbName req));;;
  let collections := collections_of env in
  let BATCH := BATCH_SIZE (batchSize req) in
  emitProgress (socketId req) "backup-start"
    (P_start (List.length collections) (Some (map coll_name collections)) (Some BATCH));;;
  for_of (backup_collection fuel (socketId req) outDir BATCH) 0 collections;;;
  let zipPath := path_join UPLOAD_DIR
                   (default "" (dbName req) +:+ "-" +:+ pretty timestamp +:+ ".zip") in
  fs (Archive outDir zipPath);;;
  emitProgress (socketId req) "backup-done"
    (P_done_zip ("/download/" +:+ basename zipPath));;;
  log (Respond 200 (B_ok_zip ("/download/" +:+ basename zipPath))).

(** The [catch] block of the export and copy routes. It is entered only
    before the response has gone out: [res.json] is the last statement of
    the [try] block it belongs to. *)
Definition on_error (socketId : option string) (event : string) (e : string) : M unit :=
  emitProgress socketId event (P_error e);;;
  log (Respond 500 (B_error e)).

Definition backup (fuel : nat) (req : Request) : M unit :=
  if negb (Js.truthy_str (uri req)) || negb (Js.truthy_str (dbName req))
  then log (Respond 400 (B_error "Missing uri or dbName"))
  else
    timestamp <- now;;
    let outDir := path_join UPLOAD_DIR
                    (default "" (dbName req) +:+ "-" +:+ pretty timestamp) in
    fs (EnsureDir outDir);;;
    (* [client] stays undefined when the constructor throws, and is then
       not closed *)
    client <- try_catch
                (store (NewMongoClient (uri req));;; ret true)
                (fun e => on_error (socketId req) "backup-error" e;;; ret false);;
    if client : bool then
      try_finally
        (try_catch (backup_job fuel req timestamp outDir)
                   (on_error (socketId req) "backup-error"))
        (store (Close (uri req)))
    else ret tt.

(** ** Copy: [POST /api/transfer] *)

(** [while (await cursor.hasNext()) { ... }] of the copy route. *)
Fixpoint transfer_loop (fuel : nat) (socketId : option string) (name : string)
    (BATCH : Z) (totalDocs : option Z) (tstart : Z) (cursor : list Doc) (transferred : Z)
  : M Z :=
  match fuel with
  | O => diverge
  | S fuel' =>
      store (HasNext name);;;
      match cursor with
      | [] => ret transferred
      | _ :: _ =>
          r <- pull name BATCH 0 cursor [];;
          let '(batch, cursor') := r in
          match batch with
          | [] => transfer_loop fuel' socketId name BATCH totalDocs tstart cursor' transferred
          | _ :: _ =>
              store (InsertMany name batch);;;
              let transferred := transferred + Z.of_nat (List.length batch) in
              progress socketId "transfer-progress" name transferred totalDocs tstart;;;
              transfer_loop fuel' socketId name BATCH totalDocs tstart cursor' transferred
          end
      end
  end.

(** One turn of [for (const c of collections)], from the line that follows
    the count. *)
Definition transfer_task (fuel : nat) (socketId : option string) (BATCH : Z)
    (migratedCollections : Z) (c : Collection) (totalDocs : option Z) : M Z :=
  let name := coll_name c in
  store (DeleteMany name);;;
  emitProgress socketId "transfer-collection-start"
    (P_collection_start name migratedCollections totalDocs);;;
  tstart <- now;;
  transfer_loop fuel socketId name BATCH totalDocs tstart (coll_docs c) 0;;;
  let migratedCollections := migratedCollections + 1 in
  emitProgress socketId "transfer-collection-done"
    (P_collection_done name migratedCollections);;;
  ret migratedCollections.

Definition transfer_collection (fuel : nat) (socketId : option string) (BATCH : Z)
    (migratedCollections : Z) (c : Collection) : M Z :=
  totalDocs <- count_or_zero c;;
  transfer_task fuel socketId BATCH migratedCollections c totalDocs.

(** The [try] block of the copy route, after the two constructors. *)
Definition transfer_job (fuel : nat) (req : Request) : M unit :=
  store (Connect (srcUri req));;;
  store (Connect (dstUri req));;;
  store (ListCollections (srcDb req));;;
  let collections := collections_of env in
  emitProgress (socketId req) "transfer-start"
    (P_start (List.length collections) None None);;;
  let BATCH := BATCH_SIZE (batchSize req) in
  migratedCollections <-
    for_of (transfer_collection fuel (socketId req) BATCH) 0 collections;;
  emitProgress (socketId req) "transfer-done" (P_done_count migratedCollections);;;
  log (Respond 200 (B_ok_count migratedCollections)).

Definition transfer (fuel : nat) (req : Request) : M unit :=
  if negb (Js.truthy_str (srcUri req)) || negb (Js.truthy_str (srcDb req))
     || negb (Js.truthy_str (dstUri req)) || negb (Js.truthy_str (dstDb req))
  then log (Respond 400 (B_error "Missing params"))
  else
    (* the [finally] closes the clients that were constructed, the source first *)
    srcClient <- try_catch
                   (store (NewMongoClient (srcUri req));;; ret true)
                   (fun e => on_error (socketId req) "transfer-error" e;;; ret false);;
    if srcClient : bool then
      dstClient <- try_catch
                     (store (NewMongoClient (dstUri req));;; ret true)
                     (fun e => on_error (socketId req) "transfer-error" e;;; ret false);;
      if dstClient : bool then
        try_finally
          (try_catch (transfer_job fuel req) (on_error (socketId req) "transfer-error"))
          (store (Close (srcUri req));;; store (Close (dstUri req)))
      else store (Close (srcUri req))
    else ret tt.

(** ** Import: [POST /api/upload] *)

(** [while ((idx = buffer.indexOf("\n")) >= 0) { ... }]: every turn removes
    at least the line feed from [buffer], so [fuel] is spent on the buffer
    length only. *)
Fixpoint drain (fuel : nat) (socketId : option string) (collName : string) (BATCH : Z)
    (totalDocs : option Z) (ustart : Z) (buffer : string) (docsBatch : list Doc)
    (importedCount : Z) : M (string * list Doc * Z) :=
  match fuel with
  | O => diverge
  | S fuel' =>
      match Js.indexOf_nl buffer with
      | None => ret (buffer, docsBatch, importedCount)
      | Some idx =>
          let line := Js.trim (Js.take_str idx buffer) in
          let buffer := Js.drop_str (S idx) buffer in
          if String.eqb line "" then
            drain fuel' socketId collName BATCH totalDocs ustart buffer docsBatch importedCount
          else
            match JSON_parse line with
            | None =>
                drain fuel' socketId collName BATCH totalDocs ustart buffer docsBatch
                  importedCount
            | Some obj =>
                let docsBatch := (docsBatch ++ [obj])%list in
                if Z.of_nat (List.length docsBatch) >=? BATCH then
                  store (InsertMany collName docsBatch);;;
                  let importedCount := importedCount + Z.of_nat (List.length docsBatch) in
                  progress socketId "upload-progress" collName importedCount totalDocs
                    ustart;;;
                  drain fuel' socketId collName BATCH totalDocs ustart buffer []
                    importedCount
                else
                  drain fuel' socketId collName BATCH totalDocs ustart buffer docsBatch
                    importedCount
            end
      end
  end.

(** [for await (const chunk of rs) { buffer += chunk; ... }] *)
Fixpoint chunks_loop (socketId : option string) (collName : string) (BATCH : Z)
    (totalDocs : option Z) (ustart : Z) (chunks : list string) (buffer : string)
    (docsBatch : list Doc) (importedCount : Z) : M (string * list Doc * Z) :=
  match chunks with
  | [] => ret (buffer, docsBatch, importedCount)
  | chunk :: rest =>
      let buffer := buffer +:+ chunk in
      r <- drain (S (String.length buffer)) socketId collName BATCH totalDocs ustart
             buffer docsBatch importedCount;;
      let '(buffer, docsBatch, importedCount) := r in
      chunks_loop socketId collName BATCH totalDocs ustart rest buffer docsBatch
        importedCount
  end.

(** [totalDocs] of an import file: the line count, or [null] when the
    counting stream rejects. *)
Definition file_total (f : File) : option Z :=
  if count_rejects f then None else Some (countLinesStream (file_chunks f)).

(** The trailing batch: [if (docsBatch.length) { ... }] after the stream. *)
Definition flush (socketId : option string) (collName : string) (totalDocs : option Z)
    (ustart : Z) (docsBatch : list Doc) (importedCount : Z) : M Z :=
  match docsBatch with
  | [] => ret importedCount
  | _ :: _ =>
      store (InsertMany collName docsBatch);;;
      let importedCount := importedCount + Z.of_nat (List.length docsBatch) in
      progress socketId "upload-progress" collName importedCount totalDocs ustart;;;
      ret importedCount
  end.

Definition upload_file (socketId : option string) (extractDir : string) (BATCH : Z)
    (importedCollections : Z) (f : File) : M Z :=
  let collName := Js.strip_ext (file_name f) in
  fs (CreateReadStream (path_join extractDir (file_name f)));;;
  store (DeleteMany collName);;;
  fs (CountLines (path_join extractDir (file_name f)));;;
  let totalDocs := file_total f in
  emitProgress socketId "upload-collection-start"
    (P_collection_start collName importedCollections totalDocs);;;
  ustart <- now;;
  r <- chunks_loop socketId collName BATCH totalDocs ustart (file_chunks f) "" [] 0;;
  let '(_, docsBatch, importedCount) := r in
  importedCount <- flush socketId collName totalDocs ustart docsBatch importedCount;;
  let importedCollections := importedCollections + 1 in
  emitProgress socketId "upload-collection-done"
    (P_collection_done collName importedCount);;;
  ret importedCollections.

(** The inner [try] block of the import route, after the constructor. *)
Definition upload_job (req : Request) (filePath extractDir : string) : M unit :=
  store (Connect (uri req));;;
  fs (Readdir extractDir);;;
  let ndjsonFiles :=
    List.filter (fun f => Js.endsWith (file_name f) ".ndjson"
                          || Js.endsWith (file_name f) ".json") (files_of env) in
  emitProgress (socketId req) "upload-start" (P_start (List.length ndjsonFiles) None None);;;
  let BATCH := BATCH_SIZE (batchSize req) in
  importedCollections <-
    for_of (upload_file (socketId req) extractDir BATCH) 0 ndjsonFiles;;
  scheduleCleanup extractDir;;;
  scheduleCleanup filePath;;;
  emitProgress (socketId req) "upload-done" (P_done_count importedCollections);;;
  log (Respond 200 (B_ok_count importedCollections)).

Definition is_response (c : Call) : bool :=
  match c with Respond _ _ => true | _ => false end.

(** [res.headersSent], for the request that began when the trace held
    [start] calls: a response has gone out since. *)
Definition headersSent (start : nat) : M bool :=
  fun s => Ret (existsb is_response (drop start (trace s))) s.

Definition throw {A} (message : string) : M A := fun s => Throw message s.

(** The [catch] block of the import route. Unlike those of the other two
    routes it can be entered after the response has gone out: when
    [client.close()] rejects in the inner [finally] after the 200. Then
    the error event is still emitted, and [res.status(500).json(...)]
    throws, as Express does when headers are set on a response that has
    been sent; no second response goes out. *)
Definition upload_catch (start : nat) (socketId : option string) (e : string) : M unit :=
  emitProgress socketId "upload-error" (P_error e);;;
  sent <- headersSent start;;
  if sent : bool
  then throw "Cannot set headers after they are sent to the client"
  else log (Respond 500 (B_error e)).

(** The handler of the import route from [const filePath = req.file.path]
    on, for a request that began when the trace held [start] calls. *)
Definition upload_body (start : nat) (req : Request) (filePath : string) : M unit :=
  t <- now;;
  let extractDir := path_join UPLOAD_DIR ("extract-" +:+ pretty t) in
  fs (EnsureDir extractDir);;;
  try_finally
    (try_catch
       (fs (Extract filePath extractDir);;;
        store (NewMongoClient (uri req));;;
        try_finally (upload_job req filePath extractDir) (store (Close (uri req))))
       (upload_catch start (socketId req)))
    (fs (Remove filePath)).

Definition upload (req : Request) : M unit :=
  match file req with
  | None => log (Respond 400 (B_error "Missing file"))
  | Some filePath => fun s => upload_body (List.length (trace s)) req filePath s
  end.

End Handlers.

(** ** Vocabulary of the statements *)

(** A text is numeric for [parseInt] when, after the leading white space
    and at most one sign, it continues with a decimal digit. *)
Definition unsigned_part (s : string) : string :=
  match Js.trimStart s with
  | String "-" r => r
  | String "+" r => r
  | t => t
  end.

Definition numeric (s : string) : bool :=
  match unsigned_part s with
  | String c _ => match Js.digit c with Some _ => true | None => false end
  | EmptyString => false
  end.

Module CleanupInv.
Import Cleanup.

(** What every registry built from the empty one by scheduling, firing and
    settling satisfies. *)
Record Inv (r : Registry) : Prop := {
  inv_timer : forall t tm,
    timers r !! t = Some tm -> scheduledCleanups r !! timer_path tm = Some t;
  inv_removing : forall t p,
    removing r !! t = Some p -> scheduledCleanups r !! p = Some t;
  inv_key : forall p t,
    scheduledCleanups r !! p = Some t ->
    (exists ttl, timers r !! t = Some {| timer_path := p; timer_ttl := ttl |})
    \/ removing r !! t = Some p;
  inv_apart : forall t, is_Some (timers r !! t) -> removing r !! t = None;
  inv_fresh : forall t,
    is_Some (timers r !! t) \/ is_Some (removing r !! t) -> (t < next_timer r)%nat;
  inv_fired : forall t, t ∈ fired r -> (t < next_timer r)%nat /\ timers r !! t = None;
  inv_once : NoDup (fired r)
}.

(** The armed timers of a path, as a map from handle to delay. *)
Definition armed (absPath : string) (r : Registry) : gmap nat Z :=
  timer_ttl <$> filter (fun x => timer_path (snd x) = absPath) (timers r).

End CleanupInv.

(** ** Reading a run *)

Section Reading.
Context {P : Platform}.

Inductive Res (A : Type) :=
| Returned (a : A)
| Thrown (e : string)
| OutOfFuel.
Arguments Returned {A}.
Arguments Thrown {A}.
Arguments OutOfFuel {A}.

Definition res_of {A} (o : Outcome A) : Res A :=
  match o with
  | Ret a _ => Returned a
  | Throw e _ => Thrown e
  | Diverge _ => OutOfFuel
  end.

Definition state_of {A} (o : Outcome A) : State :=
  match o with
  | Ret _ s => s
  | Throw _ s => s
  | Diverge s => s
  end.

Definition is_thrown {A} (r : Res A) : Prop :=
  match r with Thrown _ => True | _ => False end.

(** What a run of [m] from [s] adds to the trace. *)
Definition emitted {A} (m : M A) (s : State) : list Call :=
  drop (List.length (trace s)) (trace (state_of (m s))).

(** [m], run from [s], extends the trace by some [t], and its result and
    [t] satisfy [Φ]. *)
Definition sat_at {A} (s : State) (m : M A) (Φ : Res A -> list Call -> Prop) : Prop :=
  exists t, trace (state_of (m s)) = (trace s ++ t)%list /\ Φ (res_of (m s)) t.

Definition sat {A} (m : M A) (Φ : Res A -> list Call -> Prop) : Prop :=
  forall s, sat_at s m Φ.

(** Every call of the run satisfies [Pc], and also [Qc] unless the run
    ends by throwing. *)
Definition always (Pc Qc : Call -> Prop) {A} (r : Res A) (t : list Call) : Prop :=
  Forall Pc t /\ (~ is_thrown r -> Forall Qc t).

(** Side conditions under which [always Pc Qc] passes through the parts of
    a job that emit no event. *)
Record Passive (Pc Qc : Call -> Prop) : Prop := {
  passive_store : forall op, Pc (Store op None) /\ Qc (Store op None);
  passive_rejected : forall op e, Pc (Store op (Some e));
  passive_count : forall n e, Qc (Store (CountDocuments n) (Some e));
  passive_fs : forall op, Pc (Fs op) /\ Qc (Fs op);
  passive_io : forall sid ev p,
    Pc (EmitProgress ev p) /\ Qc (EmitProgress ev p) ->
    Pc (IoEmit sid ev p) /\ Qc (IoEmit sid ev p)
}.

(** The progress events of a trace: the payload of every [*-progress]
    event handed to [emitProgress]. *)
Record ProgressEvent := {
  pe_collection : string;
  pe_done : Z;
  pe_total : option Z;
  pe_percent : option Z;
  pe_speed : Z;
  pe_eta : option Z
}.

Definition progress_of (c : Call) : option ProgressEvent :=
  match c with
  | EmitProgress _ (P_progress collection done totalDocs percent speed etaSec) =>
      Some {| pe_collection := collection; pe_done := done; pe_total := totalDocs;
              pe_percent := percent; pe_speed := speed; pe_eta := etaSec |}
  | _ => None
  end.

Definition progress_events (t : list Call) : list ProgressEvent :=
  omap progress_of t.

(** The events of one collection task with total [T]: its start, its
    progress events with the metrics of [T], its end. *)
Inductive task_event (name : string) (T : option Z) : string -> Payload -> Prop :=
| te_start ev counter :
    ev ∈ ["backup-collection-start"; "transfer-collection-start";
          "upload-collection-start"] ->
    task_event name T ev (P_collection_start name counter T)
| te_progress ev done speed :
    ev ∈ ["backup-progress"; "transfer-progress"; "upload-progress"] ->
    task_event name T ev
      (P_progress name done T (percent_of T done) speed (etaSec_of T speed done))
| te_done ev counter :
    ev ∈ ["backup-collection-done"; "transfer-collection-done";
          "upload-collection-done"] ->
    task_event name T ev (P_collection_done name counter).

(** The events of a job that is not failing. *)
Inductive normal_event : string -> Payload -> Prop :=
| ne_start ev total colls size :
    ev ∈ ["backup-start"; "transfer-start"; "upload-start"] ->
    normal_event ev (P_start total colls size)
| ne_task name T ev p : task_event name T ev p -> normal_event ev p
| ne_done_zip zip : normal_event "backup-done" (P_done_zip zip)
| ne_done_count ev n :
    ev ∈ ["transfer-done"; "upload-done"] -> normal_event ev (P_done_count n).

(** The progress payload carries the metrics of the total [T]. *)
Definition metrics_of (T : option Z) (c : Call) : Prop :=
  forall e, progress_of c = Some e ->
    pe_total e = T
    /\ pe_percent e = percent_of T (pe_done e)
    /\ pe_eta e = etaSec_of T (pe_speed e) (pe_done e).

(** [totalDocs] of a collection task of the export and copy routes that
    starts in state [s]: the count, or zero when the count is rejected. *)
Definition counted (env : Env) (s : State) (c : Collection) : option Z :=
  match store_fail env (ops s) with
  | Some _ => Some 0
  | None => Some (Z.of_N (coll_count c))
  end.

(** The call is no progress event. *)
Definition silent (c : Call) : Prop := progress_of c = None.

Definition anything (c : Call) : Prop := True.

(** The running counts of the progress events of a trace. *)
Definition dones (t : list Call) : list Z := pe_done <$> progress_events t.

(** A list of counts that starts at or above [lo] and never decreases. *)
Fixpoint rising (lo : Z) (l : list Z) : Prop :=
  match l with
  | [] => True
  | x :: r => lo <= x /\ rising x r
  end.

(** A progress event of a collection whose total is the known (non-zero)
    number [n]: it carries that total, and its [percent] is
    [Math.min(100, Math.round((done / n) * 100))]. *)
Definition percent_formula (n : Z) (e : ProgressEvent) : Prop :=
  pe_total e = Some n
  /\ pe_percent e
     = Some (Z.min 100 (Js.Math_round
                          (rn (rn (inject_Z (pe_done e) / inject_Z n) * inject_Z 100)))).

Definition percent_le (a b : option Z) : Prop :=
  match a, b with
  | Some x, Some y => x <= y
  | _, _ => False
  end.

(** The progress events of one collection whose total is [n]: each
    carries the total [n] and obeys the formula, and from an earlier to a
    later one the running count does not decrease, and neither does
    [percent]. *)
Definition steady (n : Z) (evs : list ProgressEvent) : Prop :=
  (forall e, e ∈ evs -> percent_formula n e)
  /\ (forall (i j : nat) e1 e2,
        (i <= j)%nat -> evs !! i = Some e1 -> evs !! j = Some e2 ->
        pe_done e1 <= pe_done e2 /\ percent_le (pe_percent e1) (pe_percent e2)).

(** The counts of the progress events of a run never decrease from [lo],
    and the count the run returns is not below them. *)
Definition rises {A} (get : A -> Z) (lo : Z) (r : Res A) (t : list Call) : Prop :=
  rising lo (dones t ++ match r with Returned a => [get a] | _ => [] end).

(** The batches handed to [insertMany], in order. *)
Definition insert_of (c : Call) : option (list Doc) :=
  match c with
  | Store (InsertMany _ docs) _ => Some docs
  | _ => None
  end.

Definition inserted (t : list Call) : list (list Doc) := omap insert_of t.

(** The number of times the cursor was advanced. *)
Definition is_next (c : Call) : bool :=
  match c with Store (Next _) _ => true | _ => false end.

Definition advances (t : list Call) : nat := List.length (List.filter is_next t).

(** The texts written to the output streams, in order. *)
Definition write_of (c : Call) : option string :=
  match c with
  | Fs (WsWrite _ data) => Some data
  | _ => None
  end.

Definition written (t : list Call) : list string := omap write_of t.

(** Event names by kind. *)
Definition is_error_name (ev : string) : bool :=
  String.eqb ev "backup-error" || String.eqb ev "transfer-error"
  || String.eqb ev "upload-error".

Definition is_done_name (ev : string) : bool :=
  String.eqb ev "backup-done" || String.eqb ev "transfer-done"
  || String.eqb ev "upload-done".

(** The names of the events handed to [emitProgress], and of those that
    reached the socket server. *)
Definition event_name (c : Call) : option string :=
  match c with EmitProgress ev _ => Some ev | _ => None end.

Definition wire_name (c : Call) : option string :=
  match c with IoEmit _ ev _ => Some ev | _ => None end.

(** A driver call of the job proper was rejected: any driver call except
    the count, whose rejection the loop absorbs, and except the closing of
    a client when the job is over. *)
Definition mid_job (op : StoreOp) : bool :=
  match op with
  | CountDocuments _ | Close _ => false
  | _ => true
  end.

Definition fatal (c : Call) : bool :=
  match c with
  | Store op (Some _) => mid_job op
  | _ => false
  end.

(** The driver calls of a trace. *)
Definition store_of (c : Call) : option StoreOp :=
  match c with Store op _ => Some op | _ => None end.

(** The HTTP responses of a trace. *)
Definition response_of (c : Call) : option (Z * Body) :=
  match c with Respond status body => Some (status, body) | _ => None end.

(** The paths handed to [scheduleCleanup], in order. *)
Definition schedule_of (c : Call) : option string :=
  match c with ScheduleCleanup path => Some path | _ => None end.

(** The registry after the calls of [scheduleCleanup] recorded in a trace. *)
Definition replay (t : list Call) (r : Cleanup.Registry) : Cleanup.Registry :=
  fold_left (fun r c =>
               match c with
               | ScheduleCleanup path =>
                   Cleanup.scheduleCleanup path (CLEANUP_TTL_MIN * 60 * 1000) r
               | _ => r
               end) t r.

(** [m] changes the registry only by the calls of [scheduleCleanup] it
    records. *)
Definition tracked_at {A} (s : State) (m : M A) : Prop :=
  exists t, trace (state_of (m s)) = (trace s ++ t)%list
            /\ registry (state_of (m s)) = replay t (registry s).

Definition tracked {A} (m : M A) : Prop := forall s, tracked_at s m.

(** A call that neither schedules a cleanup nor is the end of an import. *)
Definition undone (c : Call) : Prop :=
  schedule_of c = None /\ event_name c <> Some "upload-done".

(** The trace of an import that came to its end: the cleanup of the
    extracted directory and of the uploaded file is scheduled, in this
    order, and the [upload-done] event follows at once; no other cleanup is
    scheduled and no other [upload-done] is emitted. *)
Definition cleaned_up (extractDir filePath : string) (t : list Call) : Prop :=
  exists t1 t2 n,
    t = (t1 ++ [ScheduleCleanup extractDir; ScheduleCleanup filePath;
                EmitProgress "upload-done" (P_done_count n)] ++ t2)%list
    /\ Forall undone t1 /\ Forall undone t2.

(** A call that is no error event, neither as handed to [emitProgress] nor
    on the wire. *)
Definition no_error (c : Call) : Prop :=
  (forall ev, event_name c = Some ev -> is_error_name ev = false)
  /\ (forall ev, wire_name c = Some ev -> is_error_name ev = false).

Definition no_fatal (c : Call) : Prop := fatal c = false.

(** What one call of [emitProgress(socketId, event, payload)] adds to the
    trace. *)
Definition emit_calls (socketId : option string) (event : string) (payload : Payload)
  : list Call :=
  EmitProgress event payload
    :: (if Js.truthy_str socketId
        then [IoEmit (default "" socketId) event payload] else []).

(** A call of a job that is under way: no error event, no rejected driver
    call of the job proper, no response. *)
Definition underway (c : Call) : Prop :=
  no_error c /\ no_fatal c /\ response_of c = None.

(** A call of a job that has not failed; the response may be among them. *)
Definition unfailed (c : Call) : Prop := no_error c /\ no_fatal c.

(** A run that throws only the message of a rejected driver call of the
    job proper, which is then its last call, all calls before it being
    those of a job under way; the calls of a run that does not throw are
    in [Qc]. *)
Definition breaks (Qc : Call -> Prop) {A} (r : Res A) (t : list Call) : Prop :=
  match r with
  | Thrown e =>
      exists t1 op,
        t = (t1 ++ [Store op (Some e)])%list /\ mid_job op = true /\ Forall underway t1
  | _ => Forall Qc t
  end.

(** A call with which a route winds up: the closing of a client, or the
    removal of the uploaded file. *)
Definition closing (c : Call) : Prop :=
  (exists uri r, c = Store (Close uri) r) \/ (exists path, c = Fs (Remove path)).

(** The shape of the trace of a job that aborted. Up to the first rejected
    driver call of the job proper there is no error event. After that
    call nothing of the job follows: there are only the closing of
    clients, then the error event [ev] (handed to [emitProgress] and, if
    there is a recipient, put on the wire), then the response 500 with the
    message of the event, then again closing calls. The message is that
    of the rejected call, or that of a closing that was rejected before
    the event. *)
Definition aborted (sid : option string) (ev : string) (t : list Call) : Prop :=
  exists t1 op e c1 e' c2,
    t = (t1 ++ Store op (Some e) :: c1
            ++ emit_calls sid ev (P_error e') ++ Respond 500 (B_error e') :: c2)%list
    /\ mid_job op = true
    /\ Forall no_error t1 /\ Forall no_fatal t1
    /\ Forall closing c1 /\ Forall closing c2
    /\ (e' = e \/ exists uri, Store (Close uri) (Some e') ∈ c1).

(** ... and exactly one error event in it, handed over and on the wire. *)
Definition aborted_once (sid : option string) (ev : string) (t : list Call) : Prop :=
  aborted sid ev t
  /\ List.filter is_error_name (omap event_name t) = [ev]
  /\ List.filter is_error_name (omap wire_name t)
     = (if Js.truthy_str sid then [ev] else []).

End Reading.

Arguments Returned {A}.
Arguments Thrown {A}.
Arguments OutOfFuel {A}.

(** ** Batches and lines, as the specification speaks of them *)

Section Batches.
Context {A : Type}.

(** [l] cut into consecutive batches of [n] elements, the last one
    possibly shorter. *)
Fixpoint batches_upto (fuel n : nat) (l : list A) : list (list A) :=
  match fuel with
  | O => []
  | S fuel' =>
      match l with
      | [] => []
      | _ :: _ => take n l :: batches_upto fuel' n (drop n l)
      end
  end.

Definition batches (n : nat) (l : list A) : list (list A) :=
  batches_upto (List.length l) n l.

(** Every batch has between one and [n] elements, and every batch but
    the last has exactly [n]. *)
Definition well_cut (n : nat) (bs : list (list A)) : Prop :=
  Forall (fun b => (1 <= List.length b <= n)%nat) bs
  /\ forall (i : nat) b, (S i < List.length bs)%nat -> bs !! i = Some b -> List.length b = n.

End Batches.

(** The lines of a text that end in a line feed, without it, and what
    follows the last line feed. *)
Fixpoint lines_from (line s : string) : list string :=
  match s with
  | EmptyString => []
  | String c r =>
      if Ascii.eqb c "010" then line :: lines_from "" r
      else lines_from (line +:+ String c "") r
  end.

Fixpoint tail_from (line s : string) : string :=
  match s with
  | EmptyString => line
  | String c r =>
      if Ascii.eqb c "010" then tail_from "" r
      else tail_from (line +:+ String c "") r
  end.

Definition terminated_lines (s : string) : list string := lines_from "" s.
Definition unterminated (s : string) : string := tail_from "" s.

Definition has_nl (s : string) : bool :=
  match Js.indexOf_nl s with Some _ => true | None => false end.

Fixpoint concat_str (l : list string) : string :=
  match l with
  | [] => ""
  | x :: r => x +:+ concat_str r
  end.

Section Records.
Context {P : Platform}.

(** The record of a line: none for a blank line and for a line that does
    not decode. *)
Definition decode (l : string) : option Doc :=
  let line := Js.trim l in
  if String.eqb line "" then None else JSON_parse line.

Definition records (content : string) : list Doc :=
  omap decode (terminated_lines content).

(** A line that yields a record. *)
Definition well_formed (l : string) : bool :=
  match decode l with Some _ => true | None => false end.

(** The size of the batches a job with batch size [BATCH] works in. *)
Definition batch_len (BATCH : Z) : nat := Z.to_nat (Z.max 1 BATCH).

(** What remains of a call when time and the outcome of driver calls are
    left out. *)
Inductive Item :=
| I_insert (docs : list Doc)
| I_write (data : string)
| I_next
| I_progress (done : Z)
| I_end (counter : Z).

Definition abstract (c : Call) : option Item :=
  match c with
  | Store (InsertMany _ docs) _ => Some (I_insert docs)
  | Store (Next _) _ => Some I_next
  | Fs (WsWrite _ data) => Some (I_write data)
  | EmitProgress _ (P_progress _ done _ _ _ _) => Some (I_progress done)
  | EmitProgress _ (P_collection_done _ counter) => Some (I_end counter)
  | _ => None
  end.

Definition items (t : list Call) : list Item := omap abstract t.

(** The items of the export loop and of the copy loop over the batches
    [bs], from the running count [done]. *)
Fixpoint backup_items (bs : list (list Doc)) (done : Z) : list Item :=
  match bs with
  | [] => []
  | b :: r =>
      let done' := done + Z.of_nat (List.length b) in
      (replicate (List.length b) I_next
         ++ ((fun d => I_write (JSON_stringify d +:+ "
")) <$> b)
         ++ [I_progress done'] ++ backup_items r done')%list
  end.

Fixpoint transfer_items (bs : list (list Doc)) (done : Z) : list Item :=
  match bs with
  | [] => []
  | b :: r =>
      let done' := done + Z.of_nat (List.length b) in
      (replicate (List.length b) I_next
         ++ [I_insert b; I_progress done'] ++ transfer_items r done')%list
  end.

Fixpoint import_items (bs : list (list Doc)) (done : Z) : list Item :=
  match bs with
  | [] => []
  | b :: r =>
      let done' := done + Z.of_nat (List.length b) in
      I_insert b :: I_progress done' :: import_items r done'
  end.

Definition item_list (c : Call) : list Item :=
  match abstract c with Some i => [i] | None => [] end.

Definition item_insert (i : Item) : option (list Doc) :=
  match i with I_insert docs => Some docs | _ => None end.

Definition item_write (i : Item) : option string :=
  match i with I_write data => Some data | _ => None end.

Definition item_progress (i : Item) : option Z :=
  match i with I_progress done => Some done | _ => None end.

Definition item_end (i : Item) : option Z :=
  match i with I_end counter => Some counter | _ => None end.

Definition item_next (i : Item) : bool :=
  match i with I_next => true | _ => false end.

(** The running counts after batches of the given sizes. *)
Fixpoint running (done : Z) (sizes : list nat) : list Z :=
  match sizes with
  | [] => []
  | n :: r => (done + Z.of_nat n) :: running (done + Z.of_nat n) r
  end.

(** The counters of the [*-collection-done] events of a trace. *)
Definition ends (t : list Call) : list Z := omap item_end (items t).

(** The import of the records [docs], one after the other, into the
    accumulated batch [batch] with threshold [BATCH], from the running
    count [cnt]: the items left, the batch still accumulated and the
    count reached. *)
Fixpoint feed (BATCH : Z) (docs batch : list Doc) (cnt : Z) : list Item * list Doc * Z :=
  match docs with
  | [] => ([], batch, cnt)
  | d :: r =>
      let b := (batch ++ [d])%list in
      if Z.of_nat (List.length b) >=? BATCH then
        let cnt' := cnt + Z.of_nat (List.length b) in
        let '(x, batch', cnt'') := feed BATCH r [] cnt' in
        (I_insert b :: I_progress cnt' :: x, batch', cnt'')
      else feed BATCH r b cnt
  end.

(** The items of the trailing batch, and the count after it. *)
Definition flush_items (batch : list Doc) (cnt : Z) : list Item :=
  match batch with
  | [] => []
  | _ :: _ => [I_insert batch; I_progress (cnt + Z.of_nat (List.length batch))]
  end.

Definition flush_count (batch : list Doc) (cnt : Z) : Z :=
  match batch with
  | [] => cnt
  | _ :: _ => cnt + Z.of_nat (List.length batch)
  end.

Definition flush_batches (batch : list Doc) : list (list Doc) :=
  match batch with
  | [] => []
  | _ :: _ => [batch]
  end.

(** A run returned a value in [R] and left the items [x]. *)
Definition gives {A} (R : A -> Prop) (x : list Item) (r : Res A) (t : list Call) : Prop :=
  (exists a, r = Returned a /\ R a) /\ items t = x.

End Records.

(** ** A concrete platform and concrete jobs

    Used to run the routes on explicit inputs. Documents are their own
    JSON text; the decoder accepts the texts that open with a brace and
    end with one. The platform [exact] keeps the results of divisions
    exact; [binary64] rounds them as doubles do. *)

Module Demo.

Definition parse (s : string) : option string :=
  match s with
  | String "{" _ => if Js.endsWith s "}" then Some s else None
  | _ => None
  end.

#[export] Instance exact : Platform := {|
  Doc := string;
  JSON_stringify := fun d => d;
  JSON_parse := parse;
  rn := fun x => x;
  UPLOAD_DIR := "/srv/uploads";
  CLEANUP_TTL_MIN := 60
|}.

#[export] Instance exact_monotone : RoundingMonotone exact.
Proof. intros x y H. exact H. Qed.

(** The same platform with the arithmetic of doubles. *)
Definition binary64 : Platform := {|
  Doc := string;
  JSON_stringify := fun d => d;
  JSON_parse := parse;
  rn := Binary64.round;
  UPLOAD_DIR := "/srv/uploads";
  CLEANUP_TTL_MIN := 60
|}.

Definition idle : State :=
  {| registry := Cleanup.empty; trace := []; ops := 0; ticks := 0 |}.

Definition users : Collection :=
  {| coll_name := "users";
     coll_docs := ["{1}"; "{2}"; "{3}"; "{4}"; "{5}"];
     coll_count := 5%N |}.

Definition orders : Collection :=
  {| coll_name := "orders"; coll_docs := ["{a}"; "{b}"]; coll_count := 2%N |}.

(** Ten well-formed lines, two malformed ones, and an unterminated tail,
    cut into chunks at arbitrary places. *)
Definition users_file : File :=
  {| file_name := "users.ndjson";
     file_chunks := ["{1}
{2";  "}
oops
{3}
{4}
{5}
";  "{6}
{7
{8}
{9}
{10}
{11}
{12";  "}"];
     count_rejects := false |}.

(** A store that works, and one whose [k]-th call rejects. *)
Definition healthy : Env :=
  {| store_fail := fun _ => None;
     Date_now := fun k => 1000 + 700 * Z.of_nat k;
     collections_of := [users; orders];
     files_of := [users_file] |}.

Definition failing (k : nat) : Env :=
  {| store_fail := fun i => if (i =? k)%nat then Some "connection closed" else None;
     Date_now := Date_now healthy;
     collections_of := collections_of healthy;
     files_of := files_of healthy |}.

(** The users again, on the platform of doubles. *)
Section Doubles.
#[local] Existing Instance binary64.

Definition users64 : Collection :=
  {| coll_name := "users";
     coll_docs := ["{1}"; "{2}"; "{3}"; "{4}"; "{5}"];
     coll_count := 5%N |}.

Definition healthy64 : Env :=
  {| store_fail := fun _ => None;
     Date_now := fun k => 1000 + 700 * Z.of_nat k;
     collections_of := [users64];
     files_of := [users_file] |}.

Definition idle64 : State :=
  {| registry := Cleanup.empty; trace := []; ops := 0; ticks := 0 |}.

End Doubles.

Definition request : Request :=
  {| uri := Some "mongodb://db"; dbName := Some "shop";
     srcUri := Some "mongodb://a"; srcDb := Some "shop";
     dstUri := Some "mongodb://b"; dstDb := Some "copy";
     socketId := Some "sock1"; batchSize := Some "2";
     file := Some "/srv/uploads/f1" |}.

(** An upload that carries the file and the URI but no [dbName]. *)
Definition upload_without_dbName : Request :=
  {| uri := Some "mongodb://db"; dbName := None;
     srcUri := None; srcDb := None; dstUri := None; dstDb := None;
     socketId := Some "sock1"; batchSize := Some "5";
     file := Some "/srv/uploads/f1" |}.

(** An export and a copy that lack a required field, and an upload
    without file. *)
Definition backup_without_dbName : Request :=
  {| uri := Some "mongodb://db"; dbName := None;
     srcUri := None; srcDb := None; dstUri := None; dstDb := None;
     socketId := Some "sock1"; batchSize := None; file := None |}.

Definition transfer_without_dstDb : Request :=
  {| uri := None; dbName := None;
     srcUri := Some "mongodb://a"; srcDb := Some "shop";
     dstUri := Some "mongodb://b"; dstDb := Some "";
     socketId := Some "sock1"; batchSize := None; file := None |}.

End Demo.

(** A path separator occurs in the text. *)
Fixpoint has_slash (s : string) : bool :=
  match s with
  | EmptyString => false
  | String c r => Ascii.eqb c "/" || has_slash r
  end.

Section Download.
Context {P : Platform}.

(** [GET /download/:name]: the file handed to [res.download] is
    [path.join(UPLOAD_DIR, req.params.name)]. For a name that is one
    plain path segment the join puts a separator between the two. *)
Definition download (name : string) : string := path_join UPLOAD_DIR name.

End Download.

(** ** Further vocabulary: what a run does to the outside *)

Section Outside.
Context {P : Platform}.

(** The events handed to [emitProgress], and what went to the socket
    server, with the room it went to. *)
Definition called_of (c : Call) : option (string * Payload) :=
  match c with EmitProgress ev p => Some (ev, p) | _ => None end.

Definition wire_of (c : Call) : option (string * string * Payload) :=
  match c with IoEmit room ev p => Some (room, ev, p) | _ => None end.

(** Every event handed to [emitProgress] went to the room [socketId], in
    the same order, and nothing else went out; nothing at all went out
    when [socketId] is falsy. *)
Definition delivered (socketId : option string) (t : list Call) : Prop :=
  omap wire_of t
  = if Js.truthy_str socketId
    then (fun x => (default "" socketId, x.1, x.2)) <$> omap called_of t
    else [].

(** Driver calls that read the data of a database, and those that change
    it. *)
Definition reads (op : StoreOp) : bool :=
  match op with
  | ListCollections _ | CountDocuments _ | HasNext _ | Next _ => true
  | _ => false
  end.

Definition writes (op : StoreOp) : bool :=
  match op with
  | DeleteMany _ | InsertMany _ _ => true
  | _ => false
  end.

(** File-system calls on the stream of one collection. *)
Definition streams (op : FsOp) : bool :=
  match op with
  | CreateWriteStream _ | WsWrite _ _ | WsEnd _ | CreateReadStream _ | CountLines _ => true
  | _ => false
  end.

(** A property of what a run adds to the trace, whatever its result. *)
Definition along (I : list Call -> Prop) {A} (r : Res A) (t : list Call) : Prop := I t.

(** A run that does not run out of loop budget, and whose value, when it
    returns one, is in [R]. *)
Definition lands {A} (R : A -> Prop) (r : Res A) (t : list Call) : Prop :=
  match r with
  | Returned a => R a
  | Thrown _ => True
  | OutOfFuel => False
  end.

(** The events of the three routes, as their calls of [emitProgress]
    build them. *)
Inductive backup_event : string -> Payload -> Prop :=
| be_start total collections size :
    backup_event "backup-start" (P_start total (Some collections) (Some size))
| be_task name T ev p :
    ev ∈ ["backup-collection-start"; "backup-progress"; "backup-collection-done"] ->
    task_event name T ev p -> backup_event ev p
| be_done zip : backup_event "backup-done" (P_done_zip zip)
| be_error e : backup_event "backup-error" (P_error e).

Inductive transfer_event : string -> Payload -> Prop :=
| xe_start total : transfer_event "transfer-start" (P_start total None None)
| xe_task name T ev p :
    ev ∈ ["transfer-collection-start"; "transfer-progress";
          "transfer-collection-done"] ->
    task_event name T ev p -> transfer_event ev p
| xe_done n : transfer_event "transfer-done" (P_done_count n)
| xe_error e : transfer_event "transfer-error" (P_error e).

Inductive upload_event : string -> Payload -> Prop :=
| ue_start total : upload_event "upload-start" (P_start total None None)
| ue_task name T ev p :
    ev ∈ ["upload-collection-start"; "upload-progress"; "upload-collection-done"] ->
    task_event name T ev p -> upload_event ev p
| ue_done n : upload_event "upload-done" (P_done_count n)
| ue_error e : upload_event "upload-error" (P_error e).

End Outside.

(** The events handed to [emitProgress] in a trace all satisfy [Q]. *)
Definition all_called {P : Platform} (Q : string -> Payload -> Prop) (t : list Call)
  : Prop :=
  forall ev p, EmitProgress ev p ∈ t -> Q ev p.

(** The driver calls of a trace all satisfy [Q]. *)
Definition store_calls {P : Platform} (Q : StoreOp -> Prop) (t : list Call) : Prop :=
  Forall Q (omap store_of t).

(** ** The ways a request can go *)

Section Outcomes.
Context {P : Platform}.

(** The calls that decide how a request went. *)
Inductive Mark :=
| Opened (uri : option string)                         (* [new MongoClient(uri)] returned *)
| Closed (uri : option string) (rejected : option string)  (* [client.close()] was called *)
| Archived (dir zip : string)
| Removed (path : string)
| Final (event : string) (payload : Payload)           (* a done or error event *)
| Responded (status : Z) (body : Body).

Definition mark_of (c : Call) : option Mark :=
  match c with
  | Store (NewMongoClient uri) None => Some (Opened uri)
  | Store (Close uri) rejected => Some (Closed uri rejected)
  | Fs (Archive dir zip) => Some (Archived dir zip)
  | Fs (Remove path) => Some (Removed path)
  | EmitProgress ev p =>
      if is_done_name ev || is_error_name ev then Some (Final ev p) else None
  | Respond status body => Some (Responded status body)
  | _ => None
  end.

Definition skeleton (t : list Call) : list Mark := omap mark_of t.

(** The marks that settle a request: its final event and its response. *)
Definition settles (m : Mark) : bool :=
  match m with
  | Final _ _ | Responded _ _ => true
  | _ => false
  end.

(** The result of a handler whose last step is the closing of a client. *)
Definition after_close (rejected : option string) : Res unit :=
  match rejected with
  | None => Returned tt
  | Some e => Thrown e
  end.

(** The directory and the archive of an export that started at
    [timestamp], and the link under which the archive is offered. *)
Definition out_dir (req : Request) (timestamp : Z) : string :=
  path_join UPLOAD_DIR (default "" (dbName req) +:+ "-" +:+ pretty timestamp).

Definition zip_path (req : Request) (timestamp : Z) : string :=
  path_join UPLOAD_DIR (default "" (dbName req) +:+ "-" +:+ pretty timestamp +:+ ".zip").

Definition zip_link (req : Request) (timestamp : Z) : string :=
  "/download/" +:+ basename (zip_path req timestamp).

Inductive export_outcome (req : Request) (timestamp : Z) : Res unit -> list Mark -> Prop :=
| eo_invalid :
    Js.truthy_str (uri req) && Js.truthy_str (dbName req) = false ->
    export_outcome req timestamp (Returned tt)
      [Responded 400 (B_error "Missing uri or dbName")]
| eo_no_client e :
    export_outcome req timestamp (Returned tt)
      [Final "backup-error" (P_error e); Responded 500 (B_error e)]
| eo_done rejected :
    export_outcome req timestamp (after_close rejected)
      [Opened (uri req);
       Archived (out_dir req timestamp) (zip_path req timestamp);
       Final "backup-done" (P_done_zip (zip_link req timestamp));
       Responded 200 (B_ok_zip (zip_link req timestamp));
       Closed (uri req) rejected]
| eo_error e rejected :
    export_outcome req timestamp (after_close rejected)
      [Opened (uri req);
       Final "backup-error" (P_error e); Responded 500 (B_error e);
       Closed (uri req) rejected]
| eo_hang :
    export_outcome req timestamp OutOfFuel [Opened (uri req)].

(** The closing of the two clients of a copy: the target is closed only
    if the closing of the source did not reject. *)
Definition close_both (src dst : option string) (r1 r2 : option string) : list Mark :=
  match r1 with
  | None => [Closed src None; Closed dst r2]
  | Some e => [Closed src (Some e)]
  end.

Definition after_both (r1 r2 : option string) : Res unit :=
  match r1 with
  | None => after_close r2
  | Some e => Thrown e
  end.

Inductive copy_outcome (req : Request) : Res unit -> list Mark -> Prop :=
| co_invalid :
    Js.truthy_str (srcUri req) && Js.truthy_str (srcDb req)
    && Js.truthy_str (dstUri req) && Js.truthy_str (dstDb req) = false ->
    copy_outcome req (Returned tt) [Responded 400 (B_error "Missing params")]
| co_no_source e :
    copy_outcome req (Returned tt)
      [Final "transfer-error" (P_error e); Responded 500 (B_error e)]
| co_no_target e rejected :
    copy_outcome req (after_close rejected)
      [Opened (srcUri req);
       Final "transfer-error" (P_error e); Responded 500 (B_error e);
       Closed (srcUri req) rejected]
| co_done n r1 r2 :
    copy_outcome req (after_both r1 r2)
      ([Opened (srcUri req); Opened (dstUri req);
        Final "transfer-done" (P_done_count n); Responded 200 (B_ok_count n)]
       ++ close_both (srcUri req) (dstUri req) r1 r2)
| co_error e r1 r2 :
    copy_outcome req (after_both r1 r2)
      ([Opened (srcUri req); Opened (dstUri req);
        Final "transfer-error" (P_error e); Responded 500 (B_error e)]
       ++ close_both (srcUri req) (dstUri req) r1 r2)
| co_hang :
    copy_outcome req OutOfFuel [Opened (srcUri req); Opened (dstUri req)].

Inductive import_outcome (req : Request) : Res unit -> list Mark -> Prop :=
| io_invalid :
    file req = None ->
    import_outcome req (Returned tt) [Responded 400 (B_error "Missing file")]
| io_no_client filePath e :
    file req = Some filePath ->
    import_outcome req (Returned tt)
      [Final "upload-error" (P_error e); Responded 500 (B_error e); Removed filePath]
| io_done filePath n :
    file req = Some filePath ->
    import_outcome req (Returned tt)
      [Opened (uri req);
       Final "upload-done" (P_done_count n); Responded 200 (B_ok_count n);
       Closed (uri req) None; Removed filePath]
| io_done_close_rejected filePath n e :
    file req = Some filePath ->
    import_outcome req (Thrown "Cannot set headers after they are sent to the client")
      [Opened (uri req);
       Final "upload-done" (P_done_count n); Responded 200 (B_ok_count n);
       Closed (uri req) (Some e);
       Final "upload-error" (P_error e); Removed filePath]
| io_error filePath e e' rejected :
    file req = Some filePath ->
    e' = default e rejected ->
    import_outcome req (Returned tt)
      [Opened (uri req); Closed (uri req) rejected;
       Final "upload-error" (P_error e'); Responded 500 (B_error e'); Removed filePath].

(** A trace without marks; the calls that leave none. *)
Definition mute (t : list Call) : Prop := skeleton t = [].

Definition plain_op (op : StoreOp) : Prop := forall r, mark_of (Store op r) = None.

Definition plain_fs (op : FsOp) : Prop := mark_of (Fs op) = None.

Definition plain_ev (ev : string) (p : Payload) : Prop :=
  is_done_name ev || is_error_name ev = false.

End Outcomes.

(** ** A job that gets nowhere *)

Section Fruitless.
Context {P : Platform}.

(** No response, no document written to a file, none inserted. *)
Definition fruitless (t : list Call) : Prop :=
  omap response_of t = [] /\ written t = [] /\ inserted t = [].

(** A run with a result in [R] and a fruitless trace. *)
Definition in_vain {A} (R : Res A -> Prop) (r : Res A) (t : list Call) : Prop :=
  R r /\ fruitless t.

Definition returns {A} (r : Res A) : Prop := exists a, r = Returned a.

Definition hangs {A} (r : Res A) : Prop := r = OutOfFuel.

Definition no_throw {A} (r : Res A) : Prop := forall e, r <> Thrown e.

End Fruitless.

(** A trace in which no cleanup is scheduled. *)
Definition unscheduled {P : Platform} (t : list Call) : Prop := omap schedule_of t = [].

(** * The page

    The script of the page ([client.js], first part) is embedded at the
    level of its helpers: a listener is the list of the calls of
    [appendLog], [setFormsDisabled], [renderCollectionList] and
    [updateCollectionProgress] that it makes, in order. What the helpers
    do to the document is not modelled. *)

(** What the model takes from the browser: the text that the route's
    [parseInt] reads after [Number(v)] went through JSON ([None] when JSON
    has [null] for it), and whether [querySelector] accepts a selector;
    it throws on one it cannot parse. *)
Class Browser := {
  Number_text : string -> option string;
  selector_ok : string -> bool
}.

Section Page.
Context {P : Platform} {B : Browser}.

(** The second argument of [appendLog]: a string, an event payload with
    its [event] tag ([Object.assign({ event }, d)]), or the parsed body of
    a response. *)
Inductive LogMsg :=
| L_text (msg : string)
| L_event (event : string) (d : Payload)
| L_body (j : option Body).

Inductive UiCall :=
| AppendLog (id : string) (msg : LogMsg)
| SetFormsDisabled (disabled : bool)
| RenderCollectionList (containerId : string) (collections : list string)
| UpdateCollectionProgress (containerPrefix collection : string)
    (percent speed etaSec : option Z)
| MarkFailed (containerId collection : string).

(** The fields of a payload that the listeners read; a field that is
    absent or [null] is [None]. *)
Definition d_collection (d : Payload) : option string :=
  match d with
  | P_collection_start c _ _ | P_progress c _ _ _ _ _ | P_collection_done c _ => Some c
  | _ => None
  end.

Definition d_collections (d : Payload) : option (list string) :=
  match d with
  | P_start _ collections _ => collections
  | _ => None
  end.

Definition d_percent (d : Payload) : option Z :=
  match d with
  | P_progress _ _ _ percent _ _ => percent
  | _ => None
  end.

Definition d_speed (d : Payload) : option Z :=
  match d with
  | P_progress _ _ _ _ speed _ => Some speed
  | _ => None
  end.

Definition d_etaSec (d : Payload) : option Z :=
  match d with
  | P_progress _ _ _ _ _ etaSec => etaSec
  | _ => None
  end.

(** A listener: the calls it makes, and whether it ran to its end. *)
Definition Listener : Type := list UiCall * bool.

Definition andThen (a b : Listener) : Listener :=
  if a.2 then (a.1 ++ b.1, b.2)%list else a.

Definition appendLog (id : string) (msg : LogMsg) : Listener :=
  ([AppendLog id msg], true).

Definition setFormsDisabled (disabled : bool) : Listener :=
  ([SetFormsDisabled disabled], true).

Definition renderCollectionList (containerId : string) (collections : list string)
  : Listener :=
  ([RenderCollectionList containerId collections], true).

(** The selector of an item; a name is put into it as it is. *)
Definition quote : string := String (ascii_of_nat 34) EmptyString.

Definition item_selector (containerPrefix collection : string) : string :=
  "#" +:+ containerPrefix +:+ " [data-coll=" +:+ quote +:+ collection +:+ quote +:+ "]".

Definition updateCollectionProgress (containerPrefix : string)
    (collection : option string) (percent speed etaSec : option Z) : Listener :=
  let name := default "undefined" collection in
  ([UpdateCollectionProgress containerPrefix name percent speed etaSec],
   selector_ok (item_selector containerPrefix name)).

(** The last statement of the error listeners. *)
Definition markFailed (containerId : string) (d : Payload) : Listener :=
  if Js.truthy_str (d_collection d)
  then ([MarkFailed containerId (default "" (d_collection d))],
        selector_ok (item_selector containerId (default "" (d_collection d))))
  else ([], true).

Definition nothing : Listener := ([], true).

(** The listeners of the socket, in the order of their registration. *)
Definition listeners : list (string * (Payload -> Listener)) :=
  [ ("backup-start", fun d => appendLog "backupLog" (L_event "start" d));
    ("backup-collection-start", fun d =>
       match d_collections d with
       | Some collections => renderCollectionList "backupCollections" collections
       | None => nothing
       end);
    ("backup-progress", fun d =>
       andThen (updateCollectionProgress "backupCollections" (d_collection d)
                  (d_percent d) (d_speed d) (d_etaSec d))
               (appendLog "backupLog" (L_event "progress" d)));
    ("backup-collection-done", fun d =>
       andThen (appendLog "backupLog" (L_event "collection-done" d))
               (updateCollectionProgress "backupCollections" (d_collection d)
                  (Some 100) None None));
    ("backup-done", fun d =>
       andThen (appendLog "backupLog" (L_event "done" d)) (setFormsDisabled false));
    ("backup-error", fun d =>
       andThen (appendLog "backupLog" (L_event "error" d))
         (andThen (setFormsDisabled false) (markFailed "backupCollections" d)));
    ("transfer-start", fun d =>
       andThen (match d_collections d with
                | Some collections =>
                    renderCollectionList "transferCollections" collections
                | None => nothing
                end)
               (appendLog "transferLog" (L_event "start" d)));
    ("transfer-progress", fun d =>
       andThen (updateCollectionProgress "transferCollections" (d_collection d)
                  (d_percent d) (d_speed d) (d_etaSec d))
               (appendLog "transferLog" (L_event "progress" d)));
    ("transfer-collection-done", fun d =>
       andThen (appendLog "transferLog" (L_event "collection-done" d))
               (updateCollectionProgress "transferCollections" (d_collection d)
                  (Some 100) None None));
    ("transfer-done", fun d =>
       andThen (appendLog "transferLog" (L_event "done" d)) (setFormsDisabled false));
    ("transfer-error", fun d =>
       andThen (appendLog "transferLog" (L_event "error" d))
         (andThen (setFormsDisabled false) (markFailed "transferCollections" d)));
    ("upload-start", fun d =>
       andThen (appendLog "uploadLog" (L_event "start" d)) (setFormsDisabled true));
    ("upload-collection-start", fun d =>
       andThen (renderCollectionList "uploadCollections"
                  [default "undefined" (d_collection d)])
               (appendLog "uploadLog" (L_event "collection-start" d)));
    ("upload-progress", fun d =>
       andThen (updateCollectionProgress "uploadCollections" (d_collection d)
                  (d_percent d) (d_speed d) (d_etaSec d))
               (appendLog "uploadLog" (L_event "progress" d)));
    ("upload-collection-done", fun d =>
       andThen (appendLog "uploadLog" (L_event "collection-done" d))
               (updateCollectionProgress "uploadCollections" (d_collection d)
                  (Some 100) None None));
    ("upload-done", fun d =>
       andThen (appendLog "uploadLog" (L_event "done" d)) (setFormsDisabled false));
    ("upload-error", fun d =>
       andThen (appendLog "uploadLog" (L_event "error" d))
         (andThen (setFormsDisabled false) (markFailed "uploadCollections" d))) ].

(** What the page does when an event arrives: every listener registered
    under its name runs. *)
Definition on_event (ev : string) (d : Payload) : list UiCall :=
  flat_map (fun l => if String.eqb l.1 ev then (l.2 d).1 else []) listeners.

(** The [then] of the three [fetch] calls, for a response whose body
    parsed as [j]. *)
Definition on_response (log : string) (status : Z) (j : option Body) : list UiCall :=
  if (200 <=? status) && (status <=? 299)
  then [AppendLog log (L_body j)]
  else [AppendLog log
          (L_text match j with
                  | Some (B_error e) =>
                      if String.eqb e "" then "HTTP " +:+ pretty status else e
                  | _ => "HTTP " +:+ pretty status
                  end);
        SetFormsDisabled false].

(** The text fields of a form, in their order; [fd.get(name)] is the
    first value under the name. *)
Definition FormData : Type := list (string * string).

Fixpoint fd_get (fd : FormData) (name : string) : option string :=
  match fd with
  | [] => None
  | (k, v) :: rest => if String.eqb k name then Some v else fd_get rest name
  end.

(** [String(fd.get(name) || "").trim()] *)
Definition field (fd : FormData) (name : string) : string :=
  Js.trim (default "" (fd_get fd name)).

(** [Number(fd.get("batchSize") || 1000)], as the route will read it. *)
Definition batch_of (fd : FormData) : option string :=
  match fd_get fd "batchSize" with
  | Some v => if String.eqb v "" then Some "1000" else Number_text v
  | None => Some "1000"
  end.

(** The submit listeners: the calls they make before the response, and
    what they post, if anything. [socketId] is the variable of the
    script, [null] until the welcome event. *)
Definition backupForm_submit (socketId : option string) (fd : FormData)
  : list UiCall * option Request :=
  let uriVal := field fd "uri" in
  let dbNameVal := field fd "dbName" in
  let batch := batch_of fd in
  if String.eqb uriVal "" || String.eqb dbNameVal ""
  then ([SetFormsDisabled true;
         AppendLog "backupLog"
           (L_text "Missing Mongo URI or Database name. Please fill both fields.");
         SetFormsDisabled false], None)
  else ([SetFormsDisabled true; AppendLog "backupLog" (L_text "Starting backup...")],
        Some {| uri := Some uriVal; dbName := Some dbNameVal;
                srcUri := None; srcDb := None; dstUri := None; dstDb := None;
                socketId := socketId; batchSize := batch; file := None |}).

Definition transferForm_submit (socketId : option string) (fd : FormData)
  : list UiCall * option Request :=
  let srcUri := field fd "srcUri" in
  let srcDb := field fd "srcDb" in
  let dstUri := field fd "dstUri" in
  let dstDb := field fd "dstDb" in
  let batch := batch_of fd in
  if String.eqb srcUri "" || String.eqb srcDb ""
     || String.eqb dstUri "" || String.eqb dstDb ""
  then ([SetFormsDisabled true;
         AppendLog "transferLog"
           (L_text "Missing source/target URI or DB. Please fill all fields.");
         SetFormsDisabled false], None)
  else ([SetFormsDisabled true; AppendLog "transferLog" (L_text "Starting transfer...")],
        Some {| uri := None; dbName := None;
                srcUri := Some srcUri; srcDb := Some srcDb;
                dstUri := Some dstUri; dstDb := Some dstDb;
                socketId := socketId; batchSize := batch; file := None |}).

(** The upload form posts its fields as they are, with two more appended.
    [chosen] says whether the file input holds a file, [batchSize_value]
    is [form.batchSize.value]. *)
Definition uploadForm_submit (socketId : option string) (fd : FormData)
    (batchSize_value : string) (chosen : bool) : list UiCall * option FormData :=
  let uriVal := field fd "uri" in
  let dbNameVal := field fd "dbName" in
  let fd' := (fd ++ [("socketId", default "null" socketId);
                     ("batchSize", if String.eqb batchSize_value "" then "1000"
                                   else batchSize_value)])%list in
  if negb chosen
  then ([SetFormsDisabled true;
         AppendLog "uploadLog" (L_text "Please choose a zip file to upload.");
         SetFormsDisabled false], None)
  else if String.eqb uriVal "" || String.eqb dbNameVal ""
  then ([SetFormsDisabled true;
         AppendLog "uploadLog"
           (L_text "Missing target Mongo URI or DB name. Please fill both fields.");
         SetFormsDisabled false], None)
  else ([SetFormsDisabled true; AppendLog "uploadLog" (L_text "Uploading...")],
        Some fd').

(** ** The page and a run of a route *)

(** The events of a trace that reach the page whose socket has the id
    [me]: a socket is in the room named by its id. *)
Definition to_page (me : string) (t : list Call) : list (string * Payload) :=
  omap (fun c => match c with
                 | IoEmit room ev p => if String.eqb room me then Some (ev, p) else None
                 | _ => None
                 end) t.

(** What the listeners of the page do during a run, and what the [then]
    of its [fetch] does with the response, which is the first one the
    route sends. *)
Definition page_calls (me : string) (t : list Call) : list UiCall :=
  flat_map (fun x => on_event x.1 x.2) (to_page me t).

Definition answer_calls (log : string) (t : list Call) : list UiCall :=
  match omap response_of t with
  | (status, body) :: _ => on_response log status (Some body)
  | [] => []
  end.

(** The arguments of the calls of [setFormsDisabled], in order. *)
Definition forms_set (c : UiCall) : option bool :=
  match c with SetFormsDisabled disabled => Some disabled | _ => None end.

Definition rendered (c : UiCall) : option (string * list string) :=
  match c with
  | RenderCollectionList containerId collections => Some (containerId, collections)
  | _ => None
  end.

Definition failed (c : UiCall) : option (string * string) :=
  match c with MarkFailed containerId collection => Some (containerId, collection)
          | _ => None end.

End Page.

Ltac page_event :=
  unfold on_event; simpl; unfold andThen; simpl; try destruct (selector_ok _); done.

(** ** What a job that succeeds has done *)

Section Results.
Context {P : Platform}.

(** A run returned a value in [R], wrote the lines [w], inserted the
    batches [ins] and left the marks [m]. *)
Definition results_in {A} (R : A -> Prop) (w : list string) (ins : list (list Doc))
    (m : list Mark) (r : Res A) (t : list Call) : Prop :=
  (exists a, r = Returned a /\ R a)
  /\ written t = w /\ inserted t = ins /\ skeleton t = m.

(** The lines of a collection in an export file. *)
Definition export_lines (c : Collection) : list string :=
  (fun d => JSON_stringify d +:+ "
") <$> coll_docs c.

(** The files of an upload that the import takes. *)
Definition accepted (files : list File) : list File :=
  List.filter (fun f => Js.endsWith (file_name f) ".ndjson"
                        || Js.endsWith (file_name f) ".json") files.

End Results.

(** ** More sample data *)

Module Samples.

(** A request whose batch size is below one, and one without socket id. *)
Definition negative_batch : Request :=
  {| uri := Some "mongodb://db"; dbName := Some "shop";
     srcUri := Some "mongodb://a"; srcDb := Some "shop";
     dstUri := Some "mongodb://b"; dstDb := Some "copy";
     socketId := Some "sock1"; batchSize := Some "-5";
     file := None |}.

Definition anonymous : Request :=
  {| uri := Some "mongodb://db"; dbName := Some "shop";
     srcUri := Some "mongodb://a"; srcDb := Some "shop";
     dstUri := Some "mongodb://b"; dstDb := Some "copy";
     socketId := None; batchSize := Some "2";
     file := Some "/srv/uploads/f1" |}.

(** The file that the export of [Demo.users] writes, read back in two
    chunks. *)
Definition users_export : File :=
  {| file_name := "users.ndjson";
     file_chunks := ["{1}
{2}
{3";  "}
{4}
{5}
"];
     count_rejects := false |}.

(** A browser that takes decimal texts as they are and every selector. *)
#[export] Instance browser : Browser :=
  {| Number_text := fun v => Some v; selector_ok := fun _ => true |}.

(** The fields of a filled export form and of a filled copy form. *)
Definition export_form : FormData :=
  [("uri", " mongodb://db "); ("dbName", "shop"); ("batchSize", "")].

Definition copy_form : FormData :=
  [("srcUri", "mongodb://a"); ("srcDb", "shop"); ("dstUri", "mongodb://b");
   ("dstDb", "copy"); ("batchSize", "250")].

Definition upload_form : FormData :=
  [("uri", "mongodb://db"); ("dbName", "shop"); ("batchSize", "")].

End Samples.

Ltac listed := repeat first [apply list_elem_of_here | apply list_elem_of_further].

(** * Properties *)

(** ** The effective batch size *)

Lemma digits_Some a s : is_Some (Js.digits (Some a) s).
Proof.
  revert a. induction s as [|c r IH]; intros a; simpl; [by eexists|].
  destruct (Js.digit c); [apply IH | by eexists].
Qed.

Lemma digits_None s :
  Js.digits None s = None <->
  match s with
  | String c _ => match Js.digit c with Some _ => false | None => true end
  | EmptyString => true
  end = true.
Proof.
  destruct s as [|c r]; simpl; [done|].
  destruct (Js.digit c) as [d|]; [|done].
  destruct (digits_Some (10 * 0 + d) r) as [n ->]. done.
Qed.

Lemma parseInt_unsigned s :
  Js.parseInt s = None <-> Js.digits None (unsigned_part s) = None.
Proof.
  unfold Js.parseInt, unsigned_part.
  destruct (Js.trimStart s) as [|c r]; [done|].
  destruct (Ascii.ascii_dec c "-") as [->|Hm]; simpl.
  - destruct (Js.digits None r); simpl; split; congruence.
  - destruct (Ascii.ascii_dec c "+") as [->|Hp]; [done|].
    destruct c as [[] [] [] [] [] [] [] []]; try done.
Qed.

Lemma parseInt_NaN s : Js.parseInt s = None <-> numeric s = false.
Proof.
  rewrite parseInt_unsigned, digits_None. unfold numeric.
  destruct (unsigned_part s) as [|c r]; [done|].
  destruct (Js.digit c); split; congruence.
Qed.

(** C10. The batch size of a job is 1000 when the [batchSize] field is
    absent, is not numeric, or parses to zero; any other parsed integer is
    taken as it is, a negative one included: no lower bound is enforced. *)
Theorem BATCH_SIZE_effective :
  BATCH_SIZE None = 1000
  /\ (forall s, numeric s = false -> BATCH_SIZE (Some s) = 1000)
  /\ (forall s, Js.parseInt s = Some 0 -> BATCH_SIZE (Some s) = 1000)
  /\ (forall s n, Js.parseInt s = Some n -> n <> 0 -> BATCH_SIZE (Some s) = n)
  /\ (forall s n, Js.parseInt s = Some n -> n < 0 -> BATCH_SIZE (Some s) < 1).
Proof.
  unfold BATCH_SIZE, Js.parseInt_field. repeat split.
  - intros s Hs. apply parseInt_NaN in Hs. simpl. by rewrite Hs.
  - intros s Hs. simpl. by rewrite Hs.
  - intros s n Hs Hn. simpl. rewrite Hs.
    destruct (Z.eqb_spec n 0); congruence.
  - intros s n Hs Hn. simpl. rewrite Hs.
    destruct (Z.eqb_spec n 0); lia.
Qed.

Lemma BATCH_SIZE_effective_witness :
  BATCH_SIZE (Some "abc") = 1000 /\ BATCH_SIZE (Some " -0") = 1000
  /\ BATCH_SIZE (Some "250 docs") = 250 /\ BATCH_SIZE (Some "-5") < 1.
Proof.
  destruct BATCH_SIZE_effective as (_ & Hnan & Hzero & Hint & Hneg).
  split; [apply Hnan; reflexivity|].
  split; [apply Hzero; reflexivity|].
  split; [apply (Hint _ 250); [reflexivity | lia]|].
  apply (Hneg _ (-5)); [reflexivity | lia].
Defined.

(** ** The cleanup registry *)

Section CleanupFacts.
Import Cleanup CleanupInv.

Lemma Inv_empty : Inv empty.
Proof.
  split; simpl; try (intros; simplify_map_eq; done).
  - intros t [[? H]|[? H]]; simplify_map_eq.
  - intros t H. by apply elem_of_nil in H.
  - constructor.
Qed.

Lemma Inv_schedule p ttl r : Inv r -> Inv (scheduleCleanup p ttl r).
Proof.
  intros I. unfold scheduleCleanup.
  destruct (scheduledCleanups r !! p) eqn:Hp; [done|].
  split; simpl.
  - intros t tm. rewrite lookup_insert. case_decide as Ht.
    + intros [= <-]. simpl. subst. by rewrite lookup_insert_eq.
    + intros H. pose proof (inv_timer _ I _ _ H) as Hk.
      rewrite lookup_insert_ne; [done | congruence].
  - intros t q H. pose proof (inv_removing _ I _ _ H) as Hk.
    rewrite lookup_insert_ne; [done | congruence].
  - intros q t. rewrite lookup_insert. case_decide as Hq.
    + intros [= <-]. subst. left. exists ttl. by rewrite lookup_insert_eq.
    + intros H. destruct (inv_key _ I _ _ H) as [[x Hx]|Hx]; [|by right].
      left. exists x. rewrite lookup_insert_ne; [done|].
      pose proof (inv_fresh _ I t (or_introl (mk_is_Some _ _ Hx))). lia.
  - intros t. rewrite lookup_insert. case_decide as Ht.
    + intros _. subst. destruct (removing r !! next_timer r) eqn:E; [|done].
      pose proof (inv_fresh _ I _ (or_intror (mk_is_Some _ _ E))). lia.
    + apply (inv_apart _ I).
  - intros t [H|H].
    + rewrite lookup_insert in H. case_decide; [lia|].
      pose proof (inv_fresh _ I t (or_introl H)). lia.
    + pose proof (inv_fresh _ I t (or_intror H)). lia.
  - intros t H. destruct (inv_fired _ I t H) as [Hlt Hn].
    split; [lia|]. rewrite lookup_insert_ne; [done | lia].
  - apply (inv_once _ I).
Qed.

Lemma Inv_fire t r : Inv r -> Inv (fire t r).
Proof.
  intros I. unfold fire. destruct (timers r !! t) as [tm|] eqn:Ht; [|done].
  pose proof (inv_apart _ I t (mk_is_Some _ _ Ht)) as Hrt.
  split; simpl.
  - intros u um. rewrite lookup_delete. case_decide; [done|]. apply (inv_timer _ I).
  - intros u q. rewrite lookup_insert. case_decide.
    + intros [= <-]. subst. by apply (inv_timer _ I _ _ Ht).
    + apply (inv_removing _ I).
  - intros q u H. destruct (inv_key _ I _ _ H) as [[x Hx]|Hx].
    + destruct (decide (u = t)) as [->|Hne].
      * right. rewrite lookup_insert_eq. rewrite Ht in Hx. by injection Hx as ->.
      * left. exists x. by rewrite lookup_delete_ne.
    + right. rewrite lookup_insert_ne; [done|]. intros ->. congruence.
  - intros u. rewrite lookup_delete. case_decide; [by intros [? ?]|].
    intros Hu. rewrite lookup_insert_ne; [|done]. by apply (inv_apart _ I).
  - intros u [H|H].
    + rewrite lookup_delete in H. case_decide; [by destruct H|].
      apply (inv_fresh _ I). by left.
    + rewrite lookup_insert in H. case_decide.
      * subst. apply (inv_fresh _ I). left. by eexists.
      * apply (inv_fresh _ I). by right.
  - intros u H. apply elem_of_app in H as [H|H].
    + destruct (inv_fired _ I u H) as [Hlt Hn]. split; [done|].
      rewrite lookup_delete. by case_decide.
    + apply list_elem_of_singleton in H as ->. split.
      * apply (inv_fresh _ I). left. by eexists.
      * by rewrite lookup_delete_eq.
  - apply NoDup_app. split; [apply (inv_once _ I)|]. split; [|apply NoDup_singleton].
    intros u Hu Hu'. apply list_elem_of_singleton in Hu' as ->.
    destruct (inv_fired _ I t Hu) as [_ Hn]. congruence.
Qed.

Lemma Inv_settle t ok r : Inv r -> Inv (settle t ok r).
Proof.
  intros I. unfold settle. destruct (removing r !! t) as [p|] eqn:Ht; [|done].
  pose proof (inv_removing _ I _ _ Ht) as Hk.
  assert (Hnt : timers r !! t = None).
  { destruct (timers r !! t) eqn:E; [|done].
    pose proof (inv_apart _ I t (mk_is_Some _ _ E)). congruence. }
  split; simpl.
  - intros u um H. pose proof (inv_timer _ I _ _ H) as Hu.
    rewrite lookup_delete_ne; [done|]. congruence.
  - intros u q. rewrite lookup_delete. case_decide; [done|].
    intros Hq. pose proof (inv_removing _ I _ _ Hq) as Hu.
    rewrite lookup_delete_ne; [done|]. congruence.
  - intros q u. rewrite lookup_delete. case_decide; [done|].
    intros Hq. destruct (inv_key _ I _ _ Hq) as [Hx|Hx]; [by left|].
    right. rewrite lookup_delete_ne; [done|]. congruence.
  - intros u Hu. rewrite lookup_delete. case_decide; [done|]. by apply (inv_apart _ I).
  - intros u [H|H].
    + apply (inv_fresh _ I). by left.
    + rewrite lookup_delete in H. case_decide; [by destruct H|].
      apply (inv_fresh _ I). by right.
  - apply (inv_fired _ I).
  - apply (inv_once _ I).
Qed.

Lemma Inv_run l r : Inv r -> Inv (run l r).
Proof.
  revert r. induction l as [|a l IH]; intros r I; [done|].
  simpl. apply IH. destruct a; simpl;
    [by apply Inv_schedule | by apply Inv_fire | by apply Inv_settle].
Qed.

Lemma armed_lookup p r t ttl :
  armed p r !! t = Some ttl <->
  timers r !! t = Some {| timer_path := p; timer_ttl := ttl |}.
Proof.
  unfold armed. rewrite lookup_fmap, fmap_Some. split.
  - intros (tm & H & ->). apply map_lookup_filter_Some in H as [H1 H2].
    simpl in H2. destruct tm; simpl in *. by subst.
  - intros H. exists {| timer_path := p; timer_ttl := ttl |}. split; [|done].
    apply map_lookup_filter_Some. by split.
Qed.

Lemma armed_fresh p ttl r :
  Inv r -> scheduledCleanups r !! p = None ->
  armed p (scheduleCleanup p ttl r) = {[ next_timer r := ttl ]}.
Proof.
  intros I Hp. apply map_eq. intros t. apply option_eq. intros x.
  rewrite armed_lookup, lookup_singleton_Some.
  unfold scheduleCleanup. rewrite Hp. simpl.
  rewrite lookup_insert. case_decide as Ht.
  - split; [by intros [= <-] | by intros [_ <-]].
  - split; [|by intros [? _]].
    intros H. pose proof (inv_timer _ I _ _ H) as Hk. simpl in Hk. congruence.
Qed.

Lemma schedule_registered p ttl r :
  is_Some (scheduledCleanups r !! p) -> scheduleCleanup p ttl r = r.
Proof. intros [t Ht]. unfold scheduleCleanup. by rewrite Ht. Qed.

Lemma schedule_lookup p ttl r :
  scheduledCleanups r !! p = None ->
  scheduledCleanups (scheduleCleanup p ttl r) !! p = Some (next_timer r).
Proof. intros Hp. unfold scheduleCleanup. rewrite Hp. simpl. by rewrite lookup_insert_eq. Qed.

Lemma fire_idem t r : fire t (fire t r) = fire t r.
Proof.
  unfold fire at 2 3. destruct (timers r !! t) as [tm|] eqn:Ht.
  - unfold fire. simpl. by rewrite lookup_delete_eq.
  - unfold fire. by rewrite Ht.
Qed.

Lemma fire_armed p t ttl r :
  Inv r -> armed p r !! t = Some ttl ->
  armed p (fire t r) = ∅ /\ removing (fire t r) !! t = Some p.
Proof.
  intros I Ht. apply armed_lookup in Ht.
  pose proof (inv_timer _ I _ _ Ht) as Hk. simpl in Hk. split.
  - apply map_eq. intros u. rewrite lookup_empty. apply option_eq. intros x.
    rewrite armed_lookup. unfold fire. rewrite Ht. simpl. split; [|done].
    rewrite lookup_delete. case_decide; [done|]. intros Hu.
    pose proof (inv_timer _ I _ _ Hu) as Hk'. simpl in Hk'. congruence.
  - unfold fire. rewrite Ht. simpl. by rewrite lookup_insert_eq.
Qed.

End CleanupFacts.

Section CleanupClaim.
Import Cleanup CleanupInv.

(** C9. In every state the registry can reach: scheduling a path that is
    registered changes nothing; a path never has two armed timers, and
    after two schedules of a free path the one armed timer carries the
    delay of the first; no timer fires twice; once a fired deletion has
    settled, with or without success, the key is gone and the next
    schedule of the path arms a new timer. *)
Theorem scheduleCleanup_dedup (l : list Action) (p : string) :
  let r := run l empty in
  (forall ttl, is_Some (scheduledCleanups r !! p) -> scheduleCleanup p ttl r = r)
  /\ (forall t1 t2, is_Some (armed p r !! t1) -> is_Some (armed p r !! t2) -> t1 = t2)
  /\ (forall ttl ttl', scheduledCleanups r !! p = None ->
        scheduleCleanup p ttl' (scheduleCleanup p ttl r) = scheduleCleanup p ttl r
        /\ armed p (scheduleCleanup p ttl r) = {[ next_timer r := ttl ]})
  /\ NoDup (fired r)
  /\ (forall t ttl, armed p r !! t = Some ttl ->
        armed p (fire t r) = ∅
        /\ removing (fire t r) !! t = Some p
        /\ fire t (fire t r) = fire t r)
  /\ (forall t ok, removing r !! t = Some p ->
        scheduledCleanups (settle t ok r) !! p = None
        /\ forall ttl,
             scheduledCleanups (scheduleCleanup p ttl (settle t ok r)) !! p
               = Some (next_timer r)
             /\ next_timer r <> t
             /\ armed p (scheduleCleanup p ttl (settle t ok r)) = {[ next_timer r := ttl ]}).
Proof.
  intros r. assert (I : Inv r) by (apply Inv_run, Inv_empty).
  split; [|split; [|split; [|split; [|split]]]].
  - intros ttl. apply schedule_registered.
  - intros t1 t2 [x1 H1] [x2 H2]. apply armed_lookup in H1, H2.
    pose proof (inv_timer _ I _ _ H1) as K1. pose proof (inv_timer _ I _ _ H2) as K2.
    simpl in *. congruence.
  - intros ttl ttl' Hp. split; [|by apply armed_fresh].
    apply schedule_registered. rewrite (schedule_lookup _ _ _ Hp). by eexists.
  - apply (inv_once _ I).
  - intros t ttl Ht. destruct (fire_armed p t ttl r I Ht) as [Ha Hr].
    split; [done|]. split; [done|]. apply fire_idem.
  - intros t ok Ht.
    pose proof (Inv_settle t ok r I) as I'.
    assert (Hnone : scheduledCleanups (settle t ok r) !! p = None).
    { unfold settle. rewrite Ht. simpl. by rewrite lookup_delete_eq. }
    assert (Hnext : next_timer (settle t ok r) = next_timer r).
    { unfold settle. by rewrite Ht. }
    split; [done|]. intros ttl. split; [|split].
    + by rewrite (schedule_lookup _ _ _ Hnone), Hnext.
    + pose proof (inv_fresh _ I t (or_intror (mk_is_Some _ _ Ht))). lia.
    + rewrite <- Hnext. by apply armed_fresh.
Qed.

Lemma scheduleCleanup_dedup_witness :
  let r := run [Schedule "/srv/uploads/f1" 3600000; Fire 0%nat] empty in
  scheduledCleanups (settle 0 false r) !! "/srv/uploads/f1" = None
  /\ scheduledCleanups (scheduleCleanup "/srv/uploads/f1" 5 (settle 0 false r))
       !! "/srv/uploads/f1" = Some 1%nat.
Proof.
  intros r.
  destruct (scheduleCleanup_dedup
              [Schedule "/srv/uploads/f1" 3600000; Fire 0%nat] "/srv/uploads/f1")
    as (_ & _ & _ & _ & _ & Hsettle).
  destruct (Hsettle 0%nat false) as [Hgone Hnew]; [reflexivity|].
  split; [exact Hgone|]. exact (proj1 (Hnew 5)).
Defined.

End CleanupClaim.

(** ** Rules for reading runs *)

Section Rules.
Context {P : Platform} (env : Env).
Local Open Scope job_scope.

Lemma sat_at_weaken {A} s (m : M A) (Φ Ψ : Res A -> list Call -> Prop) :
  sat_at s m Φ -> (forall r t, Φ r t -> Ψ r t) -> sat_at s m Ψ.
Proof. intros (t & Ht & H) HΦ. exists t. auto. Qed.

Lemma sat_at_ret {A} s (a : A) (Φ : Res A -> list Call -> Prop) :
  Φ (Returned a) [] -> sat_at s (ret a) Φ.
Proof. intros H. exists []. simpl. by rewrite app_nil_r. Qed.

Lemma sat_at_bind {A B} s (m : M A) (k : A -> M B)
    (Φ1 : Res A -> list Call -> Prop) (Φ : Res B -> list Call -> Prop) :
  sat_at s m Φ1 ->
  (forall e t, Φ1 (Thrown e) t -> Φ (Thrown e) t) ->
  (forall t, Φ1 OutOfFuel t -> Φ OutOfFuel t) ->
  (forall a s' t1, m s = Ret a s' -> Φ1 (Returned a) t1 ->
     sat_at s' (k a) (fun r t2 => Φ r (t1 ++ t2)%list)) ->
  sat_at s (bind m k) Φ.
Proof.
  intros (t1 & Ht1 & H1) Hthrow Hfuel Hk. unfold sat_at, bind.
  destruct (m s) as [a s'|e s'|s'] eqn:Hm; simpl in *.
  - destruct (Hk a s' t1 eq_refl H1) as (t2 & Ht2 & H2).
    exists (t1 ++ t2)%list. split; [|done].
    by rewrite Ht2, Ht1, app_assoc.
  - exists t1. auto.
  - exists t1. auto.
Qed.

Lemma sat_at_log s c (Φ : Res unit -> list Call -> Prop) :
  Φ (Returned tt) [c] -> sat_at s (log c) Φ.
Proof. intros H. by exists [c]. Qed.

Lemma sat_at_now s (Φ : Res Z -> list Call -> Prop) :
  Φ (Returned (Date_now env (ticks s))) [] -> sat_at s (now env) Φ.
Proof. intros H. exists []. simpl. by rewrite app_nil_r. Qed.

Lemma sat_at_store s op (Φ : Res unit -> list Call -> Prop) :
  (store_fail env (ops s) = None -> Φ (Returned tt) [Store op None]) ->
  (forall e, store_fail env (ops s) = Some e -> Φ (Thrown e) [Store op (Some e)]) ->
  sat_at s (store env op) Φ.
Proof.
  intros Hok Hrej. unfold sat_at, store.
  destruct (store_fail env (ops s)) as [e|] eqn:Hf; simpl.
  - exists [Store op (Some e)]. auto.
  - exists [Store op None]. auto.
Qed.

(** What a run adds to the trace is the [t] of [sat_at]. *)
Lemma sat_at_emitted {A} s (m : M A) (Φ : Res A -> list Call -> Prop) :
  sat_at s m Φ ->
  trace (state_of (m s)) = (trace s ++ emitted m s)%list /\ Φ (res_of (m s)) (emitted m s).
Proof.
  intros (t & Ht & H). unfold emitted. rewrite Ht, drop_app_length. done.
Qed.

Section Always.
Variables Pc Qc : Call -> Prop.
Hypothesis HP : Passive Pc Qc.

Lemma always_nil {A} (r : Res A) : always Pc Qc r [].
Proof. split; intros; constructor. Qed.

Lemma always_app {A B} (a : A) (r : Res B) t1 t2 :
  always Pc Qc (Returned a) t1 -> always Pc Qc r t2 -> always Pc Qc r (t1 ++ t2).
Proof.
  intros [H1 H1'] [H2 H2']. split.
  - by apply Forall_app.
  - intros Hr. apply Forall_app. split; [apply H1'; simpl; tauto | by apply H2'].
Qed.

Lemma always_throw {A B} e t :
  always Pc Qc (@Thrown A e) t -> always Pc Qc (@Thrown B e) t.
Proof. intros [H _]. split; [done|]. simpl. tauto. Qed.

Lemma always_fuel {A B} t :
  always Pc Qc (@OutOfFuel A) t -> always Pc Qc (@OutOfFuel B) t.
Proof. intros [H H']. split; [done|]. intros _. apply H'. simpl. tauto. Qed.

Lemma always_ret {A} (a : A) : sat (ret a) (always Pc Qc).
Proof. intros s. apply sat_at_ret, always_nil. Qed.

Lemma always_bind {A B} (m : M A) (k : A -> M B) :
  sat m (always Pc Qc) -> (forall a, sat (k a) (always Pc Qc)) ->
  sat (bind m k) (always Pc Qc).
Proof.
  intros Hm Hk s. eapply sat_at_bind; [apply Hm | apply always_throw | apply always_fuel |].
  intros a s' t1 _ H1. eapply sat_at_weaken; [apply Hk|].
  intros r t2 H2. by eapply always_app.
Qed.

Lemma always_log c : Pc c -> Qc c -> sat (log c) (always Pc Qc).
Proof.
  intros Hp Hq s. apply sat_at_log. split; [|intros _]; by repeat constructor.
Qed.

Lemma always_fs op : sat (fs op) (always Pc Qc).
Proof. apply always_log; apply (passive_fs _ _ HP). Qed.

Lemma always_now : sat (now env) (always Pc Qc).
Proof. intros s. apply sat_at_now, always_nil. Qed.

Lemma always_diverge {A} : sat (@diverge _ A) (always Pc Qc).
Proof. intros s. exists []. simpl. rewrite app_nil_r. split; [done|]. apply always_nil. Qed.

Lemma always_store op : sat (store env op) (always Pc Qc).
Proof.
  intros s. apply sat_at_store.
  - intros _. split; [|intros _]; repeat constructor; apply (passive_store _ _ HP).
  - intros e _. split; [|simpl; tauto]. repeat constructor. apply (passive_rejected _ _ HP).
Qed.

Lemma always_emit sid ev p :
  Pc (EmitProgress ev p) /\ Qc (EmitProgress ev p) ->
  sat (emitProgress sid ev p) (always Pc Qc).
Proof.
  intros H. unfold emitProgress. apply always_bind.
  - apply always_log; apply H.
  - intros _. destruct (Js.truthy_str sid); [|apply always_ret].
    apply always_log; by apply (passive_io _ _ HP).
Qed.

Lemma always_count_or_zero c : sat (count_or_zero env c) (always Pc Qc).
Proof.
  intros s. unfold sat_at, count_or_zero, try_catch, bind, store, ret.
  destruct (store_fail env (ops s)) as [e|]; simpl; eexists; (split; [done|]).
  - split; [|intros _]; repeat constructor.
    + apply (passive_rejected _ _ HP).
    + apply (passive_count _ _ HP).
  - split; [|intros _]; repeat constructor; apply (passive_store _ _ HP).
Qed.

Lemma always_try_finally {A} (body : M A) (fin : M unit) :
  sat body (always Pc Qc) -> sat fin (always Pc Qc) ->
  (forall s, res_of (fin s) <> OutOfFuel) ->
  sat (try_finally body fin) (always Pc Qc).
Proof.
  intros Hb Hf Hfin s. destruct (Hb s) as (t1 & Ht1 & H1).
  unfold sat_at, try_finally, bind, ret.
  destruct (body s) as [a s'|e s'|s'] eqn:Hbs; simpl in *.
  - destruct (Hf s') as (t2 & Ht2 & H2).
    destruct (fin s') as [[] s''|e s''|s'']; simpl in *;
      exists (t1 ++ t2)%list; (split; [by rewrite Ht2, Ht1, app_assoc|]).
    + by eapply always_app.
    + eapply always_app; [exact H1|]. by eapply always_throw.
    + eapply always_app; [exact H1|]. by eapply always_fuel.
  - destruct (Hf s') as (t2 & Ht2 & H2). pose proof (Hfin s') as Hnf.
    destruct (fin s') as [[] s''|e' s''|s'']; simpl in *;
      exists (t1 ++ t2)%list; (split; [by rewrite Ht2, Ht1, app_assoc|]).
    + split; [|simpl; tauto]. apply Forall_app. split; [apply H1 | apply H2].
    + split; [|simpl; tauto]. apply Forall_app. split; [apply H1 | apply H2].
    + (* the [finally] block itself ran out of budget *)
      split; [apply Forall_app; split; [apply H1 | apply H2]|].
      intros _. by exfalso.
  - exists t1. split; [done|]. done.
Qed.

End Always.
End Rules.

Section TryRules.
Context {P : Platform}.

Lemma sat_at_try_catch {A} s (body : M A) (handler : string -> M A)
    (Φ1 Φ : Res A -> list Call -> Prop) :
  sat_at s body Φ1 ->
  (forall a t, Φ1 (Returned a) t -> Φ (Returned a) t) ->
  (forall t, Φ1 OutOfFuel t -> Φ OutOfFuel t) ->
  (forall e s' t1, body s = Throw e s' -> Φ1 (Thrown e) t1 ->
     sat_at s' (handler e) (fun r t2 => Φ r (t1 ++ t2)%list)) ->
  sat_at s (try_catch body handler) Φ.
Proof.
  intros (t1 & Ht1 & H1) Hret Hfuel Hh. unfold sat_at, try_catch.
  destruct (body s) as [a s'|e s'|s'] eqn:Hbs; simpl in *.
  - exists t1. auto.
  - destruct (Hh e s' t1 eq_refl H1) as (t2 & Ht2 & H2).
    exists (t1 ++ t2)%list. split; [|done]. by rewrite Ht2, Ht1, app_assoc.
  - exists t1. auto.
Qed.

Lemma sat_at_try_finally {A} s (body : M A) (fin : M unit)
    (Φ1 Φ : Res A -> list Call -> Prop) :
  sat_at s body Φ1 ->
  (forall t, Φ1 OutOfFuel t -> Φ OutOfFuel t) ->
  (forall a s' t1, body s = Ret a s' -> Φ1 (Returned a) t1 ->
     sat_at s' fin (fun r t2 =>
       match r with
       | Returned _ => Φ (Returned a) (t1 ++ t2)%list
       | Thrown e => Φ (Thrown e) (t1 ++ t2)%list
       | OutOfFuel => Φ OutOfFuel (t1 ++ t2)%list
       end)) ->
  (forall e s' t1, body s = Throw e s' -> Φ1 (Thrown e) t1 ->
     sat_at s' fin (fun r t2 =>
       match r with
       | Returned _ => Φ (Thrown e) (t1 ++ t2)%list
       | Thrown e' => Φ (Thrown e') (t1 ++ t2)%list
       | OutOfFuel => Φ OutOfFuel (t1 ++ t2)%list
       end)) ->
  sat_at s (try_finally body fin) Φ.
Proof.
  intros (t1 & Ht1 & H1) Hfuel Hret Hthrow. unfold sat_at, try_finally, bind, ret.
  destruct (body s) as [a s'|e s'|s'] eqn:Hbs; simpl in *.
  - destruct (Hret a s' t1 eq_refl H1) as (t2 & Ht2 & H2).
    destruct (fin s') as [[] s''|e s''|s'']; simpl in *;
      exists (t1 ++ t2)%list; (split; [by rewrite Ht2, Ht1, app_assoc | done]).
  - destruct (Hthrow e s' t1 eq_refl H1) as (t2 & Ht2 & H2).
    destruct (fin s') as [[] s''|e' s''|s'']; simpl in *;
      exists (t1 ++ t2)%list; (split; [by rewrite Ht2, Ht1, app_assoc | done]).
  - exists t1. auto.
Qed.

End TryRules.

(** ** The same property along every part of a job *)

Section Walk.
Context {P : Platform} (env : Env).
Variables Pc Qc : Call -> Prop.
Hypothesis HP : Passive Pc Qc.
Local Open Scope job_scope.

Local Abbreviation ok := (always Pc Qc).
Local Abbreviation fits name T :=
  (forall ev p, task_event name T ev p ->
                Pc (EmitProgress ev p) /\ Qc (EmitProgress ev p)).

Lemma always_pull name BATCH i cursor batch : sat (pull env name BATCH i cursor batch) ok.
Proof.
  revert i batch. induction cursor as [|doc rest IH]; intros i batch; simpl.
  - destruct (i <? BATCH); [|by apply always_ret].
    apply always_bind; [by apply always_store | intros _; by apply always_ret].
  - destruct (i <? BATCH); [|by apply always_ret].
    apply always_bind; [by apply always_store | intros _].
    apply always_bind; [by apply always_store | intros _]. apply IH.
Qed.

Lemma always_write_batch outFile batch : sat (write_batch outFile batch) ok.
Proof.
  induction batch as [|d rest IH]; simpl; [by apply always_ret|].
  apply always_bind; [by apply always_fs | intros _; apply IH].
Qed.

Lemma always_progress sid ev name done T start :
  ev ∈ ["backup-progress"; "transfer-progress"; "upload-progress"] ->
  fits name T ->
  sat (progress env sid ev name done T start) ok.
Proof.
  intros Hev Hfit. unfold progress.
  apply always_bind; [by apply always_now | intros t].
  apply always_emit; [done|]. apply Hfit. by constructor.
Qed.

Lemma always_backup_loop fuel sid name outFile BATCH T start cursor docsDone :
  fits name T ->
  sat (backup_loop env fuel sid name outFile BATCH T start cursor docsDone) ok.
Proof.
  intros Hfit. revert cursor docsDone.
  induction fuel as [|fuel IH]; intros cursor docsDone; simpl; [by apply always_diverge|].
  apply always_bind; [by apply always_store | intros _].
  destruct cursor as [|d rest]; [by apply always_ret|].
  apply always_bind; [by apply always_pull | intros [batch cursor']].
  apply always_bind; [by apply always_write_batch | intros _].
  apply always_bind; [|intros _; apply IH].
  apply always_progress; [listed | done].
Qed.

Lemma always_transfer_loop fuel sid name BATCH T start cursor transferred :
  fits name T ->
  sat (transfer_loop env fuel sid name BATCH T start cursor transferred) ok.
Proof.
  intros Hfit. revert cursor transferred.
  induction fuel as [|fuel IH]; intros cursor transferred; simpl;
    [by apply always_diverge|].
  apply always_bind; [by apply always_store | intros _].
  destruct cursor as [|d rest]; [by apply always_ret|].
  apply always_bind; [by apply always_pull | intros [batch cursor']].
  destruct batch as [|b batch]; [apply IH|].
  apply always_bind; [by apply always_store | intros _].
  apply always_bind; [|intros _; apply IH].
  apply always_progress; [listed | done].
Qed.

Lemma always_drain fuel sid name BATCH T start buffer docsBatch importedCount :
  fits name T ->
  sat (drain env fuel sid name BATCH T start buffer docsBatch importedCount) ok.
Proof.
  intros Hfit. revert buffer docsBatch importedCount.
  induction fuel as [|fuel IH]; intros buffer docsBatch importedCount; simpl;
    [by apply always_diverge|].
  destruct (Js.indexOf_nl buffer) as [idx|]; [|by apply always_ret].
  destruct (String.eqb _ _); [apply IH|].
  destruct (JSON_parse _) as [obj|]; [|apply IH].
  destruct (_ >=? _); [|apply IH].
  apply always_bind; [by apply always_store | intros _].
  apply always_bind; [|intros _; apply IH].
  apply always_progress; [listed | done].
Qed.

Lemma always_chunks_loop sid name BATCH T start chunks buffer docsBatch importedCount :
  fits name T ->
  sat (chunks_loop env sid name BATCH T start chunks buffer docsBatch importedCount) ok.
Proof.
  intros Hfit. revert buffer docsBatch importedCount.
  induction chunks as [|chunk rest IH]; intros buffer docsBatch importedCount;
    cbn [chunks_loop]; [by apply always_ret|].
  apply always_bind; [by apply always_drain | intros [[b d] n]]. apply IH.
Qed.

Lemma always_flush sid name T start docsBatch importedCount :
  fits name T ->
  sat (flush env sid name T start docsBatch importedCount) ok.
Proof.
  intros Hfit. destruct docsBatch as [|d rest]; simpl; [by apply always_ret|].
  apply always_bind; [by apply always_store | intros _].
  apply always_bind; [|intros _; by apply always_ret].
  apply always_progress; [listed | done].
Qed.

Lemma always_backup_task fuel sid outDir BATCH collIndex c T :
  fits (coll_name c) T ->
  sat (backup_task env fuel sid outDir BATCH collIndex c T) ok.
Proof.
  intros Hfit. unfold backup_task.
  apply always_bind; [by apply always_fs | intros _].
  apply always_bind; [apply always_emit; [done|]; apply Hfit; constructor; listed
                     | intros _].
  apply always_bind; [by apply always_now | intros start].
  apply always_bind; [by apply always_backup_loop | intros _].
  apply always_bind; [by apply always_fs | intros _].
  apply always_bind; [apply always_emit; [done|]; apply Hfit; constructor; listed
                     | intros _].
  by apply always_ret.
Qed.

Lemma always_transfer_task fuel sid BATCH migrated c T :
  fits (coll_name c) T ->
  sat (transfer_task env fuel sid BATCH migrated c T) ok.
Proof.
  intros Hfit. unfold transfer_task.
  apply always_bind; [by apply always_store | intros _].
  apply always_bind; [apply always_emit; [done|]; apply Hfit; constructor; listed
                     | intros _].
  apply always_bind; [by apply always_now | intros start].
  apply always_bind; [by apply always_transfer_loop | intros _].
  apply always_bind; [apply always_emit; [done|]; apply Hfit; constructor; listed
                     | intros _].
  by apply always_ret.
Qed.

Lemma always_upload_file sid extractDir BATCH imported f :
  fits (Js.strip_ext (file_name f)) (file_total f) ->
  sat (upload_file env sid extractDir BATCH imported f) ok.
Proof.
  intros Hfit. unfold upload_file.
  apply always_bind; [by apply always_fs | intros _].
  apply always_bind; [by apply always_store | intros _].
  apply always_bind; [by apply always_fs | intros _].
  apply always_bind; [apply always_emit; [done|]; apply Hfit; constructor; listed
                     | intros _].
  apply always_bind; [by apply always_now | intros start].
  apply always_bind; [by apply always_chunks_loop | intros [[b d] n]].
  apply always_bind; [by apply always_flush | intros n'].
  apply always_bind; [apply always_emit; [done|]; apply Hfit; constructor; listed
                     | intros _].
  by apply always_ret.
Qed.

Lemma always_for_of {A} (body : Z -> A -> M Z) counter xs :
  (forall n x, sat (body n x) ok) -> sat (for_of body counter xs) ok.
Proof.
  intros Hbody. revert counter.
  induction xs as [|x rest IH]; intros counter; simpl; [by apply always_ret|].
  apply always_bind; [apply Hbody | intros n; apply IH].
Qed.

End Walk.

Section WalkJob.
Context {P : Platform} (env : Env).
Variables Pc Qc : Call -> Prop.
Hypothesis HP : Passive Pc Qc.
Hypothesis Hnormal : forall ev p,
  normal_event ev p -> Pc (EmitProgress ev p) /\ Qc (EmitProgress ev p).
Hypothesis Hrespond : forall status body,
  Pc (Respond status body) /\ Qc (Respond status body).
Hypothesis Hschedule : forall path, Pc (ScheduleCleanup path) /\ Qc (ScheduleCleanup path).
Local Open Scope job_scope.

Local Abbreviation ok := (always Pc Qc).

Lemma fits_normal name T ev p :
  task_event name T ev p -> Pc (EmitProgress ev p) /\ Qc (EmitProgress ev p).
Proof. intros H. apply Hnormal. by econstructor. Qed.

Lemma always_scheduleCleanup path : sat (scheduleCleanup path) ok.
Proof.
  unfold scheduleCleanup. apply always_bind; [apply always_log; apply Hschedule|].
  intros _ s. exists []. simpl. rewrite app_nil_r. split; [done|]. apply always_nil.
Qed.

Lemma always_backup_job fuel req timestamp outDir :
  sat (backup_job env fuel req timestamp outDir) ok.
Proof.
  unfold backup_job.
  apply always_bind; [by apply always_store | intros _].
  apply always_bind; [by apply always_store | intros _].
  apply always_bind; [apply always_emit; [done|]; apply Hnormal; constructor; listed
                     | intros _].
  apply always_bind.
  { apply always_for_of. intros n c. unfold backup_collection.
    apply always_bind; [by apply always_count_or_zero | intros T].
    apply always_backup_task; [done|]. apply fits_normal. }
  intros _. apply always_bind; [by apply always_fs | intros _].
  apply always_bind; [apply always_emit; [done|]; apply Hnormal; constructor | intros _].
  apply always_log; apply Hrespond.
Qed.

Lemma always_transfer_job fuel req : sat (transfer_job env fuel req) ok.
Proof.
  unfold transfer_job.
  apply always_bind; [by apply always_store | intros _].
  apply always_bind; [by apply always_store | intros _].
  apply always_bind; [by apply always_store | intros _].
  apply always_bind; [apply always_emit; [done|]; apply Hnormal; constructor; listed
                     | intros _].
  apply always_bind.
  { apply always_for_of. intros n c. unfold transfer_collection.
    apply always_bind; [by apply always_count_or_zero | intros T].
    apply always_transfer_task; [done|]. apply fits_normal. }
  intros n. apply always_bind;
    [apply always_emit; [done|]; apply Hnormal; constructor; listed | intros _].
  apply always_log; apply Hrespond.
Qed.

Lemma always_upload_job req filePath extractDir :
  sat (upload_job env req filePath extractDir) ok.
Proof.
  unfold upload_job.
  apply always_bind; [by apply always_store | intros _].
  apply always_bind; [by apply always_fs | intros _].
  apply always_bind; [apply always_emit; [done|]; apply Hnormal; constructor; listed
                     | intros _].
  apply always_bind.
  { apply always_for_of. intros n f. apply always_upload_file; [done|]. apply fits_normal. }
  intros n. apply always_bind; [apply always_scheduleCleanup | intros _].
  apply always_bind; [apply always_scheduleCleanup | intros _].
  apply always_bind;
    [apply always_emit; [done|]; apply Hnormal; constructor; listed | intros _].
  apply always_log; apply Hrespond.
Qed.

End WalkJob.

(** ** Fatal errors *)

Section Abort.
Context {P : Platform} (env : Env).
Local Open Scope job_scope.

Lemma passive_calm : Passive no_error no_fatal.
Proof.
  split; unfold no_error, no_fatal; simpl; try (intros; split; [split|]; done).
  - intros op e. split; done.
  - done.
  - intros sid ev p [[H _] _]. split; [split; [done|]|done].
    intros ev' [= <-]. by apply H.
Qed.

Lemma calm_normal ev p :
  normal_event ev p -> no_error (EmitProgress ev p) /\ no_fatal (EmitProgress ev p).
Proof.
  intros H. split; [|done]. split; [|done]. simpl. intros ev' [= <-].
  inversion H as [? ? ? ? Hin|? ? ? ? Ht| |? ? Hin]; subst; try done;
    try (inversion Ht as [? ? Hin|? ? ? Hin|? ? Hin]; subst);
    repeat (apply elem_of_cons in Hin as [->|Hin]; [done|]);
    by apply elem_of_nil in Hin.
Qed.

(** The error path of a route: what [on_error] adds. *)
Lemma on_error_run sid ev e s :
  exists s', on_error sid ev e s = Ret tt s'
    /\ trace s' = (trace s ++ EmitProgress ev (P_error e)
                     :: (if Js.truthy_str sid
                         then [IoEmit (default "" sid) ev (P_error e)] else [])
                     ++ [Respond 500 (B_error e)])%list.
Proof.
  unfold on_error, emitProgress, bind, log, ret. simpl.
  destruct (Js.truthy_str sid); simpl; eexists; (split; [done|]); simpl;
    by rewrite <- ?app_assoc.
Qed.

(** *** Where a job can throw *)

Local Abbreviation going := (breaks underway).

Lemma underway_unfailed c : underway c -> unfailed c.
Proof. intros (H1 & H2 & _). by split. Qed.

Lemma underway_emit sid ev p :
  is_error_name ev = false -> Forall underway (emit_calls sid ev p).
Proof.
  intros Hev. unfold emit_calls.
  assert (H1 : underway (EmitProgress ev p)).
  { split; [split|done]; simpl; [by intros ? [= <-] | done]. }
  assert (H2 : forall room, underway (IoEmit room ev p)).
  { intros room. split; [split|done]; simpl; [done | by intros ? [= <-]]. }
  destruct (Js.truthy_str sid); repeat (constructor; [done|]); constructor.
Qed.

Lemma underway_store_ok op : underway (Store op None).
Proof. by repeat split. Qed.

Lemma underway_fs op : underway (Fs op).
Proof. by repeat split. Qed.

Lemma breaks_ret {A} Qc (a : A) : sat (ret a) (breaks Qc).
Proof. intros s. apply sat_at_ret. constructor. Qed.

Lemma breaks_diverge {A} Qc : sat (@diverge _ A) (breaks Qc).
Proof. intros s. exists []. simpl. rewrite app_nil_r. split; [done | constructor]. Qed.

Lemma breaks_bind {A B} Qc (m : M A) (k : A -> M B) :
  (forall c, underway c -> Qc c) ->
  sat m going -> (forall a, sat (k a) (breaks Qc)) -> sat (bind m k) (breaks Qc).
Proof.
  intros HQ Hm Hk s. eapply sat_at_bind; [apply Hm| | |].
  - intros e t H. exact H.
  - intros t H. simpl in *. eapply Forall_impl; [exact H | exact HQ].
  - intros a s' t1 _ H1. eapply sat_at_weaken; [apply Hk|].
    intros r t2 H2. simpl in H1. destruct r as [b|e|]; simpl in *.
    + apply Forall_app. split; [|done]. eapply Forall_impl; [exact H1 | exact HQ].
    + destruct H2 as (t2' & op & -> & Hop & H2). exists (t1 ++ t2')%list, op.
      rewrite app_assoc. split; [done|]. split; [done|]. by apply Forall_app.
    + apply Forall_app. split; [|done]. eapply Forall_impl; [exact H1 | exact HQ].
Qed.

Lemma going_bind {A B} (m : M A) (k : A -> M B) :
  sat m going -> (forall a, sat (k a) going) -> sat (bind m k) going.
Proof. by apply breaks_bind. Qed.

Lemma going_log c : underway c -> sat (log c) going.
Proof. intros H s. apply sat_at_log. constructor; [done | constructor]. Qed.

Lemma going_fs op : sat (fs op) going.
Proof. apply going_log, underway_fs. Qed.

Lemma going_now : sat (now env) going.
Proof. intros s. apply sat_at_now. constructor. Qed.

Lemma going_store op : mid_job op = true -> sat (store env op) going.
Proof.
  intros Hop s. apply sat_at_store.
  - intros _. constructor; [apply underway_store_ok | constructor].
  - intros e _. exists [], op. split; [done|]. split; [done | constructor].
Qed.

Lemma going_count_or_zero c : sat (count_or_zero env c) going.
Proof.
  intros s. unfold sat_at, count_or_zero, try_catch, bind, store, ret.
  destruct (store_fail env (ops s)) as [e|]; simpl; eexists; (split; [done|]);
    (constructor; [by repeat split | constructor]).
Qed.

Lemma going_emit sid ev p :
  is_error_name ev = false -> sat (emitProgress sid ev p) going.
Proof.
  intros Hev s. pose proof (underway_emit sid ev p Hev) as H. unfold emit_calls in H.
  unfold sat_at, emitProgress, bind, log, ret. simpl.
  destruct (Js.truthy_str sid); simpl; eexists; (split; [|exact H]); simpl.
  - by rewrite <- app_assoc.
  - done.
Qed.

Lemma going_scheduleCleanup path : sat (scheduleCleanup path) going.
Proof.
  unfold scheduleCleanup. apply going_bind; [by apply going_log|].
  intros _ s. exists []. simpl. rewrite app_nil_r. split; [done | constructor].
Qed.

Lemma going_pull name BATCH i cursor batch : sat (pull env name BATCH i cursor batch) going.
Proof.
  revert i batch. induction cursor as [|doc rest IH]; intros i batch; simpl.
  - destruct (i <? BATCH); [|by apply breaks_ret].
    apply going_bind; [by apply going_store | intros _; by apply breaks_ret].
  - destruct (i <? BATCH); [|by apply breaks_ret].
    apply going_bind; [by apply going_store | intros _].
    apply going_bind; [by apply going_store | intros _]. apply IH.
Qed.

Lemma going_write_batch outFile batch : sat (write_batch outFile batch) going.
Proof.
  induction batch as [|d rest IH]; simpl; [by apply breaks_ret|].
  apply going_bind; [apply going_fs | intros _; apply IH].
Qed.

Lemma going_progress sid ev name done T start :
  is_error_name ev = false -> sat (progress env sid ev name done T start) going.
Proof.
  intros Hev. unfold progress.
  apply going_bind; [apply going_now | intros t]. by apply going_emit.
Qed.

Lemma going_backup_loop fuel sid name outFile BATCH T start cursor docsDone :
  sat (backup_loop env fuel sid name outFile BATCH T start cursor docsDone) going.
Proof.
  revert cursor docsDone.
  induction fuel as [|fuel IH]; intros cursor docsDone; simpl; [apply breaks_diverge|].
  apply going_bind; [by apply going_store | intros _].
  destruct cursor as [|d rest]; [by apply breaks_ret|].
  apply going_bind; [apply going_pull | intros [batch cursor']].
  apply going_bind; [apply going_write_batch | intros _].
  apply going_bind; [by apply going_progress | intros _; apply IH].
Qed.

Lemma going_transfer_loop fuel sid name BATCH T start cursor transferred :
  sat (transfer_loop env fuel sid name BATCH T start cursor transferred) going.
Proof.
  revert cursor transferred.
  induction fuel as [|fuel IH]; intros cursor transferred; simpl; [apply breaks_diverge|].
  apply going_bind; [by apply going_store | intros _].
  destruct cursor as [|d rest]; [by apply breaks_ret|].
  apply going_bind; [apply going_pull | intros [batch cursor']].
  destruct batch as [|b batch]; [apply IH|].
  apply going_bind; [by apply going_store | intros _].
  apply going_bind; [by apply going_progress | intros _; apply IH].
Qed.

Lemma going_drain fuel sid name BATCH T start buffer docsBatch importedCount :
  sat (drain env fuel sid name BATCH T start buffer docsBatch importedCount) going.
Proof.
  revert buffer docsBatch importedCount.
  induction fuel as [|fuel IH]; intros buffer docsBatch importedCount; simpl;
    [apply breaks_diverge|].
  destruct (Js.indexOf_nl buffer) as [idx|]; [|by apply breaks_ret].
  destruct (String.eqb _ _); [apply IH|].
  destruct (JSON_parse _) as [obj|]; [|apply IH].
  destruct (_ >=? _); [|apply IH].
  apply going_bind; [by apply going_store | intros _].
  apply going_bind; [by apply going_progress | intros _; apply IH].
Qed.

Lemma going_chunks_loop sid name BATCH T start chunks buffer docsBatch importedCount :
  sat (chunks_loop env sid name BATCH T start chunks buffer docsBatch importedCount) going.
Proof.
  revert buffer docsBatch importedCount.
  induction chunks as [|chunk rest IH]; intros buffer docsBatch importedCount;
    cbn [chunks_loop]; [by apply breaks_ret|].
  apply going_bind; [apply going_drain | intros [[b d] n]]. apply IH.
Qed.

Lemma going_flush sid name T start docsBatch importedCount :
  sat (flush env sid name T start docsBatch importedCount) going.
Proof.
  destruct docsBatch as [|d rest]; simpl; [by apply breaks_ret|].
  apply going_bind; [by apply going_store | intros _].
  apply going_bind; [by apply going_progress | intros _; by apply breaks_ret].
Qed.

Lemma going_backup_collection fuel sid outDir BATCH collIndex c :
  sat (backup_collection env fuel sid outDir BATCH collIndex c) going.
Proof.
  unfold backup_collection, backup_task.
  apply going_bind; [apply going_count_or_zero | intros T].
  apply going_bind; [apply going_fs | intros _].
  apply going_bind; [by apply going_emit | intros _].
  apply going_bind; [apply going_now | intros start].
  apply going_bind; [apply going_backup_loop | intros _].
  apply going_bind; [apply going_fs | intros _].
  apply going_bind; [by apply going_emit | intros _]. by apply breaks_ret.
Qed.

Lemma going_transfer_collection fuel sid BATCH migrated c :
  sat (transfer_collection env fuel sid BATCH migrated c) going.
Proof.
  unfold transfer_collection, transfer_task.
  apply going_bind; [apply going_count_or_zero | intros T].
  apply going_bind; [by apply going_store | intros _].
  apply going_bind; [by apply going_emit | intros _].
  apply going_bind; [apply going_now | intros start].
  apply going_bind; [apply going_transfer_loop | intros _].
  apply going_bind; [by apply going_emit | intros _]. by apply breaks_ret.
Qed.

Lemma going_upload_file sid extractDir BATCH imported f :
  sat (upload_file env sid extractDir BATCH imported f) going.
Proof.
  unfold upload_file.
  apply going_bind; [apply going_fs | intros _].
  apply going_bind; [by apply going_store | intros _].
  apply going_bind; [apply going_fs | intros _].
  apply going_bind; [by apply going_emit | intros _].
  apply going_bind; [apply going_now | intros start].
  apply going_bind; [apply going_chunks_loop | intros [[b d] n]].
  apply going_bind; [apply going_flush | intros n'].
  apply going_bind; [by apply going_emit | intros _]. by apply breaks_ret.
Qed.

Lemma going_for_of {A} (body : Z -> A -> M Z) counter xs :
  (forall n x, sat (body n x) going) -> sat (for_of body counter xs) going.
Proof.
  intros Hbody. revert counter.
  induction xs as [|x rest IH]; intros counter; simpl; [by apply breaks_ret|].
  apply going_bind; [apply Hbody | intros n; apply IH].
Qed.

(** The response is the last call of a job, and nothing is thrown after it. *)
Lemma breaks_respond status body : sat (log (Respond status body)) (breaks unfailed).
Proof. intros s. apply sat_at_log. constructor; [by split | constructor]. Qed.

Lemma breaks_backup_job fuel req timestamp outDir :
  sat (backup_job env fuel req timestamp outDir) (breaks unfailed).
Proof.
  unfold backup_job.
  apply breaks_bind; [apply underway_unfailed | by apply going_store | intros _].
  apply breaks_bind; [apply underway_unfailed | by apply going_store | intros _].
  apply breaks_bind; [apply underway_unfailed | by apply going_emit | intros _].
  apply breaks_bind;
    [apply underway_unfailed
    | apply going_for_of; intros; apply going_backup_collection | intros _].
  apply breaks_bind; [apply underway_unfailed | apply going_fs | intros _].
  apply breaks_bind; [apply underway_unfailed | by apply going_emit | intros _].
  apply breaks_respond.
Qed.

Lemma breaks_transfer_job fuel req : sat (transfer_job env fuel req) (breaks unfailed).
Proof.
  unfold transfer_job.
  apply breaks_bind; [apply underway_unfailed | by apply going_store | intros _].
  apply breaks_bind; [apply underway_unfailed | by apply going_store | intros _].
  apply breaks_bind; [apply underway_unfailed | by apply going_store | intros _].
  apply breaks_bind; [apply underway_unfailed | by apply going_emit | intros _].
  apply breaks_bind;
    [apply underway_unfailed
    | apply going_for_of; intros; apply going_transfer_collection | intros n].
  apply breaks_bind; [apply underway_unfailed | by apply going_emit | intros _].
  apply breaks_respond.
Qed.

Lemma breaks_upload_job req filePath extractDir :
  sat (upload_job env req filePath extractDir) (breaks unfailed).
Proof.
  unfold upload_job.
  apply breaks_bind; [apply underway_unfailed | by apply going_store | intros _].
  apply breaks_bind; [apply underway_unfailed | apply going_fs | intros _].
  apply breaks_bind; [apply underway_unfailed | by apply going_emit | intros _].
  apply breaks_bind;
    [apply underway_unfailed
    | apply going_for_of; intros; apply going_upload_file | intros n].
  apply breaks_bind; [apply underway_unfailed | apply going_scheduleCleanup | intros _].
  apply breaks_bind; [apply underway_unfailed | apply going_scheduleCleanup | intros _].
  apply breaks_bind; [apply underway_unfailed | by apply going_emit | intros _].
  apply breaks_respond.
Qed.

End Abort.

Section AbortRoutes.
Context {P : Platform} (env : Env).
Local Open Scope job_scope.

Local Abbreviation aborts sid ev :=
  (fun (_ : Res unit) t => Exists (fun c => fatal c = true) t -> aborted sid ev t).

Lemma no_fatal_here t :
  Forall no_fatal t -> Exists (fun c => fatal c = true) t -> False.
Proof.
  intros Hall Hex. apply Exists_exists in Hex as (c & Hin & Hc).
  rewrite Forall_forall in Hall. specialize (Hall c Hin). unfold no_fatal in Hall.
  congruence.
Qed.

Lemma unfailed_split t : Forall unfailed t -> Forall no_error t /\ Forall no_fatal t.
Proof. intros H. split; (eapply Forall_impl; [exact H|]); by intros c [? ?]. Qed.

Lemma underway_split t :
  Forall underway t ->
  Forall no_error t /\ Forall no_fatal t /\ Forall (fun c => response_of c = None) t.
Proof.
  intros H. split; [|split]; (eapply Forall_impl; [exact H|]); by intros c (? & ? & ?).
Qed.

Lemma closing_quiet c :
  closing c ->
  no_error c /\ no_fatal c /\ response_of c = None
  /\ event_name c = None /\ wire_name c = None.
Proof. intros [(uri & r & ->)|(path & ->)]; repeat split; try done; by destruct r. Qed.

Lemma closing_no_fatal t : Forall closing t -> Forall no_fatal t.
Proof. intros H. eapply Forall_impl; [exact H|]. intros c Hc. by apply closing_quiet. Qed.

Lemma emit_no_fatal sid ev p : Forall no_fatal (emit_calls sid ev p).
Proof. unfold emit_calls. destruct (Js.truthy_str sid); by repeat constructor. Qed.

Lemma aborted_prepend sid ev t0 t :
  Forall no_error t0 -> Forall no_fatal t0 -> aborted sid ev t -> aborted sid ev (t0 ++ t).
Proof.
  intros He Hf (t1 & op & e & c1 & e' & c2 & -> & Hop & H1 & H2 & H3 & H4 & H5).
  exists (t0 ++ t1)%list, op, e, c1, e', c2. rewrite app_assoc.
  repeat split; try done; by apply Forall_app.
Qed.

Lemma abort_prefix sid ev t1 t2 :
  Forall no_error t1 -> Forall no_fatal t1 ->
  (Exists (fun c => fatal c = true) t2 -> aborted sid ev t2) ->
  Exists (fun c => fatal c = true) (t1 ++ t2) -> aborted sid ev (t1 ++ t2).
Proof.
  intros He Hf H Hex. apply aborted_prepend; [done | done|]. apply H.
  apply Exists_app in Hex as [Hex|Hex]; [|done]. by destruct (no_fatal_here t1).
Qed.

(** A step that always returns and is no event. *)
Lemma abort_bind {A} sid ev (m : M A) (k : A -> M unit) :
  sat m (fun r t => ~ is_thrown r /\ r <> OutOfFuel
                    /\ Forall no_error t /\ Forall no_fatal t) ->
  (forall a, sat (k a) (aborts sid ev)) ->
  sat (bind m k) (aborts sid ev).
Proof.
  intros Hm Hk s. eapply sat_at_bind; [apply Hm| | |].
  - intros e t (Hn & _). by destruct Hn.
  - intros t (_ & Hn & _). by destruct Hn.
  - intros a s' t1 _ (_ & _ & He & Hf). eapply sat_at_weaken; [apply Hk|].
    intros r t2 H. by apply abort_prefix.
Qed.

Lemma now_plain :
  sat (now env) (fun r t => ~ is_thrown r /\ r <> OutOfFuel
                            /\ Forall no_error t /\ Forall no_fatal t).
Proof. intros s. apply sat_at_now. repeat split; try done. simpl. tauto. Qed.

Lemma fs_plain op :
  sat (fs op) (fun r t => ~ is_thrown r /\ r <> OutOfFuel
                          /\ Forall no_error t /\ Forall no_fatal t).
Proof.
  intros s. apply sat_at_log. split; [simpl; tauto|]. split; [done|].
  split; repeat constructor; done.
Qed.

Lemma respond_aborts sid ev status body : sat (log (Respond status body)) (aborts sid ev).
Proof.
  intros s. apply sat_at_log. intros Hex. exfalso. revert Hex.
  apply no_fatal_here. by repeat constructor.
Qed.

Lemma close_closing uri : sat (store env (Close uri)) (fun _ t => Forall closing t).
Proof.
  intros s. apply sat_at_store; intros; (constructor; [left; eauto | constructor]).
Qed.

Lemma close2_closing uri1 uri2 :
  sat (store env (Close uri1);;; store env (Close uri2)) (fun _ t => Forall closing t).
Proof.
  intros s. eapply sat_at_bind; [apply close_closing| | |]; try done.
  intros [] s' t1 _ H1. eapply sat_at_weaken; [apply close_closing|].
  intros r t2 H2. by apply Forall_app.
Qed.

Lemma remove_closing path : sat (fs (Remove path)) (fun _ t => Forall closing t).
Proof. intros s. apply sat_at_log. constructor; [right; eauto | constructor]. Qed.

(** The trace of a job that threw at a rejected call, once the error is
    reported and the route has wound up. *)
Lemma aborted_here sid ev t1 op e c2 :
  mid_job op = true -> Forall underway t1 -> Forall closing c2 ->
  aborted sid ev
    (t1 ++ [Store op (Some e)]
        ++ (EmitProgress ev (P_error e)
              :: (if Js.truthy_str sid
                  then [IoEmit (default "" sid) ev (P_error e)] else [])
              ++ [Respond 500 (B_error e)]) ++ c2)%list.
Proof.
  intros Hop H1 H2. destruct (underway_split _ H1) as (He & Hf & _).
  exists t1, op, e, [], e, c2. unfold emit_calls. simpl. rewrite <- app_assoc. simpl.
  repeat split; try done. by left.
Qed.

(** [try { body } catch (err) { on_error } finally { fin }]: either no
    driver call of the job proper was rejected, or the trace has the shape
    of an aborted job. *)
Lemma abort_shape sid ev (body fin : M unit) :
  sat body (breaks unfailed) ->
  sat fin (fun _ t => Forall closing t) ->
  sat (try_finally (try_catch body (on_error sid ev)) fin) (aborts sid ev).
Proof.
  intros Hb Hf s. destruct (Hb s) as (t1 & Ht1 & H1).
  unfold sat_at, try_finally, try_catch.
  destruct (body s) as [[] s1|e s1|s1] eqn:Hbs; simpl in *.
  - (* the body returned *)
    destruct (Hf s1) as (t2 & Ht2 & H2).
    exists (t1 ++ t2)%list. split.
    + unfold bind, ret. destruct (fin s1); simpl in *; by rewrite Ht2, Ht1, app_assoc.
    + intros Hex. exfalso. revert Hex. apply no_fatal_here, Forall_app.
      split; [by apply unfailed_split | by apply closing_no_fatal].
  - (* the body threw *)
    destruct H1 as (t1' & op & -> & Hop & H1).
    destruct (on_error_run sid ev e s1) as (s2 & Hrun & Htr). rewrite Hrun.
    destruct (Hf s2) as (t2 & Ht2 & H2).
    eexists. split.
    + assert (Hfin : trace (state_of (fin s2))
                     = (trace s ++ t1' ++ [Store op (Some e)]
                          ++ (EmitProgress ev (P_error e)
                                :: (if Js.truthy_str sid
                                    then [IoEmit (default "" sid) ev (P_error e)] else [])
                                ++ [Respond 500 (B_error e)]) ++ t2)%list).
      { rewrite Ht2, Htr, Ht1, <- !app_assoc. reflexivity. }
      unfold bind, ret. destruct (fin s2); exact Hfin.
    + intros _. by apply aborted_here.
  - (* the body ran out of budget *)
    exists t1. split; [done|]. intros Hex. exfalso. revert Hex.
    apply no_fatal_here. by apply unfailed_split.
Qed.

(** [client = new MongoClient(uri)] at the head of a [try] block whose
    [finally] closes [client] only if it was assigned. *)
Lemma construct_aborts sid ev uri (W other : M unit) :
  sat W (aborts sid ev) ->
  sat other (fun _ t => Forall closing t) ->
  sat (client <- try_catch (store env (NewMongoClient uri);;; ret true)
                           (fun e => on_error sid ev e;;; ret false);;
       if client : bool then W else other)
      (aborts sid ev).
Proof.
  intros HW Ho s. unfold sat_at, bind at 1, try_catch, bind at 1, store, ret.
  destruct (store_fail env (ops s)) as [e|] eqn:Hf; simpl.
  - set (s1 := {| registry := registry s;
                  trace := (trace s ++ [Store (NewMongoClient uri) (Some e)])%list;
                  ops := S (ops s); ticks := ticks s |}).
    destruct (on_error_run sid ev e s1) as (s2 & Hrun & Htr).
    unfold bind. rewrite Hrun. destruct (Ho s2) as (t2 & Ht2 & H2).
    eexists. split.
    + rewrite Ht2, Htr. simpl. rewrite <- !app_assoc. reflexivity.
    + intros _. by apply (aborted_here sid ev []).
  - set (s1 := {| registry := registry s;
                  trace := (trace s ++ [Store (NewMongoClient uri) None])%list;
                  ops := S (ops s); ticks := ticks s |}).
    destruct (HW s1) as (t2 & Ht2 & H2).
    exists ([Store (NewMongoClient uri) None] ++ t2)%list. split.
    + rewrite Ht2. simpl. by rewrite <- app_assoc.
    + apply abort_prefix; [by repeat constructor | by repeat constructor | done].
Qed.

Lemma backup_aborts fuel req :
  sat (backup env fuel req) (aborts (socketId req) "backup-error").
Proof.
  unfold backup. destruct (_ || _); [apply respond_aborts|].
  apply abort_bind; [apply now_plain | intros timestamp].
  apply abort_bind; [apply fs_plain | intros _].
  apply construct_aborts.
  - apply abort_shape; [apply breaks_backup_job | apply close_closing].
  - intros s. by apply sat_at_ret.
Qed.

Lemma transfer_aborts fuel req :
  sat (transfer env fuel req) (aborts (socketId req) "transfer-error").
Proof.
  unfold transfer. destruct (_ || _); [apply respond_aborts|].
  apply construct_aborts; [|intros s; by apply sat_at_ret].
  apply construct_aborts; [|apply close_closing].
  apply abort_shape; [apply breaks_transfer_job | apply close2_closing].
Qed.

(** *** The import route, whose [catch] follows an inner [finally] *)

Lemma no_response_after n (l l' : list Call) :
  existsb is_response l' = false ->
  existsb is_response (drop n (l ++ l')) = existsb is_response (drop n l).
Proof.
  intros H. rewrite skipn_app, existsb_app.
  assert (Hd : forall k, existsb is_response (drop k l') = false).
  { clear -H. induction l' as [|c l' IH]; intros [|k]; try done.
    simpl in H. apply orb_false_iff in H as [_ H]. by apply IH. }
  by rewrite Hd, orb_false_r.
Qed.

Lemma emit_no_response sid ev p : existsb is_response (emit_calls sid ev p) = false.
Proof. unfold emit_calls. by destruct (Js.truthy_str sid). Qed.

(** What the [catch] block of the import route does. *)
Lemma upload_catch_run start sid e s :
  let sent := existsb is_response (drop start (trace s)) in
  exists s',
    upload_catch start sid e s
    = (if sent then Throw "Cannot set headers after they are sent to the client" s'
       else Ret tt s')
    /\ registry s' = registry s /\ ops s' = ops s
    /\ trace s' = (trace s ++ emit_calls sid "upload-error" (P_error e)
                     ++ (if sent then [] else [Respond 500 (B_error e)]))%list.
Proof.
  intros sent. unfold upload_catch, emitProgress, headersSent, throw, bind, log, ret.
  pose proof (no_response_after start (trace s)
                (emit_calls sid "upload-error" (P_error e))
                (emit_no_response _ _ _)) as Hsent.
  fold sent in Hsent. unfold emit_calls in *.
  destruct (Js.truthy_str sid); simpl in *; rewrite <- ?app_assoc; simpl;
    rewrite Hsent; destruct sent; simpl; eexists; repeat split;
    by rewrite <- ?app_assoc.
Qed.

Local Abbreviation wound_up :=
  (fun (r : Res unit) (t : list Call) =>
   Forall no_fatal t
   \/ exists e t1 op e0 c1,
        r = Thrown e /\ t = (t1 ++ Store op (Some e0) :: c1)%list
        /\ mid_job op = true /\ Forall underway t1 /\ Forall closing c1
        /\ (e = e0 \/ exists uri, Store (Close uri) (Some e) ∈ c1)).

(** The outer [try] block of the import route: when it throws after a
    rejected driver call of the job proper, only the closing of the client
    has followed that call. *)
Lemma upload_try_wound_up req filePath extractDir :
  sat (fs (Extract filePath extractDir);;;
       store env (NewMongoClient (uri req));;;
       try_finally (upload_job env req filePath extractDir)
                   (store env (Close (uri req))))
      wound_up.
Proof.
  intros s. eapply sat_at_bind; [apply going_fs| | |].
  - intros e t (t1 & op & -> & Hop & H1). right. exists e, t1, op, e, [].
    repeat split; try done. by left.
  - intros t H. left. by apply underway_split.
  - intros [] s1 t0 _ H0. simpl in H0.
    eapply sat_at_bind; [by apply going_store| | |].
    + intros e t (t1 & op & -> & Hop & H1). right.
      exists e, (t0 ++ t1)%list, op, e, []. rewrite <- app_assoc.
      repeat split; try done; [by apply Forall_app | by left].
    + intros t H. left. apply Forall_app. split; [|simpl in H]; by apply underway_split.
    + intros [] s2 t1 _ H1. simpl in H1.
      destruct (underway_split _ H0) as (_ & Hnf0 & _).
      destruct (underway_split _ H1) as (_ & Hnf1 & _).
      destruct (breaks_upload_job env req filePath extractDir s2) as (tj & Htj & Hj).
      unfold sat_at, try_finally, bind, ret, store.
      destruct (upload_job env req filePath extractDir s2) as [[] s3|e s3|s3] eqn:Hjob;
        simpl in *.
      * (* the job returned *)
        destruct (unfailed_split _ Hj) as [_ Hjf].
        destruct (store_fail env (ops s3)) as [e2|]; simpl; eexists;
          (split; [by rewrite Htj, <- !app_assoc|]); left;
          rewrite !Forall_app; repeat split; try done; by repeat constructor.
      * (* the job threw *)
        destruct Hj as (tj' & op & -> & Hop & Hj).
        destruct (store_fail env (ops s3)) as [e2|]; simpl; eexists;
          (split; [by rewrite Htj, <- !app_assoc|]); right.
        -- exists e2, (t0 ++ t1 ++ tj')%list, op, e, [Store (Close (uri req)) (Some e2)].
           rewrite <- !app_assoc. simpl. rewrite !Forall_app. repeat split; try done.
           ++ constructor; [left; eauto | constructor].
           ++ right. exists (uri req). apply list_elem_of_here.
        -- exists e, (t0 ++ t1 ++ tj')%list, op, e, [Store (Close (uri req)) None].
           rewrite <- !app_assoc. simpl. rewrite !Forall_app. repeat split; try done.
           ++ constructor; [left; eauto | constructor].
           ++ by left.
      * (* the job ran out of budget *)
        destruct (unfailed_split _ Hj) as [_ Hjf].
        exists tj. split; [done|]. left. rewrite !Forall_app. by repeat split.
Qed.

Lemma upload_body_aborts req filePath s :
  sat_at s (upload_body env (List.length (trace s)) req filePath)
    (aborts (socketId req) "upload-error").
Proof.
  set (start := List.length (trace s)).
  set (extractDir := path_join UPLOAD_DIR ("extract-" +:+ pretty (Date_now env (ticks s)))).
  set (s2 := {| registry := registry s; trace := (trace s ++ [Fs (EnsureDir extractDir)])%list;
                ops := ops s; ticks := S (ticks s) |}).
  set (inner := (fs (Extract filePath extractDir);;;
                 store env (NewMongoClient (uri req));;;
                 try_finally (upload_job env req filePath extractDir)
                             (store env (Close (uri req))))%job).
  assert (Hrun : upload_body env start req filePath s
                 = try_finally (try_catch inner (upload_catch start (socketId req)))
                     (fs (Remove filePath)) s2) by reflexivity.
  unfold sat_at. rewrite Hrun. clear Hrun.
  destruct (upload_try_wound_up req filePath extractDir s2) as (t1 & Ht1 & H1).
  fold inner in Ht1, H1. simpl in Ht1.
  unfold try_finally, try_catch, fs, log, bind, ret.
  destruct (inner s2) as [[] s3|e s3|s3] eqn:Hin; simpl in *.
  - (* the block returned *)
    exists ([Fs (EnsureDir extractDir)] ++ t1 ++ [Fs (Remove filePath)])%list.
    split; [by rewrite Ht1, <- !app_assoc|].
    intros Hex. exfalso. revert Hex. apply no_fatal_here.
    destruct H1 as [H1|(? & ? & ? & ? & ? & [=] & _)].
    repeat (apply Forall_app; split); try done; by repeat constructor.
  - (* the block threw: the [catch] *)
    destruct (upload_catch_run start (socketId req) e s3) as (s4 & Hc & _ & _ & Htr).
    assert (Hdrop : drop start (trace s3) = ([Fs (EnsureDir extractDir)] ++ t1)%list).
    { rewrite Ht1, <- app_assoc. apply drop_app_length. }
    rewrite Hdrop in Hc, Htr.
    destruct H1 as [H1|(e1 & tj & op & e0 & c1 & [= <-] & -> & Hop & Hj & Hc1 & He)].
    + (* no driver call of the job proper was rejected *)
      pose proof (emit_no_fatal (socketId req) "upload-error" (P_error e)) as Hemit.
      rewrite Hc.
      destruct (existsb is_response _); simpl;
        (eexists; split; [rewrite Htr, Ht1, <- !app_assoc; reflexivity|]);
        intros Hex; exfalso; revert Hex; apply no_fatal_here;
        rewrite !Forall_app; repeat split; try done; by repeat constructor.
    + (* the job aborted; no response has gone out *)
      assert (Hsent : existsb is_response
                        ([Fs (EnsureDir extractDir)] ++ tj ++ Store op (Some e0) :: c1)
                      = false).
      { simpl. rewrite existsb_app. simpl.
        apply orb_false_iff. split.
        - destruct (underway_split _ Hj) as (_ & _ & Hr). clear -Hr.
          induction Hr as [|c t Hc _ IH]; [done|]. simpl. rewrite IH.
          by destruct c.
        - clear -Hc1. induction Hc1 as [|c t Hc _ IH]; [done|]. simpl. rewrite IH.
          by destruct Hc as [(? & ? & ->)|(? & ->)]. }
      rewrite Hsent in Hc, Htr. rewrite Hc. simpl. eexists. split.
      * rewrite Htr, Ht1, <- !app_assoc. reflexivity.
      * intros _. destruct (underway_split _ Hj) as (Hje & Hjf & _).
        exists ([Fs (EnsureDir extractDir)] ++ tj)%list, op, e0, c1, e,
          [Fs (Remove filePath)].
        rewrite <- !app_assoc. simpl. repeat split; try done.
        -- constructor; [by repeat split | done].
        -- constructor; [done | done].
        -- constructor; [right; eauto | constructor].
  - (* the block ran out of budget *)
    exists ([Fs (EnsureDir extractDir)] ++ t1)%list.
    split; [by rewrite Ht1, <- !app_assoc|].
    intros Hex. exfalso. revert Hex. apply no_fatal_here.
    destruct H1 as [H1|(? & ? & ? & ? & ? & [=] & _)].
    apply Forall_app; split; [by repeat constructor | done].
Qed.

Lemma upload_aborts req :
  sat (upload env req) (aborts (socketId req) "upload-error").
Proof.
  unfold upload. destruct (file req) as [filePath|]; [|apply respond_aborts].
  intros s. apply upload_body_aborts.
Qed.

Lemma no_error_names t :
  Forall no_error t ->
  List.filter is_error_name (omap event_name t) = []
  /\ List.filter is_error_name (omap wire_name t) = [].
Proof.
  induction 1 as [|c t [Hc Hc'] _ [IH1 IH2]]; [done|]. simpl. split.
  - destruct (event_name c) as [x|] eqn:Hx; [|done]. simpl. by rewrite (Hc x eq_refl).
  - destruct (wire_name c) as [x|] eqn:Hx; [|done]. simpl. by rewrite (Hc' x eq_refl).
Qed.

Lemma closing_names t :
  Forall closing t -> omap event_name t = [] /\ omap wire_name t = [].
Proof.
  induction 1 as [|c t Hc _ [IH1 IH2]]; [done|]. simpl.
  destruct (closing_quiet c Hc) as (_ & _ & _ & -> & ->). done.
Qed.

Lemma aborted_exactly_once sid ev t :
  is_error_name ev = true -> aborted sid ev t ->
  List.filter is_error_name (omap event_name t) = [ev]
  /\ List.filter is_error_name (omap wire_name t)
     = (if Js.truthy_str sid then [ev] else []).
Proof.
  intros Hev (t1 & op & e & c1 & e' & c2 & -> & _ & H1 & _ & H3 & H4 & _).
  destruct (no_error_names _ H1) as [Hn1 Hn2].
  destruct (closing_names _ H3) as [Hc1 Hc1'].
  destruct (closing_names _ H4) as [Hc2 Hc2'].
  change (Store op (Some e) :: c1 ++ emit_calls sid ev (P_error e')
            ++ Respond 500 (B_error e') :: c2)%list
    with ([Store op (Some e)] ++ c1 ++ emit_calls sid ev (P_error e')
            ++ [Respond 500 (B_error e')] ++ c2)%list.
  rewrite !omap_app, Hc1, Hc1', Hc2, Hc2'. simpl. rewrite !app_nil_r.
  rewrite !List.filter_app, Hn1, Hn2. unfold emit_calls. simpl.
  destruct (Js.truthy_str sid); simpl; by rewrite Hev.
Qed.

End AbortRoutes.

Section AbortClaim.
Context {P : Platform} (env : Env).

Lemma aborts_emitted sid ev (m : M unit) s :
  is_error_name ev = true ->
  sat m (fun _ t => Exists (fun c => fatal c = true) t -> aborted sid ev t) ->
  existsb fatal (emitted m s) = true -> aborted_once sid ev (emitted m s).
Proof.
  intros Hev Hm Hex. destruct (sat_at_emitted s m _ (Hm s)) as [_ H].
  assert (Hab : aborted sid ev (emitted m s)).
  { apply H. apply existsb_exists in Hex as (c & Hin & Hc).
    apply Exists_exists. exists c. split; [|done]. by apply list_elem_of_In. }
  split; [done|]. by apply aborted_exactly_once.
Qed.

(** C2. In each of the three routes, if a driver call of the job proper is
    rejected, the job is over with that call: what follows it in the trace
    of the request is only the closing of clients (and the removal of the
    uploaded file), the one error event of the route and the response 500
    with the message of that event. So there is exactly one error event
    of the route, handed to [emitProgress] once and put on the wire once
    if there is a recipient; no progress, collection-done or done event
    follows the rejected call; and no driver call other than the closing
    of clients follows it, so no further collection is attempted. *)
Theorem fatal_error_aborts (fuel : nat) (req : Request) (s : State) :
  (existsb fatal (emitted (backup env fuel req) s) = true ->
   aborted_once (socketId req) "backup-error" (emitted (backup env fuel req) s))
  /\ (existsb fatal (emitted (transfer env fuel req) s) = true ->
      aborted_once (socketId req) "transfer-error" (emitted (transfer env fuel req) s))
  /\ (existsb fatal (emitted (upload env req) s) = true ->
      aborted_once (socketId req) "upload-error" (emitted (upload env req) s)).
Proof.
  split; [|split]; apply aborts_emitted; try done.
  - apply backup_aborts.
  - apply transfer_aborts.
  - apply upload_aborts.
Qed.

End AbortClaim.

Lemma fatal_error_aborts_witness :
  aborted_once (Some "sock1") "backup-error"
    (emitted (backup (Demo.failing 9) 10 Demo.request) Demo.idle)
  /\ aborted_once (Some "sock1") "transfer-error"
       (emitted (transfer (Demo.failing 9) 10 Demo.request) Demo.idle)
  /\ aborted_once (Some "sock1") "upload-error"
       (emitted (upload (Demo.failing 3) Demo.request) Demo.idle).
Proof.
  split; [|split].
  - apply (proj1 (fatal_error_aborts (Demo.failing 9) 10 Demo.request Demo.idle)).
    vm_compute. reflexivity.
  - apply (proj1 (proj2 (fatal_error_aborts (Demo.failing 9) 10 Demo.request Demo.idle))).
    vm_compute. reflexivity.
  - apply (proj2 (proj2 (fatal_error_aborts (Demo.failing 3) 10 Demo.request Demo.idle))).
    vm_compute. reflexivity.
Defined.

(** ** Progress metrics along a collection task *)

(** ** Rounding on 53 bits is monotone *)

Section Binary64Facts.
Import Binary64.
Local Open Scope Q_scope.

Lemma pow2_pos (n : Z) : 0 < 2 ^ n.
Proof. apply Qpower_0_lt. reflexivity. Qed.

Lemma pow2_Z (n : Z) : (0 <= n)%Z -> inject_Z (2 ^ n) == 2 ^ n.
Proof. intros H. apply (Zpower_Qpower 2 n H). Qed.

Lemma log2_bounds (p : positive) :
  2 ^ Z.log2 (Zpos p) <= inject_Z (Zpos p) < 2 ^ (Z.log2 (Zpos p) + 1).
Proof.
  destruct (Z.log2_spec (Zpos p)) as [H1 H2]; [done|].
  pose proof (Z.log2_nonneg (Zpos p)) as H0.
  split.
  - rewrite <- pow2_Z by done. by rewrite <- Zle_Qle.
  - rewrite <- pow2_Z by lia. rewrite <- Zlt_Qlt. by rewrite <- Z.add_1_r in H2.
Qed.

Lemma coarse_bounds (p q : positive) :
  let k := (Z.log2 (Zpos p) - Z.log2 (Zpos q))%Z in
  2 ^ (k - 1) < Zpos p # q < 2 ^ (k + 1).
Proof.
  intros k.
  destruct (log2_bounds p) as [Hp1 Hp2]. destruct (log2_bounds q) as [Hq1 Hq2].
  assert (Hx : (Zpos p # q) * inject_Z (Zpos q) == inject_Z (Zpos p)).
  { unfold Qeq. simpl. lia. }
  assert (Hq : 0 < inject_Z (Zpos q)) by reflexivity.
  split.
  - apply (Qmult_lt_r _ _ _ Hq). rewrite Hx.
    apply Qlt_le_trans with (2 ^ (k - 1) * 2 ^ (Z.log2 (Zpos q) + 1)).
    + apply Qmult_lt_l; [apply pow2_pos | done].
    + rewrite <- Qpower_plus by discriminate.
      replace (k - 1 + (Z.log2 (Zpos q) + 1))%Z with (Z.log2 (Zpos p)) by (unfold k; lia).
      done.
  - apply (Qmult_lt_r _ _ _ Hq). rewrite Hx.
    apply Qlt_le_trans with (2 ^ (Z.log2 (Zpos p) + 1)); [done|].
    replace (Z.log2 (Zpos p) + 1)%Z with (k + 1 + Z.log2 (Zpos q))%Z by (unfold k; lia).
    rewrite Qpower_plus by discriminate.
    apply Qmult_le_l; [apply pow2_pos | done].
Qed.

Lemma binade_bounds (x : Q) : 0 < x -> 2 ^ binade x <= x < 2 ^ (binade x + 1).
Proof.
  destruct x as [[|p|p] q]; intros Hx; try done.
  pose proof (coarse_bounds p q) as [H1 H2]. unfold binade. simpl Qnum. simpl Qden.
  set (k := (Z.log2 (Zpos p) - Z.log2 (Zpos q))%Z) in *.
  destruct (Qle_bool (2 ^ k) (Zpos p # q)) eqn:Hk.
  - apply Qle_bool_iff in Hk. done.
  - split; [by apply Qlt_le_weak|].
    replace (k - 1 + 1)%Z with k by lia.
    apply Qnot_le_lt. intros H. apply Qle_bool_iff in H. congruence.
Qed.

Lemma binade_mono (x y : Q) : 0 < x -> x <= y -> (binade x <= binade y)%Z.
Proof.
  intros Hx Hxy.
  destruct (binade_bounds x Hx) as [H1 _].
  destruct (binade_bounds y (Qlt_le_trans _ _ _ Hx Hxy)) as [_ H2].
  assert (H : 2 ^ binade x < 2 ^ (binade y + 1)).
  { eapply Qle_lt_trans; [exact H1|]. eapply Qle_lt_trans; [exact Hxy | exact H2]. }
  apply Qpower_lt_compat_l_inv in H; [lia | reflexivity].
Qed.

Lemma nearest_even_Z (n : Z) : nearest_even (inject_Z n) = n.
Proof.
  unfold nearest_even. rewrite Qfloor_Z.
  assert (H : inject_Z n - inject_Z n < 1 # 2).
  { unfold Qlt. simpl. lia. }
  destruct (Qcompare_spec (inject_Z n - inject_Z n) (1 # 2)) as [E|L|G]; [|done|].
  - rewrite E in H. done.
  - exfalso. apply (Qlt_irrefl (1 # 2)). eapply Qlt_trans; [exact G | exact H].
Qed.

Lemma nearest_even_range (x : Q) :
  (Qfloor x <= nearest_even x <= Qfloor x + 1)%Z.
Proof.
  unfold nearest_even.
  destruct (x - inject_Z (Qfloor x) ?= 1 # 2); [destruct (Z.even _)| |]; lia.
Qed.

Lemma nearest_even_mono (x y : Q) : x <= y -> (nearest_even x <= nearest_even y)%Z.
Proof.
  intros Hxy. pose proof (Qfloor_resp_le x y Hxy) as Hf.
  pose proof (nearest_even_range x) as Hx. pose proof (nearest_even_range y) as Hy.
  destruct (Z.eq_dec (Qfloor x) (Qfloor y)) as [E|NE]; [|lia].
  unfold nearest_even in *. rewrite <- E in *.
  set (d := Qfloor x) in *.
  assert (Hd : x - inject_Z d <= y - inject_Z d).
  { apply Qplus_le_l with (z := inject_Z d). ring_simplify. exact Hxy. }
  destruct (Qcompare_spec (x - inject_Z d) (1 # 2)) as [Ex|Lx|Gx];
    destruct (Qcompare_spec (y - inject_Z d) (1 # 2)) as [Ey|Ly|Gy];
    try lia; try (destruct (Z.even d); lia).
  - exfalso. rewrite Ex in Hd. apply (Qlt_irrefl (1 # 2)).
    eapply Qle_lt_trans; [exact Hd | exact Ly].
  - exfalso. rewrite Ey in Hd. apply (Qlt_irrefl (1 # 2)).
    eapply Qlt_le_trans; [exact Gx | exact Hd].
  - exfalso. apply (Qlt_irrefl (1 # 2)).
    eapply Qlt_trans; [exact Gx|]. eapply Qle_lt_trans; [exact Hd | exact Ly].
Qed.

Lemma scaled_bounds (x : Q) :
  0 < x -> inject_Z (2 ^ 52) <= x / 2 ^ (binade x - 52) <= inject_Z (2 ^ 53).
Proof.
  intros Hx. destruct (binade_bounds x Hx) as [H1 H2].
  rewrite !pow2_Z by done. split.
  - apply Qle_shift_div_l; [apply pow2_pos|].
    rewrite <- Qpower_plus by discriminate.
    by replace (52 + (binade x - 52))%Z with (binade x) by lia.
  - apply Qle_shift_div_r; [apply pow2_pos|].
    rewrite <- Qpower_plus by discriminate.
    replace (53 + (binade x - 52))%Z with (binade x + 1)%Z by lia.
    by apply Qlt_le_weak.
Qed.

Lemma mantissa_bounds (x : Q) :
  0 < x -> (2 ^ 52 <= nearest_even (x / 2 ^ (binade x - 52)) <= 2 ^ 53)%Z.
Proof.
  intros Hx. destruct (scaled_bounds x Hx) as [H1 H2].
  apply nearest_even_mono in H1, H2. by rewrite nearest_even_Z in H1, H2.
Qed.

Lemma round_pos_nonneg (x : Q) : 0 < x -> 0 <= round_pos x.
Proof.
  intros Hx. unfold round_pos. apply Qmult_le_0_compat.
  - destruct (mantissa_bounds x Hx) as [H _].
    change 0 with (inject_Z 0). rewrite <- Zle_Qle.
    etransitivity; [|exact H]. done.
  - apply Qlt_le_weak, pow2_pos.
Qed.

Lemma round_pos_mono (x y : Q) : 0 < x -> x <= y -> round_pos x <= round_pos y.
Proof.
  intros Hx Hxy. assert (Hy : 0 < y) by (eapply Qlt_le_trans; [exact Hx | exact Hxy]).
  pose proof (binade_mono x y Hx Hxy) as Hb.
  destruct (mantissa_bounds x Hx) as [_ Mx]. destruct (mantissa_bounds y Hy) as [My _].
  unfold round_pos.
  destruct (Z.eq_dec (binade x) (binade y)) as [E|NE].
  - rewrite E. apply Qmult_le_compat_r; [|apply Qlt_le_weak, pow2_pos].
    rewrite <- Zle_Qle. apply nearest_even_mono.
    apply Qmult_le_compat_r; [exact Hxy|].
    apply Qlt_le_weak, Qinv_lt_0_compat, pow2_pos.
  - apply Qle_trans with (inject_Z (2 ^ 53) * 2 ^ (binade x - 52)).
    { apply Qmult_le_compat_r; [by rewrite <- Zle_Qle | apply Qlt_le_weak, pow2_pos]. }
    apply Qle_trans with (inject_Z (2 ^ 52) * 2 ^ (binade y - 52)).
    2: { apply Qmult_le_compat_r; [by rewrite <- Zle_Qle | apply Qlt_le_weak, pow2_pos]. }
    rewrite !pow2_Z by done. rewrite <- !Qpower_plus by discriminate.
    apply Qpower_le_compat_l; [lia | done].
Qed.

Lemma round_mono (x y : Q) : x <= y -> round x <= round y.
Proof.
  intros Hxy. unfold round.
  destruct x as [[|p|p] q], y as [[|p'|p'] q']; simpl Qnum; try done.
  - by apply round_pos_nonneg.
  - by apply round_pos_mono.
  - assert (H : 0 <= round_pos (- (Zneg p # q))) by (by apply round_pos_nonneg).
    apply Qopp_le_compat in H. exact H.
  - apply Qle_trans with 0.
    + assert (H : 0 <= round_pos (- (Zneg p # q))) by (by apply round_pos_nonneg).
      apply Qopp_le_compat in H. exact H.
    + by apply round_pos_nonneg.
  - apply Qopp_le_compat, round_pos_mono; [done|]. by apply Qopp_le_compat.
Qed.

End Binary64Facts.

Lemma binary64_monotone : RoundingMonotone Demo.binary64.
Proof. intros x y H. apply round_mono, H. Qed.

(** The rounding matters to the figures: 29 documents of 200 are 14.5
    percent, which rounds to 15, and [29 / 200 * 100] is
    14.499999999999998 in doubles, which rounds to 14. *)
Lemma percent_in_doubles :
  @percent_of Demo.binary64 (Some 200) 29 = Some 14
  /\ @percent_of Demo.exact (Some 200) 29 = Some 15.
Proof. split; vm_compute; reflexivity. Qed.

Section MetricsAlong.
Context {P : Platform} (env : Env).
Local Open Scope job_scope.

Lemma passive_metrics T : Passive (metrics_of T) anything.
Proof. split; try (intros; split; done); done. Qed.

Lemma fits_metrics name T ev p :
  task_event name T ev p -> metrics_of T (EmitProgress ev p) /\ anything (EmitProgress ev p).
Proof.
  intros H. split; [|done]. destruct H; try done.
  intros e [= <-]. by simpl.
Qed.

Lemma count_or_zero_run c s :
  exists s', count_or_zero env c s = Ret (counted env s c) s'
    /\ ops s' = S (ops s)
    /\ trace s' = (trace s ++ [Store (CountDocuments (coll_name c))
                                     (store_fail env (ops s))])%list.
Proof.
  unfold count_or_zero, try_catch, bind, store, ret, counted.
  destruct (store_fail env (ops s)); simpl; eexists; done.
Qed.

(** A collection task that starts with the count carries the metrics of
    the counted total in all its progress events. *)
Lemma counted_task (task : option Z -> M Z) c s :
  (forall T, sat (task T) (always (metrics_of T) anything)) ->
  sat_at s (T <- count_or_zero env c;; task T)
    (fun _ t => Forall (metrics_of (counted env s c)) t).
Proof.
  intros Htask. destruct (count_or_zero_run c s) as (s' & Hrun & _ & Htr).
  destruct (Htask (counted env s c) s') as (t & Ht & [H _]).
  exists ([Store (CountDocuments (coll_name c)) (store_fail env (ops s))] ++ t)%list.
  unfold bind. rewrite Hrun. split.
  - by rewrite Ht, Htr, <- app_assoc.
  - apply Forall_app. split; [by repeat constructor | done].
Qed.

Lemma backup_collection_metrics fuel sid outDir BATCH idx c s :
  sat_at s (backup_collection env fuel sid outDir BATCH idx c)
    (fun _ t => Forall (metrics_of (counted env s c)) t).
Proof.
  apply counted_task. intros T.
  apply always_backup_task; [apply passive_metrics | apply fits_metrics].
Qed.

Lemma transfer_collection_metrics fuel sid BATCH n c s :
  sat_at s (transfer_collection env fuel sid BATCH n c)
    (fun _ t => Forall (metrics_of (counted env s c)) t).
Proof.
  apply counted_task. intros T.
  apply always_transfer_task; [apply passive_metrics | apply fits_metrics].
Qed.

Lemma upload_file_metrics sid extractDir BATCH n f s :
  sat_at s (upload_file env sid extractDir BATCH n f)
    (fun _ t => Forall (metrics_of (file_total f)) t).
Proof.
  eapply sat_at_weaken.
  - apply always_upload_file; [apply passive_metrics | apply fits_metrics].
  - by intros r t [H _].
Qed.

Lemma metrics_events T t :
  Forall (metrics_of T) t ->
  Forall (fun e => pe_total e = T
                   /\ pe_percent e = percent_of T (pe_done e)
                   /\ pe_eta e = etaSec_of T (pe_speed e) (pe_done e))
         (progress_events t).
Proof.
  induction 1 as [|c t Hc _ IH]; [constructor|].
  unfold progress_events. simpl. destruct (progress_of c) as [e|] eqn:He; [|done].
  constructor; [by apply Hc | done].
Qed.

Lemma unknown_metrics T done speed :
  Js.truthy_num T = false ->
  percent_of T done = None /\ etaSec_of T speed done = None.
Proof. intros H. unfold percent_of, etaSec_of. by rewrite H. Qed.

End MetricsAlong.

Section NullClaim.
Context {P : Platform} (env : Env).

Lemma unknown_events T t :
  Js.truthy_num T = false -> Forall (metrics_of T) t ->
  Forall (fun e => pe_percent e = None /\ pe_eta e = None) (progress_events t).
Proof.
  intros HT H. eapply Forall_impl; [by apply metrics_events|].
  intros e (_ & -> & ->). by apply unknown_metrics.
Qed.


End NullClaim.

(** ** The running count never decreases *)

Section Rising.
Context {P : Platform} (env : Env).
Local Open Scope job_scope.

Lemma rising_weaken lo x l : lo <= x -> rising x l -> rising lo l.
Proof. destruct l; simpl; [done|]. intros ? [? ?]. split; [lia | done]. Qed.

Lemma rising_app lo l1 x l2 :
  rising lo (l1 ++ [x]) -> rising x l2 -> rising lo (l1 ++ l2).
Proof.
  revert lo. induction l1 as [|a l1 IH]; intros lo; simpl.
  - intros [H _]. by apply rising_weaken.
  - intros [H H1] H2. split; [done|]. by apply IH.
Qed.

Lemma rising_init lo l x : rising lo (l ++ [x]) -> rising lo l.
Proof.
  revert lo. induction l as [|a l IH]; intros lo; simpl; [done|].
  intros [H H1]. split; [done|]. by apply IH.
Qed.

Lemma rising_lookup lo (l : list Z) (i j : nat) a b :
  rising lo l -> (i <= j)%nat -> l !! i = Some a -> l !! j = Some b -> lo <= a <= b.
Proof.
  revert lo i j a b. induction l as [|x l IH]; intros lo i j a b Hr Hij Hi Hj; [done|].
  destruct Hr as [Hlo Hr]. destruct i as [|i]; simpl in Hi.
  - injection Hi as ->. destruct j as [|j]; simpl in Hj.
    + injection Hj as ->. lia.
    + destruct (IH a j j b b Hr (le_n _) Hj Hj). lia.
  - destruct j as [|j]; [lia|]. simpl in Hj.
    destruct (IH x i j a b Hr ltac:(lia) Hi Hj). lia.
Qed.

Lemma dones_app t1 t2 : dones (t1 ++ t2) = (dones t1 ++ dones t2)%list.
Proof. unfold dones, progress_events. by rewrite omap_app, fmap_app. Qed.

Lemma dones_silent t : Forall silent t -> dones t = [].
Proof.
  induction 1 as [|c t Hc _ IH]; [done|].
  unfold dones, progress_events in *. simpl. by rewrite Hc.
Qed.

Lemma passive_silent : Passive silent anything.
Proof. split; try (intros; split; done); done. Qed.

Local Abbreviation quiet := (always silent anything).

Lemma rises_ret {A} (get : A -> Z) lo a : lo <= get a -> sat (ret a) (rises get lo).
Proof. intros H s. apply sat_at_ret. by split. Qed.

Lemma rises_diverge {A} (get : A -> Z) lo : sat (@diverge _ A) (rises get lo).
Proof. intros s. exists []. simpl. by rewrite app_nil_r. Qed.

Lemma rises_quiet_bind {A B} (m : M A) (k : A -> M B) (get : B -> Z) lo :
  sat m quiet -> (forall a, sat (k a) (rises get lo)) -> sat (bind m k) (rises get lo).
Proof.
  intros Hm Hk s. eapply sat_at_bind; [apply Hm| | |].
  - intros e t [H _]. unfold rises. by rewrite (dones_silent _ H).
  - intros t [H _]. unfold rises. by rewrite (dones_silent _ H).
  - intros a s' t1 _ [H _]. eapply sat_at_weaken; [apply Hk|].
    intros r t2. unfold rises. by rewrite dones_app, (dones_silent _ H).
Qed.

Lemma rises_chain_bind {A B} (m : M A) (k : A -> M B) (g1 : A -> Z) (g2 : B -> Z) lo :
  sat m (rises g1 lo) -> (forall a, sat (k a) (rises g2 (g1 a))) ->
  sat (bind m k) (rises g2 lo).
Proof.
  intros Hm Hk s. eapply sat_at_bind; [apply Hm| | |].
  - intros e t. unfold rises. by rewrite !app_nil_r.
  - intros t. unfold rises. by rewrite !app_nil_r.
  - intros a s' t1 _ H1. eapply sat_at_weaken; [apply Hk|].
    intros r t2 H2. unfold rises in *. rewrite dones_app, <- app_assoc.
    by eapply rising_app.
Qed.

Lemma progress_rises sid ev name done T start :
  sat (progress env sid ev name done T start) (rises (fun _ => done) done).
Proof.
  intros s. unfold sat_at, progress, emitProgress, bind, now, log, ret. simpl.
  destruct (Js.truthy_str sid); simpl; eexists;
    (split; [by rewrite <- ?app_assoc|]); unfold rises; simpl; lia.
Qed.

Lemma rises_progress_bind {B} sid ev name done T start (k : M B) (get : B -> Z) lo :
  lo <= done -> sat k (rises get done) ->
  sat (progress env sid ev name done T start;;; k) (rises get lo).
Proof.
  intros Hlo Hk. apply (rises_chain_bind _ _ (fun _ => done)).
  - intros s. eapply sat_at_weaken; [apply progress_rises|].
    intros r t. unfold rises. by apply rising_weaken.
  - intros _. apply Hk.
Qed.

Lemma backup_loop_rises fuel sid name outFile BATCH T start cursor docsDone :
  sat (backup_loop env fuel sid name outFile BATCH T start cursor docsDone)
      (rises id docsDone).
Proof.
  revert cursor docsDone.
  induction fuel as [|fuel IH]; intros cursor docsDone; simpl; [apply rises_diverge|].
  apply rises_quiet_bind; [apply always_store, passive_silent | intros _].
  destruct cursor as [|d rest]; [by apply rises_ret|].
  apply rises_quiet_bind; [apply always_pull, passive_silent | intros [batch cursor']].
  apply rises_quiet_bind; [apply always_write_batch, passive_silent | intros _].
  apply rises_progress_bind; [lia | apply IH].
Qed.

Lemma transfer_loop_rises fuel sid name BATCH T start cursor transferred :
  sat (transfer_loop env fuel sid name BATCH T start cursor transferred)
      (rises id transferred).
Proof.
  revert cursor transferred.
  induction fuel as [|fuel IH]; intros cursor transferred; simpl; [apply rises_diverge|].
  apply rises_quiet_bind; [apply always_store, passive_silent | intros _].
  destruct cursor as [|d rest]; [by apply rises_ret|].
  apply rises_quiet_bind; [apply always_pull, passive_silent | intros [batch cursor']].
  destruct batch as [|b batch]; [apply IH|].
  apply rises_quiet_bind; [apply always_store, passive_silent | intros _].
  apply rises_progress_bind; [lia | apply IH].
Qed.

Lemma drain_rises fuel sid name BATCH T start buffer docsBatch importedCount :
  sat (drain env fuel sid name BATCH T start buffer docsBatch importedCount)
      (rises snd importedCount).
Proof.
  revert buffer docsBatch importedCount.
  induction fuel as [|fuel IH]; intros buffer docsBatch importedCount; simpl;
    [apply rises_diverge|].
  destruct (Js.indexOf_nl buffer) as [idx|]; [|by apply rises_ret].
  destruct (String.eqb _ _); [apply IH|].
  destruct (JSON_parse _) as [obj|]; [|apply IH].
  destruct (_ >=? _); [|apply IH].
  apply rises_quiet_bind; [apply always_store, passive_silent | intros _].
  apply rises_progress_bind; [lia | apply IH].
Qed.

Lemma chunks_loop_rises sid name BATCH T start chunks buffer docsBatch importedCount :
  sat (chunks_loop env sid name BATCH T start chunks buffer docsBatch importedCount)
      (rises snd importedCount).
Proof.
  revert buffer docsBatch importedCount.
  induction chunks as [|chunk rest IH]; intros buffer docsBatch importedCount;
    cbn [chunks_loop]; [by apply rises_ret|].
  eapply rises_chain_bind; [apply drain_rises | intros [[b d] n]; apply IH].
Qed.

Lemma flush_rises sid name T start docsBatch importedCount :
  sat (flush env sid name T start docsBatch importedCount) (rises id importedCount).
Proof.
  destruct docsBatch as [|d rest]; simpl; [by apply rises_ret|].
  apply rises_quiet_bind; [apply always_store, passive_silent | intros _].
  apply rises_progress_bind; [lia | by apply rises_ret].
Qed.

(** After the last progress event of a task only other calls follow. *)
Lemma rises_then_quiet {A B} (m : M A) (k : A -> M B) (g : A -> Z) lo :
  sat m (rises g lo) -> (forall a, sat (k a) quiet) ->
  sat (bind m k) (fun _ t => rising lo (dones t)).
Proof.
  intros Hm Hk s. eapply sat_at_bind; [apply Hm| | |].
  - intros e t. unfold rises. by rewrite app_nil_r.
  - intros t. unfold rises. by rewrite app_nil_r.
  - intros a s' t1 _ H1. eapply sat_at_weaken; [apply Hk|].
    intros r t2 [H2 _]. rewrite dones_app, (dones_silent _ H2), app_nil_r.
    apply (rising_init _ _ (g a)). exact H1.
Qed.

Lemma rises_then_rising {A B} (m : M A) (k : A -> M B) (g : A -> Z) lo :
  sat m (rises g lo) -> (forall a, sat (k a) (fun _ t => rising (g a) (dones t))) ->
  sat (bind m k) (fun _ t => rising lo (dones t)).
Proof.
  intros Hm Hk s. eapply sat_at_bind; [apply Hm| | |].
  - intros e t. unfold rises. by rewrite app_nil_r.
  - intros t. unfold rises. by rewrite app_nil_r.
  - intros a s' t1 _ H1. eapply sat_at_weaken; [apply Hk|].
    intros r t2 H2. rewrite dones_app.
    apply (rising_app _ _ (g a)); [exact H1 | exact H2].
Qed.

Lemma quiet_then_rising {A B} (m : M A) (k : A -> M B) lo :
  sat m quiet -> (forall a, sat (k a) (fun _ t => rising lo (dones t))) ->
  sat (bind m k) (fun _ t => rising lo (dones t)).
Proof.
  intros Hm Hk s. eapply sat_at_bind; [apply Hm| | |].
  - intros e t [H _]. by rewrite (dones_silent _ H).
  - intros t [H _]. by rewrite (dones_silent _ H).
  - intros a s' t1 _ [H _]. eapply sat_at_weaken; [apply Hk|].
    intros r t2. by rewrite dones_app, (dones_silent _ H).
Qed.

Lemma quiet_emit sid ev p :
  (forall c d T pc sp eta, p <> P_progress c d T pc sp eta) ->
  sat (emitProgress sid ev p) quiet.
Proof.
  intros Hp. apply always_emit; [apply passive_silent|]. split; [|done].
  unfold silent. destruct p; try done. by destruct (Hp collection done totalDocs percent speed etaSec).
Qed.

Lemma backup_task_rising fuel sid outDir BATCH idx c T :
  sat (backup_task env fuel sid outDir BATCH idx c T) (fun _ t => rising 0 (dones t)).
Proof.
  unfold backup_task.
  apply quiet_then_rising; [apply always_fs, passive_silent | intros _].
  apply quiet_then_rising; [by apply quiet_emit | intros _].
  apply quiet_then_rising; [apply always_now | intros start].
  eapply rises_then_quiet; [apply backup_loop_rises | intros _].
  apply always_bind; [apply always_fs, passive_silent | intros _].
  apply always_bind; [by apply quiet_emit | intros _]. apply always_ret.
Qed.

Lemma transfer_task_rising fuel sid BATCH n c T :
  sat (transfer_task env fuel sid BATCH n c T) (fun _ t => rising 0 (dones t)).
Proof.
  unfold transfer_task.
  apply quiet_then_rising; [apply always_store, passive_silent | intros _].
  apply quiet_then_rising; [by apply quiet_emit | intros _].
  apply quiet_then_rising; [apply always_now | intros start].
  eapply rises_then_quiet; [apply transfer_loop_rises | intros _].
  apply always_bind; [by apply quiet_emit | intros _]. apply always_ret.
Qed.

Lemma upload_file_rising sid extractDir BATCH n f :
  sat (upload_file env sid extractDir BATCH n f) (fun _ t => rising 0 (dones t)).
Proof.
  unfold upload_file.
  apply quiet_then_rising; [apply always_fs, passive_silent | intros _].
  apply quiet_then_rising; [apply always_store, passive_silent | intros _].
  apply quiet_then_rising; [apply always_fs, passive_silent | intros _].
  apply quiet_then_rising; [by apply quiet_emit | intros _].
  apply quiet_then_rising; [apply always_now | intros start].
  eapply rises_then_rising; [apply chunks_loop_rises | intros [[b d] k]].
  eapply rises_then_quiet; [apply flush_rises | intros k'].
  apply always_bind; [by apply quiet_emit | intros _]. apply always_ret.
Qed.

Lemma backup_collection_rising fuel sid outDir BATCH idx c :
  sat (backup_collection env fuel sid outDir BATCH idx c)
      (fun _ t => rising 0 (dones t)).
Proof.
  apply quiet_then_rising; [apply always_count_or_zero, passive_silent | intros T].
  apply backup_task_rising.
Qed.

Lemma transfer_collection_rising fuel sid BATCH n c :
  sat (transfer_collection env fuel sid BATCH n c) (fun _ t => rising 0 (dones t)).
Proof.
  apply quiet_then_rising; [apply always_count_or_zero, passive_silent | intros T].
  apply transfer_task_rising.
Qed.

End Rising.

(** ** Percent with a known total *)

Section PercentClaim.
Context {P : Platform} {HR : RoundingMonotone P} (env : Env).

Lemma Math_round_mono x y : (x <= y)%Q -> Js.Math_round x <= Js.Math_round y.
Proof.
  intros H. unfold Js.Math_round. apply Qfloor_resp_le.
  apply Qplus_le_compat; [done | apply Qle_refl].
Qed.

Lemma ratio100_mono n d1 d2 :
  0 < n -> d1 <= d2 -> (ratio100 d1 n <= ratio100 d2 n)%Q.
Proof.
  intros Hn Hd. unfold ratio100. apply rn_mono.
  apply Qmult_le_compat_r; [|done]. apply rn_mono.
  unfold Qdiv. apply Qmult_le_compat_r; [by rewrite <- Zle_Qle|].
  apply Qinv_le_0_compat. change 0%Q with (inject_Z 0). rewrite <- Zle_Qle. lia.
Qed.

Lemma percent_of_mono n d1 d2 :
  0 < n -> d1 <= d2 -> percent_le (percent_of (Some n) d1) (percent_of (Some n) d2).
Proof.
  intros Hn Hd. unfold percent_of. simpl.
  destruct (Z.eqb_spec n 0) as [->|_]; [lia|]. simpl.
  apply Z.min_le_compat_l, Math_round_mono. by apply ratio100_mono.
Qed.

Lemma count_nl_le count chunk : count <= count_nl count chunk.
Proof.
  revert count. induction chunk as [|c r IH]; intros count; simpl; [lia|].
  destruct (Ascii.eqb c "010"); [|apply IH]. specialize (IH (count + 1)). lia.
Qed.

Lemma countLinesStream_nonneg chunks : 0 <= countLinesStream chunks.
Proof.
  unfold countLinesStream.
  assert (H : forall lo, lo <= fold_left count_nl chunks lo); [|apply H].
  induction chunks as [|c r IH]; intros lo; simpl; [lia|].
  pose proof (count_nl_le lo c). specialize (IH (count_nl lo c)). lia.
Qed.

Lemma steady_from n t :
  0 < n ->
  Forall (metrics_of (Some n)) t -> rising 0 (dones t) -> steady n (progress_events t).
Proof.
  intros Hn Hm Hr. apply metrics_events in Hm. rewrite Forall_forall in Hm.
  assert (Hp : forall d, percent_of (Some n) d
                         = Some (Z.min 100 (Js.Math_round
                                   (rn (rn (inject_Z d / inject_Z n) * inject_Z 100))))).
  { intros d. unfold percent_of. simpl. destruct (Z.eqb_spec n 0); [lia | done]. }
  split.
  - intros e He. destruct (Hm e He) as (Htot & Hpc & _). split; [done|].
    by rewrite Hpc, Hp.
  - intros i j e1 e2 Hij H1 H2.
    destruct (Hm e1) as (_ & Hp1 & _); [by eapply list_elem_of_lookup_2|].
    destruct (Hm e2) as (_ & Hp2 & _); [by eapply list_elem_of_lookup_2|].
    assert (Hd : pe_done e1 <= pe_done e2).
    { assert (Hi : dones t !! i = Some (pe_done e1))
        by (unfold dones; by rewrite list_lookup_fmap, H1).
      assert (Hj : dones t !! j = Some (pe_done e2))
        by (unfold dones; by rewrite list_lookup_fmap, H2).
      destruct (rising_lookup 0 _ i j _ _ Hr Hij Hi Hj). lia. }
    split; [done|]. rewrite Hp1, Hp2. by apply percent_of_mono.
Qed.

(** The total of a collection task whose count is not rejected. *)
Lemma counted_known s c :
  store_fail env (ops s) = None -> counted env s c = Some (Z.of_N (coll_count c)).
Proof. intros H. unfold counted. by rewrite H. Qed.

Lemma file_total_known f :
  count_rejects f = false -> file_total f = Some (countLinesStream (file_chunks f)).
Proof. intros H. unfold file_total. by rewrite H. Qed.


End PercentClaim.

(** ** Batches *)

Section BatchFacts.
Context {A : Type}.
Implicit Types l : list A.

Lemma batches_upto_more n f1 f2 l :
  (1 <= n)%nat -> (List.length l <= f1)%nat -> (List.length l <= f2)%nat ->
  batches_upto f1 n l = batches_upto f2 n l.
Proof.
  intros Hn. revert f2 l. induction f1 as [|f1 IH]; intros f2 l H1 H2.
  - destruct l; [by destruct f2 | simpl in H1; lia].
  - destruct l as [|x r]; [by destruct f2|].
    destruct f2 as [|f2]; [simpl in H2; lia|].
    cbn [batches_upto]. f_equal.
    assert (Hd : (List.length (drop n (x :: r)) <= List.length r)%nat).
    { rewrite length_drop. simpl. lia. }
    simpl in H1, H2. apply IH; lia.
Qed.

Lemma batches_upto_enough n f l :
  (1 <= n)%nat -> (List.length l <= f)%nat -> batches_upto f n l = batches n l.
Proof. intros Hn Hl. unfold batches. by apply batches_upto_more. Qed.

Lemma batches_step n l :
  (1 <= n)%nat -> l <> [] -> batches n l = take n l :: batches n (drop n l).
Proof.
  intros Hn Hl. destruct l as [|x r]; [done|].
  unfold batches at 1. cbn [List.length batches_upto]. f_equal.
  apply batches_upto_enough; [done|]. rewrite length_drop. simpl. lia.
Qed.

Lemma batches_nil n : batches n (@nil A) = [].
Proof. done. Qed.

(** Induction on a list by dropping [n >= 1] elements at a time. *)
Lemma drop_ind n (Q : list A -> Prop) :
  (1 <= n)%nat -> Q [] -> (forall l, l <> [] -> Q (drop n l) -> Q l) -> forall l, Q l.
Proof.
  intros Hn Hnil Hstep l.
  assert (H : forall f l, (List.length l <= f)%nat -> Q l); [|by eapply H].
  clear l. induction f as [|f IH]; intros l Hl.
  - destruct l; [done | simpl in Hl; lia].
  - destruct l as [|x r]; [done|]. apply Hstep; [done|]. apply IH.
    rewrite length_drop. simpl in *. lia.
Qed.

Lemma batches_concat n l : (1 <= n)%nat -> concat (batches n l) = l.
Proof.
  intros Hn. revert l. apply (drop_ind n); [done|done|]. intros l Hl IH.
  rewrite batches_step by done. simpl. rewrite IH. apply take_drop.
Qed.

Lemma batches_well_cut n l : (1 <= n)%nat -> well_cut n (batches n l).
Proof.
  intros Hn. revert l. apply (drop_ind n); [done| |].
  { split; [constructor|]. intros i b Hi. simpl in Hi. lia. }
  intros l Hl [IH1 IH2]. rewrite batches_step by done. split.
  - constructor; [|done]. rewrite length_take. destruct l; [done|]. simpl. lia.
  - intros i b Hi Hb. destruct i as [|i]; simpl in Hb.
    + injection Hb as <-. simpl in Hi.
      assert (Hne : drop n l <> []).
      { intros Hd. rewrite Hd, batches_nil in Hi. simpl in Hi. lia. }
      rewrite length_take. destruct (decide (n <= List.length l)%nat); [lia|].
      exfalso. apply Hne. apply drop_ge. lia.
    + apply (IH2 i); [simpl in Hi; lia | done].
Qed.

End BatchFacts.

(** ** Runs on a store that does not reject *)

Section Exact.
Context {P : Platform} (env : Env).
Hypothesis Hok : forall k, store_fail env k = None.
Local Open Scope job_scope.

Lemma items_app t1 t2 : items (t1 ++ t2) = (items t1 ++ items t2)%list.
Proof. apply omap_app. Qed.

Lemma gives_weaken {A} (m : M A) (R R' : A -> Prop) x x' :
  sat m (gives R x) -> (forall a, R a -> R' a) -> x = x' -> sat m (gives R' x').
Proof.
  intros Hm HR <- s. eapply sat_at_weaken; [apply Hm|].
  intros r t [(a & -> & Ha) Ht]. split; [|done]. exists a. auto.
Qed.

Lemma gives_ret {A} (R : A -> Prop) a : R a -> sat (ret a) (gives R []).
Proof. intros H s. apply sat_at_ret. split; [|done]. by exists a. Qed.

Lemma gives_ret_eq {A} (a : A) : sat (ret a) (gives (eq a) []).
Proof. by apply gives_ret. Qed.

Lemma gives_bind {A B} (m : M A) (k : A -> M B) (R1 : A -> Prop) (R2 : B -> Prop) x1 x2 :
  sat m (gives R1 x1) -> (forall a, R1 a -> sat (k a) (gives R2 x2)) ->
  sat (bind m k) (gives R2 (x1 ++ x2)).
Proof.
  intros Hm Hk s. eapply sat_at_bind; [apply Hm| | |].
  - by intros e t [(a & ? & _) _].
  - by intros t [(a & ? & _) _].
  - intros a s' t1 _ [(a' & [= <-] & Ha) H1]. eapply sat_at_weaken; [by apply Hk|].
    intros r t2 [Hr H2]. split; [done|]. by rewrite items_app, H1, H2.
Qed.

Lemma gives_log c : sat (log c) (gives (fun _ => True) (item_list c)).
Proof.
  intros s. apply sat_at_log. split; [by exists tt|].
  unfold items, item_list. simpl. by destruct (abstract c).
Qed.

Lemma gives_store op : sat (store env op) (gives (fun _ => True) (item_list (Store op None))).
Proof.
  intros s. apply sat_at_store.
  - intros _. split; [by exists tt|].
    unfold items, item_list. simpl. by destruct (abstract (Store op None)).
  - intros e He. by rewrite Hok in He.
Qed.

Lemma gives_now : sat (now env) (gives (fun _ => True) []).
Proof. intros s. apply sat_at_now. split; [|done]. by eexists. Qed.

Lemma gives_emit sid ev p :
  sat (emitProgress sid ev p) (gives (fun _ => True) (item_list (EmitProgress ev p))).
Proof.
  unfold emitProgress. eapply gives_weaken.
  - eapply gives_bind; [apply gives_log | intros _ _].
    destruct (Js.truthy_str sid); [apply gives_log | by apply gives_ret].
  - done.
  - unfold item_list at 2. simpl. by destruct (Js.truthy_str sid); rewrite app_nil_r.
Qed.

Lemma gives_progress sid ev name done T start :
  sat (progress env sid ev name done T start) (gives (fun _ => True) [I_progress done]).
Proof.
  unfold progress.
  apply (gives_bind _ _ (fun _ => True) (fun _ => True) [] [I_progress done]);
    [apply gives_now | intros t _].
  exact (gives_emit sid ev _).
Qed.

Lemma pull_gives name BATCH i cursor batch :
  let k := Z.to_nat (BATCH - i) in
  sat (pull env name BATCH i cursor batch)
      (gives (eq ((batch ++ take k cursor)%list, drop k cursor))
             (replicate (min k (List.length cursor)) I_next)).
Proof.
  revert i batch. induction cursor as [|doc rest IH]; intros i batch k; subst k; simpl.
  - destruct (Z.ltb_spec i BATCH).
    + eapply gives_weaken.
      * eapply gives_bind; [apply gives_store | intros _ _]. apply gives_ret_eq.
      * intros a <-. by rewrite take_nil, drop_nil, app_nil_r.
      * by rewrite Nat.min_0_r.
    + eapply gives_weaken; [apply gives_ret_eq | |].
      * intros a <-. by rewrite take_nil, drop_nil, app_nil_r.
      * by rewrite Nat.min_0_r.
  - destruct (Z.ltb_spec i BATCH).
    + replace (Z.to_nat (BATCH - i)) with (S (Z.to_nat (BATCH - (i + 1)))) by lia.
      eapply gives_weaken.
      * eapply gives_bind; [apply gives_store | intros _ _].
        eapply gives_bind; [apply gives_store | intros _ _]. apply IH.
      * intros a <-. simpl. by rewrite <- app_assoc.
      * done.
    + replace (Z.to_nat (BATCH - i)) with O by lia.
      eapply gives_weaken; [apply gives_ret_eq | |done].
      intros a <-. simpl. by rewrite app_nil_r.
Qed.

Lemma write_batch_gives outFile batch :
  sat (write_batch outFile batch)
      (gives (fun _ => True)
             ((fun d => I_write (JSON_stringify d +:+ "
")) <$> batch)).
Proof.
  induction batch as [|d rest IH]; simpl; [by apply gives_ret|].
  eapply gives_weaken; [eapply gives_bind; [apply gives_log | intros _ _; apply IH]| |];
    done.
Qed.

Lemma backup_loop_gives fuel sid name outFile BATCH T start cursor docsDone :
  1 <= BATCH -> (List.length cursor < fuel)%nat ->
  sat (backup_loop env fuel sid name outFile BATCH T start cursor docsDone)
      (gives (eq (docsDone + Z.of_nat (List.length cursor)))
             (backup_items (batches (Z.to_nat BATCH) cursor) docsDone)).
Proof.
  intros HB. revert cursor docsDone.
  induction fuel as [|fuel IH]; intros cursor docsDone Hfuel; [lia|].
  cbn [backup_loop]. destruct cursor as [|d rest].
  - eapply gives_weaken.
    + eapply gives_bind; [apply gives_store | intros _ _]. apply gives_ret_eq.
    + intros a <-. simpl. lia.
    + done.
  - set (cursor := d :: rest) in *.
    set (n := Z.to_nat BATCH). eapply gives_weaken.
    + eapply gives_bind; [apply gives_store | intros _ _].
      eapply gives_bind; [apply pull_gives | intros [batch cursor'] Hb].
      simpl in Hb. injection Hb as <- <-.
      eapply gives_bind; [apply write_batch_gives | intros _ _].
      eapply gives_bind; [apply gives_progress | intros _ _].
      apply IH. rewrite length_drop. subst cursor. simpl in *. lia.
    + intros a <-. rewrite Z.sub_0_r. fold n.
      rewrite length_take, length_drop. lia.
    + rewrite Z.sub_0_r. fold n.
      rewrite (batches_step n cursor); [|subst n; lia | done].
      cbn [backup_items]. rewrite length_take. simpl. reflexivity.
Qed.

Lemma transfer_loop_gives fuel sid name BATCH T start cursor transferred :
  1 <= BATCH -> (List.length cursor < fuel)%nat ->
  sat (transfer_loop env fuel sid name BATCH T start cursor transferred)
      (gives (eq (transferred + Z.of_nat (List.length cursor)))
             (transfer_items (batches (Z.to_nat BATCH) cursor) transferred)).
Proof.
  intros HB. revert cursor transferred.
  induction fuel as [|fuel IH]; intros cursor transferred Hfuel; [lia|].
  cbn [transfer_loop]. destruct cursor as [|d rest].
  - eapply gives_weaken.
    + eapply gives_bind; [apply gives_store | intros _ _]. apply gives_ret_eq.
    + intros a <-. simpl. lia.
    + done.
  - set (cursor := d :: rest) in *.
    set (n := Z.to_nat BATCH).
    assert (Hb : take n cursor = d :: take (Z.to_nat (BATCH - 1)) rest).
    { subst cursor n. by replace (Z.to_nat BATCH) with (S (Z.to_nat (BATCH - 1))) by lia. }
    eapply gives_weaken.
    + eapply gives_bind; [apply gives_store | intros _ _].
      eapply gives_bind; [apply pull_gives | intros [batch cursor'] Hp].
      simpl in Hp. injection Hp as <- <-.
      rewrite Z.sub_0_r. fold n. rewrite Hb.
      eapply gives_bind; [apply gives_store | intros _ _].
      eapply gives_bind; [apply gives_progress | intros _ _].
      apply IH. rewrite length_drop. subst cursor n. simpl in *. lia.
    + intros a <-. rewrite <- Hb, length_take, length_drop. lia.
    + rewrite Z.sub_0_r. fold n.
      rewrite (batches_step n cursor); [|subst n; lia | done].
      cbn [transfer_items]. rewrite <- Hb, length_take. reflexivity.
Qed.

End Exact.

(** ** Reading items *)

Section ItemFacts.
Context {P : Platform}.

Lemma omap_cons {A B} (f : A -> option B) a l :
  omap f (a :: l) = match f a with Some b => b :: omap f l | None => omap f l end.
Proof. done. Qed.

Lemma omap_omap {A B C} (f : A -> option B) (g : B -> option C) (l : list A) :
  omap g (omap f l) = omap (fun a => f a ≫= g) l.
Proof.
  induction l as [|a l IH]; [done|]. simpl.
  destruct (f a) as [b|]; simpl; [|done].
  change (list_omap B C g (list_omap A B f l)) with (omap g (omap f l)).
  by rewrite IH.
Qed.

Lemma omap_ext_fun {A B} (f g : A -> option B) (l : list A) :
  (forall a, f a = g a) -> omap f l = omap g l.
Proof.
  intros H. induction l as [|a l IH]; [done|]. simpl. rewrite H.
  destruct (g a); [f_equal|]; apply IH.
Qed.

Lemma inserted_items t : inserted t = omap item_insert (items t).
Proof.
  unfold inserted, items. rewrite omap_omap. apply omap_ext_fun.
  intros [[] ?| [] | ? [] | | |]; done.
Qed.

Lemma written_items t : written t = omap item_write (items t).
Proof.
  unfold written, items. rewrite omap_omap. apply omap_ext_fun.
  intros [[] ?| [] | ? [] | | |]; done.
Qed.

Lemma dones_items t : dones t = omap item_progress (items t).
Proof.
  unfold dones, progress_events, items. rewrite omap_omap.
  induction t as [|c t IH]; [done|]. rewrite !omap_cons.
  destruct c as [[] ?| [] | ? [] | | |]; simpl; try done; by rewrite <- IH.
Qed.

Lemma advances_items t : advances t = List.length (List.filter item_next (items t)).
Proof.
  unfold advances, items. induction t as [|c t IH]; [done|]. rewrite omap_cons.
  destruct c as [[] ?| [] | ? [] | | |]; simpl; try done; by rewrite IH.
Qed.

Lemma filter_next_replicate k : List.filter item_next (replicate k I_next) = replicate k I_next.
Proof. induction k as [|k IH]; [done|]. simpl. by rewrite IH. Qed.

Lemma omap_replicate_None {A B} (f : A -> option B) k a :
  f a = None -> omap f (replicate k a) = [].
Proof.
  intros Hf. induction k as [|k IH]; [done|].
  change (replicate (S k) a) with (a :: replicate k a). by rewrite omap_cons, Hf.
Qed.

Lemma omap_fmap_Some {A B C} (f : A -> B) (g : B -> option C) (h : A -> C) (l : list A) :
  (forall a, g (f a) = Some (h a)) -> omap g (f <$> l) = h <$> l.
Proof.
  intros H. induction l as [|a l IH]; [done|].
  rewrite !fmap_cons, omap_cons, H. by rewrite IH.
Qed.

Lemma omap_fmap_None {A B C} (f : A -> B) (g : B -> option C) (l : list A) :
  (forall a, g (f a) = None) -> omap g (f <$> l) = [].
Proof.
  intros H. induction l as [|a l IH]; [done|]. by rewrite !fmap_cons, omap_cons, H.
Qed.

Lemma filter_fmap_false {A B} (f : A -> B) (g : B -> bool) (l : list A) :
  (forall a, g (f a) = false) -> List.filter g (f <$> l) = [].
Proof.
  intros H. induction l as [|a l IH]; [done|]. rewrite fmap_cons. simpl. by rewrite H.
Qed.

Lemma transfer_items_read bs cnt :
  omap item_insert (transfer_items bs cnt) = bs
  /\ omap item_progress (transfer_items bs cnt) = running cnt (List.length <$> bs)
  /\ List.length (List.filter item_next (transfer_items bs cnt)) = List.length (concat bs).
Proof.
  revert cnt. induction bs as [|b r IH]; intros cnt; [done|].
  destruct (IH (cnt + Z.of_nat (List.length b))) as (I1 & I2 & I3).
  cbn [transfer_items]. rewrite !omap_app, !List.filter_app, !List.length_app.
  rewrite filter_next_replicate, length_replicate, !omap_replicate_None by done.
  rewrite !omap_cons, I1, I2, I3. simpl. by rewrite List.length_app.
Qed.

Lemma backup_items_read bs cnt :
  omap item_write (backup_items bs cnt)
    = ((fun d => JSON_stringify d +:+ "
") <$> concat bs)
  /\ omap item_progress (backup_items bs cnt) = running cnt (List.length <$> bs)
  /\ List.length (List.filter item_next (backup_items bs cnt)) = List.length (concat bs).
Proof.
  revert cnt. induction bs as [|b r IH]; intros cnt; [done|].
  destruct (IH (cnt + Z.of_nat (List.length b))) as (I1 & I2 & I3).
  cbn [backup_items]. rewrite !omap_app, !List.filter_app, !List.length_app.
  rewrite filter_next_replicate, length_replicate, !omap_replicate_None by done.
  rewrite (omap_fmap_Some _ item_write (fun d => JSON_stringify d +:+ "
")) by done.
  rewrite (omap_fmap_None _ item_progress) by done.
  rewrite (filter_fmap_false _ item_next) by done.
  rewrite !omap_cons, I1, I2, I3. simpl. by rewrite fmap_app, List.length_app.
Qed.

End ItemFacts.

(** ** The batch loop *)

Section BatchClaim.
Context {P : Platform} (env : Env).
Hypothesis Hok : forall k, store_fail env k = None.

Lemma gives_emitted {A} (m : M A) (R : A -> Prop) x s :
  sat m (gives R x) ->
  (exists a, res_of (m s) = Returned a /\ R a) /\ items (emitted m s) = x.
Proof. intros Hm. apply (sat_at_emitted _ _ _ (Hm s)). Qed.

(** C6. On a store that does not reject, for a cursor over the documents
    [docs] and a batch size of at least one, the loop of the export route
    and the loop of the copy route end (given iterations for one more
    round than there are documents) having advanced the cursor once per
    document and having worked through [docs] in consecutive batches of
    the batch size, the last one possibly shorter: the copy hands exactly
    these batches to [insertMany], the export writes the documents in
    order and reports the running count after each batch. *)
Theorem batch_loop_batches (fuel : nat) (sid : option string) (name outFile : string)
    (BATCH : Z) (T : option Z) (start : Z) (docs : list Doc) (cnt : Z) (s : State) :
  1 <= BATCH -> (List.length docs < fuel)%nat ->
  let bs := batches (Z.to_nat BATCH) docs in
  well_cut (Z.to_nat BATCH) bs /\ concat bs = docs
  /\ (let run := backup_loop env fuel sid name outFile BATCH T start docs cnt in
      res_of (run s) = Returned (cnt + Z.of_nat (List.length docs))
      /\ written (emitted run s) = ((fun d => JSON_stringify d +:+ "
") <$> docs)
      /\ dones (emitted run s) = running cnt (List.length <$> bs)
      /\ advances (emitted run s) = List.length docs)
  /\ (let run := transfer_loop env fuel sid name BATCH T start docs cnt in
      res_of (run s) = Returned (cnt + Z.of_nat (List.length docs))
      /\ inserted (emitted run s) = bs
      /\ dones (emitted run s) = running cnt (List.length <$> bs)
      /\ advances (emitted run s) = List.length docs).
Proof.
  intros HB Hfuel bs.
  assert (Hn : (1 <= Z.to_nat BATCH)%nat) by lia.
  assert (Hcat : concat bs = docs) by (by apply batches_concat).
  split; [by apply batches_well_cut|]. split; [done|]. split.
  - intros run.
    destruct (gives_emitted run _ _ s
                (backup_loop_gives env Hok fuel sid name outFile BATCH T start docs cnt
                   HB Hfuel)) as [(a & Hres & <-) Hitems].
    destruct (backup_items_read bs cnt) as (Hw & Hd & Hx).
    rewrite written_items, dones_items, advances_items, Hitems.
    fold bs. rewrite Hw, Hd, Hx, Hcat. done.
  - intros run.
    destruct (gives_emitted run _ _ s
                (transfer_loop_gives env Hok fuel sid name BATCH T start docs cnt
                   HB Hfuel)) as [(a & Hres & <-) Hitems].
    destruct (transfer_items_read bs cnt) as (Hi & Hd & Hx).
    rewrite inserted_items, dones_items, advances_items, Hitems.
    fold bs. rewrite Hi, Hd, Hx, Hcat. done.
Qed.

End BatchClaim.

Lemma batch_loop_batches_witness :
  inserted (emitted (transfer_loop Demo.healthy 6 None "users" 2 (Some 5) 1000
                       (coll_docs Demo.users) 0) Demo.idle)
  = [["{1}"; "{2}"]; ["{3}"; "{4}"]; ["{5}"]].
Proof.
  destruct (batch_loop_batches Demo.healthy (fun _ => eq_refl) 6 None "users" "out" 2
              (Some 5) 1000 (coll_docs Demo.users) 0 Demo.idle)
    as (_ & _ & _ & _ & Hins & _); [lia | simpl; lia |].
  exact Hins.
Defined.

(** ** Lines of a chunked text *)

Section LineFacts.

Lemma append_cons c s t : String c s +:+ t = String c (s +:+ t).
Proof. done. Qed.

Lemma append_nil_r s : s +:+ "" = s.
Proof. induction s as [|c s IH]; [done|]. by rewrite append_cons, IH. Qed.

Lemma append_assoc s1 s2 s3 : (s1 +:+ s2) +:+ s3 = s1 +:+ (s2 +:+ s3).
Proof. induction s1 as [|c s IH]; [done|]. by rewrite !append_cons, IH. Qed.

Lemma append_snoc line c r : (line +:+ String c "") +:+ r = line +:+ String c r.
Proof. by rewrite append_assoc. Qed.

Lemma length_append s1 s2 :
  String.length (s1 +:+ s2) = (String.length s1 + String.length s2)%nat.
Proof. induction s1 as [|c s IH]; [done|]. rewrite append_cons. simpl. by rewrite IH. Qed.

(** What [indexOf], [slice(0, idx)] and [slice(idx + 1)] find is the first
    terminated line and the text after it. *)
Lemma no_line line s :
  Js.indexOf_nl s = None -> lines_from line s = [] /\ tail_from line s = line +:+ s.
Proof.
  revert line. induction s as [|c r IH]; intros line; simpl.
  - intros _. by rewrite append_nil_r.
  - destruct (Ascii.eqb c "010"); [done|].
    destruct (Js.indexOf_nl r); [done|]. intros _.
    destruct (IH (line +:+ String c "") eq_refl) as [-> ->].
    by rewrite append_snoc.
Qed.

Lemma first_line line s idx :
  Js.indexOf_nl s = Some idx ->
  lines_from line s
    = (line +:+ Js.take_str idx s) :: lines_from "" (Js.drop_str (S idx) s)
  /\ tail_from line s = tail_from "" (Js.drop_str (S idx) s)
  /\ (String.length (Js.drop_str (S idx) s) < String.length s)%nat.
Proof.
  revert line idx. induction s as [|c r IH]; intros line idx; simpl; [done|].
  destruct (Ascii.eqb c "010").
  - intros [= <-]. simpl. rewrite append_nil_r. repeat split; lia.
  - destruct (Js.indexOf_nl r) as [i|]; [|done]. intros [= <-].
    destruct (IH (line +:+ String c "") i eq_refl) as (-> & -> & Hlen).
    simpl. rewrite append_snoc. repeat split. simpl in Hlen. lia.
Qed.

Lemma lines_append line a b :
  lines_from line (a +:+ b) = (lines_from line a ++ lines_from (tail_from line a) b)%list
  /\ tail_from line (a +:+ b) = tail_from (tail_from line a) b.
Proof.
  revert line. induction a as [|c a IH]; intros line; [done|].
  rewrite append_cons. simpl. destruct (Ascii.eqb c "010").
  - destruct (IH "") as [-> ->]. done.
  - apply IH.
Qed.

Lemma tail_no_nl line s : has_nl line = false -> has_nl (tail_from line s) = false.
Proof.
  revert line. induction s as [|c r IH]; intros line Hl; simpl; [done|].
  destruct (Ascii.eqb c "010") eqn:Hc; [by apply IH|]. apply IH.
  clear IH. unfold has_nl in *. induction line as [|x line IH]; simpl in *.
  - by rewrite Hc.
  - destruct (Ascii.eqb x "010"); [done|].
    destruct (Js.indexOf_nl line); [done|]. specialize (IH eq_refl).
    by destruct (Js.indexOf_nl (line +:+ String c "")).
Qed.

Lemma lines_prefix line u b :
  has_nl u = false ->
  lines_from line (u +:+ b) = lines_from (line +:+ u) b
  /\ tail_from line (u +:+ b) = tail_from (line +:+ u) b.
Proof.
  revert line. induction u as [|c u IH]; intros line Hu.
  - by rewrite append_nil_r.
  - rewrite append_cons. simpl.
    unfold has_nl in Hu. simpl in Hu. destruct (Ascii.eqb c "010"); [done|].
    rewrite <- (append_snoc line c u). apply IH. unfold has_nl.
    by destruct (Js.indexOf_nl u).
Qed.

(** The terminated lines of a text read in two parts. *)
Lemma terminated_append a b :
  terminated_lines (a +:+ b)
    = (terminated_lines a ++ terminated_lines (unterminated a +:+ b))%list
  /\ unterminated (a +:+ b) = unterminated (unterminated a +:+ b).
Proof.
  unfold terminated_lines, unterminated.
  destruct (lines_append "" a b) as [-> ->].
  destruct (lines_prefix "" (tail_from "" a) b) as [-> ->]; [by apply tail_no_nl|].
  done.
Qed.

(** A tail without line feed adds no terminated line. *)
Lemma terminated_tail a tail :
  has_nl tail = false -> terminated_lines (a +:+ tail) = terminated_lines a.
Proof.
  intros Ht. unfold terminated_lines. destruct (lines_append "" a tail) as [-> _].
  unfold has_nl in Ht. destruct (Js.indexOf_nl tail) eqn:Hi; [done|].
  destruct (no_line (tail_from "" a) tail Hi) as [-> _]. by rewrite app_nil_r.
Qed.

End LineFacts.

(** ** The import of one file on a store that does not reject *)

Section ImportExact.
Context {P : Platform} (env : Env).
Hypothesis Hok : forall k, store_fail env k = None.
Local Open Scope job_scope.

Lemma records_step buffer idx :
  Js.indexOf_nl buffer = Some idx ->
  records buffer
    = (match decode (Js.take_str idx buffer) with Some d => [d] | None => [] end
       ++ records (Js.drop_str (S idx) buffer))%list
  /\ unterminated buffer = unterminated (Js.drop_str (S idx) buffer)
  /\ (String.length (Js.drop_str (S idx) buffer) < String.length buffer)%nat.
Proof.
  intros Hi. destruct (first_line "" buffer idx Hi) as (Hl & Ht & Hlen).
  unfold records, terminated_lines, unterminated. rewrite Hl, Ht. split; [|done].
  rewrite omap_cons. change ("" +:+ Js.take_str idx buffer) with (Js.take_str idx buffer).
  by destruct (decode _).
Qed.

Lemma records_none buffer :
  Js.indexOf_nl buffer = None -> records buffer = [] /\ unterminated buffer = buffer.
Proof.
  intros Hi. destruct (no_line "" buffer Hi) as [Hl Ht].
  unfold records, terminated_lines, unterminated. by rewrite Hl, Ht.
Qed.

Lemma feed_full BATCH d r batch cnt :
  (Z.of_nat (List.length (batch ++ [d])) >=? BATCH) = true ->
  let cnt' := cnt + Z.of_nat (List.length (batch ++ [d])) in
  feed BATCH (d :: r) batch cnt
  = (I_insert (batch ++ [d]) :: I_progress cnt' :: (feed BATCH r [] cnt').1.1,
     (feed BATCH r [] cnt').1.2, (feed BATCH r [] cnt').2).
Proof. intros H. cbn [feed]. rewrite H. by destruct (feed BATCH r [] _) as [[? ?] ?]. Qed.

Lemma feed_more BATCH d r batch cnt :
  (Z.of_nat (List.length (batch ++ [d])) >=? BATCH) = false ->
  feed BATCH (d :: r) batch cnt = feed BATCH r (batch ++ [d]) cnt.
Proof. intros H. cbn [feed]. by rewrite H. Qed.

Lemma drain_gives fuel sid name BATCH T start buffer batch cnt :
  (String.length buffer < fuel)%nat ->
  sat (drain env fuel sid name BATCH T start buffer batch cnt)
      (gives (eq (unterminated buffer,
                  (feed BATCH (records buffer) batch cnt).1.2,
                  (feed BATCH (records buffer) batch cnt).2))
             (feed BATCH (records buffer) batch cnt).1.1).
Proof.
  revert buffer batch cnt.
  induction fuel as [|fuel IH]; intros buffer batch cnt Hfuel; [lia|].
  cbn [drain]. destruct (Js.indexOf_nl buffer) as [idx|] eqn:Hi.
  - destruct (records_step buffer idx Hi) as (Hrec & Hun & Hlen).
    assert (Hf : (String.length (Js.drop_str (S idx) buffer) < fuel)%nat) by lia.
    unfold decode in Hrec.
    destruct (String.eqb (Js.trim (Js.take_str idx buffer)) "") eqn:Hblank.
    { rewrite Hrec, Hun. apply IH, Hf. }
    destruct (JSON_parse (Js.trim (Js.take_str idx buffer))) as [obj|] eqn:Hparse.
    2:{ rewrite Hrec, Hun. apply IH, Hf. }
    rewrite Hrec, Hun. simpl app.
    destruct (Z.of_nat (List.length (batch ++ [obj])) >=? BATCH) eqn:Hfull.
    + rewrite (feed_full _ _ _ _ _ Hfull). cbn [fst snd].
      eapply gives_weaken.
      * eapply gives_bind; [apply (gives_store env Hok) | intros _ _].
        eapply gives_bind; [apply gives_progress | intros _ _].
        apply IH, Hf.
      * by intros a <-.
      * done.
    + rewrite (feed_more _ _ _ _ _ Hfull). apply IH, Hf.
  - destruct (records_none buffer Hi) as [-> ->]. simpl. apply gives_ret_eq.
Qed.

Lemma concat_str_cons c r : concat_str (c :: r) = c +:+ concat_str r.
Proof. done. Qed.

Lemma feed_app BATCH d1 d2 batch cnt :
  feed BATCH (d1 ++ d2) batch cnt
  = let f1 := feed BATCH d1 batch cnt in
    let f2 := feed BATCH d2 f1.1.2 f1.2 in
    ((f1.1.1 ++ f2.1.1)%list, f2.1.2, f2.2).
Proof.
  revert batch cnt. induction d1 as [|d r IH]; intros batch cnt.
  - simpl. by destruct (feed BATCH d2 batch cnt) as [[? ?] ?].
  - rewrite <- app_comm_cons.
    destruct (Z.of_nat (List.length (batch ++ [d])) >=? BATCH) eqn:Hfull.
    + rewrite !(feed_full _ _ _ _ _ Hfull). cbn zeta. rewrite IH. done.
    + rewrite !(feed_more _ _ _ _ _ Hfull). apply IH.
Qed.

Lemma records_append a b :
  records (a +:+ b) = (records a ++ records (unterminated a +:+ b))%list.
Proof.
  unfold records. destruct (terminated_append a b) as [-> _]. apply omap_app.
Qed.

Lemma unterminated_no_nl s : has_nl (unterminated s) = false.
Proof. by apply tail_no_nl. Qed.

Lemma chunks_loop_gives sid name BATCH T start chunks buffer batch cnt :
  has_nl buffer = false ->
  sat (chunks_loop env sid name BATCH T start chunks buffer batch cnt)
      (gives (eq (unterminated (buffer +:+ concat_str chunks),
                  (feed BATCH (records (buffer +:+ concat_str chunks)) batch cnt).1.2,
                  (feed BATCH (records (buffer +:+ concat_str chunks)) batch cnt).2))
             (feed BATCH (records (buffer +:+ concat_str chunks)) batch cnt).1.1).
Proof.
  revert buffer batch cnt.
  induction chunks as [|chunk rest IH]; intros buffer batch cnt Hb.
  - cbn [chunks_loop concat_str]. rewrite append_nil_r.
    unfold has_nl in Hb. destruct (Js.indexOf_nl buffer) eqn:Hi; [done|].
    destruct (records_none buffer Hi) as [-> ->]. simpl. apply gives_ret_eq.
  - cbn [chunks_loop]. rewrite concat_str_cons, <- append_assoc.
    set (b1 := buffer +:+ chunk).
    destruct (terminated_append b1 (concat_str rest)) as [_ Hun].
    rewrite (records_append b1), Hun, feed_app. cbn zeta. cbn [fst snd].
    eapply gives_weaken.
    + eapply gives_bind; [apply drain_gives; lia | intros [[b d] n] Hr].
      injection Hr as <- <- <-. apply IH. apply unterminated_no_nl.
    + by intros a <-.
    + done.
Qed.

Lemma flush_gives sid name T start batch cnt :
  sat (flush env sid name T start batch cnt)
      (gives (eq (flush_count batch cnt)) (flush_items batch cnt)).
Proof.
  destruct batch as [|d r]; [apply gives_ret_eq|]. cbn [flush].
  eapply gives_weaken.
  - eapply gives_bind; [apply (gives_store env Hok) | intros _ _].
    eapply gives_bind; [apply gives_progress | intros _ _]. apply gives_ret_eq.
  - by intros a <-.
  - done.
Qed.

(** The items of the import of one file. *)
Lemma upload_file_gives sid extractDir BATCH n f :
  let fed := feed BATCH (records (concat_str (file_chunks f))) [] 0 in
  sat (upload_file env sid extractDir BATCH n f)
      (gives (eq (n + 1))
             (fed.1.1 ++ flush_items fed.1.2 fed.2 ++ [I_end (flush_count fed.1.2 fed.2)])).
Proof.
  intros fed. unfold upload_file. eapply gives_weaken.
  - eapply gives_bind; [apply gives_log | intros _ _].
    eapply gives_bind; [apply (gives_store env Hok) | intros _ _].
    eapply gives_bind; [apply gives_log | intros _ _].
    eapply gives_bind; [apply gives_emit | intros _ _].
    eapply gives_bind; [apply gives_now | intros start _].
    eapply gives_bind; [by apply chunks_loop_gives | intros [[b d] k] Hr].
    injection Hr as _ <- <-.
    eapply gives_bind; [apply flush_gives | intros k <-].
    eapply gives_bind; [apply gives_emit | intros _ _]. apply gives_ret_eq.
  - by intros a <-.
  - change ("" +:+ concat_str (file_chunks f)) with (concat_str (file_chunks f)).
    fold fed. unfold item_list. cbn [abstract app]. reflexivity.
Qed.

Lemma full_iff BATCH (b : list Doc) :
  (1 <= List.length b <= batch_len BATCH)%nat ->
  (Z.of_nat (List.length b) >=? BATCH) = true <-> List.length b = batch_len BATCH.
Proof.
  unfold batch_len. intros Hb. rewrite Z.geb_le. lia.
Qed.

Lemma batches_short n (acc : list Doc) :
  (1 <= List.length acc <= n)%nat -> batches n acc = [acc].
Proof.
  intros H. rewrite batches_step; [|lia | intros ->; simpl in H; lia].
  rewrite take_ge, drop_ge by lia. done.
Qed.

Lemma batches_full n (b r : list Doc) :
  (1 <= n)%nat -> List.length b = n -> batches n (b ++ r) = b :: batches n r.
Proof.
  intros Hn Hb. rewrite batches_step; [|done | intros Hnil].
  - by rewrite take_app_length', drop_app_length'.
  - apply app_eq_nil in Hnil as [-> _]. simpl in Hb. lia.
Qed.

(** Feeding records through the accumulated batch cuts them into the
    batches of the batch size: full batches while feeding, and a shorter
    rest that is left accumulated. *)
Lemma feed_batches BATCH docs acc cnt :
  let n := batch_len BATCH in
  let fed := feed BATCH docs acc cnt in
  (List.length acc < n)%nat ->
  (omap item_insert fed.1.1 ++ flush_batches fed.1.2)%list = batches n (acc ++ docs)
  /\ Forall (fun b => List.length b = n) (omap item_insert fed.1.1)
  /\ (List.length fed.1.2 < n)%nat
  /\ flush_count fed.1.2 fed.2 = cnt + Z.of_nat (List.length (acc ++ docs)).
Proof.
  intros n. revert acc cnt. induction docs as [|d r IH]; intros acc cnt fed Hacc.
  - subst fed. simpl. rewrite app_nil_r. repeat split; try done.
    + destruct acc as [|a acc']; [done|]. simpl flush_batches.
      symmetry. apply batches_short. simpl in *. lia.
    + destruct acc; simpl; lia.
  - subst fed.
    assert (Hb : (1 <= List.length (acc ++ [d]) <= batch_len BATCH)%nat).
    { rewrite List.length_app. simpl. fold n. lia. }
    destruct (Z.of_nat (List.length (acc ++ [d])) >=? BATCH) eqn:Hfull.
    + rewrite (feed_full _ _ _ _ _ Hfull). cbn [fst snd].
      apply full_iff in Hfull; [|done]. fold n in Hfull.
      destruct (IH [] (cnt + Z.of_nat (List.length (acc ++ [d])))) as (I1 & I2 & I3 & I4);
        [simpl; lia|].
      rewrite !omap_cons. cbn [item_insert item_progress].
      split; [|split; [|split]].
      * rewrite <- app_comm_cons, I1. simpl app.
        rewrite (cons_middle d acc r), app_assoc. symmetry.
        apply batches_full; [lia | done].
      * by constructor.
      * done.
      * rewrite I4. rewrite !List.length_app. simpl. lia.
    + rewrite (feed_more _ _ _ _ _ Hfull).
      assert (Hlt : (List.length (acc ++ [d]) < n)%nat).
      { destruct (decide (List.length (acc ++ [d]) = n)) as [He|He]; [|lia].
        apply full_iff in He; [congruence | done]. }
      destruct (IH (acc ++ [d])%list cnt Hlt) as (I1 & I2 & I3 & I4).
      rewrite <- app_assoc in I1, I4. simpl in I1, I4. done.
Qed.

End ImportExact.

(** ** Malformed lines and the trailing batch *)

Section ImportClaims.
Context {P : Platform} (env : Env).
Hypothesis Hok : forall k, store_fail env k = None.

Lemma length_omap_decode (ls : list string) :
  List.length (omap decode ls) = List.length (List.filter well_formed ls).
Proof.
  induction ls as [|l ls IH]; [done|]. rewrite omap_cons. simpl. unfold well_formed.
  destruct (decode l); simpl; by rewrite IH.
Qed.

Lemma insert_flush batch cnt : omap item_insert (flush_items batch cnt) = flush_batches batch.
Proof. by destruct batch. Qed.

Lemma concat_str_app a b : concat_str (a ++ b) = concat_str a +:+ concat_str b.
Proof.
  induction a as [|x a IH]; [done|].
  rewrite <- app_comm_cons, !concat_str_cons, IH. by rewrite append_assoc.
Qed.

Lemma feed_no_end BATCH docs batch cnt :
  omap item_end (feed BATCH docs batch cnt).1.1 = [].
Proof.
  revert batch cnt. induction docs as [|d r IH]; intros batch cnt; [done|].
  destruct (Z.of_nat (List.length (batch ++ [d])) >=? BATCH) eqn:Hfull.
  - rewrite (feed_full _ _ _ _ _ Hfull). cbn [fst snd]. rewrite !omap_cons. apply IH.
  - rewrite (feed_more _ _ _ _ _ Hfull). apply IH.
Qed.

(** What the import of one file hands to [insertMany], and the count it
    reports at the end. *)
Lemma upload_file_inserted sid extractDir BATCH n f s :
  let content := concat_str (file_chunks f) in
  let run := upload_file env sid extractDir BATCH n f in
  res_of (run s) = Returned (n + 1)
  /\ inserted (emitted run s) = batches (batch_len BATCH) (records content)
  /\ ends (emitted run s) = [Z.of_nat (List.length (records content))].
Proof.
  intros content run.
  destruct (gives_emitted run _ _ s (upload_file_gives env Hok sid extractDir BATCH n f))
    as [(a & Hres & <-) Hitems].
  fold content in Hitems.
  destruct (feed_batches BATCH (records content) [] 0) as (H1 & _ & _ & H4);
    [unfold batch_len; simpl; lia|].
  split; [done|]. unfold ends. rewrite inserted_items, Hitems, !omap_app, insert_flush.
  split.
  - rewrite (omap_cons item_insert). simpl. rewrite app_nil_r. exact H1.
  - rewrite H4, feed_no_end. by destruct ((feed BATCH (records content) [] 0).1.2).
Qed.

(** C3. On a store that does not reject, the import of a file inserts
    exactly the records of its terminated lines that are not blank and
    decode, in order; the count reported for the file is the number of
    these lines, so a line that fails to decode is neither inserted nor
    counted; and no error event is emitted. *)
Theorem malformed_lines_skipped (sid : option string) (extractDir : string)
    (BATCH n : Z) (f : File) (s : State) :
  let content := concat_str (file_chunks f) in
  let run := upload_file env sid extractDir BATCH n f in
  res_of (run s) = Returned (n + 1)
  /\ concat (inserted (emitted run s)) = omap decode (terminated_lines content)
  /\ ends (emitted run s)
     = [Z.of_nat (List.length (List.filter well_formed (terminated_lines content)))]
  /\ Forall no_error (emitted run s).
Proof.
  intros content run.
  destruct (upload_file_inserted sid extractDir BATCH n f s) as (Hres & Hins & Hend).
  fold content run in Hres, Hins, Hend.
  split; [done|]. split; [|split].
  - rewrite Hins. apply batches_concat. unfold batch_len. lia.
  - rewrite Hend. unfold records. by rewrite length_omap_decode.
  - apply (sat_at_emitted s run (always no_error no_fatal)).
    apply always_upload_file; [apply passive_calm|].
    intros ev p H. apply calm_normal. by econstructor.
Qed.

(** C4. On a store that does not reject: while the stream of an import
    file is read, only full batches are inserted, and the text after the
    last line feed is handed back unparsed; the accumulated records that
    remain, fewer than a batch, are inserted by the one flush that follows
    the stream, so that the file is inserted as the consecutive batches of
    its records; a tail without line feed changes nothing of this. *)
Theorem trailing_batch_flushed (sid : option string) (extractDir name : string)
    (BATCH n : Z) (T : option Z) (start : Z) (f f' : File) (tail : string) (s s0 : State) :
  let content := concat_str (file_chunks f) in
  let N := batch_len BATCH in
  let bs := batches N (records content) in
  let stream := chunks_loop env sid name BATCH T start (file_chunks f) "" [] 0 in
  (exists rest cnt,
      res_of (stream s0) = Returned (unterminated content, rest, cnt)
      /\ (List.length rest < N)%nat
      /\ Forall (fun b => List.length b = N) (inserted (emitted stream s0))
      /\ (inserted (emitted stream s0) ++ flush_batches rest)%list = bs
      /\ forall s1, inserted (emitted (flush env sid name T start rest cnt) s1)
                    = flush_batches rest)
  /\ inserted (emitted (upload_file env sid extractDir BATCH n f) s) = bs
  /\ well_cut N bs /\ concat bs = records content
  /\ (has_nl tail = false -> file_chunks f' = (file_chunks f ++ [tail])%list ->
      inserted (emitted (upload_file env sid extractDir BATCH n f') s) = bs).
Proof.
  intros content N bs stream.
  assert (HN : (1 <= N)%nat) by (unfold N, batch_len; lia).
  destruct (feed_batches BATCH (records content) [] 0) as (H1 & H2 & H3 & H4);
    [simpl; fold N; lia|].
  split; [|split; [|split; [|split]]].
  - destruct (gives_emitted stream _ _ s0
                (chunks_loop_gives env Hok sid name BATCH T start (file_chunks f) "" [] 0
                   eq_refl)) as [(a & Hres & <-) Hitems].
    exists (feed BATCH (records content) [] 0).1.2, (feed BATCH (records content) [] 0).2.
    split; [exact Hres|].
    change ("" +:+ concat_str (file_chunks f)) with content in Hitems.
    rewrite inserted_items, Hitems. repeat split; try done.
    intros s1.
    destruct (gives_emitted (flush env sid name T start _ _) _ _ s1
                (flush_gives env Hok sid name T start
                   (feed BATCH (records content) [] 0).1.2
                   (feed BATCH (records content) [] 0).2)) as [_ Hfl].
    by rewrite inserted_items, Hfl, insert_flush.
  - apply upload_file_inserted.
  - by apply batches_well_cut.
  - by apply batches_concat.
  - intros Htail Hf'.
    destruct (upload_file_inserted sid extractDir BATCH n f' s) as (_ & -> & _).
    unfold bs, content, records.
    by rewrite Hf', concat_str_app, concat_str_cons, append_nil_r, terminated_tail.
Qed.

End ImportClaims.

Lemma malformed_lines_skipped_witness :
  ends (emitted (upload_file Demo.healthy None "/x" 2 0 Demo.users_file) Demo.idle) = [10].
Proof.
  exact (proj1 (proj2 (proj2
           (malformed_lines_skipped Demo.healthy (fun _ => eq_refl) None "/x" 2 0
              Demo.users_file Demo.idle)))).
Defined.

Lemma trailing_batch_flushed_witness :
  inserted (emitted (upload_file Demo.healthy None "/x" 3 0 Demo.users_file) Demo.idle)
  = [["{1}"; "{2}"; "{3}"]; ["{4}"; "{5}"; "{6}"]; ["{8}"; "{9}"; "{10}"]; ["{11}"]].
Proof.
  destruct (trailing_batch_flushed Demo.healthy (fun _ => eq_refl) None "/x" "users" 3 0
              None 0 Demo.users_file Demo.users_file "" Demo.idle Demo.idle)
    as (_ & Hins & _).
  exact Hins.
Defined.

(** ** Validation of the request *)

Section Validation.
Context {P : Platform} (env : Env).

(** A request to the export or copy route that lacks a required field, or
    an upload without file, is answered 400 and nothing else happens. *)
Lemma missing_field_rejected fuel req s :
  (Js.truthy_str (uri req) && Js.truthy_str (dbName req) = false ->
   emitted (backup env fuel req) s = [Respond 400 (B_error "Missing uri or dbName")])
  /\ (Js.truthy_str (srcUri req) && Js.truthy_str (srcDb req)
      && Js.truthy_str (dstUri req) && Js.truthy_str (dstDb req) = false ->
      emitted (transfer env fuel req) s = [Respond 400 (B_error "Missing params")])
  /\ (file req = None ->
      emitted (upload env req) s = [Respond 400 (B_error "Missing file")]).
Proof.
  unfold emitted, backup, transfer, upload. split; [|split]; intros H.
  - destruct (Js.truthy_str (uri req)), (Js.truthy_str (dbName req)); try done;
      simpl; by rewrite drop_app_length.
  - destruct (Js.truthy_str (srcUri req)), (Js.truthy_str (srcDb req)),
      (Js.truthy_str (dstUri req)), (Js.truthy_str (dstDb req)); try done;
      simpl; by rewrite drop_app_length.
  - rewrite H. simpl. by rewrite drop_app_length.
Qed.

End Validation.

(** C8, at the failing input. An upload that carries a file and a URI but
    no [dbName] is not rejected: a client is constructed and connected,
    the import runs, events go out on the socket, and the response is 200. *)
Theorem upload_without_dbName_runs :
  let t := emitted (upload Demo.healthy Demo.upload_without_dbName) Demo.idle in
  omap response_of t = [(200, B_ok_count 1)]
  /\ omap store_of t
     = [NewMongoClient (Some "mongodb://db"); Connect (Some "mongodb://db");
        DeleteMany "users";
        @InsertMany Demo.exact "users" ["{1}"; "{2}"; "{3}"; "{4}"; "{5}"];
        @InsertMany Demo.exact "users" ["{6}"; "{8}"; "{9}"; "{10}"; "{11}"];
        Close (Some "mongodb://db")]
  /\ omap wire_name t
     = ["upload-start"; "upload-collection-start"; "upload-progress"; "upload-progress";
        "upload-collection-done"; "upload-done"].
Proof. vm_compute. done. Qed.



(** ** Cleanup at the end of a job *)

Section Tracking.
Context {P : Platform} (env : Env).
Local Open Scope job_scope.

Lemma replay_app t1 t2 r : replay (t1 ++ t2) r = replay t2 (replay t1 r).
Proof. apply fold_left_app. Qed.

Lemma tracked_ret {A} (a : A) : tracked (ret a).
Proof. intros s. exists []. simpl. by rewrite app_nil_r. Qed.

Lemma tracked_diverge {A} : tracked (@diverge _ A).
Proof. intros s. exists []. simpl. by rewrite app_nil_r. Qed.

Lemma tracked_bind {A B} (m : M A) (k : A -> M B) :
  tracked m -> (forall a, tracked (k a)) -> tracked (bind m k).
Proof.
  intros Hm Hk s. destruct (Hm s) as (t1 & Ht1 & Hr1). unfold tracked_at, bind.
  destruct (m s) as [a s'|e s'|s']; simpl in *; [|by exists t1..].
  destruct (Hk a s') as (t2 & Ht2 & Hr2). exists (t1 ++ t2)%list.
  by rewrite Ht2, Ht1, Hr2, Hr1, replay_app, app_assoc.
Qed.

Lemma tracked_log c : schedule_of c = None -> tracked (log c).
Proof. intros Hc s. exists [c]. simpl. split; [done|]. by destruct c. Qed.

Lemma tracked_store op : tracked (store env op).
Proof.
  intros s. unfold tracked_at, store.
  destruct (store_fail env (ops s)); simpl; by eexists [_].
Qed.

Lemma tracked_now : tracked (now env).
Proof. intros s. exists []. simpl. by rewrite app_nil_r. Qed.

Lemma tracked_scheduleCleanup path : tracked (scheduleCleanup path).
Proof. intros s. by exists [ScheduleCleanup path]. Qed.

Lemma tracked_try_catch {A} (body : M A) (handler : string -> M A) :
  tracked body -> (forall e, tracked (handler e)) -> tracked (try_catch body handler).
Proof.
  intros Hb Hh s. destruct (Hb s) as (t1 & Ht1 & Hr1). unfold tracked_at, try_catch.
  destruct (body s) as [a s'|e s'|s']; simpl in *; [by exists t1| |by exists t1].
  destruct (Hh e s') as (t2 & Ht2 & Hr2). exists (t1 ++ t2)%list.
  by rewrite Ht2, Ht1, Hr2, Hr1, replay_app, app_assoc.
Qed.

Lemma tracked_try_finally {A} (body : M A) (fin : M unit) :
  tracked body -> tracked fin -> tracked (try_finally body fin).
Proof.
  intros Hb Hf s. destruct (Hb s) as (t1 & Ht1 & Hr1). unfold tracked_at, try_finally.
  destruct (body s) as [a s'|e s'|s']; simpl in *; [| |by exists t1];
    destruct (Hf s') as (t2 & Ht2 & Hr2); exists (t1 ++ t2)%list;
    unfold bind, ret; destruct (fin s'); simpl in *;
    by rewrite Ht2, Ht1, Hr2, Hr1, replay_app, app_assoc.
Qed.

Lemma tracked_emit sid ev p : tracked (emitProgress sid ev p).
Proof.
  unfold emitProgress. apply tracked_bind; [by apply tracked_log | intros _].
  destruct (Js.truthy_str sid); [by apply tracked_log | apply tracked_ret].
Qed.

Lemma tracked_progress sid ev name cnt T start :
  tracked (progress env sid ev name cnt T start).
Proof.
  unfold progress. apply tracked_bind; [apply tracked_now | intros t]. apply tracked_emit.
Qed.

Lemma tracked_drain fuel sid name BATCH T start buffer docsBatch importedCount :
  tracked (drain env fuel sid name BATCH T start buffer docsBatch importedCount).
Proof.
  revert buffer docsBatch importedCount.
  induction fuel as [|fuel IH]; intros buffer docsBatch importedCount; simpl;
    [apply tracked_diverge|].
  destruct (Js.indexOf_nl buffer) as [idx|]; [|apply tracked_ret].
  destruct (String.eqb _ _); [apply IH|].
  destruct (JSON_parse _) as [obj|]; [|apply IH].
  destruct (_ >=? _); [|apply IH].
  apply tracked_bind; [apply tracked_store | intros _].
  apply tracked_bind; [apply tracked_progress | intros _]. apply IH.
Qed.

Lemma tracked_chunks_loop sid name BATCH T start chunks buffer docsBatch importedCount :
  tracked (chunks_loop env sid name BATCH T start chunks buffer docsBatch importedCount).
Proof.
  revert buffer docsBatch importedCount.
  induction chunks as [|chunk rest IH]; intros buffer docsBatch importedCount;
    cbn [chunks_loop]; [apply tracked_ret|].
  apply tracked_bind; [apply tracked_drain | intros [[b d] n]]. apply IH.
Qed.

Lemma tracked_upload_file sid extractDir BATCH n f :
  tracked (upload_file env sid extractDir BATCH n f).
Proof.
  unfold upload_file, fs.
  apply tracked_bind; [by apply tracked_log | intros _].
  apply tracked_bind; [apply tracked_store | intros _].
  apply tracked_bind; [by apply tracked_log | intros _].
  apply tracked_bind; [apply tracked_emit | intros _].
  apply tracked_bind; [apply tracked_now | intros start].
  apply tracked_bind; [apply tracked_chunks_loop | intros [[b d] k]].
  apply tracked_bind.
  { unfold flush. destruct d; [apply tracked_ret|].
    apply tracked_bind; [apply tracked_store | intros _].
    apply tracked_bind; [apply tracked_progress | intros _]. apply tracked_ret. }
  intros k'. apply tracked_bind; [apply tracked_emit | intros _]. apply tracked_ret.
Qed.

Lemma tracked_for_of {A} (body : Z -> A -> M Z) counter xs :
  (forall n x, tracked (body n x)) -> tracked (for_of body counter xs).
Proof.
  intros Hbody. revert counter.
  induction xs as [|x rest IH]; intros counter; simpl; [apply tracked_ret|].
  apply tracked_bind; [apply Hbody | intros n; apply IH].
Qed.

Lemma tracked_upload_catch start sid e : tracked (upload_catch start sid e).
Proof.
  intros s. destruct (upload_catch_run start sid e s) as (s' & Hc & Hreg & _ & Htr).
  unfold tracked_at. rewrite Hc.
  destruct (existsb _ _); simpl; (eexists; split; [exact Htr|]);
    rewrite Hreg; unfold emit_calls; by destruct (Js.truthy_str sid).
Qed.

Lemma tracked_upload_body start req filePath :
  tracked (upload_body env start req filePath).
Proof.
  unfold upload_body, fs.
  apply tracked_bind; [apply tracked_now | intros t].
  apply tracked_bind; [by apply tracked_log | intros _].
  apply tracked_try_finally; [|by apply tracked_log].
  apply tracked_try_catch.
  - apply tracked_bind; [by apply tracked_log | intros _].
    apply tracked_bind; [apply tracked_store | intros _].
    apply tracked_try_finally; [|apply tracked_store].
    unfold upload_job, fs.
    apply tracked_bind; [apply tracked_store | intros _].
    apply tracked_bind; [by apply tracked_log | intros _].
    apply tracked_bind; [apply tracked_emit | intros _].
    apply tracked_bind; [apply tracked_for_of; intros; apply tracked_upload_file | intros n].
    apply tracked_bind; [apply tracked_scheduleCleanup | intros _].
    apply tracked_bind; [apply tracked_scheduleCleanup | intros _].
    apply tracked_bind; [apply tracked_emit | intros _]. by apply tracked_log.
  - intros e. apply tracked_upload_catch.
Qed.

Lemma tracked_upload req : tracked (upload env req).
Proof.
  unfold upload. destruct (file req) as [filePath|]; [|by apply tracked_log].
  intros s. apply tracked_upload_body.
Qed.

End Tracking.

Section EndOfImport.
Context {P : Platform} (env : Env).
Local Open Scope job_scope.

Variables extractDir filePath : string.

Local Abbreviation ended :=
  (fun t => cleaned_up extractDir filePath t \/ Forall undone t).

Lemma passive_undone : Passive undone anything.
Proof. split; try (intros; split; done); try done. Qed.

Lemma undone_task name T ev p :
  task_event name T ev p -> undone (EmitProgress ev p) /\ anything (EmitProgress ev p).
Proof.
  intros H. split; [|done]. split; [done|]. simpl. intros [= ->].
  inversion H as [? ? Hin|? ? ? Hin|? ? Hin]; subst;
    repeat (apply elem_of_cons in Hin as [?|Hin]; [done|]);
    by apply elem_of_nil in Hin.
Qed.

Lemma ended_prefix t0 t : Forall undone t0 -> ended t -> ended (t0 ++ t)%list.
Proof.
  intros H0 [(t1 & t2 & n & -> & H1 & H2)|H].
  - left. exists (t0 ++ t1)%list, t2, n. rewrite app_assoc.
    split; [done|]. split; [by apply Forall_app | done].
  - right. by apply Forall_app.
Qed.

Lemma ended_suffix t t3 : ended t -> Forall undone t3 -> ended (t ++ t3)%list.
Proof.
  intros [(t1 & t2 & n & -> & H1 & H2)|H] H3.
  - left. exists t1, (t2 ++ t3)%list, n. rewrite <- !app_assoc.
    split; [done|]. split; [done | by apply Forall_app].
  - right. by apply Forall_app.
Qed.

Lemma ended_bind {A B} (m : M A) (k : A -> M B) :
  sat m (always undone anything) -> (forall a, sat (k a) (fun _ t => ended t)) ->
  sat (bind m k) (fun _ t => ended t).
Proof.
  intros Hm Hk s. eapply sat_at_bind; [apply Hm| | |].
  - intros e t [H _]. by right.
  - intros t [H _]. by right.
  - intros a s' t1 _ [H1 _]. eapply sat_at_weaken; [apply Hk|].
    intros r t2 H2. by apply ended_prefix.
Qed.

Lemma ended_try_finally {A} (body : M A) (fin : M unit) :
  sat body (fun _ t => ended t) -> sat fin (fun _ t => Forall undone t) ->
  sat (try_finally body fin) (fun _ t => ended t).
Proof.
  intros Hb Hf s. destruct (Hb s) as (t1 & Ht1 & H1). unfold sat_at, try_finally.
  destruct (body s) as [a s'|e s'|s']; simpl in *; [| |by exists t1];
    destruct (Hf s') as (t2 & Ht2 & H2); exists (t1 ++ t2)%list;
    (split; [unfold bind, ret; destruct (fin s'); simpl in *;
             by rewrite Ht2, Ht1, app_assoc
            | by apply ended_suffix]).
Qed.

Lemma ended_try_catch {A} (body : M A) (handler : string -> M A) :
  sat body (fun _ t => ended t) -> (forall e, sat (handler e) (fun _ t => Forall undone t)) ->
  sat (try_catch body handler) (fun _ t => ended t).
Proof.
  intros Hb Hh s. destruct (Hb s) as (t1 & Ht1 & H1). unfold sat_at, try_catch.
  destruct (body s) as [a s'|e s'|s']; simpl in *; [by exists t1| |by exists t1].
  destruct (Hh e s') as (t2 & Ht2 & H2). exists (t1 ++ t2)%list.
  split; [by rewrite Ht2, Ht1, app_assoc | by apply ended_suffix].
Qed.

Lemma undone_log c : undone c -> sat (log c) (fun _ t => Forall undone t).
Proof. intros H s. apply sat_at_log. constructor; [done | constructor]. Qed.

Lemma undone_store op : sat (store env op) (fun _ t => Forall undone t).
Proof. intros s. apply sat_at_store; intros; (constructor; [done | constructor]). Qed.

Lemma undone_upload_catch start sid e :
  sat (upload_catch start sid e) (fun _ t => Forall undone t).
Proof.
  intros s. destruct (upload_catch_run start sid e s) as (s' & Hrun & _ & _ & Htr).
  unfold sat_at. rewrite Hrun. unfold emit_calls in Htr.
  destruct (existsb _ _); simpl; (eexists; split; [exact Htr|]);
    destruct (Js.truthy_str sid); repeat (constructor; [done|]); constructor.
Qed.

(** The last four statements of the inner [try] block. *)
Lemma upload_job_end sid n :
  sat (scheduleCleanup extractDir;;; scheduleCleanup filePath;;;
       emitProgress sid "upload-done" (P_done_count n);;;
       log (Respond 200 (B_ok_count n)))
      (fun _ t => ended t).
Proof.
  intros s. unfold sat_at, scheduleCleanup, emitProgress, bind, log, ret. simpl.
  set (wire := if Js.truthy_str sid
               then [IoEmit (default "" sid) "upload-done" (P_done_count n)] else []).
  exists ([ScheduleCleanup extractDir; ScheduleCleanup filePath;
           EmitProgress "upload-done" (P_done_count n)]
          ++ wire ++ [Respond 200 (B_ok_count n)])%list.
  split.
  - subst wire. destruct (Js.truthy_str sid); simpl; by rewrite <- !app_assoc.
  - left. exists [], (wire ++ [Respond 200 (B_ok_count n)])%list, n.
    split; [done|]. split; [done|].
    subst wire. destruct (Js.truthy_str sid); repeat (constructor; [done|]); constructor.
Qed.

End EndOfImport.

Section CleanupAtEnd.
Context {P : Platform} (env : Env).
Local Open Scope job_scope.

Lemma upload_rest_ended start req filePath extractDir :
  sat (fs (EnsureDir extractDir);;;
       try_finally
         (try_catch
            (fs (Extract filePath extractDir);;;
             store env (NewMongoClient (uri req));;;
             try_finally (upload_job env req filePath extractDir)
                         (store env (Close (uri req))))
            (upload_catch start (socketId req)))
         (fs (Remove filePath)))
      (fun _ t => cleaned_up extractDir filePath t \/ Forall undone t).
Proof.
  apply ended_bind; [apply always_fs, passive_undone | intros _].
  apply ended_try_finally; [|by apply undone_log].
  apply ended_try_catch; [|intros e; apply undone_upload_catch].
  apply ended_bind; [apply always_fs, passive_undone | intros _].
  apply ended_bind; [apply always_store, passive_undone | intros _].
  apply ended_try_finally; [|apply undone_store].
  unfold upload_job.
  apply ended_bind; [apply always_store, passive_undone | intros _].
  apply ended_bind; [apply always_fs, passive_undone | intros _].
  apply ended_bind; [apply always_emit; [apply passive_undone | done] | intros _].
  apply ended_bind; [|intros n; apply upload_job_end].
  apply always_for_of. intros n f.
  apply always_upload_file; [apply passive_undone | apply undone_task].
Qed.

Lemma replay_undone t r : Forall undone t -> replay t r = r.
Proof.
  intros H. revert r. induction H as [|c t [Hc _] _ IH]; intros r; [done|].
  unfold replay in *. simpl. destruct c; simpl in Hc; try discriminate; apply IH.
Qed.

Lemma schedule_is_Some p q ttl r :
  is_Some (Cleanup.scheduledCleanups r !! p) \/ p = q ->
  is_Some (Cleanup.scheduledCleanups (Cleanup.scheduleCleanup q ttl r) !! p).
Proof.
  unfold Cleanup.scheduleCleanup.
  destruct (Cleanup.scheduledCleanups r !! q) as [t|] eqn:Hq; simpl.
  - intros [H| ->]; [done | by eexists].
  - intros [H| ->]; [|rewrite lookup_insert_eq; by eexists].
    destruct (decide (q = p)) as [->|Hne]; [by rewrite Hq in H; destruct H|].
    by rewrite lookup_insert_ne.
Qed.


End CleanupAtEnd.


(** ** File names of an export and of an import *)

Section Names.

Lemma rev_string_acc acc s : Js.rev_string acc s = Js.rev_string "" s +:+ acc.
Proof.
  revert acc. induction s as [|c r IH]; intros acc; simpl; [done|].
  rewrite (IH (String c acc)), (IH (String c "")).
  by rewrite append_assoc.
Qed.

Lemma rev_string_append a b :
  Js.rev_string "" (a +:+ b) = Js.rev_string "" b +:+ Js.rev_string "" a.
Proof.
  induction a as [|c r IH].
  - by rewrite append_nil_r.
  - rewrite append_cons. simpl. rewrite (rev_string_acc (String c "")), IH.
    rewrite (rev_string_acc (String c "") r). by rewrite append_assoc.
Qed.

Lemma startsWith_rev_append p x : Js.startsWith_rev p (p +:+ x) = true.
Proof.
  induction p as [|c r IH]; [done|]. rewrite append_cons. simpl.
  by rewrite Ascii.eqb_refl.
Qed.

Lemma endsWith_append s suffix : Js.endsWith (s +:+ suffix) suffix = true.
Proof. unfold Js.endsWith. rewrite rev_string_append. apply startsWith_rev_append. Qed.

Lemma take_str_append s t : Js.take_str (String.length s) (s +:+ t) = s.
Proof.
  induction s as [|c r IH]; [by destruct t|]. rewrite append_cons. simpl. by rewrite IH.
Qed.

Lemma chop_append s suffix : Js.chop (s +:+ suffix) suffix = s.
Proof.
  unfold Js.chop. rewrite length_append.
  replace (String.length s + String.length suffix - String.length suffix)%nat
    with (String.length s) by lia.
  apply take_str_append.
Qed.

Lemma json_is_not_ndjson name : Js.endsWith (name +:+ ".json") ".ndjson" = false.
Proof.
  unfold Js.endsWith. rewrite rev_string_append. done.
Qed.

End Names.

Section Paths.

Lemma basename_from_no_slash acc s :
  has_slash s = false -> basename_from acc s = acc.
Proof.
  revert acc. induction s as [|c r IH]; intros acc; simpl; [done|].
  destruct (Ascii.eqb c "/"); [done|]. apply IH.
Qed.

Lemma basename_from_append acc a b :
  has_slash b = false -> basename_from acc (a +:+ String "/" b) = b.
Proof.
  intros Hb. revert acc. induction a as [|c r IH]; intros acc.
  - simpl. by apply basename_from_no_slash.
  - rewrite append_cons. simpl. destruct (Ascii.eqb c "/"); apply IH.
Qed.

Lemma basename_path_join dir name :
  has_slash name = false -> basename (path_join dir name) = name.
Proof. intros H. unfold basename, path_join. by apply basename_from_append. Qed.

Lemma has_slash_append a b : has_slash (a +:+ b) = has_slash a || has_slash b.
Proof.
  induction a as [|c r IH]; [done|]. rewrite append_cons. simpl.
  by rewrite IH, orb_assoc.
Qed.

Lemma pretty_N_go_no_slash x s : has_slash s = false -> has_slash (pretty_N_go x s) = false.
Proof.
  revert s. induction (N.lt_wf_0 x) as [x _ IH]; intros s Hs.
  assert (x = 0 \/ 0 < x)%N as [->|Hx] by lia.
  - by rewrite pretty_N_go_0.
  - rewrite pretty_N_go_step by done. apply IH.
    { by apply N.div_lt. }
    simpl. rewrite Hs. unfold pretty_N_char. by repeat case_match.
Qed.

Lemma pretty_Z_no_slash (z : Z) : has_slash (pretty z) = false.
Proof.
  assert (HN : forall n : N, has_slash (pretty n) = false).
  { intros n. unfold pretty, pretty_N. case_decide; [done|].
    by apply pretty_N_go_no_slash. }
  destruct z as [|p|p]; [done|apply (HN (Npos p))|].
  unfold pretty, pretty_Z. rewrite has_slash_append. simpl. apply (HN (Npos p)).
Qed.

End Paths.

(** ** The estimate of the number of documents of an import file *)

Section LineCount.

Lemma count_nl_lines count line chunk :
  count_nl count chunk = count + Z.of_nat (List.length (lines_from line chunk)).
Proof.
  revert count line. induction chunk as [|c r IH]; intros count line; simpl; [lia|].
  destruct (Ascii.eqb c "010"); simpl.
  - rewrite (IH _ ""). lia.
  - apply IH.
Qed.

Lemma fold_count_nl chunks count line :
  fold_left count_nl chunks count
  = count + Z.of_nat (List.length (lines_from line (concat_str chunks))).
Proof.
  revert count line. induction chunks as [|c r IH]; intros count line.
  - simpl. lia.
  - rewrite concat_str_cons. simpl.
    destruct (lines_append line c (concat_str r)) as [-> _].
    rewrite length_app, (IH _ (tail_from line c)), (count_nl_lines count line c). lia.
Qed.

Lemma countLinesStream_lines chunks :
  countLinesStream chunks
  = Z.of_nat (List.length (terminated_lines (concat_str chunks))).
Proof. unfold countLinesStream. by rewrite (fold_count_nl chunks 0 ""). Qed.

End LineCount.

Section ImportTotal.
Context {P : Platform} (env : Env).
Hypothesis Hok : forall k, store_fail env k = None.

Lemma feed_progress_bound BATCH docs batch cnt :
  let fed := feed BATCH docs batch cnt in
  let top := cnt + Z.of_nat (List.length batch) + Z.of_nat (List.length docs) in
  Forall (fun d => cnt <= d <= top) (omap item_progress fed.1.1)
  /\ fed.2 + Z.of_nat (List.length fed.1.2) = top
  /\ cnt <= fed.2.
Proof.
  revert batch cnt. induction docs as [|d r IH]; intros batch cnt; simpl.
  - split; [constructor | lia].
  - destruct (_ >=? _) eqn:Hfull.
    + specialize (IH [] (cnt + Z.of_nat (List.length (batch ++ [d])))).
      destruct (feed BATCH r [] _) as [[x b'] c'] eqn:Hfed. simpl in *.
      rewrite length_app in *. simpl in *. destruct IH as (IH1 & IH2 & IH3).
      split; [|lia].
      constructor; [lia|]. eapply Forall_impl; [exact IH1|]. simpl. intros; lia.
    + specialize (IH (batch ++ [d])%list cnt). rewrite length_app in IH. simpl in IH.
      destruct IH as (IH1 & IH2 & IH3). split; [|lia].
      eapply Forall_impl; [exact IH1|]. simpl. intros; lia.
Qed.

Lemma flush_progress_bound batch cnt :
  Forall (fun d => cnt <= d <= cnt + Z.of_nat (List.length batch))
         (omap item_progress (flush_items batch cnt)).
Proof. destruct batch; simpl; repeat constructor; lia. Qed.

Lemma length_filter_all {A} (f : A -> bool) (l : list A) :
  List.length (List.filter f l) = List.length l <-> Forall (fun x => f x = true) l.
Proof.
  induction l as [|x r IH]; simpl; [split; [constructor|done]|].
  pose proof (List.filter_length_le f r) as Hle.
  destruct (f x) eqn:Hx; simpl.
  - split.
    + intros H. constructor; [done|]. apply IH. lia.
    + intros H. apply Forall_cons in H as [_ H]. apply IH in H. lia.
  - split; [lia|]. intros H. apply Forall_cons in H as [H _]. congruence.
Qed.

(** X1. The total announced for an import file, when the counting of its
    lines does not fail, is the number of its lines that end in a line
    feed, however the stream cuts the file into chunks; blank and
    malformed lines are counted in, the unterminated tail is not. When no
    driver call fails, the running count of every progress event stays
    within that total, and the final count reaches it exactly when every
    terminated line yields a document. *)
Theorem import_total_bounds (sid : option string) (extractDir : string)
    (BATCH n : Z) (f : File) (s : State) :
  count_rejects f = false ->
  let content := concat_str (file_chunks f) in
  let total := Z.of_nat (List.length (terminated_lines content)) in
  let run := upload_file env sid extractDir BATCH n f in
  file_total f = Some total
  /\ Forall (fun e => pe_total e = Some total /\ 0 <= pe_done e <= total)
       (progress_events (emitted run s))
  /\ exists last,
       ends (emitted run s) = [last] /\ last <= total
       /\ (last = total <->
           Forall (fun l => well_formed l = true) (terminated_lines content)).
Proof.
  intros Hcount content total run.
  assert (Htotal : file_total f = Some total).
  { unfold file_total. rewrite Hcount. by rewrite countLinesStream_lines. }
  pose proof (List.filter_length_le well_formed (terminated_lines content)) as Hle.
  destruct (upload_file_inserted env Hok sid extractDir BATCH n f s) as (_ & _ & Hends).
  fold content run in Hends. unfold records in Hends. rewrite length_omap_decode in Hends.
  split; [done|]. split.
  - destruct (sat_at_emitted _ _ _ (upload_file_metrics env sid extractDir BATCH n f s))
      as [_ Hm].
    apply metrics_events in Hm. fold run in Hm. rewrite Htotal in Hm.
    destruct (gives_emitted _ _ _ s (upload_file_gives env Hok sid extractDir BATCH n f))
      as [_ Hitems].
    fold run content in Hitems.
    assert (Hd : Forall (fun d => 0 <= d <= total) (dones (emitted run s))).
    { rewrite dones_items, Hitems.
      destruct (feed_progress_bound BATCH (records content) [] 0) as (H1 & H2 & H3).
      simpl in H1, H2, H3.
      assert (Hrec : Z.of_nat (List.length (records content)) <= total).
      { unfold records. rewrite length_omap_decode. lia. }
      rewrite !omap_app. repeat apply Forall_app_2.
      - eapply Forall_impl; [exact H1|]. simpl. intros; lia.
      - eapply Forall_impl; [apply flush_progress_bound|]. simpl. intros; lia.
      - simpl. constructor. }
    unfold dones in Hd. rewrite Forall_fmap in Hd.
    clear -Hm Hd. induction Hm as [|e l He _ IH]; [constructor|].
    apply Forall_cons in Hd as [Hd1 Hd2]. constructor; [|by apply IH].
    split; [apply He | exact Hd1].
  - eexists. split; [exact Hends|]. split; [lia|].
    rewrite <- length_filter_all. lia.
Qed.

End ImportTotal.

(** * Further properties of the routes *)

(** ** A property of the trace that is kept by concatenation *)

Section Along.
Context {P : Platform} (env : Env).
Variable I : list Call -> Prop.
Hypothesis I_nil : I [].
Hypothesis I_app : forall t1 t2, I t1 -> I t2 -> I (t1 ++ t2)%list.
Variable S : StoreOp -> Prop.
Hypothesis I_store : forall op r, S op -> I [Store op r].
Variable F : FsOp -> Prop.
Hypothesis I_fs : forall op, F op -> I [Fs op].
Variable sid : option string.
Variable E : string -> Payload -> Prop.
Hypothesis I_emit : forall ev p, E ev p -> I (emit_calls sid ev p).
Local Open Scope job_scope.

Local Abbreviation fits ev name T := (forall p, task_event name T ev p -> E ev p).
Local Abbreviation cursor_ok name := (S (HasNext name) /\ S (Next name)).
Local Abbreviation insert_ok name := (forall docs, S (InsertMany name docs)).
Local Abbreviation streams_ok := (forall op, streams op = true -> F op).

Lemma along_ret {A} (a : A) : sat (ret a) (along I).
Proof. intros s. by apply sat_at_ret. Qed.

Lemma along_bind {A B} (m : M A) (k : A -> M B) :
  sat m (along I) -> (forall a, sat (k a) (along I)) -> sat (bind m k) (along I).
Proof.
  intros Hm Hk s. eapply sat_at_bind; [apply Hm | done | done |].
  intros a s' t1 _ H1. eapply sat_at_weaken; [apply Hk|].
  intros r t2 H2. by apply I_app.
Qed.

Lemma along_log c : I [c] -> sat (log c) (along I).
Proof. intros H s. by apply sat_at_log. Qed.

Lemma along_fs op : F op -> sat (fs op) (along I).
Proof. intros H. by apply along_log, I_fs. Qed.

Lemma along_now : sat (now env) (along I).
Proof. intros s. by apply sat_at_now. Qed.

Lemma along_diverge {A} : sat (@diverge _ A) (along I).
Proof. intros s. exists []. simpl. by rewrite app_nil_r. Qed.

Lemma along_store op : S op -> sat (store env op) (along I).
Proof. intros H s. apply sat_at_store; intros; by apply I_store. Qed.

Lemma along_emit ev p : E ev p -> sat (emitProgress sid ev p) (along I).
Proof.
  intros H s. specialize (I_emit ev p H). unfold emit_calls in I_emit.
  unfold sat_at, emitProgress, bind, log, ret. simpl.
  destruct (Js.truthy_str sid); simpl; eexists; (split; [|exact I_emit]); simpl.
  - by rewrite <- app_assoc.
  - done.
Qed.

Lemma along_try_catch {A} (body : M A) (handler : string -> M A) :
  sat body (along I) -> (forall e, sat (handler e) (along I)) ->
  sat (try_catch body handler) (along I).
Proof.
  intros Hb Hh s. destruct (Hb s) as (t1 & Ht1 & H1).
  unfold sat_at, try_catch. destruct (body s) as [a s'|e s'|s'] eqn:Hbs; simpl in *.
  - by exists t1.
  - destruct (Hh e s') as (t2 & Ht2 & H2). exists (t1 ++ t2)%list. split.
    + by rewrite Ht2, Ht1, app_assoc.
    + by apply I_app.
  - by exists t1.
Qed.

Lemma along_try_finally {A} (body : M A) (fin : M unit) :
  sat body (along I) -> sat fin (along I) -> sat (try_finally body fin) (along I).
Proof.
  intros Hb Hf s. destruct (Hb s) as (t1 & Ht1 & H1).
  unfold sat_at, try_finally, bind, ret.
  destruct (body s) as [a s'|e s'|s'] eqn:Hbs; simpl in *.
  - destruct (Hf s') as (t2 & Ht2 & H2).
    destruct (fin s') as [[] s''|e s''|s'']; simpl in *;
      exists (t1 ++ t2)%list; (split; [by rewrite Ht2, Ht1, app_assoc | by apply I_app]).
  - destruct (Hf s') as (t2 & Ht2 & H2).
    destruct (fin s') as [[] s''|e' s''|s'']; simpl in *;
      exists (t1 ++ t2)%list; (split; [by rewrite Ht2, Ht1, app_assoc | by apply I_app]).
  - by exists t1.
Qed.

Lemma along_count_or_zero c :
  S (CountDocuments (coll_name c)) -> sat (count_or_zero env c) (along I).
Proof.
  intros H. unfold count_or_zero. apply along_try_catch.
  - apply along_bind; [by apply along_store | intros _; apply along_ret].
  - intros _. apply along_ret.
Qed.

Lemma along_pull name BATCH i cursor batch :
  cursor_ok name -> sat (pull env name BATCH i cursor batch) (along I).
Proof.
  intros [H1 H2]. revert i batch.
  induction cursor as [|doc rest IH]; intros i batch; simpl.
  - destruct (i <? BATCH); [|by apply along_ret].
    apply along_bind; [by apply along_store | intros _; by apply along_ret].
  - destruct (i <? BATCH); [|by apply along_ret].
    apply along_bind; [by apply along_store | intros _].
    apply along_bind; [by apply along_store | intros _]. apply IH.
Qed.

Lemma along_write_batch outFile batch :
  streams_ok -> sat (write_batch outFile batch) (along I).
Proof.
  intros HF. induction batch as [|d rest IH]; simpl; [by apply along_ret|].
  apply along_bind; [by apply along_fs, HF | intros _; apply IH].
Qed.

Lemma along_progress ev name done T start :
  ev ∈ ["backup-progress"; "transfer-progress"; "upload-progress"] ->
  fits ev name T ->
  sat (progress env sid ev name done T start) (along I).
Proof.
  intros Hev Hfit. unfold progress.
  apply along_bind; [by apply along_now | intros t].
  apply along_emit. apply Hfit. by constructor.
Qed.

Lemma along_backup_loop fuel name outFile BATCH T start cursor docsDone :
  cursor_ok name -> streams_ok -> fits "backup-progress" name T ->
  sat (backup_loop env fuel sid name outFile BATCH T start cursor docsDone) (along I).
Proof.
  intros HS HF Hfit. revert cursor docsDone.
  induction fuel as [|fuel IH]; intros cursor docsDone; simpl; [by apply along_diverge|].
  apply along_bind; [apply along_store, HS | intros _].
  destruct cursor as [|d rest]; [by apply along_ret|].
  apply along_bind; [by apply along_pull | intros [batch cursor']].
  apply along_bind; [by apply along_write_batch | intros _].
  apply along_bind; [|intros _; apply IH].
  apply along_progress; [listed | done].
Qed.

Lemma along_transfer_loop fuel name BATCH T start cursor transferred :
  cursor_ok name -> insert_ok name -> fits "transfer-progress" name T ->
  sat (transfer_loop env fuel sid name BATCH T start cursor transferred) (along I).
Proof.
  intros HS HW Hfit. revert cursor transferred.
  induction fuel as [|fuel IH]; intros cursor transferred; simpl;
    [by apply along_diverge|].
  apply along_bind; [apply along_store, HS | intros _].
  destruct cursor as [|d rest]; [by apply along_ret|].
  apply along_bind; [by apply along_pull | intros [batch cursor']].
  destruct batch as [|b batch]; [apply IH|].
  apply along_bind; [by apply along_store | intros _].
  apply along_bind; [|intros _; apply IH].
  apply along_progress; [listed | done].
Qed.

Lemma along_drain fuel name BATCH T start buffer docsBatch importedCount :
  insert_ok name -> fits "upload-progress" name T ->
  sat (drain env fuel sid name BATCH T start buffer docsBatch importedCount) (along I).
Proof.
  intros HW Hfit. revert buffer docsBatch importedCount.
  induction fuel as [|fuel IH]; intros buffer docsBatch importedCount; simpl;
    [by apply along_diverge|].
  destruct (Js.indexOf_nl buffer) as [idx|]; [|by apply along_ret].
  destruct (String.eqb _ _); [apply IH|].
  destruct (JSON_parse _) as [obj|]; [|apply IH].
  destruct (_ >=? _); [|apply IH].
  apply along_bind; [by apply along_store | intros _].
  apply along_bind; [|intros _; apply IH].
  apply along_progress; [listed | done].
Qed.

Lemma along_chunks_loop name BATCH T start chunks buffer docsBatch importedCount :
  insert_ok name -> fits "upload-progress" name T ->
  sat (chunks_loop env sid name BATCH T start chunks buffer docsBatch importedCount)
      (along I).
Proof.
  intros HW Hfit. revert buffer docsBatch importedCount.
  induction chunks as [|chunk rest IH]; intros buffer docsBatch importedCount;
    cbn [chunks_loop]; [by apply along_ret|].
  apply along_bind; [by apply along_drain | intros [[b d] n]]. apply IH.
Qed.

Lemma along_flush name T start docsBatch importedCount :
  insert_ok name -> fits "upload-progress" name T ->
  sat (flush env sid name T start docsBatch importedCount) (along I).
Proof.
  intros HW Hfit. destruct docsBatch as [|d rest]; simpl; [by apply along_ret|].
  apply along_bind; [by apply along_store | intros _].
  apply along_bind; [|intros _; by apply along_ret].
  apply along_progress; [listed | done].
Qed.

Lemma along_backup_collection fuel outDir BATCH collIndex c :
  S (CountDocuments (coll_name c)) -> cursor_ok (coll_name c) -> streams_ok ->
  (forall T ev,
     ev ∈ ["backup-collection-start"; "backup-progress"; "backup-collection-done"] ->
     fits ev (coll_name c) T) ->
  sat (backup_collection env fuel sid outDir BATCH collIndex c) (along I).
Proof.
  intros HC HS HF Hfit. unfold backup_collection, backup_task.
  apply along_bind; [by apply along_count_or_zero | intros T].
  apply along_bind; [by apply along_fs, HF | intros _].
  apply along_bind;
    [apply along_emit, (Hfit T); [listed | constructor; listed] | intros _].
  apply along_bind; [by apply along_now | intros start].
  apply along_bind;
    [apply along_backup_loop; [done | done | apply Hfit; listed] | intros _].
  apply along_bind; [by apply along_fs, HF | intros _].
  apply along_bind;
    [apply along_emit, (Hfit T); [listed | constructor; listed] | intros _].
  by apply along_ret.
Qed.

Lemma along_transfer_collection fuel BATCH migrated c :
  S (CountDocuments (coll_name c)) -> cursor_ok (coll_name c) ->
  S (DeleteMany (coll_name c)) -> insert_ok (coll_name c) ->
  (forall T ev,
     ev ∈ ["transfer-collection-start"; "transfer-progress";
           "transfer-collection-done"] ->
     fits ev (coll_name c) T) ->
  sat (transfer_collection env fuel sid BATCH migrated c) (along I).
Proof.
  intros HC HS HD HW Hfit. unfold transfer_collection, transfer_task.
  apply along_bind; [by apply along_count_or_zero | intros T].
  apply along_bind; [by apply along_store | intros _].
  apply along_bind;
    [apply along_emit, (Hfit T); [listed | constructor; listed] | intros _].
  apply along_bind; [by apply along_now | intros start].
  apply along_bind;
    [apply along_transfer_loop; [done | done | apply Hfit; listed] | intros _].
  apply along_bind;
    [apply along_emit, (Hfit T); [listed | constructor; listed] | intros _].
  by apply along_ret.
Qed.

Lemma along_upload_file extractDir BATCH imported f :
  let name := Js.strip_ext (file_name f) in
  S (DeleteMany name) -> insert_ok name -> streams_ok ->
  (forall T ev,
     ev ∈ ["upload-collection-start"; "upload-progress"; "upload-collection-done"] ->
     fits ev name T) ->
  sat (upload_file env sid extractDir BATCH imported f) (along I).
Proof.
  intros name HD HW HF Hfit. unfold upload_file. fold name.
  apply along_bind; [by apply along_fs, HF | intros _].
  apply along_bind; [by apply along_store | intros _].
  apply along_bind; [by apply along_fs, HF | intros _].
  apply along_bind;
    [apply along_emit, (Hfit (file_total f)); [listed | constructor; listed]
    | intros _].
  apply along_bind; [by apply along_now | intros start].
  apply along_bind;
    [apply along_chunks_loop; [done | apply Hfit; listed] | intros [[b d] n]].
  apply along_bind; [apply along_flush; [done | apply Hfit; listed] | intros n'].
  apply along_bind;
    [apply along_emit, (Hfit (file_total f)); [listed | constructor; listed]
    | intros _].
  by apply along_ret.
Qed.

Lemma along_for_of {A} (body : Z -> A -> M Z) counter xs :
  (forall n x, x ∈ xs -> sat (body n x) (along I)) ->
  sat (for_of body counter xs) (along I).
Proof.
  intros Hbody. revert counter.
  induction xs as [|x rest IH]; intros counter; simpl; [by apply along_ret|].
  apply along_bind; [apply Hbody; left | intros n; apply IH].
  intros n' y Hy. apply Hbody. by right.
Qed.

(** The routes. *)
Hypothesis I_respond : forall status body, I [Respond status body].
Hypothesis I_schedule : forall path, I [ScheduleCleanup path].

Lemma along_on_error ev e :
  E ev (P_error e) -> sat (on_error sid ev e) (along I).
Proof.
  intros H. unfold on_error.
  apply along_bind; [by apply along_emit | intros _; apply along_log, I_respond].
Qed.

Lemma along_scheduleCleanup path : sat (scheduleCleanup path) (along I).
Proof.
  unfold scheduleCleanup. apply along_bind; [apply along_log, I_schedule|].
  intros _ s. exists []. simpl. by rewrite app_nil_r.
Qed.

Lemma along_backup fuel req :
  socketId req = sid -> (forall op, writes op = false -> S op) -> (forall op, F op) ->
  (forall ev p, backup_event ev p -> E ev p) ->
  sat (backup env fuel req) (along I).
Proof.
  intros Hsid HS HF HE. unfold backup. rewrite Hsid.
  assert (Herr : forall e, sat (on_error sid "backup-error" e) (along I)).
  { intros e. apply along_on_error, HE. constructor. }
  destruct (_ || _); [apply along_log, I_respond|].
  apply along_bind; [by apply along_now | intros timestamp].
  apply along_bind; [by apply along_fs | intros _].
  apply along_bind.
  { apply along_try_catch.
    - apply along_bind; [by apply along_store, HS | intros _; apply along_ret].
    - intros e. apply along_bind; [apply Herr | intros _; apply along_ret]. }
  intros [|]; [|apply along_ret].
  apply along_try_finally; [|by apply along_store, HS].
  apply along_try_catch; [|intros e; apply Herr].
  unfold backup_job. rewrite Hsid.
  apply along_bind; [by apply along_store, HS | intros _].
  apply along_bind; [by apply along_store, HS | intros _].
  apply along_bind; [apply along_emit, HE; constructor | intros _].
  apply along_bind.
  { apply along_for_of. intros n c _.
    apply along_backup_collection; [by apply HS | by split; apply HS | done |].
    intros T ev Hev p Hp. apply HE. by econstructor. }
  intros _. apply along_bind; [by apply along_fs | intros _].
  apply along_bind; [apply along_emit, HE; constructor | intros _].
  apply along_log, I_respond.
Qed.

Lemma along_transfer fuel req :
  socketId req = sid -> (forall op, S op) ->
  (forall ev p, transfer_event ev p -> E ev p) ->
  sat (transfer env fuel req) (along I).
Proof.
  intros Hsid HS HE. unfold transfer. rewrite Hsid.
  assert (Herr : forall e, sat (on_error sid "transfer-error" e) (along I)).
  { intros e. apply along_on_error, HE. constructor. }
  destruct (_ || _); [apply along_log, I_respond|].
  apply along_bind.
  { apply along_try_catch.
    - apply along_bind; [by apply along_store | intros _; apply along_ret].
    - intros e. apply along_bind; [apply Herr | intros _; apply along_ret]. }
  intros [|]; [|apply along_ret].
  apply along_bind.
  { apply along_try_catch.
    - apply along_bind; [by apply along_store | intros _; apply along_ret].
    - intros e. apply along_bind; [apply Herr | intros _; apply along_ret]. }
  intros [|]; [|by apply along_store].
  apply along_try_finally.
  2: { apply along_bind; [by apply along_store | intros _; by apply along_store]. }
  apply along_try_catch; [|intros e; apply Herr].
  unfold transfer_job. rewrite Hsid.
  apply along_bind; [by apply along_store | intros _].
  apply along_bind; [by apply along_store | intros _].
  apply along_bind; [by apply along_store | intros _].
  apply along_bind; [apply along_emit, HE; constructor | intros _].
  apply along_bind.
  { apply along_for_of. intros n c _.
    apply along_transfer_collection; try done. intros T ev Hev p Hp. apply HE. by econstructor. }
  intros n. apply along_bind;
    [apply along_emit, HE; constructor | intros _].
  apply along_log, I_respond.
Qed.

Lemma along_upload_catch start e :
  E "upload-error" (P_error e) -> sat (upload_catch start sid e) (along I).
Proof.
  intros H. unfold upload_catch.
  apply along_bind; [by apply along_emit | intros _].
  apply along_bind.
  { intros s. exists []. simpl. by rewrite app_nil_r. }
  intros [|]; [|apply along_log, I_respond].
  intros s. exists []. simpl. by rewrite app_nil_r.
Qed.

Lemma along_upload_body start req filePath :
  socketId req = sid -> (forall op, reads op = false -> S op) -> (forall op, F op) ->
  (forall ev p, upload_event ev p -> E ev p) ->
  sat (upload_body env start req filePath) (along I).
Proof.
  intros Hsid HS HF HE. unfold upload_body. rewrite Hsid.
  assert (Herr : forall e, sat (upload_catch start sid e) (along I)).
  { intros e. apply along_upload_catch, HE. constructor. }
  apply along_bind; [by apply along_now | intros t].
  apply along_bind; [by apply along_fs | intros _].
  apply along_try_finally; [|by apply along_fs].
  apply along_try_catch; [|intros e; apply Herr].
  apply along_bind; [by apply along_fs | intros _].
  apply along_bind; [by apply along_store, HS | intros _].
  apply along_try_finally; [|by apply along_store, HS].
  unfold upload_job. rewrite Hsid.
  apply along_bind; [by apply along_store, HS | intros _].
  apply along_bind; [by apply along_fs | intros _].
  apply along_bind; [apply along_emit, HE; constructor | intros _].
  apply along_bind.
  { apply along_for_of. intros n f _.
    apply along_upload_file; [by apply HS | intros docs; by apply HS | done |].
    intros T ev Hev p Hp. apply HE. by econstructor. }
  intros n. apply along_bind; [apply along_scheduleCleanup | intros _].
  apply along_bind; [apply along_scheduleCleanup | intros _].
  apply along_bind;
    [apply along_emit, HE; constructor | intros _].
  apply along_log, I_respond.
Qed.

Lemma along_upload req :
  socketId req = sid -> (forall op, reads op = false -> S op) -> (forall op, F op) ->
  (forall ev p, upload_event ev p -> E ev p) ->
  sat (upload env req) (along I).
Proof.
  intros Hsid HS HF HE. unfold upload.
  destruct (file req) as [filePath|]; [|apply along_log, I_respond].
  intros s. by apply along_upload_body.
Qed.

End Along.

(** ** Who receives the events *)

Section Delivery.
Context {P : Platform} (env : Env).

Lemma delivered_nil sid : delivered sid [].
Proof. unfold delivered. by destruct (Js.truthy_str sid). Qed.

Lemma delivered_app sid t1 t2 :
  delivered sid t1 -> delivered sid t2 -> delivered sid (t1 ++ t2).
Proof.
  unfold delivered. intros H1 H2. rewrite !omap_app, H1, H2.
  destruct (Js.truthy_str sid); [by rewrite fmap_app | done].
Qed.

Lemma delivered_emit sid ev p : delivered sid (emit_calls sid ev p).
Proof. unfold delivered, emit_calls. by destruct (Js.truthy_str sid). Qed.

Lemma delivered_other sid c :
  called_of c = None -> wire_of c = None -> delivered sid [c].
Proof.
  intros H1 H2. unfold delivered. simpl. rewrite H1, H2.
  by destruct (Js.truthy_str sid).
Qed.

Lemma backup_delivered fuel req s :
  delivered (socketId req) (emitted (backup env fuel req) s).
Proof.
  eapply (sat_at_emitted s (backup env fuel req) (along (delivered (socketId req)))).
  eapply (along_backup env (delivered (socketId req)))
    with (S := fun _ => True) (F := fun _ => True) (E := fun _ _ => True)
         (sid := socketId req);
    first [ exact (delivered_nil _) | exact (delivered_app _)
          | by intros; apply delivered_emit | by intros; apply delivered_other | done ].
Qed.

Lemma transfer_delivered fuel req s :
  delivered (socketId req) (emitted (transfer env fuel req) s).
Proof.
  eapply (sat_at_emitted s (transfer env fuel req) (along (delivered (socketId req)))).
  eapply (along_transfer env (delivered (socketId req)))
    with (S := fun _ => True) (E := fun _ _ => True) (sid := socketId req);
    first [ exact (delivered_nil _) | exact (delivered_app _)
          | by intros; apply delivered_emit | by intros; apply delivered_other | done ].
Qed.

Lemma upload_delivered req s :
  delivered (socketId req) (emitted (upload env req) s).
Proof.
  eapply (sat_at_emitted s (upload env req) (along (delivered (socketId req)))).
  eapply (along_upload env (delivered (socketId req)))
    with (S := fun _ => True) (F := fun _ => True) (E := fun _ _ => True)
         (sid := socketId req);
    first [ exact (delivered_nil _) | exact (delivered_app _)
          | by intros; apply delivered_emit | by intros; apply delivered_other | done ].
Qed.

(** X2. Whatever happens in a job, what goes out on the socket server is what
    the route handed to [emitProgress], event for event and in the same
    order, and all of it goes to the room named by the [socketId] of the
    request; with no [socketId], or an empty one, nothing goes out. *)
Theorem events_reach_requester (fuel : nat) (req : Request) (s : State) :
  delivered (socketId req) (emitted (backup env fuel req) s)
  /\ delivered (socketId req) (emitted (transfer env fuel req) s)
  /\ delivered (socketId req) (emitted (upload env req) s).
Proof.
  split; [apply backup_delivered | split; [apply transfer_delivered | apply upload_delivered]].
Qed.

End Delivery.

(** ** Which side of the database a route touches *)

Section Sides.
Context {P : Platform} (env : Env).
Variable Q : StoreOp -> Prop.

Lemma store_calls_nil : store_calls Q [].
Proof. constructor. Qed.

Lemma store_calls_app t1 t2 :
  store_calls Q t1 -> store_calls Q t2 -> store_calls Q (t1 ++ t2).
Proof. unfold store_calls. intros H1 H2. rewrite omap_app. by apply Forall_app. Qed.

Lemma store_calls_store op r : Q op -> store_calls Q [Store op r].
Proof. intros H. by repeat constructor. Qed.

Lemma store_calls_other c : store_of c = None -> store_calls Q [c].
Proof. intros H. unfold store_calls. simpl. rewrite H. constructor. Qed.

Lemma store_calls_emit sid ev p : store_calls Q (emit_calls sid ev p).
Proof. unfold store_calls, emit_calls. destruct (Js.truthy_str sid); constructor. Qed.

End Sides.

Section SidesOfRoutes.
Context {P : Platform} (env : Env).

(** X3. An export reads: whatever happens, none of its driver calls deletes
    or inserts a document. *)
Theorem export_never_writes (fuel : nat) (req : Request) (s : State) :
  store_calls (fun op => writes op = false) (emitted (backup env fuel req) s).
Proof.
  eapply (sat_at_emitted s (backup env fuel req) (along (store_calls _))).
  eapply (along_backup env (store_calls (fun op => writes op = false)))
    with (S := fun op => writes op = false) (F := fun _ => True)
         (E := fun _ _ => True) (sid := socketId req);
    first [ exact (store_calls_nil _) | exact (store_calls_app _)
          | exact (store_calls_store _)
          | by intros; apply store_calls_emit | by intros; apply store_calls_other
          | done ].
Qed.

(** X4. An import writes: whatever happens, it neither lists the collections
    of the target database nor counts or reads their documents. *)
Theorem import_never_reads (req : Request) (s : State) :
  store_calls (fun op => reads op = false) (emitted (upload env req) s).
Proof.
  eapply (sat_at_emitted s (upload env req) (along (store_calls _))).
  eapply (along_upload env (store_calls (fun op => reads op = false)))
    with (S := fun op => reads op = false) (F := fun _ => True)
         (E := fun _ _ => True) (sid := socketId req);
    first [ exact (store_calls_nil _) | exact (store_calls_app _)
          | exact (store_calls_store _)
          | by intros; apply store_calls_emit | by intros; apply store_calls_other
          | done ].
Qed.

End SidesOfRoutes.

(** ** Which events a route emits *)

Section OwnEvents.
Context {P : Platform} (env : Env).
Variable Q : string -> Payload -> Prop.

Lemma all_called_nil : all_called Q [].
Proof. intros ev p H. by apply elem_of_nil in H. Qed.

Lemma all_called_app t1 t2 :
  all_called Q t1 -> all_called Q t2 -> all_called Q (t1 ++ t2).
Proof. intros H1 H2 ev p [H|H]%elem_of_app; [by apply H1 | by apply H2]. Qed.

Lemma all_called_other c : called_of c = None -> all_called Q [c].
Proof. intros H ev p Hin. apply list_elem_of_singleton in Hin. by subst c. Qed.

Lemma all_called_emit sid ev p : Q ev p -> all_called Q (emit_calls sid ev p).
Proof.
  intros H ev' p' Hin. unfold emit_calls in Hin.
  apply elem_of_cons in Hin as [[= -> ->]|Hin]; [done|].
  destruct (Js.truthy_str sid).
  - by apply list_elem_of_singleton in Hin.
  - by apply elem_of_nil in Hin.
Qed.

End OwnEvents.

Section OwnEventsOfRoutes.
Context {P : Platform} (env : Env).

Lemma backup_sends fuel req s :
  all_called backup_event (emitted (backup env fuel req) s).
Proof.
  eapply (sat_at_emitted s (backup env fuel req) (along (all_called _))).
  eapply (along_backup env (all_called backup_event))
    with (S := fun _ => True) (F := fun _ => True) (E := backup_event)
         (sid := socketId req);
    first [ exact (all_called_nil _) | exact (all_called_app _)
          | by intros; apply all_called_emit | by intros; apply all_called_other
          | done ].
Qed.

Lemma transfer_sends fuel req s :
  all_called transfer_event (emitted (transfer env fuel req) s).
Proof.
  eapply (sat_at_emitted s (transfer env fuel req) (along (all_called _))).
  eapply (along_transfer env (all_called transfer_event))
    with (S := fun _ => True) (E := transfer_event) (sid := socketId req);
    first [ exact (all_called_nil _) | exact (all_called_app _)
          | by intros; apply all_called_emit | by intros; apply all_called_other
          | done ].
Qed.

Lemma upload_sends req s :
  all_called upload_event (emitted (upload env req) s).
Proof.
  eapply (sat_at_emitted s (upload env req) (along (all_called _))).
  eapply (along_upload env (all_called upload_event))
    with (S := fun _ => True) (F := fun _ => True) (E := upload_event)
         (sid := socketId req);
    first [ exact (all_called_nil _) | exact (all_called_app _)
          | by intros; apply all_called_emit | by intros; apply all_called_other
          | done ].
Qed.

(** X5. Whatever happens, a route hands to [emitProgress] only its own six
    events, each with the payload its call site builds: the start event
    of an export alone lists the collections, the events of a collection
    carry its name, and an error event carries a message and nothing
    else. *)
Theorem routes_emit_own_events (fuel : nat) (req : Request) (s : State) :
  all_called backup_event (emitted (backup env fuel req) s)
  /\ all_called transfer_event (emitted (transfer env fuel req) s)
  /\ all_called upload_event (emitted (upload env req) s).
Proof.
  split; [apply backup_sends | split; [apply transfer_sends | apply upload_sends]].
Qed.

End OwnEventsOfRoutes.

(** ** Requests that come to an end *)

Section Lands.
Context {P : Platform} (env : Env).
Local Open Scope job_scope.

Local Abbreviation any := (fun _ => True).

Lemma lands_weaken {A} (m : M A) (R R' : A -> Prop) :
  sat m (lands R) -> (forall a, R a -> R' a) -> sat m (lands R').
Proof.
  intros H HR s. eapply sat_at_weaken; [apply H|]. intros [a|e|] t; simpl; auto.
Qed.

Lemma lands_ret {A} (R : A -> Prop) a : R a -> sat (ret a) (lands R).
Proof. intros H s. by apply sat_at_ret. Qed.

Lemma lands_bind {A B} (m : M A) (k : A -> M B) (R1 : A -> Prop) (R2 : B -> Prop) :
  sat m (lands R1) -> (forall a, R1 a -> sat (k a) (lands R2)) ->
  sat (bind m k) (lands R2).
Proof.
  intros Hm Hk s. eapply sat_at_bind; [apply Hm | done | done |].
  intros a s' t1 _ H1. eapply sat_at_weaken; [by apply Hk|]. done.
Qed.

Lemma lands_log c : sat (log c) (lands any).
Proof. intros s. by apply sat_at_log. Qed.

Lemma lands_now : sat (now env) (lands any).
Proof. intros s. by apply sat_at_now. Qed.

Lemma lands_store op : sat (store env op) (lands any).
Proof. intros s. by apply sat_at_store. Qed.

Lemma lands_emit sid ev p : sat (emitProgress sid ev p) (lands any).
Proof.
  unfold emitProgress. eapply lands_bind; [apply lands_log | intros _ _].
  destruct (Js.truthy_str sid); [apply lands_log | by apply lands_ret].
Qed.

Lemma lands_try_catch {A} (body : M A) (handler : string -> M A) (R : A -> Prop) :
  sat body (lands R) -> (forall e, sat (handler e) (lands R)) ->
  sat (try_catch body handler) (lands R).
Proof.
  intros Hb Hh s. destruct (Hb s) as (t1 & Ht1 & H1).
  unfold sat_at, try_catch. destruct (body s) as [a s'|e s'|s'] eqn:Hbs; simpl in *.
  - by exists t1.
  - destruct (Hh e s') as (t2 & Ht2 & H2). exists (t1 ++ t2)%list. split; [|done].
    by rewrite Ht2, Ht1, app_assoc.
  - done.
Qed.

Lemma lands_try_finally {A} (body : M A) (fin : M unit) (R : A -> Prop) :
  sat body (lands R) -> sat fin (lands any) -> sat (try_finally body fin) (lands R).
Proof.
  intros Hb Hf s. destruct (Hb s) as (t1 & Ht1 & H1).
  unfold sat_at, try_finally, bind, ret.
  destruct (body s) as [a s'|e s'|s'] eqn:Hbs; simpl in *; [| |done].
  - destruct (Hf s') as (t2 & Ht2 & H2).
    destruct (fin s') as [[] s''|e s''|s'']; simpl in *; [| |done];
      exists (t1 ++ t2)%list; (split; [by rewrite Ht2, Ht1, app_assoc | done]).
  - destruct (Hf s') as (t2 & Ht2 & H2).
    destruct (fin s') as [[] s''|e' s''|s'']; simpl in *; [| |done];
      exists (t1 ++ t2)%list; (split; [by rewrite Ht2, Ht1, app_assoc | done]).
Qed.

Lemma lands_count_or_zero c : sat (count_or_zero env c) (lands any).
Proof.
  unfold count_or_zero. apply lands_try_catch.
  - eapply lands_bind; [apply lands_store | intros _ _; by apply lands_ret].
  - intros _. by apply lands_ret.
Qed.

Lemma lands_pull name BATCH i cursor batch :
  let k := Z.to_nat (BATCH - i) in
  sat (pull env name BATCH i cursor batch)
      (lands (eq ((batch ++ take k cursor)%list, drop k cursor))).
Proof.
  revert i batch. induction cursor as [|doc rest IH]; intros i batch k; simpl.
  - destruct (Z.ltb_spec i BATCH).
    + eapply lands_bind; [apply lands_store | intros _ _].
      apply lands_ret. by rewrite take_nil, drop_nil, app_nil_r.
    + apply lands_ret. by rewrite take_nil, drop_nil, app_nil_r.
  - destruct (Z.ltb_spec i BATCH).
    + eapply lands_bind; [apply lands_store | intros _ _].
      eapply lands_bind; [apply lands_store | intros _ _].
      eapply lands_weaken; [apply IH|]. intros a <-.
      replace k with (S (Z.to_nat (BATCH - (i + 1)))) by (unfold k; lia).
      simpl. by rewrite <- app_assoc.
    + apply lands_ret. replace k with 0%nat by (unfold k; lia).
      by rewrite take_0, drop_0, app_nil_r.
Qed.

Lemma lands_write_batch outFile batch : sat (write_batch outFile batch) (lands any).
Proof.
  induction batch as [|d rest IH]; simpl; [by apply lands_ret|].
  eapply lands_bind; [apply lands_log | intros _ _; apply IH].
Qed.

Lemma lands_progress sid ev name done T start :
  sat (progress env sid ev name done T start) (lands any).
Proof.
  unfold progress. eapply lands_bind; [apply lands_now | intros t _]. apply lands_emit.
Qed.

Lemma lands_backup_loop fuel sid name outFile BATCH T start cursor docsDone :
  1 <= BATCH -> (List.length cursor < fuel)%nat ->
  sat (backup_loop env fuel sid name outFile BATCH T start cursor docsDone) (lands any).
Proof.
  intros HB. revert cursor docsDone.
  induction fuel as [|fuel IH]; intros cursor docsDone Hlen; [lia|]. simpl.
  eapply lands_bind; [apply lands_store | intros _ _].
  destruct cursor as [|d rest]; [by apply lands_ret|].
  eapply lands_bind; [apply lands_pull | intros [batch cursor'] [= <- <-]].
  eapply lands_bind; [apply lands_write_batch | intros _ _].
  eapply lands_bind; [apply lands_progress | intros _ _].
  apply IH. rewrite length_drop. simpl in *. lia.
Qed.

Lemma lands_transfer_loop fuel sid name BATCH T start cursor transferred :
  1 <= BATCH -> (List.length cursor < fuel)%nat ->
  sat (transfer_loop env fuel sid name BATCH T start cursor transferred) (lands any).
Proof.
  intros HB. revert cursor transferred.
  induction fuel as [|fuel IH]; intros cursor transferred Hlen; [lia|]. simpl.
  eapply lands_bind; [apply lands_store | intros _ _].
  destruct cursor as [|d rest]; [by apply lands_ret|].
  eapply lands_bind; [apply lands_pull | intros [batch cursor'] [= Hb Hc]].
  assert (Hshort : (List.length cursor' < fuel)%nat).
  { rewrite <- Hc, length_drop. simpl in *. lia. }
  destruct batch as [|b batch]; [by apply IH|].
  eapply lands_bind; [apply lands_store | intros _ _].
  eapply lands_bind; [apply lands_progress | intros _ _].
  by apply IH.
Qed.

Lemma lands_drain fuel sid name BATCH T start buffer docsBatch importedCount :
  (String.length buffer < fuel)%nat ->
  sat (drain env fuel sid name BATCH T start buffer docsBatch importedCount) (lands any).
Proof.
  revert buffer docsBatch importedCount.
  induction fuel as [|fuel IH]; intros buffer docsBatch importedCount Hlen; [lia|].
  simpl. destruct (Js.indexOf_nl buffer) as [idx|] eqn:Hidx; [|by apply lands_ret].
  destruct (first_line "" buffer idx Hidx) as (_ & _ & Hshort).
  assert (Hrest : (String.length (Js.drop_str (S idx) buffer) < fuel)%nat) by lia.
  destruct (String.eqb _ _); [by apply IH|].
  destruct (JSON_parse _) as [obj|]; [|by apply IH].
  destruct (_ >=? _); [|by apply IH].
  eapply lands_bind; [apply lands_store | intros _ _].
  eapply lands_bind; [apply lands_progress | intros _ _].
  by apply IH.
Qed.

Lemma lands_chunks_loop sid name BATCH T start chunks buffer docsBatch importedCount :
  sat (chunks_loop env sid name BATCH T start chunks buffer docsBatch importedCount)
      (lands any).
Proof.
  revert buffer docsBatch importedCount.
  induction chunks as [|chunk rest IH]; intros buffer docsBatch importedCount;
    cbn [chunks_loop]; [by apply lands_ret|].
  eapply lands_bind; [apply lands_drain; lia | intros [[b d] n] _]. apply IH.
Qed.

Lemma lands_flush sid name T start docsBatch importedCount :
  sat (flush env sid name T start docsBatch importedCount) (lands any).
Proof.
  destruct docsBatch as [|d rest]; simpl; [by apply lands_ret|].
  eapply lands_bind; [apply lands_store | intros _ _].
  eapply lands_bind; [apply lands_progress | intros _ _]. by apply lands_ret.
Qed.

Lemma lands_for_of {A} (body : Z -> A -> M Z) counter xs :
  (forall n x, x ∈ xs -> sat (body n x) (lands any)) ->
  sat (for_of body counter xs) (lands any).
Proof.
  intros Hbody. revert counter.
  induction xs as [|x rest IH]; intros counter; simpl; [by apply lands_ret|].
  eapply lands_bind; [apply Hbody; left | intros n _; apply IH].
  intros n' y Hy. apply Hbody. by right.
Qed.

Lemma lands_backup_collection fuel sid outDir BATCH collIndex c :
  1 <= BATCH -> (List.length (coll_docs c) < fuel)%nat ->
  sat (backup_collection env fuel sid outDir BATCH collIndex c) (lands any).
Proof.
  intros HB Hlen. unfold backup_collection, backup_task.
  eapply lands_bind; [apply lands_count_or_zero | intros T _].
  eapply lands_bind; [apply lands_log | intros _ _].
  eapply lands_bind; [apply lands_emit | intros _ _].
  eapply lands_bind; [apply lands_now | intros start _].
  eapply lands_bind; [by apply lands_backup_loop | intros _ _].
  eapply lands_bind; [apply lands_log | intros _ _].
  eapply lands_bind; [apply lands_emit | intros _ _].
  by apply lands_ret.
Qed.

Lemma lands_transfer_collection fuel sid BATCH migrated c :
  1 <= BATCH -> (List.length (coll_docs c) < fuel)%nat ->
  sat (transfer_collection env fuel sid BATCH migrated c) (lands any).
Proof.
  intros HB Hlen. unfold transfer_collection, transfer_task.
  eapply lands_bind; [apply lands_count_or_zero | intros T _].
  eapply lands_bind; [apply lands_store | intros _ _].
  eapply lands_bind; [apply lands_emit | intros _ _].
  eapply lands_bind; [apply lands_now | intros start _].
  eapply lands_bind; [by apply lands_transfer_loop | intros _ _].
  eapply lands_bind; [apply lands_emit | intros _ _].
  by apply lands_ret.
Qed.

Lemma lands_upload_file sid extractDir BATCH imported f :
  sat (upload_file env sid extractDir BATCH imported f) (lands any).
Proof.
  unfold upload_file.
  eapply lands_bind; [apply lands_log | intros _ _].
  eapply lands_bind; [apply lands_store | intros _ _].
  eapply lands_bind; [apply lands_log | intros _ _].
  eapply lands_bind; [apply lands_emit | intros _ _].
  eapply lands_bind; [apply lands_now | intros start _].
  eapply lands_bind; [apply lands_chunks_loop | intros [[b d] n] _].
  eapply lands_bind; [apply lands_flush | intros n' _].
  eapply lands_bind; [apply lands_emit | intros _ _].
  by apply lands_ret.
Qed.

Lemma lands_on_error sid ev e : sat (on_error sid ev e) (lands any).
Proof.
  unfold on_error. eapply lands_bind; [apply lands_emit | intros _ _]. apply lands_log.
Qed.

Lemma lands_scheduleCleanup path : sat (scheduleCleanup path) (lands any).
Proof.
  unfold scheduleCleanup. eapply lands_bind; [apply lands_log | intros _ _].
  intros s. exists []. simpl. by rewrite app_nil_r.
Qed.

Lemma lands_construct sid ev uri :
  sat (try_catch (store env (NewMongoClient uri);;; ret true)
                 (fun e => on_error sid ev e;;; ret false)) (lands any).
Proof.
  apply lands_try_catch.
  - eapply lands_bind; [apply lands_store | intros _ _; by apply lands_ret].
  - intros e. eapply lands_bind; [apply lands_on_error | intros _ _; by apply lands_ret].
Qed.

Lemma lands_backup fuel req :
  1 <= BATCH_SIZE (batchSize req) ->
  Forall (fun c => (List.length (coll_docs c) < fuel)%nat) (collections_of env) ->
  sat (backup env fuel req) (lands any).
Proof.
  intros HB Hfuel. unfold backup.
  destruct (_ || _); [apply lands_log|].
  eapply lands_bind; [apply lands_now | intros timestamp _].
  eapply lands_bind; [apply lands_log | intros _ _].
  eapply lands_bind; [apply lands_construct | intros [|] _]; [|by apply lands_ret].
  apply lands_try_finally; [|apply lands_store].
  apply lands_try_catch; [|intros e; apply lands_on_error].
  unfold backup_job.
  eapply lands_bind; [apply lands_store | intros _ _].
  eapply lands_bind; [apply lands_store | intros _ _].
  eapply lands_bind; [apply lands_emit | intros _ _].
  eapply lands_bind.
  { apply lands_for_of. intros n c Hc. apply lands_backup_collection; [done|].
    rewrite Forall_forall in Hfuel. by apply Hfuel. }
  intros _ _. eapply lands_bind; [apply lands_log | intros _ _].
  eapply lands_bind; [apply lands_emit | intros _ _]. apply lands_log.
Qed.

Lemma lands_transfer fuel req :
  1 <= BATCH_SIZE (batchSize req) ->
  Forall (fun c => (List.length (coll_docs c) < fuel)%nat) (collections_of env) ->
  sat (transfer env fuel req) (lands any).
Proof.
  intros HB Hfuel. unfold transfer.
  destruct (_ || _); [apply lands_log|].
  eapply lands_bind; [apply lands_construct | intros [|] _]; [|by apply lands_ret].
  eapply lands_bind; [apply lands_construct | intros [|] _]; [|apply lands_store].
  apply lands_try_finally.
  2: { eapply lands_bind; [apply lands_store | intros _ _; apply lands_store]. }
  apply lands_try_catch; [|intros e; apply lands_on_error].
  unfold transfer_job.
  eapply lands_bind; [apply lands_store | intros _ _].
  eapply lands_bind; [apply lands_store | intros _ _].
  eapply lands_bind; [apply lands_store | intros _ _].
  eapply lands_bind; [apply lands_emit | intros _ _].
  eapply lands_bind.
  { apply lands_for_of. intros n c Hc. apply lands_transfer_collection; [done|].
    rewrite Forall_forall in Hfuel. by apply Hfuel. }
  intros n _. eapply lands_bind; [apply lands_emit | intros _ _]. apply lands_log.
Qed.

Lemma lands_upload_catch start sid e : sat (upload_catch start sid e) (lands any).
Proof.
  intros s. destruct (upload_catch_run start sid e s) as (s' & Hrun & _ & _ & Htr).
  unfold sat_at. rewrite Hrun.
  destruct (existsb _ _); simpl; by (eexists; split; [exact Htr|]).
Qed.

Lemma lands_upload_inner req filePath extractDir :
  sat (fs (Extract filePath extractDir);;;
       store env (NewMongoClient (uri req));;;
       try_finally (upload_job env req filePath extractDir)
                   (store env (Close (uri req))))
      (lands any).
Proof.
  eapply lands_bind; [apply lands_log | intros _ _].
  eapply lands_bind; [apply lands_store | intros _ _].
  apply lands_try_finally; [|apply lands_store].
  unfold upload_job.
  eapply lands_bind; [apply lands_store | intros _ _].
  eapply lands_bind; [apply lands_log | intros _ _].
  eapply lands_bind; [apply lands_emit | intros _ _].
  eapply lands_bind.
  { apply lands_for_of. intros n f _. apply lands_upload_file. }
  intros n _. eapply lands_bind; [apply lands_scheduleCleanup | intros _ _].
  eapply lands_bind; [apply lands_scheduleCleanup | intros _ _].
  eapply lands_bind; [apply lands_emit | intros _ _]. apply lands_log.
Qed.

Lemma lands_upload_body start req filePath :
  sat (upload_body env start req filePath) (lands any).
Proof.
  unfold upload_body.
  eapply lands_bind; [apply lands_now | intros t _].
  eapply lands_bind; [apply lands_log | intros _ _].
  apply lands_try_finally; [|apply lands_log].
  apply lands_try_catch; [apply lands_upload_inner | intros e; apply lands_upload_catch].
Qed.

Lemma lands_upload req : sat (upload env req) (lands any).
Proof.
  unfold upload. destruct (file req) as [filePath|]; [|apply lands_log].
  intros s. apply lands_upload_body.
Qed.

Lemma lands_res {A} (m : M A) (R : A -> Prop) s :
  sat m (lands R) -> res_of (m s) <> OutOfFuel.
Proof.
  intros H. destruct (H s) as (t & _ & Hl). intros Hr. by rewrite Hr in Hl.
Qed.

(** X6. With a batch size of at least one and a loop budget above the size
    of every collection, an export and a copy come to an end, whatever
    the driver does; an import comes to an end in any case. *)
Theorem requests_end (fuel : nat) (req : Request) (s : State) :
  (1 <= BATCH_SIZE (batchSize req) ->
   Forall (fun c => (List.length (coll_docs c) < fuel)%nat) (collections_of env) ->
   res_of (backup env fuel req s) <> OutOfFuel
   /\ res_of (transfer env fuel req s) <> OutOfFuel)
  /\ res_of (upload env req s) <> OutOfFuel.
Proof.
  split.
  - intros HB Hfuel. split.
    + eapply lands_res. by apply lands_backup.
    + eapply lands_res. by apply lands_transfer.
  - eapply lands_res. apply lands_upload.
Qed.

End Lands.

(** ** The ways a request can go *)


Section Mute.
Context {P : Platform} (env : Env).
Local Open Scope job_scope.

Lemma skeleton_app t1 t2 : skeleton (t1 ++ t2) = (skeleton t1 ++ skeleton t2)%list.
Proof. apply omap_app. Qed.

Lemma sent_skeleton t :
  existsb is_response t
  = existsb (fun m => match m with Responded _ _ => true | _ => false end) (skeleton t).
Proof.
  induction t as [|c t IH]; [done|]. unfold skeleton in *. simpl. rewrite IH.
  destruct c as [[] [?|]|[]|ev p| | |]; simpl; try done.
  by destruct (is_done_name ev || is_error_name ev).
Qed.

Lemma responses_skeleton t :
  omap response_of t
  = omap (fun m => match m with
                   | Responded status body => Some (status, body)
                   | _ => None
                   end) (skeleton t).
Proof.
  induction t as [|c t IH]; [done|]. unfold skeleton in *. simpl in *.
  destruct c as [[] [?|]|[]|ev p| | |]; simpl; try exact IH; try (f_equal; exact IH).
  destruct (is_done_name ev || is_error_name ev); exact IH.
Qed.

Lemma mute_app t1 t2 : mute t1 -> mute t2 -> mute (t1 ++ t2)%list.
Proof. unfold mute. intros H1 H2. by rewrite skeleton_app, H1, H2. Qed.

Lemma mute_store op r : plain_op op -> mute [Store op r].
Proof. intros H. unfold mute, skeleton. cbn [omap list_omap]. by rewrite H. Qed.

Lemma mute_fs op : plain_fs op -> mute [Fs op].
Proof. intros H. unfold mute, skeleton. cbn [omap list_omap]. by rewrite H. Qed.

Lemma skeleton_emit sid ev p :
  skeleton (emit_calls sid ev p)
  = if is_done_name ev || is_error_name ev then [Final ev p] else [].
Proof.
  unfold skeleton, emit_calls.
  destruct (Js.truthy_str sid); cbn [omap list_omap mark_of];
    by destruct (is_done_name ev || is_error_name ev).
Qed.

Lemma mute_emit sid ev p : plain_ev ev p -> mute (emit_calls sid ev p).
Proof. unfold mute, plain_ev. intros H. by rewrite skeleton_emit, H. Qed.

Lemma plain_task name T ev p : task_event name T ev p -> plain_ev ev p.
Proof.
  unfold plain_ev. intros [ev' c Hev|ev' d sp Hev|ev' c Hev];
    repeat (apply elem_of_cons in Hev as [->|Hev]); try done;
    by apply elem_of_nil in Hev.
Qed.

Lemma mute_backup_collection fuel sid outDir BATCH idx c :
  sat (backup_collection env fuel sid outDir BATCH idx c) (along mute).
Proof.
  apply (along_backup_collection env mute eq_refl mute_app plain_op mute_store
           plain_fs mute_fs sid plain_ev (mute_emit sid)); try done.
  - by intros [].
  - intros T ev _ p. apply plain_task.
Qed.

Lemma mute_transfer_collection fuel sid BATCH n c :
  sat (transfer_collection env fuel sid BATCH n c) (along mute).
Proof.
  apply (along_transfer_collection env mute eq_refl mute_app plain_op mute_store
           sid plain_ev (mute_emit sid)); try done.
  intros T ev _ p. apply plain_task.
Qed.

Lemma mute_upload_file sid extractDir BATCH n f :
  sat (upload_file env sid extractDir BATCH n f) (along mute).
Proof.
  apply (along_upload_file env mute eq_refl mute_app plain_op mute_store
           plain_fs mute_fs sid plain_ev (mute_emit sid)); try done.
  - by intros [].
  - intros T ev _ p. apply plain_task.
Qed.

Lemma mute_for_of {A} (body : Z -> A -> M Z) counter xs :
  (forall n x, sat (body n x) (along mute)) -> sat (for_of body counter xs) (along mute).
Proof. intros H. apply (along_for_of mute eq_refl mute_app). intros n x _. apply H. Qed.

End Mute.

Section Shapes.
Context {P : Platform} (env : Env).
Local Open Scope job_scope.

Lemma sat_at_and {A} s (m : M A) (Φ1 Φ2 : Res A -> list Call -> Prop) :
  sat_at s m Φ1 -> sat_at s m Φ2 -> sat_at s m (fun r t => Φ1 r t /\ Φ2 r t).
Proof.
  intros H1 H2. apply sat_at_emitted in H1 as [Ht H1]. apply sat_at_emitted in H2 as [_ H2].
  exists (emitted m s). auto.
Qed.

Lemma skel_mute_bind {A B} s (m : M A) (k : A -> M B) (Ψ : Res B -> list Mark -> Prop) :
  sat m (along mute) -> (forall e, Ψ (Thrown e) []) -> Ψ OutOfFuel [] ->
  (forall a s', m s = Ret a s' -> sat_at s' (k a) (fun r t => Ψ r (skeleton t))) ->
  sat_at s (bind m k) (fun r t => Ψ r (skeleton t)).
Proof.
  intros Hm Hthrow Hfuel Hk.
  eapply sat_at_bind; [apply Hm | | |].
  - intros e t Ht. unfold along, mute in Ht. by rewrite Ht.
  - intros t Ht. unfold along, mute in Ht. by rewrite Ht.
  - intros a s' t1 Hms Ht. eapply sat_at_weaken; [by apply Hk|].
    intros r t2 H. unfold along, mute in Ht. by rewrite skeleton_app, Ht.
Qed.

Lemma run_mute_store op : plain_op op -> sat (store env op) (along mute).
Proof. apply (along_store env mute plain_op mute_store). Qed.

Lemma run_mute_fs op : plain_fs op -> sat (fs op) (along mute).
Proof. apply (along_fs mute plain_fs mute_fs). Qed.

Lemma run_mute_now : sat (now env) (along mute).
Proof. apply (along_now env mute eq_refl). Qed.

Lemma run_mute_emit sid ev p : plain_ev ev p -> sat (emitProgress sid ev p) (along mute).
Proof. apply (along_emit mute sid plain_ev (mute_emit sid)). Qed.

Lemma run_mute_schedule path : sat (scheduleCleanup path) (along mute).
Proof.
  unfold scheduleCleanup. apply (along_bind mute mute_app).
  - by apply (along_log mute).
  - intros _ s. exists []. simpl. by rewrite app_nil_r.
Qed.

(** The last steps of a job that went well. *)
Lemma ending_run s c1 sid ev p c2 :
  sat_at s (log c1;;; emitProgress sid ev p;;; log c2)
    (fun r t => r = Returned tt /\ t = (c1 :: emit_calls sid ev p ++ [c2])%list).
Proof.
  unfold sat_at, bind, log, emitProgress, emit_calls, ret.
  destruct (Js.truthy_str sid); simpl; eexists; (split; [|split; reflexivity]);
    by rewrite <- !app_assoc.
Qed.

Lemma ending_run2 s sid ev p c2 :
  sat_at s (emitProgress sid ev p;;; log c2)
    (fun r t => r = Returned tt /\ t = (emit_calls sid ev p ++ [c2])%list).
Proof.
  unfold sat_at, bind, log, emitProgress, emit_calls, ret.
  destruct (Js.truthy_str sid); simpl; eexists; (split; [|split; reflexivity]);
    by rewrite <- !app_assoc.
Qed.

Lemma on_error_skel s sid ev e :
  is_error_name ev = true ->
  sat_at s (on_error sid ev e)
    (fun r t => r = Returned tt
                /\ skeleton t = [Final ev (P_error e); Responded 500 (B_error e)]).
Proof.
  intros Hev. eapply sat_at_weaken; [apply ending_run2|].
  intros r t [-> ->]. split; [done|].
  rewrite skeleton_app, skeleton_emit, Hev, orb_true_r. done.
Qed.

Lemma close_skel s uri :
  sat_at s (store env (Close uri))
    (fun r t => exists rejected, r = after_close rejected /\ skeleton t = [Closed uri rejected]).
Proof.
  apply sat_at_store.
  - intros _. by exists None.
  - intros e _. by exists (Some e).
Qed.

(** [new MongoClient(uri)] in a [try] whose [catch] reports the error. *)
Lemma construct_skel s sid ev uri :
  is_error_name ev = true ->
  sat_at s (try_catch (store env (NewMongoClient uri);;; ret true)
                      (fun e => on_error sid ev e;;; ret false))
    (fun r t => (r = Returned true /\ skeleton t = [Opened uri])
                \/ (exists e, r = Returned false
                              /\ skeleton t = [Final ev (P_error e); Responded 500 (B_error e)])).
Proof.
  intros Hev.
  eapply (sat_at_try_catch s _ _
            (fun r t => match r with
                        | Returned a => a = true /\ t = [Store (NewMongoClient uri) None]
                        | Thrown e => t = [Store (NewMongoClient uri) (Some e)]
                        | OutOfFuel => False
                        end)).
  - eapply sat_at_bind; [apply sat_at_store| | |].
    + intros _. exact (eq_refl : (fun r t => match r with
                                   | Returned _ => t = [Store (NewMongoClient uri) None]
                                   | Thrown e => t = [Store (NewMongoClient uri) (Some e)]
                                   | OutOfFuel => False end) (Returned tt) _).
    + intros e _. reflexivity.
    + done.
    + done.
    + intros [] s' t1 _ ->. apply sat_at_ret. by rewrite app_nil_r.
  - intros a t [-> ->]. by left.
  - done.
  - intros e s' t1 _ ->.
    eapply sat_at_bind; [by apply on_error_skel | | |].
    + by intros ? ? [? _].
    + by intros ? [? _].
    + intros [] s'' t2 _ [_ H2]. apply sat_at_ret. right. exists e. split; [done|].
      by rewrite app_nil_r, skeleton_app, H2.
Qed.

(** A job in a [try] whose [catch] reports the error. *)
Lemma caught_skel s sid ev (job : M unit) (done_marks : list Mark) :
  is_error_name ev = true ->
  sat_at s job (fun r t => skeleton t = match r with
                                        | Returned _ => done_marks
                                        | _ => []
                                        end) ->
  sat_at s (try_catch job (on_error sid ev))
    (fun r t => match r with
                | Returned _ =>
                    skeleton t = done_marks
                    \/ exists e, skeleton t = [Final ev (P_error e); Responded 500 (B_error e)]
                | Thrown _ => False
                | OutOfFuel => skeleton t = []
                end).
Proof.
  intros Hev Hjob. eapply sat_at_try_catch; [exact Hjob | | |].
  - intros a t H. by left.
  - done.
  - intros e s' t1 _ H1. eapply sat_at_weaken; [by apply on_error_skel|].
    intros r t2 [-> H2]. right. exists e. by rewrite skeleton_app, H1, H2.
Qed.

End Shapes.

Section ExportOutcomes.
Context {P : Platform} (env : Env).
Local Open Scope job_scope.

Lemma backup_job_skel fuel req ts s :
  sat_at s (backup_job env fuel req ts (out_dir req ts))
    (fun r t => skeleton t
                = match r with
                  | Returned _ =>
                      [Archived (out_dir req ts) (zip_path req ts);
                       Final "backup-done" (P_done_zip (zip_link req ts));
                       Responded 200 (B_ok_zip (zip_link req ts))]
                  | _ => []
                  end).
Proof.
  set (Ψ := fun (r : Res unit) (l : list Mark) =>
              l = match r with
                  | Returned _ =>
                      [Archived (out_dir req ts) (zip_path req ts);
                       Final "backup-done" (P_done_zip (zip_link req ts));
                       Responded 200 (B_ok_zip (zip_link req ts))]
                  | _ => []
                  end).
  change (sat_at s (backup_job env fuel req ts (out_dir req ts))
            (fun r t => Ψ r (skeleton t))).
  unfold backup_job.
  apply skel_mute_bind; [by apply run_mute_store | done | done | intros _ s1 _].
  apply skel_mute_bind; [by apply run_mute_store | done | done | intros _ s2 _].
  apply skel_mute_bind; [by apply run_mute_emit | done | done | intros _ s3 _].
  apply skel_mute_bind; [|done | done | intros _ s4 _].
  { apply mute_for_of. intros n c. apply mute_backup_collection. }
  eapply sat_at_weaken; [apply ending_run|].
  intros r t [-> ->]. unfold Ψ.
  change (skeleton ([Fs (Archive (out_dir req ts) (zip_path req ts))]
                      ++ emit_calls (socketId req) "backup-done"
                           (P_done_zip (zip_link req ts))
                      ++ [Respond 200 (B_ok_zip (zip_link req ts))])
          = [Archived (out_dir req ts) (zip_path req ts);
             Final "backup-done" (P_done_zip (zip_link req ts));
             Responded 200 (B_ok_zip (zip_link req ts))]).
  by rewrite !skeleton_app, skeleton_emit.
Qed.

Lemma now_run s :
  sat_at s (now env) (fun r t => r = Returned (Date_now env (ticks s)) /\ t = []).
Proof. by apply sat_at_now. Qed.

Lemma log_bind {B} s c (k : unit -> M B) (Φ : Res B -> list Call -> Prop) :
  (forall s', sat_at s' (k tt) (fun r t => Φ r (c :: t))) ->
  sat_at s (bind (log c) k) Φ.
Proof.
  intros Hk. eapply sat_at_bind.
  - apply sat_at_log. exact (conj eq_refl eq_refl : (fun r t => r = Returned tt /\ t = [c]) _ _).
  - by intros ? ? [? _].
  - by intros ? [? _].
  - intros [] s' t1 _ [_ ->]. apply Hk.
Qed.

Lemma backup_skel fuel req s :
  sat_at s (backup env fuel req)
    (fun r t => export_outcome req (Date_now env (ticks s)) r (skeleton t)).
Proof.
  set (ts := Date_now env (ticks s)).
  unfold backup.
  destruct (negb (Js.truthy_str (uri req)) || negb (Js.truthy_str (dbName req))) eqn:Hvalid.
  { apply sat_at_log. apply eo_invalid.
    destruct (Js.truthy_str (uri req)), (Js.truthy_str (dbName req)); done. }
  eapply sat_at_bind;
    [apply now_run | by intros ? ? [? _] | by intros ? [? _] | intros ? s1 ? _ [[= ->] ->]].
  fold ts. cbn [app]. apply log_bind. intros s2.
  eapply sat_at_bind; [by apply construct_skel | | |].
  { by intros e t [[? _]|(? & ? & _)]. }
  { by intros t [[? _]|(? & ? & _)]. }
  intros client s3 t1 _ [[[= ->] H1]|(e & [= ->] & H1)].
  2: { apply sat_at_ret. rewrite app_nil_r. cbn [skeleton omap list_omap mark_of].
       fold (skeleton t1). rewrite H1. apply eo_no_client. }
  eapply sat_at_try_finally.
  - apply caught_skel; [done|]. apply backup_job_skel.
  - intros t H. cbn [skeleton omap list_omap mark_of]. fold (skeleton (t1 ++ t)).
    rewrite skeleton_app, H1, H. apply eo_hang.
  - intros [] s4 t2 _ H2. eapply sat_at_weaken; [apply close_skel|].
    intros r t3 (rejected & -> & H3).
    assert (Hsk : forall d, skeleton (Fs (EnsureDir d) :: t1 ++ t2 ++ t3)
                            = (skeleton t1 ++ skeleton t2 ++ skeleton t3)%list).
    { intros d. by rewrite <- !skeleton_app. }
    destruct H2 as [H2|(e & H2)]; destruct rejected as [e'|]; cbn [after_close];
      rewrite Hsk, H1, H2, H3;
      first [ apply (eo_done req ts (Some e')) | apply (eo_done req ts None)
            | apply (eo_error req ts e (Some e')) | apply (eo_error req ts e None) ].
  - by intros e s4 t2 _ H2.
Qed.


Lemma mark_in_trace m t : m ∈ skeleton t -> exists c, c ∈ t /\ mark_of c = Some m.
Proof. unfold skeleton. rewrite list_elem_of_omap. intros (c & ? & ?). by exists c. Qed.

Lemma zip_link_name req ts :
  has_slash (default "" (dbName req)) = false ->
  let name := default "" (dbName req) +:+ "-" +:+ pretty ts +:+ ".zip" in
  zip_link req ts = "/download/" +:+ name /\ download name = zip_path req ts.
Proof.
  intros Hdb name. unfold zip_link, zip_path, download. fold name.
  rewrite basename_path_join; [done|].
  unfold name. by rewrite !has_slash_append, Hdb, pretty_Z_no_slash.
Qed.

(** X8. The link that a finished export reports names the archive that the
    export wrote: when the database name holds no path separator, the
    text after [/download/], taken as the [name] of the download route,
    is resolved to the very path the archiver was given. *)
Theorem export_link_resolves (fuel : nat) (req : Request) (s : State) (zip : string) :
  has_slash (default "" (dbName req)) = false ->
  (200, B_ok_zip zip) ∈ omap response_of (emitted (backup env fuel req) s) ->
  exists name dir,
    zip = "/download/" +:+ name
    /\ Fs (Archive dir (download name)) ∈ emitted (backup env fuel req) s.
Proof.
  intros Hdb Hin.
  pose proof (sat_at_emitted s (backup env fuel req) _ (backup_skel fuel req s)) as [_ Hshape].
  set (t := emitted (backup env fuel req) s) in *.
  assert (Hresp : Responded 200 (B_ok_zip zip) ∈ skeleton t).
  { apply list_elem_of_omap in Hin as (c & Hc & Hr). apply list_elem_of_omap.
    exists c. split; [done|]. by destruct c; simplify_eq/=. }
  destruct (zip_link_name req (Date_now env (ticks s)) Hdb) as [Hlink Hdown].
  inversion Hshape as [Hv Hr Hsk|e Hr Hsk|rej Hr Hsk|e rej Hr Hsk|Hr Hsk];
    rewrite <- Hsk in Hresp;
    repeat (apply elem_of_cons in Hresp as [Hresp|Hresp]); try done;
    try (by apply elem_of_nil in Hresp).
  injection Hresp as ->.
  assert (Harch : Archived (out_dir req (Date_now env (ticks s)))
                    (zip_path req (Date_now env (ticks s))) ∈ skeleton t).
  { rewrite <- Hsk. by repeat constructor. }
  apply mark_in_trace in Harch as (c & Hc & Hm).
  eexists _, _. split; [exact Hlink|]. rewrite Hdown.
  destruct c as [op r| [] | | | |]; simplify_eq/=; try done.
  - by destruct op, r.
  - by destruct (is_done_name _ || is_error_name _).
Qed.

End ExportOutcomes.

Section CopyOutcomes.
Context {P : Platform} (env : Env).
Local Open Scope job_scope.

Lemma sat_at_exists {A X} s (m : M A) (Φ : X -> Res A -> list Call -> Prop) :
  sat_at s m (fun r t => exists x, Φ x r t) -> exists x, sat_at s m (Φ x).
Proof.
  intros H. apply sat_at_emitted in H as [Ht [x H]]. exists x, (emitted m s). auto.
Qed.

Lemma transfer_job_skel fuel req s :
  sat_at s (transfer_job env fuel req)
    (fun r t => exists n,
       skeleton t
       = match r with
         | Returned _ =>
             [Final "transfer-done" (P_done_count n); Responded 200 (B_ok_count n)]
         | _ => []
         end).
Proof.
  set (Ψ := fun (r : Res unit) (l : list Mark) =>
              exists n,
                l = match r with
                    | Returned _ =>
                        [Final "transfer-done" (P_done_count n);
                         Responded 200 (B_ok_count n)]
                    | _ => []
                    end).
  change (sat_at s (transfer_job env fuel req) (fun r t => Ψ r (skeleton t))).
  assert (Hno : forall e, Ψ (Thrown e) []) by (by exists 0).
  assert (Hfuel : Ψ OutOfFuel []) by (by exists 0).
  unfold transfer_job.
  apply skel_mute_bind; [by apply run_mute_store | done | done | intros _ s1 _].
  apply skel_mute_bind; [by apply run_mute_store | done | done | intros _ s2 _].
  apply skel_mute_bind; [by apply run_mute_store | done | done | intros _ s3 _].
  apply skel_mute_bind; [by apply run_mute_emit | done | done | intros _ s4 _].
  apply skel_mute_bind; [|done | done | intros n s5 _].
  { apply mute_for_of. intros k c. apply mute_transfer_collection. }
  eapply sat_at_weaken; [apply ending_run2|].
  intros r t [-> ->]. exists n. by rewrite skeleton_app, skeleton_emit.
Qed.

Lemma close_both_skel s src dst :
  sat_at s (store env (Close src);;; store env (Close dst))
    (fun r t => exists r1 r2,
       r = after_both r1 r2 /\ skeleton t = close_both src dst r1 r2).
Proof.
  eapply sat_at_bind; [apply close_skel | | |].
  - intros e t (rejected & Hr & Ht). destruct rejected as [e'|]; [|done].
    injection Hr as ->. by exists (Some e'), None.
  - by intros t ([?|] & ? & _).
  - intros [] s' t1 _ (rejected & Hr & H1). destruct rejected as [e'|]; [done|].
    eapply sat_at_weaken; [apply close_skel|].
    intros r t2 (r2 & -> & H2). exists None, r2. split; [done|].
    by rewrite skeleton_app, H1, H2.
Qed.

Lemma transfer_skel fuel req s :
  sat_at s (transfer env fuel req) (fun r t => copy_outcome req r (skeleton t)).
Proof.
  unfold transfer.
  destruct (negb (Js.truthy_str (srcUri req)) || negb (Js.truthy_str (srcDb req))
            || negb (Js.truthy_str (dstUri req)) || negb (Js.truthy_str (dstDb req)))
    eqn:Hvalid.
  { apply sat_at_log. apply co_invalid.
    destruct (Js.truthy_str (srcUri req)), (Js.truthy_str (srcDb req)),
      (Js.truthy_str (dstUri req)), (Js.truthy_str (dstDb req)); done. }
  eapply sat_at_bind; [by apply construct_skel | | |].
  { by intros e t [[? _]|(? & ? & _)]. }
  { by intros t [[? _]|(? & ? & _)]. }
  intros client s1 t1 _ [[[= ->] H1]|(e & [= ->] & H1)].
  2: { apply sat_at_ret. rewrite app_nil_r, H1. apply co_no_source. }
  eapply sat_at_bind; [by apply construct_skel | | |].
  { by intros e t [[? _]|(? & ? & _)]. }
  { by intros t [[? _]|(? & ? & _)]. }
  intros client s2 t2 _ [[[= ->] H2]|(e & [= ->] & H2)].
  2: { eapply sat_at_weaken; [apply close_skel|].
       intros r t3 (rejected & -> & H3).
       rewrite !skeleton_app, H1, H2, H3. apply co_no_target. }
  destruct (sat_at_exists _ _ _ (transfer_job_skel fuel req s2)) as [n Hjob].
  eapply sat_at_try_finally.
  - apply caught_skel; [done|]. exact Hjob.
  - intros t H. rewrite !skeleton_app, H1, H2, H. apply co_hang.
  - intros [] s3 t3 _ H3. eapply sat_at_weaken; [apply close_both_skel|].
    intros r t4 (r1 & r2 & -> & H4).
    assert (Hsk : skeleton (t1 ++ t2 ++ t3 ++ t4)
                  = (skeleton t1 ++ skeleton t2 ++ skeleton t3 ++ skeleton t4)%list).
    { by rewrite <- !skeleton_app. }
    assert (Hres : forall (X : Res unit -> Prop),
               X (after_both r1 r2) ->
               match after_both r1 r2 with
               | Returned _ => X (Returned tt)
               | Thrown e0 => X (Thrown e0)
               | OutOfFuel => X OutOfFuel
               end).
    { intros X HX. by destruct r1 as [?|], r2 as [?|]. }
    apply (Hres (fun r => copy_outcome req r (skeleton (t1 ++ t2 ++ t3 ++ t4)))).
    rewrite Hsk, H1, H2, H4.
    destruct H3 as [->|(e & ->)]; [apply (co_done req n) | apply (co_error req e)].
  - by intros e s3 t3 _ H3.
Qed.

(** X9. Every copy request goes one of six ways: it is refused; the source
    client cannot be made; the target client cannot be made; the job is
    done; the job fails; the loop budget runs out. A request that is not
    refused and whose loop ends gets one response and one final event,
    and they agree. The source client is closed first, and the target
    client is closed only if that closing did not reject. *)
Theorem copy_outcomes (fuel : nat) (req : Request) (s : State) :
  copy_outcome req (res_of (transfer env fuel req s))
    (skeleton (emitted (transfer env fuel req) s)).
Proof. apply (sat_at_emitted s (transfer env fuel req) _ (transfer_skel fuel req s)). Qed.

End CopyOutcomes.

Section ImportOutcomes.
Context {P : Platform} (env : Env).
Local Open Scope job_scope.

Lemma upload_job_skel req filePath extractDir s :
  sat_at s (upload_job env req filePath extractDir)
    (fun r t => exists n,
       skeleton t
       = match r with
         | Returned _ =>
             [Final "upload-done" (P_done_count n); Responded 200 (B_ok_count n)]
         | _ => []
         end).
Proof.
  set (Ψ := fun (r : Res unit) (l : list Mark) =>
              exists n,
                l = match r with
                    | Returned _ =>
                        [Final "upload-done" (P_done_count n);
                         Responded 200 (B_ok_count n)]
                    | _ => []
                    end).
  change (sat_at s (upload_job env req filePath extractDir)
            (fun r t => Ψ r (skeleton t))).
  assert (Hno : forall e, Ψ (Thrown e) []) by (by exists 0).
  assert (Hfuel : Ψ OutOfFuel []) by (by exists 0).
  unfold upload_job.
  apply skel_mute_bind; [by apply run_mute_store | done | done | intros _ s1 _].
  apply skel_mute_bind; [by apply run_mute_fs | done | done | intros _ s2 _].
  apply skel_mute_bind; [by apply run_mute_emit | done | done | intros _ s3 _].
  apply skel_mute_bind; [|done | done | intros n s4 _].
  { apply mute_for_of. intros k f. apply mute_upload_file. }
  apply skel_mute_bind; [by apply run_mute_schedule | done | done | intros _ s5 _].
  apply skel_mute_bind; [by apply run_mute_schedule | done | done | intros _ s6 _].
  eapply sat_at_weaken; [apply ending_run2|].
  intros r t [-> ->]. exists n. by rewrite skeleton_app, skeleton_emit.
Qed.

(** What is in the outer [try] of the import route. *)
Lemma upload_body_skel req filePath extractDir s :
  sat_at s (fs (Extract filePath extractDir);;;
            store env (NewMongoClient (uri req));;;
            try_finally (upload_job env req filePath extractDir)
                        (store env (Close (uri req))))
    (fun r t =>
       match r with
       | Returned _ =>
           exists n, skeleton t
                     = [Opened (uri req); Final "upload-done" (P_done_count n);
                        Responded 200 (B_ok_count n); Closed (uri req) None]
       | Thrown e =>
           skeleton t = []
           \/ (exists n, skeleton t
                         = [Opened (uri req); Final "upload-done" (P_done_count n);
                            Responded 200 (B_ok_count n); Closed (uri req) (Some e)])
           \/ (exists e0 rejected,
                 e = default e0 rejected
                 /\ skeleton t = [Opened (uri req); Closed (uri req) rejected])
       | OutOfFuel => True
       end).
Proof.
  apply log_bind. intros s1.
  eapply sat_at_bind.
  - apply (sat_at_store env s1 _
             (fun r t => skeleton t = match r with
                                      | Returned _ => [Opened (uri req)]
                                      | _ => []
                                      end)); [intros _; reflexivity | intros e _; reflexivity].
  - intros e t H. left. cbn [skeleton omap list_omap mark_of]. exact H.
  - done.
  - intros [] s2 t1 _ H1.
    destruct (sat_at_exists _ _ _ (upload_job_skel req filePath extractDir s2)) as [n Hjob].
    eapply sat_at_try_finally; [exact Hjob | done | |].
    + intros [] s3 t2 _ H2. eapply sat_at_weaken; [apply close_skel|].
      intros r t3 (rejected & -> & H3).
      assert (Hsk : skeleton (Fs (Extract filePath extractDir) :: t1 ++ t2 ++ t3)
                    = (skeleton t1 ++ skeleton t2 ++ skeleton t3)%list).
      { by rewrite <- !skeleton_app. }
      destruct rejected as [e'|]; cbn [after_close]; rewrite Hsk, H1, H2, H3.
      * right. left. by exists n.
      * by exists n.
    + intros e s3 t2 _ H2. eapply sat_at_weaken; [apply close_skel|].
      intros r t3 (rejected & -> & H3).
      assert (Hsk : skeleton (Fs (Extract filePath extractDir) :: t1 ++ t2 ++ t3)
                    = (skeleton t1 ++ skeleton t2 ++ skeleton t3)%list).
      { by rewrite <- !skeleton_app. }
      destruct rejected as [e'|]; cbn [after_close]; rewrite Hsk, H1, H2, H3.
      * right. right. by exists e, (Some e').
      * right. right. by exists e, None.
Qed.

Lemma upload_skel req s :
  import_outcome req (res_of (upload env req s)) (skeleton (emitted (upload env req) s)).
Proof.
  apply (sat_at_emitted s (upload env req) (fun r t => import_outcome req r (skeleton t))).
  unfold upload. destruct (file req) as [filePath|] eqn:Hfile.
  2: { apply sat_at_log. by apply io_invalid. }
  change (sat_at s (upload_body env (List.length (trace s)) req filePath)
            (fun r t => import_outcome req r (skeleton t))).
  set (start := List.length (trace s)).
  set (extractDir := path_join UPLOAD_DIR ("extract-" +:+ pretty (Date_now env (ticks s)))).
  set (s2 := {| registry := registry s; trace := (trace s ++ [Fs (EnsureDir extractDir)])%list;
                ops := ops s; ticks := S (ticks s) |}).
  set (inner := (fs (Extract filePath extractDir);;;
                 store env (NewMongoClient (uri req));;;
                 try_finally (upload_job env req filePath extractDir)
                             (store env (Close (uri req))))%job).
  assert (Hrun : upload_body env start req filePath s
                 = try_finally (try_catch inner (upload_catch start (socketId req)))
                     (fs (Remove filePath)) s2) by reflexivity.
  unfold sat_at. rewrite Hrun. clear Hrun.
  destruct (upload_body_skel req filePath extractDir s2) as (t1 & Ht1 & H1).
  fold inner in Ht1, H1. simpl in Ht1.
  assert (Hsk : forall mid,
             skeleton ([Fs (EnsureDir extractDir)] ++ t1 ++ mid ++ [Fs (Remove filePath)])
             = (skeleton t1 ++ skeleton mid ++ [Removed filePath])%list).
  { intros mid. by rewrite !skeleton_app. }
  unfold try_finally, try_catch, fs, log, bind, ret.
  destruct (inner s2) as [[] s3|e s3|s3] eqn:Hin; simpl in Ht1, H1 |- *.
  - (* the block returned: the job is done *)
    destruct H1 as (n & H1).
    exists ([Fs (EnsureDir extractDir)] ++ t1 ++ [] ++ [Fs (Remove filePath)])%list.
    split; [simpl; by rewrite Ht1, <- !app_assoc|].
    rewrite Hsk, H1. by apply io_done.
  - (* the block threw: the [catch] *)
    destruct (upload_catch_run start (socketId req) e s3) as (s4 & Hc & _ & _ & Htr).
    assert (Hdrop : drop start (trace s3) = ([Fs (EnsureDir extractDir)] ++ t1)%list).
    { rewrite Ht1, <- app_assoc. apply drop_app_length. }
    rewrite Hdrop in Hc, Htr.
    assert (Hsent : existsb is_response ([Fs (EnsureDir extractDir)] ++ t1)
                    = existsb (fun m => match m with Responded _ _ => true | _ => false end)
                        (skeleton t1)).
    { by rewrite sent_skeleton, skeleton_app. }
    rewrite Hsent in Hc, Htr. rewrite Hc.
    destruct H1 as [H1|[(n & H1)|(e0 & rejected & -> & H1)]]; rewrite H1 in Htr |- *;
      cbn [existsb orb] in Htr; simpl;
      (eexists; split; [rewrite Htr, Ht1, <- !app_assoc; reflexivity|]);
      rewrite !skeleton_app, H1, skeleton_emit; simpl.
    + by apply io_no_client.
    + by apply io_done_close_rejected.
    + by eapply io_error.
  - (* no loop of the import runs out of budget *)
    exfalso.
    pose proof (lands_res _ _ s2 (lands_upload_inner env req filePath extractDir)) as Hl.
    fold inner in Hl. by rewrite Hin in Hl.
Qed.


End ImportOutcomes.

(** ** A batch size below one *)

Section Spin.
Context {P : Platform} (env : Env).
Hypothesis Hok : forall k, store_fail env k = None.
Local Open Scope job_scope.

Lemma fruitless_nil : fruitless [].
Proof. done. Qed.

Lemma fruitless_app t1 t2 : fruitless t1 -> fruitless t2 -> fruitless (t1 ++ t2).
Proof.
  unfold fruitless, written, inserted. intros (A1 & B1 & C1) (A2 & B2 & C2).
  by rewrite !omap_app, A1, A2, B1, B2, C1, C2.
Qed.

Lemma vain_bind {A B} (m : M A) (k : A -> M B)
    (R1 : Res A -> Prop) (R2 : Res B -> Prop) :
  sat m (in_vain R1) ->
  (forall e, ~ R1 (Thrown e)) ->
  (R1 OutOfFuel -> R2 OutOfFuel) ->
  (forall a, R1 (Returned a) -> sat (k a) (in_vain R2)) ->
  sat (bind m k) (in_vain R2).
Proof.
  intros Hm Hthrow Hfuel Hk s. eapply sat_at_bind; [apply Hm | | |].
  - intros e t [H _]. by destruct (Hthrow e).
  - intros t [H Ht]. split; [by apply Hfuel | done].
  - intros a s' t1 _ [H1 Ht1]. eapply sat_at_weaken; [by apply Hk|].
    intros r t2 [H2 Ht2]. split; [done | by apply fruitless_app].
Qed.

Lemma vain_pass {A B} (m : M A) (k : A -> M B) (R2 : Res B -> Prop) :
  sat m (in_vain returns) -> (forall a, sat (k a) (in_vain R2)) ->
  sat (bind m k) (in_vain R2).
Proof.
  intros Hm Hk. eapply vain_bind; [exact Hm | | |].
  - by intros e [a ?].
  - by intros [a ?].
  - intros a _. apply Hk.
Qed.

Lemma vain_weaken {A} (m : M A) (R R' : Res A -> Prop) :
  sat m (in_vain R) -> (forall r, R r -> R' r) -> sat m (in_vain R').
Proof.
  intros H HR s. eapply sat_at_weaken; [apply H|]. intros r t [? ?]. split; auto.
Qed.

Lemma vain_ret {A} (a : A) : sat (ret a) (in_vain returns).
Proof. intros s. apply sat_at_ret. split; [by exists a | done]. Qed.

Lemma vain_log c :
  response_of c = None -> write_of c = None -> insert_of c = None ->
  sat (log c) (in_vain returns).
Proof.
  intros H1 H2 H3 s. apply sat_at_log. split; [by exists tt|].
  unfold fruitless, written, inserted. cbn [omap list_omap]. by rewrite H1, H2, H3.
Qed.

Lemma vain_now : sat (now env) (in_vain returns).
Proof. intros s. apply sat_at_now. split; [by eexists | done]. Qed.

Lemma vain_store op :
  (forall name docs, op <> InsertMany name docs) -> sat (store env op) (in_vain returns).
Proof.
  intros Hop s. apply sat_at_store.
  - intros _. split; [by exists tt|].
    unfold fruitless, written, inserted. cbn [omap list_omap response_of write_of].
    destruct op; try done. by destruct (Hop coll docs).
  - intros e He. by rewrite Hok in He.
Qed.

Lemma vain_emit sid ev p : sat (emitProgress sid ev p) (in_vain returns).
Proof.
  unfold emitProgress. apply vain_pass; [by apply vain_log | intros _].
  destruct (Js.truthy_str sid); [by apply vain_log | apply vain_ret].
Qed.

Lemma vain_progress sid ev name done T start :
  sat (progress env sid ev name done T start) (in_vain returns).
Proof. unfold progress. apply vain_pass; [apply vain_now | intros t; apply vain_emit]. Qed.

Lemma vain_count_or_zero c : sat (count_or_zero env c) (in_vain returns).
Proof.
  intros s. destruct (count_or_zero_run env c s) as (s' & Hrun & _ & Htr).
  unfold sat_at. rewrite Hrun. simpl. eexists. split; [exact Htr|].
  split; [by eexists|]. unfold fruitless, written, inserted. cbn [omap list_omap].
  by destruct (store_fail env (ops s)).
Qed.

Lemma vain_diverge {A} : sat (@diverge _ A) (in_vain hangs).
Proof. intros s. exists []. simpl. by rewrite app_nil_r. Qed.

(** With a batch size below one the pull takes nothing from the cursor,
    so the loop over a cursor that has a document goes round for ever. *)
Lemma backup_loop_spins fuel sid name outFile BATCH T start cursor docsDone :
  BATCH < 1 -> cursor <> [] ->
  sat (backup_loop env fuel sid name outFile BATCH T start cursor docsDone)
      (in_vain hangs).
Proof.
  intros HB Hc. revert docsDone.
  induction fuel as [|fuel IH]; intros docsDone; simpl; [apply vain_diverge|].
  apply vain_pass; [by apply vain_store | intros _].
  destruct cursor as [|d rest]; [done|]. cbn [pull].
  replace (0 <? BATCH) with false by (symmetry; apply Z.ltb_ge; lia).
  unfold bind at 1, ret at 1. cbn [write_batch].
  unfold bind at 1, ret at 1.
  apply vain_pass; [apply vain_progress | intros _]. apply IH.
Qed.

Lemma transfer_loop_spins fuel sid name BATCH T start cursor transferred :
  BATCH < 1 -> cursor <> [] ->
  sat (transfer_loop env fuel sid name BATCH T start cursor transferred)
      (in_vain hangs).
Proof.
  intros HB Hc. revert transferred.
  induction fuel as [|fuel IH]; intros transferred; simpl; [apply vain_diverge|].
  apply vain_pass; [by apply vain_store | intros _].
  destruct cursor as [|d rest]; [done|]. cbn [pull].
  replace (0 <? BATCH) with false by (symmetry; apply Z.ltb_ge; lia).
  unfold bind at 1, ret at 1. apply IH.
Qed.

Lemma backup_loop_idle fuel sid name outFile BATCH T start docsDone :
  sat (backup_loop env fuel sid name outFile BATCH T start [] docsDone)
      (in_vain no_throw).
Proof.
  destruct fuel as [|fuel]; simpl.
  - eapply vain_weaken; [apply vain_diverge|]. by intros r ->.
  - apply vain_pass; [by apply vain_store | intros _].
    eapply vain_weaken; [apply vain_ret|]. by intros r [a ->].
Qed.

Lemma transfer_loop_idle fuel sid name BATCH T start transferred :
  sat (transfer_loop env fuel sid name BATCH T start [] transferred)
      (in_vain no_throw).
Proof.
  destruct fuel as [|fuel]; simpl.
  - eapply vain_weaken; [apply vain_diverge|]. by intros r ->.
  - apply vain_pass; [by apply vain_store | intros _].
    eapply vain_weaken; [apply vain_ret|]. by intros r [a ->].
Qed.

Lemma vain_then {A B} (m : M A) (k : A -> M B) :
  sat m (in_vain no_throw) -> (forall a, sat (k a) (in_vain returns)) ->
  sat (bind m k) (in_vain no_throw).
Proof.
  intros Hm Hk. eapply vain_bind; [exact Hm | | |].
  - intros e H. by apply (H e).
  - done.
  - intros a _. eapply vain_weaken; [apply Hk|]. by intros r [b ->].
Qed.

Lemma vain_hang {A B} (m : M A) (k : A -> M B) :
  sat m (in_vain hangs) -> sat (bind m k) (in_vain hangs).
Proof. intros Hm. eapply vain_bind; [exact Hm | by intros e | done | by intros a]. Qed.

Lemma backup_collection_vain fuel sid outDir BATCH idx c :
  BATCH < 1 ->
  sat (backup_collection env fuel sid outDir BATCH idx c)
      (in_vain (fun r => no_throw r /\ (coll_docs c <> [] -> hangs r))).
Proof.
  intros HB. unfold backup_collection, backup_task.
  apply vain_pass; [apply vain_count_or_zero | intros T].
  apply vain_pass; [by apply vain_log | intros _].
  apply vain_pass; [apply vain_emit | intros _].
  apply vain_pass; [apply vain_now | intros start].
  destruct (coll_docs c) as [|d rest] eqn:Hdocs.
  - eapply vain_weaken.
    + apply vain_then; [apply backup_loop_idle | intros _].
      apply vain_pass; [by apply vain_log | intros _].
      apply vain_pass; [apply vain_emit | intros _]. apply vain_ret.
    + intros r Hr. by split.
  - eapply vain_weaken; [apply vain_hang, backup_loop_spins; done|].
    intros r ->. by split.
Qed.

Lemma transfer_collection_vain fuel sid BATCH n c :
  BATCH < 1 ->
  sat (transfer_collection env fuel sid BATCH n c)
      (in_vain (fun r => no_throw r /\ (coll_docs c <> [] -> hangs r))).
Proof.
  intros HB. unfold transfer_collection, transfer_task.
  apply vain_pass; [apply vain_count_or_zero | intros T].
  apply vain_pass; [by apply vain_store | intros _].
  apply vain_pass; [apply vain_emit | intros _].
  apply vain_pass; [apply vain_now | intros start].
  destruct (coll_docs c) as [|d rest] eqn:Hdocs.
  - eapply vain_weaken.
    + apply vain_then; [apply transfer_loop_idle | intros _].
      apply vain_pass; [apply vain_emit | intros _]. apply vain_ret.
    + intros r Hr. by split.
  - eapply vain_weaken; [apply vain_hang, transfer_loop_spins; done|].
    intros r ->. by split.
Qed.

Lemma for_of_hangs (body : Z -> Collection -> M Z) counter xs :
  (forall n c, sat (body n c)
                   (in_vain (fun r => no_throw r /\ (coll_docs c <> [] -> hangs r)))) ->
  Exists (fun c => coll_docs c <> []) xs ->
  sat (for_of body counter xs) (in_vain hangs).
Proof.
  intros Hbody Hex. revert counter.
  induction xs as [|x rest IH]; intros counter; [by apply Exists_nil in Hex|].
  simpl. destruct (coll_docs x) as [|d l] eqn:Hx.
  - apply Exists_cons in Hex as [Hex|Hex]; [by rewrite Hx in Hex|].
    eapply vain_bind; [apply Hbody | | |].
    + intros e [H _]. by apply (H e).
    + done.
    + intros n _. by apply IH.
  - apply vain_hang. eapply vain_weaken; [apply Hbody|].
    intros r [_ H]. apply H. by rewrite Hx.
Qed.

Lemma hang_guarded (job : M unit) (handler : string -> M unit) (fin : M unit) :
  sat job (in_vain hangs) -> sat (try_finally (try_catch job handler) fin) (in_vain hangs).
Proof.
  intros Hjob s. destruct (Hjob s) as (t & Ht & Hr & Hf).
  unfold sat_at, try_finally, try_catch.
  destruct (job s) as [a s'|e s'|s']; try done. simpl in *. by exists t.
Qed.

Lemma construct_vain sid ev uri :
  sat (try_catch (store env (NewMongoClient uri);;; ret true)
                 (fun e => on_error sid ev e;;; ret false))
      (in_vain (eq (Returned true))).
Proof.
  intros s. unfold sat_at, try_catch, bind, store, ret. rewrite Hok. simpl.
  eexists. split; [done|]. done.
Qed.

(** X11. With a batch size below one, on a store that does not reject, an
    export and a copy of a database that has a collection with a document
    never answer a complete request, whatever the loop budget: no response
    is sent, no document is written and none is inserted. *)
Theorem batch_below_one_hangs (fuel : nat) (req : Request) (s : State) :
  BATCH_SIZE (batchSize req) < 1 ->
  Exists (fun c => coll_docs c <> []) (collections_of env) ->
  (Js.truthy_str (uri req) && Js.truthy_str (dbName req) = true ->
   res_of (backup env fuel req s) = OutOfFuel
   /\ fruitless (emitted (backup env fuel req) s))
  /\ (Js.truthy_str (srcUri req) && Js.truthy_str (srcDb req)
      && Js.truthy_str (dstUri req) && Js.truthy_str (dstDb req) = true ->
      res_of (transfer env fuel req s) = OutOfFuel
      /\ fruitless (emitted (transfer env fuel req) s)).
Proof.
  intros HB Hex. split.
  - intros Hvalid.
    apply (sat_at_emitted s (backup env fuel req) (in_vain hangs)).
    unfold backup.
    replace (negb (Js.truthy_str (uri req)) || negb (Js.truthy_str (dbName req)))
      with false by (by destruct (Js.truthy_str (uri req)), (Js.truthy_str (dbName req))).
    apply vain_pass; [apply vain_now | intros ts].
    apply vain_pass; [by apply vain_log | intros _].
    eapply vain_bind; [apply construct_vain | done | done | intros client [= <-]].
    apply hang_guarded. unfold backup_job.
    apply vain_pass; [by apply vain_store | intros _].
    apply vain_pass; [by apply vain_store | intros _].
    apply vain_pass; [apply vain_emit | intros _].
    apply vain_hang, for_of_hangs; [|done].
    intros n c. by apply backup_collection_vain.
  - intros Hvalid.
    apply (sat_at_emitted s (transfer env fuel req) (in_vain hangs)).
    unfold transfer.
    replace (negb (Js.truthy_str (srcUri req)) || negb (Js.truthy_str (srcDb req))
             || negb (Js.truthy_str (dstUri req)) || negb (Js.truthy_str (dstDb req)))
      with false
      by (by destruct (Js.truthy_str (srcUri req)), (Js.truthy_str (srcDb req)),
               (Js.truthy_str (dstUri req)), (Js.truthy_str (dstDb req))).
    eapply vain_bind; [apply construct_vain | done | done | intros client [= <-]].
    eapply vain_bind; [apply construct_vain | done | done | intros client [= <-]].
    apply hang_guarded. unfold transfer_job.
    apply vain_pass; [by apply vain_store | intros _].
    apply vain_pass; [by apply vain_store | intros _].
    apply vain_pass; [by apply vain_store | intros _].
    apply vain_pass; [apply vain_emit | intros _].
    apply vain_hang, for_of_hangs; [|done].
    intros n c. by apply transfer_collection_vain.
Qed.

End Spin.

(** ** The target collection is emptied first *)

Section EmptiedFirst.
Context {P : Platform} (env : Env).
Local Open Scope job_scope.

Lemma store_bind {B} s op (k : unit -> M B) (Φ : Res B -> list Call -> Prop) :
  (forall e, store_fail env (ops s) = Some e -> Φ (Thrown e) [Store op (Some e)]) ->
  (store_fail env (ops s) = None ->
   forall s', sat_at s' (k tt) (fun r t => Φ r (Store op None :: t))) ->
  sat_at s (bind (store env op) k) Φ.
Proof.
  intros Hrej Hk. unfold sat_at, bind, store.
  destruct (store_fail env (ops s)) as [e|] eqn:Hf; simpl.
  - exists [Store op (Some e)]. split; [done|]. by apply Hrej.
  - match goal with |- context [k tt ?s1] => destruct (Hk eq_refl s1) as (t & Ht & H) end.
    exists (Store op None :: t). split; [|done]. rewrite Ht. simpl. by rewrite <- app_assoc.
Qed.

Lemma log_bind_ops {B} s c (k : unit -> M B) (Φ : Res B -> list Call -> Prop) :
  (forall s', ops s' = ops s -> sat_at s' (k tt) (fun r t => Φ r (c :: t))) ->
  sat_at s (bind (log c) k) Φ.
Proof.
  intros Hk. unfold sat_at, bind, log.
  match goal with |- context [k tt ?s1] => destruct (Hk s1 eq_refl) as (t & Ht & H) end.
  exists (c :: t). split; [|done]. rewrite Ht. simpl. by rewrite <- app_assoc.
Qed.

Lemma count_bind {B} s c (k : option Z -> M B) (Φ : Res B -> list Call -> Prop) :
  (forall T r s', sat_at s' (k T)
                    (fun res t => Φ res (Store (CountDocuments (coll_name c)) r :: t))) ->
  sat_at s (bind (count_or_zero env c) k) Φ.
Proof.
  intros Hk. destruct (count_or_zero_run env c s) as (s' & Hrun & _ & Htr).
  destruct (Hk (counted env s c) (store_fail env (ops s)) s') as (t & Ht & H).
  unfold sat_at, bind. rewrite Hrun.
  exists (Store (CountDocuments (coll_name c)) (store_fail env (ops s)) :: t).
  split; [|done]. rewrite Ht, Htr. by rewrite <- app_assoc.
Qed.

Lemma upload_file_shape sid extractDir BATCH n f s :
  let name := Js.strip_ext (file_name f) in
  exists rejected rest,
    emitted (upload_file env sid extractDir BATCH n f) s
    = Fs (CreateReadStream (path_join extractDir (file_name f)))
        :: Store (DeleteMany name) rejected :: rest
    /\ rejected = store_fail env (ops s)
    /\ (rejected <> None -> rest = [])
    /\ store_calls (fun op => exists docs, op = InsertMany name docs) rest.
Proof.
  intros name.
  apply (sat_at_emitted s (upload_file env sid extractDir BATCH n f)
           (fun _ t => exists rejected rest,
              t = Fs (CreateReadStream (path_join extractDir (file_name f)))
                    :: Store (DeleteMany name) rejected :: rest
              /\ rejected = store_fail env (ops s)
              /\ (rejected <> None -> rest = [])
              /\ store_calls (fun op => exists docs, op = InsertMany name docs) rest)).
  unfold upload_file. fold name. apply log_bind_ops. intros s1 Hops. apply store_bind.
  { intros e He. exists (Some e), []. rewrite <- Hops. repeat split; try done. constructor. }
  intros Hnone s2.
  set (Q := fun op : StoreOp => exists docs, op = InsertMany name docs).
  eapply sat_at_weaken.
  + apply (along_bind (store_calls Q) (store_calls_app Q)).
    { apply (along_log (store_calls Q)). by apply store_calls_other. }
    intros _.
    assert (Hemit : forall ev p, sat (emitProgress sid ev p) (along (store_calls Q))).
    { intros ev p. apply (along_emit (store_calls Q) sid (fun _ _ => True)); [|done].
      intros. apply store_calls_emit. }
    apply (along_bind (store_calls Q) (store_calls_app Q)); [apply Hemit | intros _].
    apply (along_bind (store_calls Q) (store_calls_app Q));
      [apply (along_now env (store_calls Q) (store_calls_nil Q)) | intros start].
    apply (along_bind (store_calls Q) (store_calls_app Q)).
    { apply (along_chunks_loop env (store_calls Q) (store_calls_nil Q)
               (store_calls_app Q) Q (store_calls_store Q) sid (fun _ _ => True));
        try done.
      - intros. apply store_calls_emit.
      - intros docs. by exists docs. }
    intros [[b d] k].
    apply (along_bind (store_calls Q) (store_calls_app Q)).
    { apply (along_flush env (store_calls Q) (store_calls_nil Q) (store_calls_app Q)
               Q (store_calls_store Q) sid (fun _ _ => True)); try done.
      - intros. apply store_calls_emit.
      - intros docs. by exists docs. }
    intros k'.
    apply (along_bind (store_calls Q) (store_calls_app Q)); [apply Hemit | intros _].
    apply (along_ret (store_calls Q) (store_calls_nil Q)).
  + intros r t Ht. exists None, t. rewrite <- Hops. by repeat split.
Qed.

Lemma transfer_collection_shape fuel sid BATCH n c s :
  let name := coll_name c in
  exists counted rejected rest,
    emitted (transfer_collection env fuel sid BATCH n c) s
    = Store (CountDocuments name) counted :: Store (DeleteMany name) rejected :: rest
    /\ (rejected <> None -> rest = [])
    /\ store_calls (fun op => op = HasNext name \/ op = Next name
                              \/ exists docs, op = InsertMany name docs) rest.
Proof.
  intros name.
  apply (sat_at_emitted s (transfer_collection env fuel sid BATCH n c)
           (fun _ t => exists counted rejected rest,
              t = Store (CountDocuments name) counted
                    :: Store (DeleteMany name) rejected :: rest
              /\ (rejected <> None -> rest = [])
              /\ store_calls (fun op => op = HasNext name \/ op = Next name
                                        \/ exists docs, op = InsertMany name docs) rest)).
  unfold transfer_collection, transfer_task. fold name.
  apply count_bind. intros T rc s1. apply store_bind.
  { intros e _. exists rc, (Some e), []. split; [done|]. split; [done|]. constructor. }
  intros _ s2.
  set (Q := fun op : StoreOp => op = HasNext name \/ op = Next name
                                \/ exists docs, op = InsertMany name docs).
  eapply sat_at_weaken.
  + assert (Hemit : forall ev p, sat (emitProgress sid ev p) (along (store_calls Q))).
    { intros ev p. apply (along_emit (store_calls Q) sid (fun _ _ => True)); [|done].
      intros. apply store_calls_emit. }
    apply (along_bind (store_calls Q) (store_calls_app Q)); [apply Hemit | intros _].
    apply (along_bind (store_calls Q) (store_calls_app Q));
      [apply (along_now env (store_calls Q) (store_calls_nil Q)) | intros start].
    apply (along_bind (store_calls Q) (store_calls_app Q)).
    { apply (along_transfer_loop env (store_calls Q) (store_calls_nil Q)
               (store_calls_app Q) Q (store_calls_store Q) sid (fun _ _ => True));
        try done.
      - intros. apply store_calls_emit.
      - split; [by left | by right; left].
      - intros docs. right. right. by exists docs. }
    intros k.
    apply (along_bind (store_calls Q) (store_calls_app Q)); [apply Hemit | intros _].
    apply (along_ret (store_calls Q) (store_calls_nil Q)).
  + intros r t Ht. exists rc, None, t. split; [done|]. split; [done|]. exact Ht.
Qed.

(** X12. A copy and an import empty the target collection before anything
    else is done to it. The import of one file opens the read stream and
    calls [deleteMany] on the collection named after the file; the copy
    of one collection counts the source and calls [deleteMany] on the
    target of the same name. If that call is rejected nothing else
    happens; otherwise the only driver calls that follow are the reading
    of the source cursor (in a copy) and insertions into that very
    collection. *)
Theorem target_emptied_first (fuel : nat) (sid : option string) (extractDir : string)
    (BATCH n : Z) (f : File) (c : Collection) (s : State) :
  (let name := Js.strip_ext (file_name f) in
   exists rejected rest,
     emitted (upload_file env sid extractDir BATCH n f) s
     = Fs (CreateReadStream (path_join extractDir (file_name f)))
         :: Store (DeleteMany name) rejected :: rest
     /\ (rejected <> None -> rest = [])
     /\ store_calls (fun op => exists docs, op = InsertMany name docs) rest)
  /\ (let name := coll_name c in
      exists counted rejected rest,
        emitted (transfer_collection env fuel sid BATCH n c) s
        = Store (CountDocuments name) counted :: Store (DeleteMany name) rejected :: rest
        /\ (rejected <> None -> rest = [])
        /\ store_calls (fun op => op = HasNext name \/ op = Next name
                                  \/ exists docs, op = InsertMany name docs) rest).
Proof.
  split.
  - destruct (upload_file_shape sid extractDir BATCH n f s) as (r & rest & H1 & _ & H2).
    by exists r, rest.
  - apply transfer_collection_shape.
Qed.

End EmptiedFirst.

(** ** What an export writes, an import reads back *)

Section Written.
Context {P : Platform} (env : Env).
Hypothesis Hok : forall k, store_fail env k = None.
Local Open Scope job_scope.

Lemma count_or_zero_gives c : sat (count_or_zero env c) (gives (fun _ => True) []).
Proof.
  intros s. destruct (count_or_zero_run env c s) as (s' & Hrun & _ & Htr).
  unfold sat_at. rewrite Hrun. eexists. split; [exact Htr|].
  split; [by eexists|]. by destruct (store_fail env (ops s)).
Qed.

Lemma gives_as {A} (m : M A) (R : A -> Prop) x x' :
  sat m (gives R x) -> x = x' -> sat m (gives R x').
Proof. intros H <-. exact H. Qed.

Lemma backup_collection_gives fuel sid outDir BATCH idx c :
  1 <= BATCH -> (List.length (coll_docs c) < fuel)%nat ->
  sat (backup_collection env fuel sid outDir BATCH idx c)
      (gives (eq (idx + 1))
             (backup_items (batches (Z.to_nat BATCH) (coll_docs c)) 0
                ++ [I_end (idx + 1)])).
Proof.
  intros HB Hfuel. unfold backup_collection, backup_task.
  eapply gives_weaken.
  - eapply gives_bind; [apply count_or_zero_gives | intros T _].
    eapply gives_bind; [apply gives_log | intros _ _].
    eapply gives_bind; [eapply (gives_as _ _ _ []); [apply gives_emit | done] | intros _ _].
    eapply gives_bind; [apply gives_now | intros start _].
    eapply gives_bind; [by apply (backup_loop_gives env Hok) | intros _ _].
    eapply gives_bind; [apply gives_log | intros _ _].
    eapply gives_bind; [apply gives_emit | intros _ _].
    apply gives_ret_eq.
  - done.
  - unfold item_list. by cbn [abstract app].
Qed.

End Written.

Section RoundTrip.
Context {P : Platform}.

Lemma lines_of_export docs :
  Forall (fun d => has_nl (JSON_stringify d) = false) docs ->
  let content := concat_str ((fun d => JSON_stringify d +:+ "
") <$> docs) in
  terminated_lines content = JSON_stringify <$> docs /\ unterminated content = "".
Proof.
  induction 1 as [|d r Hline _ [IH1 IH2]]; [done|].
  cbn [fmap list_fmap concat_str]. unfold terminated_lines, unterminated in *.
  rewrite append_assoc.
  destruct (lines_prefix "" (JSON_stringify d)
              ("
" +:+ concat_str ((fun d => JSON_stringify d +:+ "
") <$> r)) Hline) as [-> ->].
  rewrite append_cons. cbn [lines_from tail_from Ascii.eqb Bool.eqb].
  simpl. split; [by f_equal|done].
Qed.

(** What the export of a collection writes. *)
Lemma export_writes (env : Env) fuel sid outDir BATCH idx c s :
  (forall k, store_fail env k = None) ->
  1 <= BATCH -> (List.length (coll_docs c) < fuel)%nat ->
  written (emitted (backup_collection env fuel sid outDir BATCH idx c) s)
  = (fun d => JSON_stringify d +:+ "
") <$> coll_docs c.
Proof.
  intros Hok HB Hfuel.
  destruct (gives_emitted _ _ _ s (backup_collection_gives env Hok fuel sid outDir BATCH idx c
                                     HB Hfuel)) as [_ Hitems].
  rewrite written_items, Hitems, omap_app.
  destruct (backup_items_read (batches (Z.to_nat BATCH) (coll_docs c)) 0) as [-> _].
  rewrite batches_concat by lia. simpl. by rewrite app_nil_r.
Qed.

(** X13. A file that holds what the export of a collection wrote, under the
    name the export gave it, is imported into the collection of the same
    name, document for document and in the same order, whatever the
    batch size of the import is and however the file is cut into chunks:
    the total announced is the number of documents, the target collection
    is emptied, and what is inserted is each document as the decoder
    reads its line back. Here no driver call fails, the export has a
    batch size of at least one and a loop budget above the size of the
    collection, and the text of a document holds no line feed. *)
Theorem export_then_import (env env' : Env) (fuel : nat) (sid sid' : option string)
    (outDir extractDir : string) (BATCH BATCH' idx n : Z) (c : Collection) (f : File)
    (s s' : State) :
  (forall k, store_fail env k = None) -> (forall k, store_fail env' k = None) ->
  1 <= BATCH -> (List.length (coll_docs c) < fuel)%nat ->
  Forall (fun d => has_nl (JSON_stringify d) = false) (coll_docs c) ->
  file_name f = coll_name c +:+ ".ndjson" -> count_rejects f = false ->
  concat_str (file_chunks f)
  = concat_str (written (emitted (backup_collection env fuel sid outDir BATCH idx c) s)) ->
  let imported := emitted (upload_file env' sid' extractDir BATCH' n f) s' in
  file_total f = Some (Z.of_nat (List.length (coll_docs c)))
  /\ Store (DeleteMany (coll_name c)) None ∈ imported
  /\ store_calls (fun op => writes op = true ->
                            op = DeleteMany (coll_name c)
                            \/ exists docs, op = InsertMany (coll_name c) docs) imported
  /\ concat (inserted imported) = omap (fun d => decode (JSON_stringify d)) (coll_docs c)
  /\ ((forall d, d ∈ coll_docs c -> decode (JSON_stringify d) = Some d) ->
      concat (inserted imported) = coll_docs c).
Proof.
  intros Hok Hok' HB Hfuel Hline Hname Hcount Hcontent imported.
  rewrite (export_writes env fuel sid outDir BATCH idx c s Hok HB Hfuel) in Hcontent.
  destruct (lines_of_export (coll_docs c) Hline) as [Hlines Htail].
  cbv zeta in Hlines, Htail. rewrite <- Hcontent in Hlines, Htail.
  assert (Hcoll : Js.strip_ext (file_name f) = coll_name c).
  { rewrite Hname. unfold Js.strip_ext. by rewrite endsWith_append, chop_append. }
  split; [|split; [|split; [|split]]].
  - unfold file_total. rewrite Hcount, countLinesStream_lines, Hlines. by rewrite length_fmap.
  - destruct (upload_file_shape env' sid' extractDir BATCH' n f s')
      as (r & rest & Ht & Hr & _ & _).
    fold imported in Ht. rewrite Ht, Hcoll, Hr, Hok'. by repeat constructor.
  - destruct (upload_file_shape env' sid' extractDir BATCH' n f s')
      as (r & rest & Ht & _ & _ & Hrest).
    fold imported in Ht. rewrite Ht, Hcoll in *. unfold store_calls in *.
    cbn [omap list_omap store_of]. constructor; [by left|].
    eapply Forall_impl; [exact Hrest|]. intros op (docs & ->) _. right. by exists docs.
  - destruct (upload_file_inserted env' Hok' sid' extractDir BATCH' n f s')
      as (_ & Hins & _).
    fold imported in Hins. rewrite Hins, batches_concat.
    + unfold records. rewrite Hlines. clear. induction (coll_docs c) as [|d r IH]; [done|].
      cbn [fmap list_fmap]. rewrite !omap_cons, IH. done.
    + unfold batch_len. lia.
  - intros Hback.
    destruct (upload_file_inserted env' Hok' sid' extractDir BATCH' n f s')
      as (_ & Hins & _).
    fold imported in Hins. rewrite Hins, batches_concat by (unfold batch_len; lia).
    unfold records. rewrite Hlines. clear -Hback.
    induction (coll_docs c) as [|d r IH]; [done|].
    cbn [fmap list_fmap]. rewrite omap_cons, Hback by left.
    f_equal. apply IH. intros d' Hd'. apply Hback. by right.
Qed.

End RoundTrip.

(** ** More on the cleanup registry *)

Section RegistryFacts.
Import Cleanup CleanupInv.

(** X14. In every state the registry can reach, a path is a key of the map
    exactly while a timer is armed for it or its removal is in flight,
    never both, and the handle under the key is that timer's. *)
Theorem registry_consistent (l : list Action) (p : string) :
  let r := run l empty in
  (is_Some (scheduledCleanups r !! p)
   <-> (exists t ttl, timers r !! t = Some {| timer_path := p; timer_ttl := ttl |})
       \/ (exists t, removing r !! t = Some p))
  /\ (forall t, scheduledCleanups r !! p = Some t ->
        ((exists ttl, timers r !! t = Some {| timer_path := p; timer_ttl := ttl |})
         /\ removing r !! t = None)
        \/ (timers r !! t = None /\ removing r !! t = Some p)).
Proof.
  intros r. assert (I : Inv r) by (apply Inv_run, Inv_empty). split.
  - split.
    + intros [t Ht]. destruct (inv_key _ I _ _ Ht) as [[ttl H]|H].
      * left. by exists t, ttl.
      * right. by exists t.
    + intros [(t & ttl & H)|(t & H)].
      * exists t. apply (inv_timer _ I _ _ H).
      * exists t. apply (inv_removing _ I _ _ H).
  - intros t Ht. destruct (inv_key _ I _ _ Ht) as [[ttl H]|H].
    + left. split; [by exists ttl|]. apply (inv_apart _ I). by eexists.
    + right. split; [|done]. destruct (timers r !! t) as [tm|] eqn:E; [|done].
      pose proof (inv_apart _ I t (mk_is_Some _ _ E)). congruence.
Qed.

(** X15. A path that is scheduled, whose timer fires and whose removal
    settles, leaves the map, the armed timers and the removals in flight
    as they were; the handle is used up, and a warning is logged exactly
    when the removal failed. *)
Theorem cleanup_round_trip (l : list Action) (p : string) (ttl : Z) (ok : bool) :
  let r := run l empty in
  scheduledCleanups r !! p = None ->
  let t := next_timer r in
  let r' := settle t ok (fire t (scheduleCleanup p ttl r)) in
  scheduledCleanups r' = scheduledCleanups r
  /\ timers r' = timers r
  /\ removing r' = removing r
  /\ next_timer r' = S t
  /\ fired r' = (fired r ++ [t])%list
  /\ warnings r' = (warnings r ++ if ok then [] else ["cleanup remove failed " +:+ p])%list.
Proof.
  intros r Hp t r'. assert (I : Inv r) by (apply Inv_run, Inv_empty).
  assert (Ht : timers r !! t = None).
  { destruct (timers r !! t) as [tm|] eqn:E; [|done].
    pose proof (inv_fresh _ I t (or_introl (mk_is_Some _ _ E))). unfold t in *. lia. }
  assert (Hr : removing r !! t = None).
  { destruct (removing r !! t) as [q|] eqn:E; [|done].
    pose proof (inv_fresh _ I t (or_intror (mk_is_Some _ _ E))). unfold t in *. lia. }
  unfold r', settle, fire, scheduleCleanup. rewrite Hp. simpl.
  fold t. rewrite lookup_insert_eq. simpl. rewrite lookup_insert_eq. simpl.
  rewrite !delete_insert_eq, !delete_id by done.
  repeat split; try done. destruct ok; [by rewrite app_nil_r | done].
Qed.

(** X16. A cleanup that is requested for a path while the removal of that
    path is in flight is dropped: the request changes nothing, and once
    the removal has settled the path is no key and no timer is armed for
    it. *)
Theorem cleanup_request_in_flight (l : list Action) (p : string) (t : nat)
    (ttl : Z) (ok : bool) :
  let r := run l empty in
  removing r !! t = Some p ->
  scheduleCleanup p ttl r = r
  /\ scheduledCleanups (settle t ok (scheduleCleanup p ttl r)) !! p = None
  /\ armed p (settle t ok (scheduleCleanup p ttl r)) = ∅.
Proof.
  intros r Ht. assert (I : Inv r) by (apply Inv_run, Inv_empty).
  pose proof (inv_removing _ I _ _ Ht) as Hk.
  assert (Hsame : scheduleCleanup p ttl r = r).
  { apply schedule_registered. by eexists. }
  rewrite Hsame. split; [done|]. split.
  - unfold settle. rewrite Ht. simpl. by rewrite lookup_delete_eq.
  - apply map_eq. intros u. rewrite lookup_empty. apply option_eq. intros x.
    rewrite armed_lookup. split; [|done]. unfold settle. rewrite Ht. simpl.
    intros Hu. pose proof (inv_timer _ I _ _ Hu) as Hk'. simpl in Hk'.
    assert (u = t) as -> by congruence.
    pose proof (inv_apart _ I t (mk_is_Some _ _ Hu)). congruence.
Qed.

End RegistryFacts.

(** ** Which requests schedule a cleanup *)

Section Scheduling.
Context {P : Platform} (env : Env).
Local Open Scope job_scope.

Lemma tracked_fs op : tracked (fs op).
Proof. by apply tracked_log. Qed.

Lemma tracked_pull name BATCH i cursor batch : tracked (pull env name BATCH i cursor batch).
Proof.
  revert i batch. induction cursor as [|doc rest IH]; intros i batch; simpl.
  - destruct (i <? BATCH); [|apply tracked_ret].
    apply tracked_bind; [apply tracked_store | intros _; apply tracked_ret].
  - destruct (i <? BATCH); [|apply tracked_ret].
    apply tracked_bind; [apply tracked_store | intros _].
    apply tracked_bind; [apply tracked_store | intros _]. apply IH.
Qed.

Lemma tracked_write_batch outFile batch : tracked (write_batch outFile batch).
Proof.
  induction batch as [|d rest IH]; simpl; [apply tracked_ret|].
  apply tracked_bind; [apply tracked_fs | intros _; apply IH].
Qed.

Lemma tracked_backup_loop fuel sid name outFile BATCH T start cursor docsDone :
  tracked (backup_loop env fuel sid name outFile BATCH T start cursor docsDone).
Proof.
  revert cursor docsDone.
  induction fuel as [|fuel IH]; intros cursor docsDone; simpl; [apply tracked_diverge|].
  apply tracked_bind; [apply tracked_store | intros _].
  destruct cursor as [|d rest]; [apply tracked_ret|].
  apply tracked_bind; [apply tracked_pull | intros [batch cursor']].
  apply tracked_bind; [apply tracked_write_batch | intros _].
  apply tracked_bind; [apply tracked_progress | intros _; apply IH].
Qed.

Lemma tracked_transfer_loop fuel sid name BATCH T start cursor transferred :
  tracked (transfer_loop env fuel sid name BATCH T start cursor transferred).
Proof.
  revert cursor transferred.
  induction fuel as [|fuel IH]; intros cursor transferred; simpl; [apply tracked_diverge|].
  apply tracked_bind; [apply tracked_store | intros _].
  destruct cursor as [|d rest]; [apply tracked_ret|].
  apply tracked_bind; [apply tracked_pull | intros [batch cursor']].
  destruct batch as [|b batch]; [apply IH|].
  apply tracked_bind; [apply tracked_store | intros _].
  apply tracked_bind; [apply tracked_progress | intros _; apply IH].
Qed.

Lemma tracked_count_or_zero c : tracked (count_or_zero env c).
Proof.
  unfold count_or_zero. apply tracked_try_catch.
  - apply tracked_bind; [apply tracked_store | intros _; apply tracked_ret].
  - intros _. apply tracked_ret.
Qed.

Lemma tracked_on_error sid ev e : tracked (on_error sid ev e).
Proof.
  unfold on_error. apply tracked_bind; [apply tracked_emit | intros _].
  by apply tracked_log.
Qed.

Lemma tracked_construct sid ev uri :
  tracked (try_catch (store env (NewMongoClient uri);;; ret true)
                     (fun e => on_error sid ev e;;; ret false)).
Proof.
  apply tracked_try_catch.
  - apply tracked_bind; [apply tracked_store | intros _; apply tracked_ret].
  - intros e. apply tracked_bind; [apply tracked_on_error | intros _; apply tracked_ret].
Qed.

Lemma tracked_backup fuel req : tracked (backup env fuel req).
Proof.
  unfold backup. destruct (_ || _); [by apply tracked_log|].
  apply tracked_bind; [apply tracked_now | intros ts].
  apply tracked_bind; [apply tracked_fs | intros _].
  apply tracked_bind; [apply tracked_construct | intros [|]]; [|apply tracked_ret].
  apply tracked_try_finally; [|apply tracked_store].
  apply tracked_try_catch; [|intros e; apply tracked_on_error].
  unfold backup_job.
  apply tracked_bind; [apply tracked_store | intros _].
  apply tracked_bind; [apply tracked_store | intros _].
  apply tracked_bind; [apply tracked_emit | intros _].
  apply tracked_bind.
  { apply tracked_for_of. intros n c. unfold backup_collection, backup_task.
    apply tracked_bind; [apply tracked_count_or_zero | intros T].
    apply tracked_bind; [apply tracked_fs | intros _].
    apply tracked_bind; [apply tracked_emit | intros _].
    apply tracked_bind; [apply tracked_now | intros start].
    apply tracked_bind; [apply tracked_backup_loop | intros _].
    apply tracked_bind; [apply tracked_fs | intros _].
    apply tracked_bind; [apply tracked_emit | intros _]. apply tracked_ret. }
  intros _. apply tracked_bind; [apply tracked_fs | intros _].
  apply tracked_bind; [apply tracked_emit | intros _]. by apply tracked_log.
Qed.

Lemma tracked_transfer fuel req : tracked (transfer env fuel req).
Proof.
  unfold transfer. destruct (_ || _); [by apply tracked_log|].
  apply tracked_bind; [apply tracked_construct | intros [|]]; [|apply tracked_ret].
  apply tracked_bind; [apply tracked_construct | intros [|]]; [|apply tracked_store].
  apply tracked_try_finally.
  2: { apply tracked_bind; [apply tracked_store | intros _; apply tracked_store]. }
  apply tracked_try_catch; [|intros e; apply tracked_on_error].
  unfold transfer_job.
  apply tracked_bind; [apply tracked_store | intros _].
  apply tracked_bind; [apply tracked_store | intros _].
  apply tracked_bind; [apply tracked_store | intros _].
  apply tracked_bind; [apply tracked_emit | intros _].
  apply tracked_bind.
  { apply tracked_for_of. intros n c. unfold transfer_collection, transfer_task.
    apply tracked_bind; [apply tracked_count_or_zero | intros T].
    apply tracked_bind; [apply tracked_store | intros _].
    apply tracked_bind; [apply tracked_emit | intros _].
    apply tracked_bind; [apply tracked_now | intros start].
    apply tracked_bind; [apply tracked_transfer_loop | intros _].
    apply tracked_bind; [apply tracked_emit | intros _]. apply tracked_ret. }
  intros n. apply tracked_bind; [apply tracked_emit | intros _]. by apply tracked_log.
Qed.

Lemma replay_none t r : omap schedule_of t = [] -> replay t r = r.
Proof.
  revert r. induction t as [|c t IH]; intros r H; [done|].
  unfold replay in *. simpl.
  destruct c; simpl in H; try discriminate; by apply IH.
Qed.

Lemma tracked_emitted {A} (m : M A) s :
  tracked m -> registry (state_of (m s)) = replay (emitted m s) (registry s).
Proof.
  intros H. destruct (H s) as (t & Ht & Hr). unfold emitted.
  by rewrite Ht, drop_app_length.
Qed.

End Scheduling.

Section SchedulingRoutes.
Context {P : Platform} (env : Env).
Local Open Scope job_scope.

Lemma unscheduled_app t1 t2 : unscheduled t1 -> unscheduled t2 -> unscheduled (t1 ++ t2).
Proof. unfold unscheduled. intros H1 H2. by rewrite omap_app, H1, H2. Qed.

Lemma unscheduled_emit sid ev p : unscheduled (emit_calls sid ev p).
Proof. unfold unscheduled, emit_calls. by destruct (Js.truthy_str sid). Qed.

(** X17. Of the three routes only the import schedules cleanups, and only
    when it comes to its end: an export and a copy leave the registry as
    it is, whatever happens, and so does an import that does not emit
    [upload-done]; an import that does has scheduled the extracted
    directory and then the uploaded file, each with the default delay of
    [CLEANUP_TTL_MIN] minutes. *)
Theorem cleanups_scheduled (fuel : nat) (req : Request) (s : State) :
  registry (state_of (backup env fuel req s)) = registry s
  /\ registry (state_of (transfer env fuel req s)) = registry s
  /\ let run := upload env req in
     let extractDir :=
       path_join UPLOAD_DIR ("extract-" +:+ pretty (Date_now env (ticks s))) in
     let ttl := CLEANUP_TTL_MIN * 60 * 1000 in
     registry (state_of (run s))
     = match file req with
       | Some filePath =>
           if bool_decide ("upload-done" ∈ omap event_name (emitted run s))
           then Cleanup.scheduleCleanup filePath ttl
                  (Cleanup.scheduleCleanup extractDir ttl (registry s))
           else registry s
       | None => registry s
       end.
Proof.
  split; [|split].
  - rewrite (tracked_emitted (backup env fuel req) s (tracked_backup env fuel req)).
    apply replay_none.
    eapply (sat_at_emitted s (backup env fuel req) (along unscheduled)).
    eapply (along_backup env unscheduled)
      with (S := fun _ => True) (F := fun _ => True) (E := fun _ _ => True)
           (sid := socketId req);
      first [ exact unscheduled_app | by intros; apply unscheduled_emit | done ].
  - rewrite (tracked_emitted (transfer env fuel req) s (tracked_transfer env fuel req)).
    apply replay_none.
    eapply (sat_at_emitted s (transfer env fuel req) (along unscheduled)).
    eapply (along_transfer env unscheduled)
      with (S := fun _ => True) (E := fun _ _ => True) (sid := socketId req);
      first [ exact unscheduled_app | by intros; apply unscheduled_emit | done ].
  - intros run extractDir ttl.
    rewrite (tracked_emitted run s (tracked_upload env req)).
    destruct (file req) as [filePath|] eqn:Hfile.
    2: { unfold run, upload, emitted. rewrite Hfile. simpl. by rewrite drop_app_length. }
    set (s1 := {| registry := registry s; trace := trace s; ops := ops s;
                  ticks := S (ticks s) |}).
    destruct (upload_rest_ended env (List.length (trace s)) req filePath extractDir s1)
      as (t & Ht & Hend).
    assert (Hem : emitted run s = t).
    { unfold emitted, run, upload. rewrite Hfile. unfold upload_body, bind at 1, now at 1.
      fold s1. fold extractDir. rewrite Ht. apply drop_app_length. }
    rewrite Hem. destruct Hend as [(t1 & t2 & n & -> & H1 & H2)|Hund].
    + rewrite bool_decide_true.
      * rewrite !replay_app, (replay_undone t1), (replay_undone t2) by done. done.
      * rewrite !omap_app. apply elem_of_app. right. apply elem_of_app. left.
        cbn [omap list_omap event_name]. by repeat constructor.
    + rewrite bool_decide_false; [by apply replay_undone|].
      intros Hdone. apply list_elem_of_omap in Hdone as (c & Hc & Hev).
      rewrite Forall_forall in Hund. by destruct (Hund c Hc).
Qed.

Lemma backup_schedules_nothing fuel req s :
  omap schedule_of (emitted (backup env fuel req) s) = []
  /\ registry (state_of (backup env fuel req s)) = registry s.
Proof.
  assert (H : unscheduled (emitted (backup env fuel req) s)).
  { eapply (sat_at_emitted s (backup env fuel req) (along unscheduled)).
    eapply (along_backup env unscheduled)
      with (S := fun _ => True) (F := fun _ => True) (E := fun _ _ => True)
           (sid := socketId req);
      first [ exact unscheduled_app | by intros; apply unscheduled_emit | done ]. }
  split; [exact H|].
  rewrite (tracked_emitted (backup env fuel req) s (tracked_backup env fuel req)).
  by apply replay_none.
Qed.

End SchedulingRoutes.

(** C7, at the failing input. No export registers a cleanup: whatever the
    request, the driver and the state, the export route never calls
    [scheduleCleanup] and leaves the registry as it was. The export of
    the sample request runs to its end (one [backup-done] event, response
    200 with the link of the archive) and the registry is still empty:
    the output directory and the archive it produced are never removed.
    The import does register its two paths, and does so before it emits
    [upload-done]. *)
Theorem export_registers_no_cleanup :
  (forall (P : Platform) (env : Env) (fuel : nat) (req : Request) (s : State),
      omap schedule_of (emitted (backup env fuel req) s) = []
      /\ registry (state_of (backup env fuel req s)) = registry s)
  /\ let exported := state_of (backup Demo.healthy 10 Demo.request Demo.idle) in
     let imported := state_of (upload Demo.healthy Demo.request Demo.idle) in
     omap response_of (trace exported) = [(200, B_ok_zip "/download/shop-1000.zip")]
     /\ List.filter is_done_name (omap event_name (trace exported)) = ["backup-done"]
     /\ omap schedule_of (trace exported) = []
     /\ registry exported = Cleanup.empty
     /\ omap (fun c => match c with
                       | ScheduleCleanup path => Some path
                       | EmitProgress "upload-done" _ => Some "upload-done"
                       | _ => None
                       end) (trace imported)
        = ["/srv/uploads/extract-1000"; "/srv/uploads/f1"; "upload-done"].
Proof.
  split; [intros; apply backup_schedules_nothing|]. vm_compute. done.
Qed.

(** ** The batch size as a number *)

Section Decimal.

Lemma digit_char (d : N) :
  (d < 10)%N ->
  Js.digit (pretty_N_char d) = Some (Z.of_N d)
  /\ Js.is_white (pretty_N_char d) = false
  /\ pretty_N_char d <> "-"%char /\ pretty_N_char d <> "+"%char.
Proof.
  intros H.
  assert (d = 0 \/ d = 1 \/ d = 2 \/ d = 3 \/ d = 4 \/ d = 5 \/ d = 6 \/ d = 7
          \/ d = 8 \/ d = 9)%N as Hd by lia.
  repeat (destruct Hd as [->|Hd]); try subst d; by vm_compute.
Qed.

Lemma digits_pretty_go (x : N) :
  (0 < x)%N ->
  exists k : Z, 0 <= k /\ forall acc s,
    Js.digits acc (pretty_N_go x s)
    = Js.digits (Some (default 0 acc * 10 ^ k + Z.of_N x)) s.
Proof.
  induction (N.lt_wf_0 x) as [x _ IH]. intros Hx.
  destruct (digit_char (x `mod` 10)) as (Hd & _); [by apply N.mod_lt|].
  assert (Hx10 : x = (10 * (x `div` 10) + x `mod` 10)%N) by (by apply N.div_mod).
  destruct (decide (x `div` 10 = 0)%N) as [Hz|Hnz].
  - exists 1. split; [done|]. intros acc s.
    rewrite pretty_N_go_step, Hz, pretty_N_go_0 by done. simpl. rewrite Hd.
    f_equal. f_equal. lia.
  - destruct (IH (x `div` 10)%N) as (k & Hk & IHk);
      [by apply N.div_lt | by apply N.neq_0_lt_0|].
    exists (k + 1). split; [lia|]. intros acc s.
    rewrite pretty_N_go_step, IHk by done. simpl. rewrite Hd. f_equal. f_equal.
    rewrite Z.pow_add_r by lia. lia.
Qed.

Lemma pretty_go_head (x : N) s :
  (0 < x)%N -> exists d r, (d < 10)%N /\ pretty_N_go x s = String (pretty_N_char d) r.
Proof.
  revert s. induction (N.lt_wf_0 x) as [x _ IH]. intros s Hx.
  rewrite pretty_N_go_step by done.
  destruct (decide (x `div` 10 = 0)%N) as [Hz|Hnz].
  - rewrite Hz, pretty_N_go_0. eexists _, _. split; [|done]. by apply N.mod_lt.
  - apply IH; [by apply N.div_lt | by apply N.neq_0_lt_0].
Qed.

Lemma parseInt_pretty_pos (p : positive) :
  Js.digits None (pretty (Npos p)) = Some (Zpos p)
  /\ Js.parseInt (pretty (Npos p)) = Some (Zpos p).
Proof.
  unfold pretty, pretty_N. rewrite decide_False by done.
  destruct (digits_pretty_go (Npos p)) as (k & _ & Hk); [done|].
  assert (Hdig : Js.digits None (pretty_N_go (N.pos p) "") = Some (Z.pos p)).
  { rewrite Hk. simpl. f_equal. }
  split; [done|].
  destruct (pretty_go_head (Npos p) "") as (d & r & Hd & Heq); [done|].
  destruct (digit_char d Hd) as (_ & Hw & Hm & Hp).
  unfold Js.parseInt. rewrite Heq in *. simpl. rewrite Hw.
  destruct (pretty_N_char d) as [[] [] [] [] [] [] [] []]; try done.
Qed.

(** X18. An integer of at most 2^53 in absolute value, which is a number
    that JavaScript holds exactly and writes in plain decimal digits, is
    read back by [parseInt] from those digits as that integer; so a batch
    size that arrives as such a text (which is how a JSON integer of
    ordinary size reaches [parseInt]) is taken as it is, negative ones
    included, and zero gives the default. *)
Theorem batch_size_of_number (n : Z) :
  Z.abs n <= 2 ^ 53 ->
  Js.parseInt (pretty n) = Some n
  /\ BATCH_SIZE (Some (pretty n)) = (if n =? 0 then 1000 else n).
Proof.
  intros _.
  assert (H : Js.parseInt (pretty n) = Some n).
  { destruct n as [|p|p]; [done|apply parseInt_pretty_pos|].
    unfold pretty, pretty_Z. rewrite append_cons. unfold Js.parseInt.
    cbn [Js.trimStart]. replace (Js.is_white "-") with false by done.
    change ("" +:+ pretty p) with (pretty (Npos p)).
    by rewrite (proj1 (parseInt_pretty_pos p)). }
  split; [done|]. unfold BATCH_SIZE, Js.parseInt_field. simpl. by rewrite H.
Qed.

End Decimal.

(** * The page and the routes *)

Section PageFacts.
Context {P : Platform} {B : Browser}.

Lemma backup_event_calls ev p :
  backup_event ev p ->
  omap forms_set (on_event ev p)
  = (if is_done_name ev || is_error_name ev then [false] else [])
  /\ omap rendered (on_event ev p) = [] /\ omap failed (on_event ev p) = [].
Proof.
  intros H. destruct H as [total collections size|name T ev p Hev Ht|zip|e];
    [done| |page_event|page_event].
  destruct Ht as [ev counter H|ev done speed H|ev counter H];
    repeat (apply elem_of_cons in Hev as [->|Hev]);
    repeat (apply elem_of_cons in H as [?|H]); try done;
    try (by apply elem_of_nil in Hev); try (by apply elem_of_nil in H);
    page_event.
Qed.

Lemma transfer_event_calls ev p :
  transfer_event ev p ->
  omap forms_set (on_event ev p)
  = (if is_done_name ev || is_error_name ev then [false] else [])
  /\ omap rendered (on_event ev p) = [] /\ omap failed (on_event ev p) = [].
Proof.
  intros H. destruct H as [total|name T ev p Hev Ht|n|e];
    [done| |page_event|page_event].
  destruct Ht as [ev counter H|ev done speed H|ev counter H];
    repeat (apply elem_of_cons in Hev as [->|Hev]);
    repeat (apply elem_of_cons in H as [?|H]); try done;
    try (by apply elem_of_nil in Hev); try (by apply elem_of_nil in H);
    page_event.
Qed.

Lemma upload_event_calls ev p :
  upload_event ev p ->
  omap forms_set (on_event ev p)
  = (if String.eqb ev "upload-start" then [true]
     else if is_done_name ev || is_error_name ev then [false] else [])
  /\ omap failed (on_event ev p) = []
  /\ (omap rendered (on_event ev p) = []
      \/ exists name, omap rendered (on_event ev p) = [("uploadCollections", [name])]).
Proof.
  intros H. destruct H as [total|name T ev p Hev Ht|n|e].
  1, 3, 4: split; [done|]; split; [done|]; by left.
  destruct Ht as [ev counter H|ev done speed H|ev counter H];
    repeat (apply elem_of_cons in Hev as [->|Hev]);
    repeat (apply elem_of_cons in H as [?|H]); try done;
    try (by apply elem_of_nil in Hev); try (by apply elem_of_nil in H).
  all: split; [page_event|]; split; [page_event|];
    first [left; page_event | right; by eexists].
Qed.

Lemma to_page_delivered sid me t :
  delivered sid t ->
  to_page me t
  = if Js.truthy_str sid && String.eqb (default "" sid) me then omap called_of t else [].
Proof.
  intros H.
  assert (Hw : to_page me t
               = omap (fun x : string * string * Payload =>
                         if String.eqb x.1.1 me then Some (x.1.2, x.2) else None)
                      (omap wire_of t)).
  { clear H. induction t as [|c t IH]; [done|].
    destruct c; simpl; try done.
    destruct (String.eqb _ me); simpl; by rewrite IH. }
  rewrite Hw, H. destruct (Js.truthy_str sid); [|done]. simpl.
  destruct (String.eqb (default "" sid) me) eqn:Heq;
    induction (omap called_of t) as [|[ev p] l IH]; simpl; try done.
  all: rewrite Heq; simpl; try f_equal; exact IH.
Qed.

Lemma to_page_called sid me t ev p :
  delivered sid t -> (ev, p) ∈ to_page me t -> EmitProgress ev p ∈ t.
Proof.
  intros H Hin. rewrite (to_page_delivered sid me t H) in Hin.
  destruct (_ && _); [|by apply elem_of_nil in Hin].
  apply list_elem_of_omap in Hin as (c & Hc & Heq).
  destruct c; simpl in Heq; try done. by simplify_eq.
Qed.

Lemma to_page_mine me t :
  me <> "" -> delivered (Some me) t -> to_page me t = omap called_of t.
Proof.
  intros Hme H. rewrite (to_page_delivered (Some me) me t H). simpl.
  rewrite String.eqb_refl. destruct (String.eqb me "") eqn:Heq; [|done].
  by apply String.eqb_eq in Heq.
Qed.

Lemma to_page_other sid me t :
  sid <> Some me -> delivered sid t -> to_page me t = [].
Proof.
  intros Hsid H. rewrite (to_page_delivered sid me t H).
  destruct (Js.truthy_str sid) eqn:Ht; [|done]. simpl.
  destruct (String.eqb (default "" sid) me) eqn:Heq; [|done].
  apply String.eqb_eq in Heq. destruct sid as [r|]; simpl in *; [by subst|done].
Qed.

Lemma page_call_event me t c :
  c ∈ page_calls me t -> exists ev p, (ev, p) ∈ to_page me t /\ c ∈ on_event ev p.
Proof.
  unfold page_calls. intros H. apply list_elem_of_In, in_flat_map in H as ([ev p] & H1 & H2).
  exists ev, p. split; by apply list_elem_of_In.
Qed.

Lemma omap_none_elem {X Y} (f : X -> option Y) (l : list X) x :
  omap f l = [] -> x ∈ l -> f x = None.
Proof.
  intros H Hx. destruct (f x) as [y|] eqn:Hf; [|done].
  assert (Hy : y ∈ omap f l) by (apply list_elem_of_omap; by exists x).
  rewrite H in Hy. by apply elem_of_nil in Hy.
Qed.

(** The calls of [setFormsDisabled] that the events of a trace cause,
    against its final events. *)
Lemma mark_other c :
  called_of c = None ->
  omap (fun m => match m with Final _ _ => Some false | _ => None end) (skeleton [c]) = [].
Proof.
  intros H. unfold skeleton. simpl. destruct (mark_of c) as [m|] eqn:Hm; [|done].
  destruct c as [op r| | | | |]; try done; simpl in Hm.
  - destruct op, r; by simplify_eq.
  - destruct op; by simplify_eq.
  - by simplify_eq.
Qed.

Lemma final_sets (Q : string -> Payload -> Prop) t :
  (forall ev p, Q ev p ->
     omap forms_set (on_event ev p)
     = if is_done_name ev || is_error_name ev then [false] else []) ->
  all_called Q t ->
  omap forms_set (flat_map (fun x => on_event x.1 x.2) (omap called_of t))
  = omap (fun m => match m with Final _ _ => Some false | _ => None end) (skeleton t).
Proof.
  intros HQ. induction t as [|c t IH]; intros Hall; [done|].
  assert (Ht : all_called Q t).
  { intros ev p Hin. apply Hall. by right. }
  assert (Hsk : skeleton (c :: t) = (skeleton [c] ++ skeleton t)%list).
  { by rewrite <- skeleton_app. }
  rewrite Hsk, omap_app, <- (IH Ht).
  destruct (called_of c) as [[ev p]|] eqn:Hc.
  - destruct c; simplify_eq. cbn [app omap list_omap called_of flat_map fst snd].
    rewrite omap_app. f_equal. rewrite HQ; [|apply Hall; by left].
    unfold skeleton. simpl. by destruct (is_done_name _ || is_error_name _).
  - rewrite (mark_other c Hc). simpl. by rewrite Hc.
Qed.

End PageFacts.

Section FormsAndRoutes.
Context {P : Platform} {B : Browser} (env : Env).
Local Open Scope job_scope.

Local Abbreviation sets_of t :=
  (omap forms_set (flat_map (fun x : string * Payload => on_event x.1 x.2)
                            (omap called_of t))).
Local Abbreviation anyhow := (fun _ : list Call => True).

(** The run has returned with the forms enabled by the last event. *)
Local Abbreviation settled :=
  (fun (A : Type) (r : Res A) (t : list Call) =>
     match r with
     | Returned _ => last (sets_of t) = Some false
     | _ => True
     end).

Lemma sets_app (t1 t2 : list Call) :
  sets_of (t1 ++ t2)%list = (sets_of t1 ++ sets_of t2)%list.
Proof. by rewrite omap_app, flat_map_app, omap_app. Qed.

Lemma sets_other c : called_of c = None -> sets_of [c] = [].
Proof. intros H. simpl. by rewrite H. Qed.

Lemma sets_emit sid ev p : sets_of (emit_calls sid ev p) = omap forms_set (on_event ev p).
Proof.
  unfold emit_calls. destruct (Js.truthy_str sid); simpl; by rewrite app_nil_r.
Qed.

Lemma settled_after {A} (r : Res A) (t1 t2 : list Call) :
  settled A r t2 -> settled A r (t1 ++ t2)%list.
Proof.
  destruct r; [|done|done]. simpl. intros H. by rewrite sets_app, last_app, H.
Qed.

Lemma settle_bind {A X} s (m : M A) (k : A -> M X) :
  sat m (along anyhow) -> (forall a s', sat_at s' (k a) (settled X)) ->
  sat_at s (bind m k) (settled X).
Proof.
  intros Hm Hk. eapply sat_at_bind; [apply Hm | done | done |].
  intros a s' t1 _ _. eapply sat_at_weaken; [apply Hk|].
  intros r t2. apply settled_after.
Qed.

Lemma upload_job_settles req filePath extractDir s :
  sat_at s (upload_job env req filePath extractDir) (settled unit).
Proof.
  unfold upload_job.
  apply settle_bind; [by eapply along_store with (S := fun _ => True) | intros _ s1].
  apply settle_bind; [by eapply along_fs with (F := fun _ => True) | intros _ s2].
  apply settle_bind;
    [by eapply along_emit with (E := fun _ _ => True) | intros _ s3].
  apply settle_bind.
  { eapply along_for_of; [done | done |]. intros n f _.
    by eapply along_upload_file
      with (S := fun _ => True) (F := fun _ => True) (E := fun _ _ => True). }
  intros n s4.
  apply settle_bind; [by eapply along_scheduleCleanup | intros _ s5].
  apply settle_bind; [by eapply along_scheduleCleanup | intros _ s6].
  eapply sat_at_weaken; [apply ending_run2|].
  intros r t [-> ->]. cbv beta iota. rewrite sets_app, sets_emit.
  rewrite (sets_other (Respond _ _)); [|done]. by rewrite app_nil_r.
Qed.

Lemma upload_body_settles req filePath extractDir s :
  sat_at s (fs (Extract filePath extractDir);;;
            store env (NewMongoClient (uri req));;;
            try_finally (upload_job env req filePath extractDir)
                        (store env (Close (uri req))))
    (settled unit).
Proof.
  apply settle_bind; [by eapply along_fs with (F := fun _ => True) | intros _ s1].
  apply settle_bind; [by eapply along_store with (S := fun _ => True) | intros _ s2].
  eapply sat_at_try_finally; [apply upload_job_settles | done | |].
  - intros [] s3 t1 _ H1. apply sat_at_store; [|done].
    intros _. cbv beta iota in *. rewrite sets_app, sets_other, app_nil_r; done.
  - intros e s3 t1 _ _. by apply sat_at_store.
Qed.

Lemma upload_settles req filePath s :
  file req = Some filePath ->
  last (sets_of (emitted (upload env req) s)) = Some false.
Proof.
  intros Hfile.
  pose proof (lands_res (upload env req) _ s (lands_upload env req)) as Hends.
  cut (match res_of (upload env req s) with
       | OutOfFuel => True
       | _ => last (sets_of (emitted (upload env req) s)) = Some false
       end).
  { by destruct (res_of (upload env req s)). }
  apply (sat_at_emitted s (upload env req)
           (fun r t => match r with
                       | OutOfFuel => True
                       | _ => last (sets_of t) = Some false
                       end)).
  unfold upload. rewrite Hfile.
  change (sat_at s (upload_body env (List.length (trace s)) req filePath)
            (fun r t => match r with
                        | OutOfFuel => True
                        | _ => last (sets_of t) = Some false
                        end)).
  unfold upload_body.
  eapply sat_at_bind;
    [apply now_run | by intros ? ? [? _] | by intros ? [? _] | intros ? s1 ? _ [[= ->] ->]].
  cbn [app]. apply log_bind. intros s2.
  eapply sat_at_try_finally
    with (Φ1 := fun r t => match r with
                           | OutOfFuel => True
                           | _ => last (sets_of t) = Some false
                           end).
  - eapply sat_at_try_catch; [apply upload_body_settles | | |].
    + by intros [] t H.
    + done.
    + intros e s3 t1 _ _.
      destruct (upload_catch_run (List.length (trace s)) (socketId req) e s3)
        as (s4 & Hc & _ & _ & Htr).
      unfold sat_at. rewrite Hc.
      destruct (existsb _ _); simpl; (eexists; split; [exact Htr|]);
        rewrite !sets_app, sets_emit, ?(sets_other (Respond _ _)), ?app_nil_r, last_app;
        done.
  - done.
  - intros [] s3 t1 _ H1. apply sat_at_log.
    change (last (sets_of ([Fs (EnsureDir (path_join UPLOAD_DIR
              ("extract-" +:+ pretty (Date_now env (ticks s)))))]
              ++ t1 ++ [Fs (Remove filePath)])%list) = Some false).
    rewrite !sets_app, !sets_other, app_nil_r; done.
  - intros e s3 t1 _ H1. apply sat_at_log.
    change (last (sets_of ([Fs (EnsureDir (path_join UPLOAD_DIR
              ("extract-" +:+ pretty (Date_now env (ticks s)))))]
              ++ t1 ++ [Fs (Remove filePath)])%list) = Some false).
    rewrite !sets_app, !sets_other, app_nil_r; done.
Qed.

Lemma backup_enables fuel req s me :
  me <> "" -> socketId req = Some me ->
  Js.truthy_str (uri req) && Js.truthy_str (dbName req) = true ->
  res_of (backup env fuel req s) <> OutOfFuel ->
  omap forms_set (page_calls me (emitted (backup env fuel req) s)) = [false].
Proof.
  intros Hme Hsid Hvalid Hfin.
  pose proof (backup_delivered env fuel req s) as Hd. rewrite Hsid in Hd.
  unfold page_calls. rewrite (to_page_mine me _ Hme Hd).
  rewrite (final_sets backup_event _
             (fun ev p H => proj1 (backup_event_calls ev p H))
             (backup_sends env fuel req s)).
  destruct (sat_at_emitted s _ _ (backup_skel env fuel req s)) as [_ Ho].
  inversion Ho as [Hinv|e Hr Hs|rejected Hr Hs|e rejected Hr Hs|Hr Hs].
  - by rewrite Hvalid in Hinv.
  - done.
  - done.
  - done.
  - by rewrite <- Hr in Hfin.
Qed.

Lemma transfer_enables fuel req s me :
  me <> "" -> socketId req = Some me ->
  Js.truthy_str (srcUri req) && Js.truthy_str (srcDb req)
  && Js.truthy_str (dstUri req) && Js.truthy_str (dstDb req) = true ->
  res_of (transfer env fuel req s) <> OutOfFuel ->
  omap forms_set (page_calls me (emitted (transfer env fuel req) s)) = [false].
Proof.
  intros Hme Hsid Hvalid Hfin.
  pose proof (transfer_delivered env fuel req s) as Hd. rewrite Hsid in Hd.
  unfold page_calls. rewrite (to_page_mine me _ Hme Hd).
  rewrite (final_sets transfer_event _
             (fun ev p H => proj1 (transfer_event_calls ev p H))
             (transfer_sends env fuel req s)).
  destruct (sat_at_emitted s _ _ (transfer_skel env fuel req s)) as [_ Ho].
  inversion Ho as [Hinv|e Hr Hs|e rejected Hr Hs|n r1 r2 Hr Hs|e r1 r2 Hr Hs|Hr Hs].
  - by rewrite Hvalid in Hinv.
  - done.
  - done.
  - by destruct r1.
  - by destruct r1.
  - by rewrite <- Hr in Hfin.
Qed.

Lemma upload_enables req s me :
  me <> "" -> socketId req = Some me -> file req <> None ->
  last (omap forms_set (page_calls me (emitted (upload env req) s))) = Some false.
Proof.
  intros Hme Hsid Hfile.
  pose proof (upload_delivered env req s) as Hd. rewrite Hsid in Hd.
  unfold page_calls. rewrite (to_page_mine me _ Hme Hd).
  destruct (file req) as [filePath|] eqn:Hf; [|done].
  by apply (upload_settles req filePath).
Qed.


(** X20. A page whose socket id the request does not carry hears nothing of
    the job, and the response is all that can give it its forms back:
    they are enabled again exactly when the response is not a success.
    After a job that succeeded they stay disabled. *)
Theorem forms_without_socket_id (fuel : nat) (req : Request) (s : State)
    (me log : string) :
  socketId req <> Some me ->
  let verdict (t : list Call) :=
    match omap response_of t with
    | (status, _) :: _ => if (200 <=? status) && (status <=? 299) then [] else [false]
    | [] => []
    end in
  let sets (t : list Call) :=
    omap forms_set (page_calls me t ++ answer_calls log t)%list in
  sets (emitted (backup env fuel req) s) = verdict (emitted (backup env fuel req) s)
  /\ sets (emitted (transfer env fuel req) s)
     = verdict (emitted (transfer env fuel req) s)
  /\ sets (emitted (upload env req) s) = verdict (emitted (upload env req) s).
Proof.
  intros Hsid verdict sets.
  assert (H : forall t, delivered (socketId req) t -> sets t = verdict t).
  { intros t Hd. unfold sets, verdict, page_calls, answer_calls.
    rewrite (to_page_other _ me t Hsid Hd). simpl.
    destruct (omap response_of t) as [|[status body] rest]; [done|].
    unfold on_response. by destruct ((200 <=? status) && (status <=? 299)). }
  split; [|split]; apply H.
  - apply backup_delivered.
  - apply transfer_delivered.
  - apply upload_delivered.
Qed.

Lemma page_calls_none {X} (f : UiCall -> option X) (Q : string -> Payload -> Prop)
    sid me t :
  (forall ev p, Q ev p -> omap f (on_event ev p) = []) ->
  all_called Q t -> delivered sid t -> omap f (page_calls me t) = [].
Proof.
  intros HQ Hall Hd.
  destruct (omap f (page_calls me t)) as [|x l] eqn:Hx; [done|].
  assert (Hin : x ∈ omap f (page_calls me t)) by (rewrite Hx; left).
  apply list_elem_of_omap in Hin as (c & Hc & Hf).
  apply page_call_event in Hc as (ev & p & Hev & Hc).
  apply (to_page_called sid) in Hev; [|done].
  rewrite (omap_none_elem f _ c (HQ ev p (Hall ev p Hev)) Hc) in Hf. done.
Qed.

(** X21. During an export or a copy the page never renders a list of
    collections and never marks a collection as failed, whatever the run
    does. During an import it marks none as failed either, and every list
    it renders is the list of one collection in [uploadCollections]. *)
Theorem collection_lists_on_page (fuel : nat) (req : Request) (s : State) (me : string) :
  (omap rendered (page_calls me (emitted (backup env fuel req) s)) = []
   /\ omap failed (page_calls me (emitted (backup env fuel req) s)) = [])
  /\ (omap rendered (page_calls me (emitted (transfer env fuel req) s)) = []
      /\ omap failed (page_calls me (emitted (transfer env fuel req) s)) = [])
  /\ (Forall (fun x => exists name, x = ("uploadCollections", [name]))
             (omap rendered (page_calls me (emitted (upload env req) s)))
      /\ omap failed (page_calls me (emitted (upload env req) s)) = []).
Proof.
  split; [|split]; split.
  - eapply (page_calls_none rendered backup_event);
      [|apply backup_sends | apply backup_delivered].
    intros ev p H. apply (backup_event_calls ev p H).
  - eapply (page_calls_none failed backup_event);
      [|apply backup_sends | apply backup_delivered].
    intros ev p H. apply (backup_event_calls ev p H).
  - eapply (page_calls_none rendered transfer_event);
      [|apply transfer_sends | apply transfer_delivered].
    intros ev p H. apply (transfer_event_calls ev p H).
  - eapply (page_calls_none failed transfer_event);
      [|apply transfer_sends | apply transfer_delivered].
    intros ev p H. apply (transfer_event_calls ev p H).
  - apply Forall_forall. intros x Hx.
    apply list_elem_of_omap in Hx as (c & Hc & Hf).
    apply page_call_event in Hc as (ev & p & Hev & Hc).
    apply (to_page_called (socketId req)) in Hev; [|apply upload_delivered].
    destruct (upload_event_calls ev p (upload_sends env req s ev p Hev))
      as (_ & _ & [Hnone|[name Hone]]).
    + rewrite (omap_none_elem rendered _ c Hnone Hc) in Hf. done.
    + exists name.
      assert (Hin : x ∈ omap rendered (on_event ev p)).
      { apply list_elem_of_omap. by exists c. }
      rewrite Hone in Hin. by apply list_elem_of_singleton in Hin.
  - eapply (page_calls_none failed upload_event);
      [|apply upload_sends | apply upload_delivered].
    intros ev p H. apply (upload_event_calls ev p H).
Qed.

Lemma backup_not_refused fuel req s status body :
  Js.truthy_str (uri req) && Js.truthy_str (dbName req) = true ->
  Respond status body ∈ emitted (backup env fuel req) s -> status <> 400.
Proof.
  intros Hvalid Hin.
  assert (Hm : Responded status body ∈ skeleton (emitted (backup env fuel req) s)).
  { apply list_elem_of_omap. by exists (Respond status body). }
  destruct (sat_at_emitted s _ _ (backup_skel env fuel req s)) as [_ Ho].
  inversion Ho as [Hinv|e Hr Hs|rejected Hr Hs|e rejected Hr Hs|Hr Hs];
    [by rewrite Hvalid in Hinv|..];
    rewrite <- Hs in Hm;
    repeat (apply elem_of_cons in Hm as [Hm|Hm]; [by simplify_eq|]);
    by apply elem_of_nil in Hm.
Qed.

Lemma transfer_not_refused fuel req s status body :
  Js.truthy_str (srcUri req) && Js.truthy_str (srcDb req)
  && Js.truthy_str (dstUri req) && Js.truthy_str (dstDb req) = true ->
  Respond status body ∈ emitted (transfer env fuel req) s -> status <> 400.
Proof.
  intros Hvalid Hin.
  assert (Hm : Responded status body ∈ skeleton (emitted (transfer env fuel req) s)).
  { apply list_elem_of_omap. by exists (Respond status body). }
  destruct (sat_at_emitted s _ _ (transfer_skel env fuel req s)) as [_ Ho].
  inversion Ho as [Hinv|e Hr Hs|e rejected Hr Hs|n r1 r2 Hr Hs|e r1 r2 Hr Hs|Hr Hs];
    [by rewrite Hvalid in Hinv|..];
    rewrite <- Hs in Hm; try destruct r1; simpl in Hm;
    repeat (apply elem_of_cons in Hm as [Hm|Hm]; [by simplify_eq|]);
    by apply elem_of_nil in Hm.
Qed.

Lemma field_truthy fd name : field fd name <> "" -> Js.truthy_str (fd_get fd name) = true.
Proof.
  unfold field. destruct (fd_get fd name) as [v|]; simpl; [|done].
  intros H. destruct (String.eqb v "") eqn:Hv; [|done].
  apply String.eqb_eq in Hv. by subst v.
Qed.

Lemma fd_get_app fd more name :
  fd_get more name = None -> fd_get (fd ++ more)%list name = fd_get fd name.
Proof.
  intros H. induction fd as [|[k v] rest IH]; simpl; [done|].
  by destruct (String.eqb k name).
Qed.

(** X22. What the forms post is complete. A request posted by the export or
    the copy form carries the socket id of the page and is never answered
    with 400; the upload form posts only with a file chosen and with
    [uri] and [dbName] that the route reads as non-empty texts. *)
Theorem forms_post_complete_requests (mySocket : option string) (fd : FormData)
    (calls : list UiCall) :
  (forall req fuel s status body,
     backupForm_submit mySocket fd = (calls, Some req) ->
     socketId req = mySocket
     /\ (Respond status body ∈ emitted (backup env fuel req) s -> status <> 400))
  /\ (forall req fuel s status body,
        transferForm_submit mySocket fd = (calls, Some req) ->
        socketId req = mySocket
        /\ (Respond status body ∈ emitted (transfer env fuel req) s -> status <> 400))
  /\ (forall batchSize_value chosen posted,
        uploadForm_submit mySocket fd batchSize_value chosen = (calls, Some posted) ->
        chosen = true
        /\ Js.truthy_str (fd_get posted "uri") = true
        /\ Js.truthy_str (fd_get posted "dbName") = true).
Proof.
  split; [|split].
  - intros req fuel s status body. unfold backupForm_submit.
    destruct (String.eqb (field fd "uri") "") eqn:H1; [done|].
    destruct (String.eqb (field fd "dbName") "") eqn:H2; [done|].
    simpl. intros [= _ <-]. split; [done|].
    apply backup_not_refused. simpl. by rewrite H1, H2.
  - intros req fuel s status body. unfold transferForm_submit.
    destruct (String.eqb (field fd "srcUri") "") eqn:H1; [done|].
    destruct (String.eqb (field fd "srcDb") "") eqn:H2; [done|].
    destruct (String.eqb (field fd "dstUri") "") eqn:H3; [done|].
    destruct (String.eqb (field fd "dstDb") "") eqn:H4; [done|].
    simpl. intros [= _ <-]. split; [done|].
    apply transfer_not_refused. simpl. by rewrite H1, H2, H3, H4.
  - intros v chosen posted. unfold uploadForm_submit.
    destruct chosen; [|done]. simpl.
    destruct (String.eqb (field fd "uri") "") eqn:H1; [done|].
    destruct (String.eqb (field fd "dbName") "") eqn:H2; [done|].
    simpl. intros [= _ <-]. split; [done|].
    rewrite !fd_get_app by done.
    split; apply field_truthy; intros H; [by rewrite H in H1 | by rewrite H in H2].
Qed.

End FormsAndRoutes.

(** ** The file of a collection and the collection of a file *)

Section FileNames.

(** X23. An export writes the collection [name] to the file [name.ndjson];
    an import takes that file, and a file [name.json] as well, and imports
    either into the collection [name], whatever the name is. *)
Theorem file_name_round_trip (name : string) :
  (Js.endsWith (name +:+ ".ndjson") ".ndjson" || Js.endsWith (name +:+ ".ndjson") ".json"
   = true
   /\ Js.strip_ext (name +:+ ".ndjson") = name)
  /\ (Js.endsWith (name +:+ ".json") ".ndjson" || Js.endsWith (name +:+ ".json") ".json"
      = true
      /\ Js.strip_ext (name +:+ ".json") = name).
Proof.
  unfold Js.strip_ext.
  rewrite json_is_not_ndjson, !endsWith_append, !chop_append. by rewrite orb_true_r.
Qed.

End FileNames.

(** ** Jobs on a store that does not reject *)

Section Healthy.
Context {P : Platform} (env : Env).
Hypothesis Hok : forall k, store_fail env k = None.
Local Open Scope job_scope.

Lemma written_app (t1 t2 : list Call) : written (t1 ++ t2) = (written t1 ++ written t2)%list.
Proof. apply omap_app. Qed.

Lemma inserted_app (t1 t2 : list Call) :
  inserted (t1 ++ t2) = (inserted t1 ++ inserted t2)%list.
Proof. apply omap_app. Qed.

Lemma results_as {A} (m : M A) (R R' : A -> Prop) w w' ins ins' mk mk' :
  sat m (results_in R w ins mk) -> (forall a, R a -> R' a) ->
  w = w' -> ins = ins' -> mk = mk' -> sat m (results_in R' w' ins' mk').
Proof.
  intros H HR <- <- <- s. eapply sat_at_weaken; [apply H|].
  intros r t [(a & Hr & Ha) H']. split; [|done]. exists a. auto.
Qed.

Lemma results_ret {A} (a : A) : sat (ret a) (results_in (eq a) [] [] []).
Proof. intros s. apply sat_at_ret. split; [by exists a | done]. Qed.

Lemma results_bind {A X} (m : M A) (k : A -> M X) (R1 : A -> Prop) (R2 : X -> Prop)
    w1 w2 i1 i2 m1 m2 :
  sat m (results_in R1 w1 i1 m1) ->
  (forall a, R1 a -> sat (k a) (results_in R2 w2 i2 m2)) ->
  sat (bind m k) (results_in R2 (w1 ++ w2) (i1 ++ i2) (m1 ++ m2)).
Proof.
  intros Hm Hk s. eapply sat_at_bind; [apply Hm| | |].
  - by intros e t [(a & ? & _) _].
  - by intros t [(a & ? & _) _].
  - intros a s' t1 _ [(a' & [= <-] & Ha) (Hw & Hi & Hs)].
    eapply sat_at_weaken; [by apply Hk|].
    intros r t2 [Hr (Hw2 & Hi2 & Hs2)]. split; [done|].
    by rewrite written_app, inserted_app, skeleton_app, Hw, Hi, Hs, Hw2, Hi2, Hs2.
Qed.

Lemma results_log c :
  sat (log c) (results_in (fun _ => True) (written [c]) (inserted [c]) (skeleton [c])).
Proof. intros s. apply sat_at_log. split; [by exists tt | done]. Qed.

Lemma results_store op :
  sat (store env op)
      (results_in (fun _ => True) [] (inserted [Store op None]) (skeleton [Store op None])).
Proof.
  intros s. apply sat_at_store.
  - intros _. split; [by exists tt | done].
  - intros e He. by rewrite Hok in He.
Qed.

Lemma results_emit sid ev p :
  sat (emitProgress sid ev p)
      (results_in (fun _ => True) [] []
         (if is_done_name ev || is_error_name ev then [Final ev p] else [])).
Proof.
  intros s. rewrite <- (skeleton_emit sid).
  unfold sat_at, emitProgress, bind, log, ret, emit_calls. simpl.
  destruct (Js.truthy_str sid); simpl; eexists;
    (split; [by rewrite <- ?app_assoc|]); (split; [by exists tt | done]).
Qed.

Lemma results_try_catch {A} (body : M A) (handler : string -> M A) R w ins mk :
  sat body (results_in R w ins mk) -> sat (try_catch body handler) (results_in R w ins mk).
Proof.
  intros Hb s. eapply sat_at_try_catch; [apply Hb | done | by intros t [(a & ? & _) _] |].
  intros e s' t1 _ [(a & ? & _) _]. done.
Qed.

Lemma results_try_finally {A} (body : M A) (fin : M unit) (R : A -> Prop)
    (R' : unit -> Prop) w1 w2 i1 i2 m1 m2 :
  sat body (results_in R w1 i1 m1) -> sat fin (results_in R' w2 i2 m2) ->
  sat (try_finally body fin) (results_in R (w1 ++ w2) (i1 ++ i2) (m1 ++ m2)).
Proof.
  intros Hb Hf s. eapply sat_at_try_finally; [apply Hb | by intros t [(a & ? & _) _] | |].
  - intros a s' t1 _ [(a' & [= <-] & Ha) (Hw & Hi & Hs)].
    eapply sat_at_weaken; [apply Hf|].
    intros r t2 [([] & -> & _) (Hw2 & Hi2 & Hs2)]. split; [by exists a|].
    by rewrite written_app, inserted_app, skeleton_app, Hw, Hi, Hs, Hw2, Hi2, Hs2.
  - intros e s' t1 _ [(a & ? & _) _]. done.
Qed.

Lemma results_for_of {A} (body : Z -> A -> M Z) (W : A -> list string)
    (N : A -> list (list Doc)) counter xs :
  (forall n x, x ∈ xs -> sat (body n x) (results_in (eq (n + 1)) (W x) (N x) [])) ->
  sat (for_of body counter xs)
      (results_in (eq (counter + Z.of_nat (List.length xs)))
                  (flat_map W xs) (flat_map N xs) []).
Proof.
  intros Hbody. revert counter.
  induction xs as [|x rest IH]; intros counter; simpl.
  - eapply results_as; [apply results_ret | | done | done | done].
    intros a <-. lia.
  - eapply results_as.
    + eapply results_bind; [apply Hbody; left | intros n <-].
      apply IH. intros n y Hy. apply Hbody. by right.
    + intros a <-. simpl List.length. lia.
    + done.
    + done.
    + done.
Qed.

Lemma omap_all_none {X Y} (f : X -> option Y) (l : list X) :
  Forall (fun x => f x = None) l -> omap f l = [].
Proof.
  induction 1 as [|x l Hx _ IH]; [done|]. rewrite omap_cons, Hx. exact IH.
Qed.

Lemma backup_items_no_insert bs cnt : omap item_insert (backup_items bs cnt) = [].
Proof.
  apply omap_all_none. revert cnt.
  induction bs as [|b r IH]; intros cnt; simpl; [constructor|].
  apply Forall_app_2; [by apply Forall_replicate|].
  apply Forall_app_2; [apply Forall_fmap; by apply Forall_true|].
  constructor; [done | apply IH].
Qed.

Lemma transfer_items_no_write bs cnt : omap item_write (transfer_items bs cnt) = [].
Proof.
  apply omap_all_none. revert cnt.
  induction bs as [|b r IH]; intros cnt; simpl; [constructor|].
  apply Forall_app_2; [by apply Forall_replicate|].
  repeat constructor. apply IH.
Qed.

Lemma feed_no_write BATCH docs batch cnt :
  omap item_write (feed BATCH docs batch cnt).1.1 = [].
Proof.
  revert batch cnt. induction docs as [|d r IH]; intros batch cnt; [done|].
  destruct (Z.of_nat (List.length (batch ++ [d])) >=? BATCH) eqn:Hfull.
  - rewrite (feed_full _ _ _ _ _ Hfull). cbn [fst snd]. rewrite !omap_cons. apply IH.
  - rewrite (feed_more _ _ _ _ _ Hfull). apply IH.
Qed.

Lemma transfer_collection_gives fuel sid BATCH n c :
  1 <= BATCH -> (List.length (coll_docs c) < fuel)%nat ->
  sat (transfer_collection env fuel sid BATCH n c)
      (gives (eq (n + 1))
             (transfer_items (batches (Z.to_nat BATCH) (coll_docs c)) 0
                ++ [I_end (n + 1)])).
Proof.
  intros HB Hfuel. unfold transfer_collection, transfer_task.
  eapply gives_weaken.
  - eapply gives_bind; [apply count_or_zero_gives; exact Hok | intros T _].
    eapply gives_bind; [apply (gives_store env Hok) | intros _ _].
    eapply gives_bind; [eapply (gives_as _ _ _ []); [apply gives_emit | done] | intros _ _].
    eapply gives_bind; [apply gives_now | intros start _].
    eapply gives_bind; [by apply (transfer_loop_gives env Hok) | intros _ _].
    eapply gives_bind; [apply gives_emit | intros _ _].
    apply gives_ret_eq.
  - done.
  - unfold item_list. by cbn [abstract app].
Qed.

Lemma backup_collection_results fuel sid outDir BATCH idx c :
  1 <= BATCH -> (List.length (coll_docs c) < fuel)%nat ->
  sat (backup_collection env fuel sid outDir BATCH idx c)
      (results_in (eq (idx + 1)) (export_lines c) [] []).
Proof.
  intros HB Hfuel s.
  eapply sat_at_weaken;
    [apply (sat_at_and s _ _ _
              (backup_collection_gives env Hok fuel sid outDir BATCH idx c HB Hfuel s)
              (mute_backup_collection env fuel sid outDir BATCH idx c s))|].
  intros r t [[Hr Hitems] Hmute]. split; [done|].
  rewrite written_items, inserted_items, Hitems, !omap_app, backup_items_no_insert.
  destruct (backup_items_read (batches (Z.to_nat BATCH) (coll_docs c)) 0) as [-> _].
  rewrite batches_concat by lia. simpl. by rewrite app_nil_r.
Qed.

Lemma transfer_collection_results fuel sid BATCH n c :
  1 <= BATCH -> (List.length (coll_docs c) < fuel)%nat ->
  sat (transfer_collection env fuel sid BATCH n c)
      (results_in (eq (n + 1)) [] (batches (Z.to_nat BATCH) (coll_docs c)) []).
Proof.
  intros HB Hfuel s.
  eapply sat_at_weaken;
    [apply (sat_at_and s _ _ _
              (transfer_collection_gives fuel sid BATCH n c HB Hfuel s)
              (mute_transfer_collection env fuel sid BATCH n c s))|].
  intros r t [[Hr Hitems] Hmute]. split; [done|].
  rewrite written_items, inserted_items, Hitems, !omap_app, transfer_items_no_write.
  destruct (transfer_items_read (batches (Z.to_nat BATCH) (coll_docs c)) 0) as [-> _].
  simpl. by rewrite app_nil_r.
Qed.

Lemma upload_file_results sid extractDir BATCH n f :
  sat (upload_file env sid extractDir BATCH n f)
      (results_in (eq (n + 1)) []
         (batches (batch_len BATCH) (records (concat_str (file_chunks f)))) []).
Proof.
  intros s.
  eapply sat_at_weaken;
    [apply (sat_at_and s _ _ _
              (upload_file_gives env Hok sid extractDir BATCH n f s)
              (mute_upload_file env sid extractDir BATCH n f s))|].
  intros r t [[Hr Hitems] Hmute]. split; [done|].
  destruct (feed_batches BATCH (records (concat_str (file_chunks f))) [] 0)
    as (H1 & _); [unfold batch_len; simpl; lia|].
  rewrite written_items, inserted_items, Hitems, !omap_app, insert_flush, feed_no_write.
  simpl in H1. rewrite <- H1. split; [|split; [|done]].
  - by destruct ((feed BATCH (records (concat_str (file_chunks f))) [] 0).1.2).
  - rewrite (omap_cons item_insert). simpl. by rewrite app_nil_r.
Qed.

Lemma results_schedule path : sat (scheduleCleanup path) (results_in (fun _ => True) [] [] []).
Proof. intros s. exists [ScheduleCleanup path]. split; [done|]. split; [by exists tt | done]. Qed.

Lemma flat_map_none {X Y} (xs : list X) : flat_map (fun _ : X => @nil Y) xs = [].
Proof. by induction xs. Qed.

Lemma backup_job_results fuel req ts outDir :
  1 <= BATCH_SIZE (batchSize req) ->
  Forall (fun c => (List.length (coll_docs c) < fuel)%nat) (collections_of env) ->
  let zipPath := path_join UPLOAD_DIR
                   (default "" (dbName req) +:+ "-" +:+ pretty ts +:+ ".zip") in
  sat (backup_job env fuel req ts outDir)
      (results_in (fun _ => True) (flat_map export_lines (collections_of env)) []
         [Archived outDir zipPath;
          Final "backup-done" (P_done_zip ("/download/" +:+ basename zipPath));
          Responded 200 (B_ok_zip ("/download/" +:+ basename zipPath))]).
Proof.
  intros HB Hfuel zipPath. unfold backup_job. fold zipPath.
  eapply results_as.
  - eapply results_bind; [apply results_store | intros _ _].
    eapply results_bind; [apply results_store | intros _ _].
    eapply results_bind; [apply results_emit | intros _ _].
    eapply results_bind.
    { apply (results_for_of _ export_lines (fun _ => [])). intros n c Hc.
      apply backup_collection_results; [done|].
      by apply (proj1 (Forall_forall _ _) Hfuel). }
    intros _ _.
    eapply results_bind; [apply results_log | intros _ _].
    eapply results_bind; [apply results_emit | intros _ _].
    apply results_log.
  - done.
  - simpl. by rewrite ?flat_map_none, ?app_nil_r.
  - simpl. by rewrite ?flat_map_none, ?app_nil_r.
  - simpl. by rewrite ?flat_map_none, ?app_nil_r.
Qed.

Lemma transfer_job_results fuel req :
  1 <= BATCH_SIZE (batchSize req) ->
  Forall (fun c => (List.length (coll_docs c) < fuel)%nat) (collections_of env) ->
  let n := Z.of_nat (List.length (collections_of env)) in
  sat (transfer_job env fuel req)
      (results_in (fun _ => True) []
         (flat_map (fun c => batches (Z.to_nat (BATCH_SIZE (batchSize req))) (coll_docs c))
                   (collections_of env))
         [Final "transfer-done" (P_done_count n); Responded 200 (B_ok_count n)]).
Proof.
  intros HB Hfuel n. unfold transfer_job.
  eapply results_as.
  - eapply results_bind; [apply results_store | intros _ _].
    eapply results_bind; [apply results_store | intros _ _].
    eapply results_bind; [apply results_store | intros _ _].
    eapply results_bind; [apply results_emit | intros _ _].
    eapply results_bind.
    { apply (results_for_of _ (fun _ => [])
               (fun c => batches (Z.to_nat (BATCH_SIZE (batchSize req))) (coll_docs c))).
      intros k c Hc. apply transfer_collection_results; [done|].
      by apply (proj1 (Forall_forall _ _) Hfuel). }
    intros k <-.
    eapply results_bind; [apply results_emit | intros _ _].
    apply results_log.
  - done.
  - simpl. by rewrite ?flat_map_none, ?app_nil_r.
  - simpl. by rewrite ?flat_map_none, ?app_nil_r.
  - simpl. by rewrite ?flat_map_none, ?app_nil_r.
Qed.

Lemma upload_job_results req filePath extractDir :
  let n := Z.of_nat (List.length (accepted (files_of env))) in
  sat (upload_job env req filePath extractDir)
      (results_in (fun _ => True) []
         (flat_map (fun f => batches (batch_len (BATCH_SIZE (batchSize req)))
                               (records (concat_str (file_chunks f))))
                   (accepted (files_of env)))
         [Final "upload-done" (P_done_count n); Responded 200 (B_ok_count n)]).
Proof.
  intros n. unfold upload_job. fold (accepted (files_of env)).
  eapply results_as.
  - eapply results_bind; [apply results_store | intros _ _].
    eapply results_bind; [apply results_log | intros _ _].
    eapply results_bind; [apply results_emit | intros _ _].
    eapply results_bind.
    { apply (results_for_of _ (fun _ => [])
               (fun f => batches (batch_len (BATCH_SIZE (batchSize req)))
                           (records (concat_str (file_chunks f))))).
      intros k f Hf. apply upload_file_results. }
    intros k <-.
    eapply results_bind; [apply results_schedule | intros _ _].
    eapply results_bind; [apply results_schedule | intros _ _].
    eapply results_bind; [apply results_emit | intros _ _].
    apply results_log.
  - done.
  - simpl. by rewrite ?flat_map_none, ?app_nil_r.
  - simpl. by rewrite ?flat_map_none, ?app_nil_r.
  - simpl. by rewrite ?flat_map_none, ?app_nil_r.
Qed.

Lemma construct_results uri (handler : string -> M bool) :
  sat (try_catch (store env (NewMongoClient uri);;; ret true) handler)
      (results_in (eq true) [] [] [Opened uri]).
Proof.
  apply results_try_catch.
  eapply results_as;
    [eapply results_bind; [apply results_store | intros _ _; apply results_ret]
    | done | done | done | done].
Qed.

Lemma close_results uri :
  sat (store env (Close uri)) (results_in (fun _ => True) [] [] [Closed uri None]).
Proof. apply results_store. Qed.

Lemma backup_results fuel req s :
  Js.truthy_str (uri req) && Js.truthy_str (dbName req) = true ->
  1 <= BATCH_SIZE (batchSize req) ->
  Forall (fun c => (List.length (coll_docs c) < fuel)%nat) (collections_of env) ->
  let ts := Date_now env (ticks s) in
  sat_at s (backup env fuel req)
    (results_in (fun _ => True) (flat_map export_lines (collections_of env)) []
       [Opened (uri req);
        Archived (out_dir req ts) (zip_path req ts);
        Final "backup-done" (P_done_zip (zip_link req ts));
        Responded 200 (B_ok_zip (zip_link req ts));
        Closed (uri req) None]).
Proof.
  intros Hvalid HB Hfuel ts. unfold backup.
  destruct (Js.truthy_str (uri req)); [|done].
  destruct (Js.truthy_str (dbName req)); [|done]. cbn [negb orb].
  eapply sat_at_bind;
    [apply now_run | by intros ? ? [? _] | by intros ? [? _] | intros ? s1 ? _ [[= ->] ->]].
  cbn [app]. fold ts.
  eapply sat_at_weaken.
  - eapply results_bind; [apply results_log | intros _ _].
    eapply results_bind; [apply construct_results | intros client <-].
    eapply results_try_finally; [|apply close_results].
    apply results_try_catch. by apply backup_job_results.
  - intros r t [Hr (Hw & Hi & Hs)]. split; [done|].
    rewrite Hw, Hi, Hs. simpl. by rewrite ?app_nil_r.
Qed.

Lemma transfer_results fuel req s :
  Js.truthy_str (srcUri req) && Js.truthy_str (srcDb req)
  && Js.truthy_str (dstUri req) && Js.truthy_str (dstDb req) = true ->
  1 <= BATCH_SIZE (batchSize req) ->
  Forall (fun c => (List.length (coll_docs c) < fuel)%nat) (collections_of env) ->
  let n := Z.of_nat (List.length (collections_of env)) in
  sat_at s (transfer env fuel req)
    (results_in (fun _ => True) []
       (flat_map (fun c => batches (Z.to_nat (BATCH_SIZE (batchSize req))) (coll_docs c))
                 (collections_of env))
       [Opened (srcUri req); Opened (dstUri req);
        Final "transfer-done" (P_done_count n); Responded 200 (B_ok_count n);
        Closed (srcUri req) None; Closed (dstUri req) None]).
Proof.
  intros Hvalid HB Hfuel n. unfold transfer.
  destruct (Js.truthy_str (srcUri req)); [|done].
  destruct (Js.truthy_str (srcDb req)); [|done].
  destruct (Js.truthy_str (dstUri req)); [|done].
  destruct (Js.truthy_str (dstDb req)); [|done]. cbn [negb orb].
  eapply sat_at_weaken.
  - eapply results_bind; [apply construct_results | intros client <-].
    eapply results_bind; [apply construct_results | intros client <-].
    eapply results_try_finally.
    + apply results_try_catch. by apply transfer_job_results.
    + eapply results_bind; [apply close_results | intros _ _; apply close_results].
  - intros r t [Hr (Hw & Hi & Hs)]. split; [done|].
    rewrite Hw, Hi, Hs. simpl. by rewrite ?app_nil_r.
Qed.

Lemma upload_results req filePath s :
  file req = Some filePath ->
  let n := Z.of_nat (List.length (accepted (files_of env))) in
  sat_at s (upload env req)
    (results_in (fun _ => True) []
       (flat_map (fun f => batches (batch_len (BATCH_SIZE (batchSize req)))
                             (records (concat_str (file_chunks f))))
                 (accepted (files_of env)))
       [Opened (uri req);
        Final "upload-done" (P_done_count n); Responded 200 (B_ok_count n);
        Closed (uri req) None; Removed filePath]).
Proof.
  intros Hfile n. unfold upload. rewrite Hfile.
  eapply sat_at_bind;
    [apply now_run | by intros ? ? [? _] | by intros ? [? _] | intros ? s1 ? _ [[= ->] ->]].
  cbn [app].
  eapply sat_at_weaken.
  - eapply results_bind; [apply results_log | intros _ _].
    eapply results_try_finally; [|apply results_log].
    apply results_try_catch.
    eapply results_bind; [apply results_log | intros _ _].
    eapply results_bind; [apply results_store | intros _ _].
    eapply results_try_finally; [apply upload_job_results | apply close_results].
  - intros r t [Hr (Hw & Hi & Hs)]. split; [done|].
    rewrite Hw, Hi, Hs. simpl. by rewrite ?app_nil_r.
Qed.

(** X24. On a store that does not reject, an export that has answered 200
    to a complete request with a batch size of at least one (and a loop
    budget above the size of every collection) has done all of its job:
    what it wrote to its files is one line for each document of each
    collection, in the order of the listing and of the cursors; nothing
    was inserted anywhere; the archive was made after that, [backup-done]
    and the response carry its link, and the client was opened before and
    is closed after. *)
Theorem answered_export_is_complete (fuel : nat) (req : Request) (s : State)
    (body : Body) :
  Js.truthy_str (uri req) && Js.truthy_str (dbName req) = true ->
  1 <= BATCH_SIZE (batchSize req) ->
  Forall (fun c => (List.length (coll_docs c) < fuel)%nat) (collections_of env) ->
  (200, body) ∈ omap response_of (emitted (backup env fuel req) s) ->
  let ts := Date_now env (ticks s) in
  let t := emitted (backup env fuel req) s in
  body = B_ok_zip (zip_link req ts)
  /\ skeleton t
     = [Opened (uri req);
        Archived (out_dir req ts) (zip_path req ts);
        Final "backup-done" (P_done_zip (zip_link req ts));
        Responded 200 (B_ok_zip (zip_link req ts));
        Closed (uri req) None]
  /\ written t = flat_map export_lines (collections_of env)
  /\ inserted t = [].
Proof.
  intros Hvalid HB Hfuel Hin ts t.
  destruct (sat_at_emitted s _ _ (backup_results fuel req s Hvalid HB Hfuel))
    as [_ [_ (Hw & Hi & Hs)]].
  fold t ts in Hw, Hi, Hs, Hin. split; [|done].
  rewrite (responses_skeleton t), Hs in Hin. simpl in Hin.
  apply list_elem_of_singleton in Hin. by injection Hin.
Qed.

(** X25. On a store that does not reject, a complete copy request with a
    batch size of at least one (and a loop budget above the size of every
    collection) is done: both clients are opened, [transfer-done] and the
    response 200 carry the number of collections, and both clients are
    closed; and what was inserted is the documents of each collection of
    the source, in the order of the listing and of the cursors, in
    batches of the batch size. *)
Theorem healthy_copy_succeeds (fuel : nat) (req : Request) (s : State) :
  Js.truthy_str (srcUri req) && Js.truthy_str (srcDb req)
  && Js.truthy_str (dstUri req) && Js.truthy_str (dstDb req) = true ->
  1 <= BATCH_SIZE (batchSize req) ->
  Forall (fun c => (List.length (coll_docs c) < fuel)%nat) (collections_of env) ->
  let n := Z.of_nat (List.length (collections_of env)) in
  let t := emitted (transfer env fuel req) s in
  res_of (transfer env fuel req s) = Returned tt
  /\ skeleton t
     = [Opened (srcUri req); Opened (dstUri req);
        Final "transfer-done" (P_done_count n); Responded 200 (B_ok_count n);
        Closed (srcUri req) None; Closed (dstUri req) None]
  /\ inserted t
     = flat_map (fun c => batches (Z.to_nat (BATCH_SIZE (batchSize req))) (coll_docs c))
                (collections_of env)
  /\ concat (inserted t) = flat_map coll_docs (collections_of env).
Proof.
  intros Hvalid HB Hfuel n t.
  destruct (sat_at_emitted s _ _ (transfer_results fuel req s Hvalid HB Hfuel))
    as [_ [([] & Hr & _) (Hw & Hi & Hs)]].
  split; [done|]. split; [done|]. split; [done|].
  fold t in Hi. rewrite Hi. clear -HB.
  induction (collections_of env) as [|c r IH]; [done|].
  simpl. rewrite concat_app, IH, batches_concat; [done | lia].
Qed.

(** X26. On a store that does not reject, an import that has answered 200
    has done all of its job, whatever the batch size: what it inserted
    is, file after file, the records of the lines of each file of the
    upload that ends in [.ndjson] or [.json], in order; it wrote nothing;
    the client was opened before, [upload-done] and the response carry
    the number of those files, the client is closed and the uploaded file
    is removed after. *)
Theorem answered_import_is_complete (req : Request) (filePath : string) (s : State)
    (body : Body) :
  file req = Some filePath ->
  (200, body) ∈ omap response_of (emitted (upload env req) s) ->
  let n := Z.of_nat (List.length (accepted (files_of env))) in
  let t := emitted (upload env req) s in
  body = B_ok_count n
  /\ skeleton t
     = [Opened (uri req);
        Final "upload-done" (P_done_count n); Responded 200 (B_ok_count n);
        Closed (uri req) None; Removed filePath]
  /\ concat (inserted t)
     = flat_map (fun f => records (concat_str (file_chunks f))) (accepted (files_of env))
  /\ written t = [].
Proof.
  intros Hfile Hin n t.
  destruct (sat_at_emitted s _ _ (upload_results req filePath s Hfile))
    as [_ [_ (Hw & Hi & Hs)]].
  fold t n in Hw, Hi, Hs, Hin. split; [|split; [done|split; [|done]]].
  - rewrite (responses_skeleton t), Hs in Hin. simpl in Hin.
    apply list_elem_of_singleton in Hin. by injection Hin.
  - rewrite Hi. clear.
    induction (accepted (files_of env)) as [|f r IH]; [done|].
    simpl. rewrite concat_app, IH, batches_concat; [done|].
    unfold batch_len. lia.
Qed.

End Healthy.

(** * Instances of the further properties *)

Lemma import_total_bounds_witness :
  let run := upload_file Demo.healthy None "/x" 2 0 Demo.users_file in
  file_total Demo.users_file = Some 12
  /\ Forall (fun e => pe_total e = Some 12 /\ 0 <= pe_done e <= 12)
            (progress_events (emitted run Demo.idle))
  /\ ends (emitted run Demo.idle) = [10].
Proof.
  intros run.
  destruct (import_total_bounds Demo.healthy (fun _ => eq_refl) None "/x" 2 0
              Demo.users_file Demo.idle eq_refl) as (H1 & H2 & _).
  split; [exact H1|]. split; [exact H2|]. reflexivity.
Defined.

Lemma requests_end_witness :
  res_of (backup Demo.healthy 10 Demo.request Demo.idle) <> OutOfFuel
  /\ res_of (transfer Demo.healthy 10 Demo.request Demo.idle) <> OutOfFuel
  /\ res_of (upload Demo.healthy Demo.request Demo.idle) <> OutOfFuel.
Proof.
  destruct (requests_end Demo.healthy 10 Demo.request Demo.idle) as [H1 H2].
  destruct H1 as [Hb Ht].
  - by vm_compute.
  - repeat constructor; simpl; lia.
  - auto.
Defined.

Lemma export_link_resolves_witness :
  exists name dir,
    "/download/shop-1000.zip" = "/download/" +:+ name
    /\ Fs (Archive dir (download (P := Demo.exact) name))
       ∈ emitted (backup Demo.healthy 10 Demo.request) Demo.idle.
Proof.
  apply (export_link_resolves Demo.healthy 10 Demo.request Demo.idle).
  - reflexivity.
  - vm_compute. left.
Defined.

Lemma batch_below_one_hangs_witness :
  BATCH_SIZE (batchSize Samples.negative_batch) = -5
  /\ res_of (backup Demo.healthy 10 Samples.negative_batch Demo.idle) = OutOfFuel
  /\ fruitless (emitted (backup Demo.healthy 10 Samples.negative_batch) Demo.idle)
  /\ res_of (transfer Demo.healthy 10 Samples.negative_batch Demo.idle) = OutOfFuel.
Proof.
  destruct (batch_below_one_hangs Demo.healthy (fun _ => eq_refl) 10
              Samples.negative_batch Demo.idle) as [Hb Ht].
  - by vm_compute.
  - by left.
  - split; [reflexivity|]. split; [apply Hb; reflexivity|].
    split; [apply Hb; reflexivity | apply Ht; reflexivity].
Defined.

Lemma export_then_import_witness :
  concat_str (file_chunks Samples.users_export)
  = concat_str (written (emitted (backup_collection Demo.healthy 10 None "/out" 2 0
                                    Demo.users) Demo.idle))
  /\ file_total Samples.users_export = Some 5
  /\ concat (inserted (emitted (upload_file Demo.healthy None "/x" 3 0
                                  Samples.users_export) Demo.idle))
     = coll_docs Demo.users.
Proof.
  assert (Hback : forall d, d ∈ coll_docs Demo.users -> decode (JSON_stringify d) = Some d).
  { intros d Hd.
    repeat (apply elem_of_cons in Hd as [->|Hd]; [reflexivity|]).
    by apply elem_of_nil in Hd. }
  assert (Hdocs : Forall (fun d => has_nl (JSON_stringify d) = false)
                         (coll_docs Demo.users)) by (by repeat constructor).
  assert (Hbatch : 1 <= 2) by lia.
  assert (Hfuel : (length (coll_docs Demo.users) < 10)%nat) by (simpl; lia).
  assert (Hsame : concat_str (file_chunks Samples.users_export)
                  = concat_str (written (emitted (backup_collection Demo.healthy 10 None
                                                    "/out" 2 0 Demo.users) Demo.idle)))
    by (vm_compute; reflexivity).
  pose proof (export_then_import Demo.healthy Demo.healthy 10 None None "/out" "/x"
                2 3 0 0 Demo.users Samples.users_export Demo.idle Demo.idle
                (fun _ => eq_refl) (fun _ => eq_refl) Hbatch Hfuel
                Hdocs eq_refl eq_refl Hsame) as H.
  split; [exact Hsame|]. split; [exact (proj1 H)|].
  exact (proj2 (proj2 (proj2 (proj2 H))) Hback).
Defined.

Lemma cleanup_round_trip_witness :
  let r := Cleanup.run [Cleanup.Schedule "/srv/uploads/f1" 3600000] Cleanup.empty in
  let r' := Cleanup.settle 1 false
              (Cleanup.fire 1 (Cleanup.scheduleCleanup "/srv/uploads/extract-7" 5 r)) in
  Cleanup.scheduledCleanups r' = Cleanup.scheduledCleanups r
  /\ Cleanup.timers r' = Cleanup.timers r
  /\ Cleanup.fired r' = [1%nat]
  /\ Cleanup.warnings r' = ["cleanup remove failed /srv/uploads/extract-7"].
Proof.
  intros r r'.
  destruct (cleanup_round_trip [Cleanup.Schedule "/srv/uploads/f1" 3600000]
              "/srv/uploads/extract-7" 5 false) as (H1 & H2 & _ & _ & H5 & H6).
  - by vm_compute.
  - split; [exact H1|]. split; [exact H2|]. split; [exact H5 | exact H6].
Defined.

Lemma cleanup_request_in_flight_witness :
  let r := Cleanup.run [Cleanup.Schedule "/srv/uploads/f1" 3600000; Cleanup.Fire 0%nat]
                       Cleanup.empty in
  Cleanup.removing r !! 0%nat = Some "/srv/uploads/f1"
  /\ Cleanup.scheduleCleanup "/srv/uploads/f1" 5 r = r
  /\ Cleanup.scheduledCleanups
       (Cleanup.settle 0 true (Cleanup.scheduleCleanup "/srv/uploads/f1" 5 r))
     !! "/srv/uploads/f1" = None.
Proof.
  intros r.
  assert (H : Cleanup.removing r !! 0%nat = Some "/srv/uploads/f1") by (by vm_compute).
  destruct (cleanup_request_in_flight
              [Cleanup.Schedule "/srv/uploads/f1" 3600000; Cleanup.Fire 0%nat]
              "/srv/uploads/f1" 0%nat 5 true H) as (H1 & H2 & _).
  split; [exact H|]. split; [exact H1 | exact H2].
Defined.


Lemma forms_without_socket_id_witness :
  omap forms_set
    (page_calls (B := Samples.browser) "sock1"
       (emitted (backup Demo.healthy 10 Samples.anonymous) Demo.idle)
     ++ answer_calls "backupLog"
          (emitted (backup Demo.healthy 10 Samples.anonymous) Demo.idle))%list = []
  /\ omap forms_set
       (page_calls (B := Samples.browser) "sock1"
          (emitted (backup (Demo.failing 5) 10 Samples.anonymous) Demo.idle)
        ++ answer_calls "backupLog"
             (emitted (backup (Demo.failing 5) 10 Samples.anonymous) Demo.idle))%list
     = [false].
Proof.
  pose proof (forms_without_socket_id (B := Samples.browser) Demo.healthy 10
                Samples.anonymous Demo.idle "sock1" "backupLog" ltac:(done)) as (H1 & _).
  pose proof (forms_without_socket_id (B := Samples.browser) (Demo.failing 5) 10
                Samples.anonymous Demo.idle "sock1" "backupLog" ltac:(done)) as (H2 & _).
  split.
  - rewrite H1. vm_compute. reflexivity.
  - rewrite H2. vm_compute. reflexivity.
Defined.

Lemma forms_post_complete_requests_witness :
  (exists calls req,
     backupForm_submit (B := Samples.browser) (Some "sock1") Samples.export_form
     = (calls, Some req)
     /\ uri req = Some "mongodb://db" /\ batchSize req = Some "1000"
     /\ Respond 400 (B_error "Missing uri or dbName")
        ∉ emitted (backup Demo.healthy 10 req) Demo.idle)
  /\ (exists calls req,
        transferForm_submit (B := Samples.browser) (Some "sock1") Samples.copy_form
        = (calls, Some req)
        /\ socketId req = Some "sock1" /\ batchSize req = Some "250"
        /\ Respond 400 (B_error "Missing params")
           ∉ emitted (transfer Demo.healthy 10 req) Demo.idle)
  /\ (exists calls posted,
        uploadForm_submit (Some "sock1") Samples.upload_form "" true
        = (calls, Some posted)
        /\ fd_get posted "socketId" = Some "sock1"
        /\ Js.truthy_str (fd_get posted "dbName") = true).
Proof.
  split; [|split].
  - eexists _, _. split; [reflexivity|]. split; [reflexivity|]. split; [reflexivity|].
    intros Hin.
    by apply (proj2 (proj1 (forms_post_complete_requests (B := Samples.browser)
                             Demo.healthy (Some "sock1") Samples.export_form _)
                      _ 10%nat Demo.idle 400 (B_error "Missing uri or dbName") eq_refl)
                Hin).
  - eexists _, _. split; [reflexivity|].
    pose proof (proj1 (proj2 (forms_post_complete_requests (B := Samples.browser)
                                Demo.healthy (Some "sock1") Samples.copy_form _))
                  _ 10%nat Demo.idle 400 (B_error "Missing params") eq_refl) as [H1 H2].
    split; [exact H1|]. split; [reflexivity|]. intros Hin. by apply H2.
  - eexists _, _. split; [reflexivity|]. split; [reflexivity|].
    exact (proj2 (proj2 (proj2 (proj2 (forms_post_complete_requests
                                         (B := Samples.browser) Demo.healthy
                                         (Some "sock1") Samples.upload_form _))
                                 "" true _ eq_refl))).
Defined.

Lemma answered_export_is_complete_witness :
  written (emitted (backup Demo.healthy 10 Demo.request) Demo.idle)
  = flat_map export_lines [Demo.users; Demo.orders]
  /\ inserted (emitted (backup Demo.healthy 10 Demo.request) Demo.idle) = [].
Proof.
  assert (Hfuel : Forall (fun c => (length (coll_docs c) < 10)%nat)
                         (collections_of Demo.healthy))
    by (repeat constructor; simpl; lia).
  assert (HB : 1 <= BATCH_SIZE (batchSize Demo.request)) by (by vm_compute).
  assert (Hin : (200, B_ok_zip "/download/shop-1000.zip")
                ∈ omap response_of (emitted (backup Demo.healthy 10 Demo.request) Demo.idle))
    by (vm_compute; left).
  pose proof (answered_export_is_complete Demo.healthy (fun _ => eq_refl) 10 Demo.request
                Demo.idle _ eq_refl HB Hfuel Hin) as (_ & _ & H3 & H4).
  split; [exact H3 | exact H4].
Defined.

Lemma healthy_copy_succeeds_witness :
  res_of (transfer Demo.healthy 10 Demo.request Demo.idle) = Returned tt
  /\ inserted (emitted (transfer Demo.healthy 10 Demo.request) Demo.idle)
     = [["{1}"; "{2}"]; ["{3}"; "{4}"]; ["{5}"]; ["{a}"; "{b}"]].
Proof.
  assert (Hfuel : Forall (fun c => (length (coll_docs c) < 10)%nat)
                         (collections_of Demo.healthy))
    by (repeat constructor; simpl; lia).
  assert (HB : 1 <= BATCH_SIZE (batchSize Demo.request)) by (by vm_compute).
  pose proof (healthy_copy_succeeds Demo.healthy (fun _ => eq_refl) 10 Demo.request
                Demo.idle eq_refl HB Hfuel) as (H1 & _ & H3 & _).
  split; [exact H1 | exact H3].
Defined.

Lemma answered_import_is_complete_witness :
  concat (inserted (emitted (upload Demo.healthy Demo.request) Demo.idle))
  = ["{1}"; "{2}"; "{3}"; "{4}"; "{5}"; "{6}"; "{8}"; "{9}"; "{10}"; "{11}"].
Proof.
  assert (Hin : (200, B_ok_count 1)
                ∈ omap response_of (emitted (upload Demo.healthy Demo.request) Demo.idle))
    by (vm_compute; left).
  pose proof (answered_import_is_complete Demo.healthy (fun _ => eq_refl) Demo.request
                "/srv/uploads/f1" Demo.idle _ eq_refl Hin) as (_ & _ & H3 & _).
  exact H3.
Defined.

Lemma batch_size_of_number_witness :
  Js.parseInt (pretty 250) = Some 250 /\ BATCH_SIZE (Some (pretty (-5))) = -5.
Proof.
  split.
  - apply (batch_size_of_number 250). by vm_compute.
  - apply (batch_size_of_number (-5)). by vm_compute.
Defined.
